(** * Coroutine channel protocol of coroutine.c: a shallow embedding

    The development follows the platform-agnostic part of coroutine.c:
    [struct channel], [coroutine_switch], [springboard],
    [coroutine_create_given_memory], [coroutine_create], [yield_to], [from]
    and [close_and_join]; and the same functions of the implementation on
    pthreads with a condition variable.

    The C functions are written in a small monad [act] whose operations are
    the accesses to the fields of the channel record and the two assembly
    macros SWAP_CONTEXT and BOOTSTRAP_CONTEXT.  A saved machine context (pc,
    sp, fp) is modelled by the code that remains to be run on that stack.
    One channel and its two parties are modelled; the [struct channel *]
    argument of every function designates that channel.  What [free] does
    to the memory of a record is not modelled: the record stays readable
    after its release.

    For the implementation on pthreads the operations are the accesses to
    the record and the calls of the pthread library, and a state holds the
    two threads, each with the code it has left and what it is blocked on;
    a thread moves from where it is to where it next blocks, creates the
    child thread, calls through a function pointer or returns, and the
    scheduler picks any thread that can move. *)

From Stdlib Require Import ZArith List Lia Bool.

Import ListNotations.

Local Open Scope Z_scope.

Arguments Z.eqb : simpl never.

(** ** Data *)

(** [void *] and function pointers are addresses. *)
Definition ptr := Z.

Definition NULL : ptr := 0.

(** The two parties of a channel. *)
Inductive party := Parent | Child.

Definition peer (p : party) : party :=
  match p with Parent => Child | Child => Parent end.

(** The fields of [struct channel] other than [context_inactive]. *)
Inductive field := Func | Value | Free_after | Free_func.

(** What an execution leaves behind: the writes to the record, the context
    switches, the calls through function pointers, and what user code passes
    to [yield_to] and gets back from [from]. *)
Inductive event :=
| Initialised (channel func arg : ptr)
| Bootstrapped
| Wrote (who : party) (f : field) (v : ptr)
| Switched (who : party)
| Called (who : party) (func arg : ptr)
| Freed (who : party) (free_func free_after : ptr)
| Yielded (who : party) (v : ptr)
| Got (who : party) (v : ptr).

(** ** The monad of channel code *)

Inductive op : Type -> Type :=
| LoadField (f : field) : op ptr
| StoreField (f : field) (v : ptr) : op unit
| InitChannel (channel func arg : ptr) : op unit
| SWAP_CONTEXT : op unit
| BOOTSTRAP_CONTEXT : op unit
| Call (func arg : ptr) : op unit
| CallFree (free_func free_after : ptr) : op unit
| PosixMemalign (alignment size : Z) : op (option ptr)
| CallAbort : op Empty_set
| Unreachable : op Empty_set
| OutOfFuel : op Empty_set
| SayYielded (v : ptr) : op unit
| SayGot (v : ptr) : op unit.

Inductive act (A : Type) : Type :=
| Ret (a : A)
| Do {X : Type} (o : op X) (k : X -> act A).

Arguments Ret {A} a.

Arguments Do {A X} o k.

Fixpoint bind {A B : Type} (m : act A) (k : A -> act B) : act B :=
  match m with
  | Ret a => k a
  | Do o h => Do o (fun x => bind (h x) k)
  end.

Definition perform {X : Type} (o : op X) : act X := Do o Ret.

Definition never {A : Type} (o : op Empty_set) : act A :=
  Do o (fun x : Empty_set => match x with end).

Declare Scope act_scope.

Delimit Scope act_scope with act.

Notation "x <- m ;; k" := (bind m (fun x => k))
  (at level 61, m at next level, right associativity) : act_scope.

Notation "m ;; k" := (bind m (fun _ => k))
  (at level 61, right associativity) : act_scope.

Local Open Scope act_scope.

(** ** The channel record and the store *)

(** The saved context of the inactive party is the code it will run when
    control is switched back to it. *)
Definition context := act unit.

Record channel := mkChannel {
  context_inactive : context;
  func : ptr;
  value : ptr;
  free_after : ptr;
  free_func : ptr
}.

Record store := mkStore {
  chan : channel;          (* the channel record *)
  turn : party;            (* which of the two stacks is running *)
  trace : list event;      (* what has happened so far, oldest first *)
  heap : Z -> Z -> option ptr  (* answer of posix_memalign, None on failure *)
}.

Definition get (f : field) (c : channel) : ptr :=
  match f with
  | Func => func c
  | Value => value c
  | Free_after => free_after c
  | Free_func => free_func c
  end.

Definition set (f : field) (v : ptr) (c : channel) : channel :=
  match f with
  | Func => mkChannel (context_inactive c) v (value c) (free_after c) (free_func c)
  | Value => mkChannel (context_inactive c) (func c) v (free_after c) (free_func c)
  | Free_after => mkChannel (context_inactive c) (func c) (value c) v (free_func c)
  | Free_func => mkChannel (context_inactive c) (func c) (value c) (free_after c) v
  end.

Definition save_context (k : context) (c : channel) : channel :=
  mkChannel k (func c) (value c) (free_after c) (free_func c).

Definition with_chan (c : channel) (s : store) : store :=
  mkStore c (turn s) (trace s) (heap s).

Definition with_turn (p : party) (s : store) : store :=
  mkStore (chan s) p (trace s) (heap s).

Definition record (e : event) (s : store) : store :=
  mkStore (chan s) (turn s) (trace s ++ [e]) (heap s).

(** ** Running code up to its next context switch or call *)

Inductive reason := Undefined_behaviour | Aborted | Out_of_fuel.

Inductive reply (X : Type) : Type :=
| Next (x : X) (s : store)
| Swaps (x : X) (s : store)
| Boots (x : X) (s : store)
| Calls (func arg : ptr) (x : X) (s : store)
| Halts (r : reason) (s : store).

Arguments Next {X} x s.

Arguments Swaps {X} x s.

Arguments Boots {X} x s.

Arguments Calls {X} func arg x s.

Arguments Halts {X} r s.

Definition handle {X : Type} (o : op X) (s : store) : reply X :=
  match o in op X return reply X with
  | LoadField f => Next (get f (chan s)) s
  | StoreField f v => Next tt (record (Wrote (turn s) f v) (with_chan (set f v (chan s)) s))
  | InitChannel a f arg =>
      (* *channel = (struct channel) { .func = func, .value = arg };
         all other members are zeroed *)
      Next tt (record (Initialised a f arg)
                 (with_chan (mkChannel (never Unreachable) f arg NULL NULL) s))
  | SWAP_CONTEXT => Swaps tt (record (Switched (turn s)) s)
  | BOOTSTRAP_CONTEXT => Boots tt (record Bootstrapped s)
  | Call f arg => Calls f arg tt (record (Called (turn s) f arg) s)
  | CallFree f p => Next tt (record (Freed (turn s) f p) s)
  | PosixMemalign al sz => Next (heap s al sz) s
  | CallAbort => Halts Aborted s
  | Unreachable => Halts Undefined_behaviour s
  | OutOfFuel => Halts Out_of_fuel s
  | SayYielded v => Next tt (record (Yielded (turn s) v) s)
  | SayGot v => Next tt (record (Got (turn s) v) s)
  end.

Inductive outcome (A : Type) : Type :=
| Finished (a : A) (s : store)
| AtSwap (k : act A) (s : store)
| AtBootstrap (k : act A) (s : store)
| AtCall (func arg : ptr) (k : act A) (s : store)
| Stopped (r : reason) (s : store).

Arguments Finished {A} a s.

Arguments AtSwap {A} k s.

Arguments AtBootstrap {A} k s.

Arguments AtCall {A} func arg k s.

Arguments Stopped {A} r s.

Fixpoint exec {A : Type} (m : act A) (s : store) : outcome A :=
  match m with
  | Ret a => Finished a s
  | Do o k =>
      match handle o s with
      | Next x s' => exec (k x) s'
      | Swaps x s' => AtSwap (k x) s'
      | Boots x s' => AtBootstrap (k x) s'
      | Calls f arg x s' => AtCall f arg (k x) s'
      | Halts r s' => Stopped r s'
      end
  end.

(** ** The library *)

(** What the build fixes: the per-architecture STACK_ALIGNMENT, the size of
    the record and the width of [size_t]. *)
Record abi := mkAbi {
  STACK_ALIGNMENT : Z;
  sizeof_struct_channel : Z;
  SIZE_WIDTH : Z
}.

(** The architectures of coroutine.c with their CONTEXT_BUF_SIZE_BYTES and
    STACK_ALIGNMENT; the record is the context buffer followed by four
    pointers. *)
Definition record_size (context_buf_size_bytes pointer_bytes : Z) : Z :=
  pointer_bytes * ((context_buf_size_bytes + pointer_bytes - 1) / pointer_bytes)
  + 4 * pointer_bytes.

Definition x86_64 : abi := mkAbi 64 (record_size 24 8) 64.

Definition aarch64 : abi := mkAbi 64 (record_size 32 8) 64.

Definition arm : abi := mkAbi 8 (record_size 4 4) 32.

Definition i386 : abi := mkAbi 16 (record_size 12 4) 32.

Definition riscv64 : abi := mkAbi 64 (record_size 32 8) 64.

Definition m68k : abi := mkAbi 16 (record_size 16 4) 32.

Definition avr : abi := mkAbi 1 (record_size 8 2) 16.

Definition ppc64 : abi := mkAbi 64 (record_size 32 8) 64.

Definition mips : abi := mkAbi 64 (record_size 16 4) 32.

Definition sh4 : abi := mkAbi 8 (record_size 16 4) 32.

Definition or1k : abi := mkAbi 64 (record_size 12 4) 32.

Definition architectures : list abi :=
  [x86_64; aarch64; arm; i386; riscv64; m68k; avr; ppc64; mips; sh4; or1k].

Section Library.

(** The sentinel: [static void * const not_filled = &(void * ){ NULL }]. *)
Variable not_filled : ptr.

Variable target : abi.

Definition coroutine_switch : act unit :=
  f <- perform (LoadField Func) ;;
  if f =? NULL then Ret tt else perform SWAP_CONTEXT.

Definition springboard : act unit :=
  arg <- perform (LoadField Value) ;;
  perform (StoreField Value not_filled) ;;
  f <- perform (LoadField Func) ;;
  perform (Call f arg) ;;
  perform (StoreField Func NULL) ;;
  perform SWAP_CONTEXT ;;
  never Unreachable.

(** [(blocksize - sizeof(struct channel)) & ~(STACK_ALIGNMENT - 1)], the
    subtraction being one of [size_t]. *)
Definition channel_offset (blocksize : Z) : Z :=
  Z.land ((blocksize - sizeof_struct_channel target) mod 2 ^ SIZE_WIDTH target)
         (Z.lnot (STACK_ALIGNMENT target - 1)).

Definition coroutine_create_given_memory
    (func arg block blocksize : ptr) : act ptr :=
  let channel := block + channel_offset blocksize in
  perform (InitChannel channel func arg) ;;
  perform BOOTSTRAP_CONTEXT ;;
  Ret channel.

Definition yield_to (pointer : ptr) : act unit :=
  perform (StoreField Value pointer) ;;
  perform SWAP_CONTEXT.

(** [if (channel->free_func) channel->free_func(channel->free_after)] *)
Definition release : act unit :=
  ff <- perform (LoadField Free_func) ;;
  if ff =? NULL then Ret tt
  else fa <- perform (LoadField Free_after) ;; perform (CallFree ff fa).

(** [from] after its first statement. *)
Definition from_rest : act ptr :=
  f <- perform (LoadField Func) ;;
  if f =? NULL then
    release ;;
    Ret NULL
  else
    ret <- perform (LoadField Value) ;;
    perform (StoreField Value not_filled) ;;
    Ret ret.

Definition from : act ptr :=
  f <- perform (LoadField Func) ;;
  (if f =? NULL then Ret tt
   else
     v <- perform (LoadField Value) ;;
     if not_filled =? v then perform SWAP_CONTEXT else Ret tt) ;;
  from_rest.

(** [while (channel->func) yield_to(channel, NULL)], unrolled at most
    [fuel] times, then the release hook. *)
Fixpoint close_and_join (fuel : nat) : act unit :=
  f <- perform (LoadField Func) ;;
  if f =? NULL then release
  else
    match fuel with
    | O => never OutOfFuel
    | S fuel' => yield_to NULL ;; close_and_join fuel'
    end.

(** The address of libc's [free]. *)
Variable free : ptr.

Definition coroutine_create (func arg : ptr) : act ptr :=
  r <- perform (PosixMemalign (STACK_ALIGNMENT target) 524288) ;;
  match r with
  | None => never CallAbort
  | Some block =>
      channel <- coroutine_create_given_memory func arg block 524288 ;;
      perform (StoreField Free_after block) ;;
      perform (StoreField Free_func free) ;;
      Ret channel
  end.

End Library.

(** ** The two stacks *)

(** The code that is running on the active stack, and the store; the
    context of the other stack is in the record. *)
Record machine := mkMachine {
  running : act unit;
  mem : store
}.

Inductive status :=
| Continue (m : machine)
| Exited (s : store)
| Halted (r : reason) (s : store).

Section Machine.

Variable not_filled : ptr.

(** The code behind each function address. *)
Variable text : ptr -> option (ptr -> act unit).

(** SWAP_CONTEXT loads the context saved in the record, saves the current
    one in its place and jumps; BOOTSTRAP_CONTEXT saves the current context
    in the record and calls [springboard] on the new stack; a call through
    a function pointer runs the code at that address and comes back. *)
Definition step (m : machine) : status :=
  match exec (running m) (mem m) with
  | Finished _ s => Exited s
  | AtSwap k s =>
      Continue (mkMachine (context_inactive (chan s))
                  (with_turn (peer (turn s)) (with_chan (save_context k (chan s)) s)))
  | AtBootstrap k s =>
      Continue (mkMachine (springboard not_filled)
                  (with_turn Child (with_chan (save_context k (chan s)) s)))
  | AtCall f arg k s =>
      match text f with
      | Some body => Continue (mkMachine (body arg ;; k) s)
      | None => Halted Undefined_behaviour s
      end
  | Stopped r s => Halted r s
  end.

Fixpoint run (n : nat) (m : machine) : status :=
  match n with
  | O => Continue m
  | S n' =>
      match step m with
      | Continue m' => run n' m'
      | st => st
      end
  end.

End Machine.

(** ** User code *)

(** The calls a function makes on the channel, in the order it makes them;
    [Goto f arg] is a tail call of the function at address [f], which is how
    a loop of user code is written. *)
Inductive prog :=
| Return
| Yield_to (pointer : ptr) (k : prog)
| From (k : ptr -> prog)
| Coroutine_switch (k : prog)
| Close_and_join (k : prog)
| Goto (f arg : ptr).

Section Programs.

Variable not_filled : ptr.

(** Bound on the iterations of the loop of [close_and_join]. *)
Variable bound : nat.

Fixpoint denote (p : prog) : act unit :=
  match p with
  | Return => Ret tt
  | Yield_to v k =>
      perform (SayYielded v) ;; yield_to v ;; denote k
  | From k =>
      v <- from not_filled ;; perform (SayGot v) ;; denote (k v)
  | Coroutine_switch k => coroutine_switch ;; denote k
  | Close_and_join k => close_and_join bound ;; denote k
  | Goto f arg => perform (Call f arg)
  end.

(** The functions of a user program, by address. *)
Definition program := ptr -> option (ptr -> prog).

Definition text_of (functions : program) : ptr -> option (ptr -> act unit) :=
  fun f =>
    match functions f with
    | Some body => Some (fun arg => denote (body arg))
    | None => None
    end.

(** The parent creates the channel in a caller-supplied block and goes on
    with [rest]. *)
Definition main_given_memory (target : abi) (entry arg block blocksize : ptr)
    (rest : prog) : act unit :=
  coroutine_create_given_memory target entry arg block blocksize ;; denote rest.

Definition main_allocating (target : abi) (free entry arg : ptr)
    (rest : prog) : act unit :=
  coroutine_create target free entry arg ;; denote rest.

(** [coroutine_create] from the return of [coroutine_create_given_memory]
    on, followed by the code after the constructor. *)
Definition setting_hooks (block free : ptr) (rest : prog) : act unit :=
  perform (StoreField Free_after block) ;;
  perform (StoreField Free_func free) ;;
  denote rest.

(** The two constructors of coroutine.h. *)
Inductive creator :=
| Given_memory (block blocksize : ptr)
| Allocating (free : ptr).

Definition main_with (target : abi) (c : creator) (entry arg : ptr)
    (rest : prog) : act unit :=
  match c with
  | Given_memory block blocksize =>
      main_given_memory target entry arg block blocksize rest
  | Allocating free => main_allocating target free entry arg rest
  end.

End Programs.

Definition blank : channel := mkChannel (never Unreachable) NULL NULL NULL NULL.

Definition power_on (heap : Z -> Z -> option ptr) : store :=
  mkStore blank Parent [] heap.

Definition no_heap : Z -> Z -> option ptr := fun _ _ => None.

(** A heap in which [posix_memalign] succeeds, with the block at 4096. *)
Definition one_block : Z -> Z -> option ptr := fun _ _ => Some 4096.

(** *** Programs of the tests *)

(** generator_silent: yields the numbers 0..3, here through the addresses
    100..103; it is the function at address 7000. *)
Definition generator_silent (_ : ptr) : prog :=
  Yield_to 100 (Yield_to 101 (Yield_to 102 (Yield_to 103 Return))).

(** [for (...; (nump = from(child)); ) ...], the function at address 7001. *)
Definition consume_loop (_ : ptr) : prog :=
  From (fun v => if v =? NULL then Return else Goto 7001 0).

(** cooperative_multitasking_child with an endless loop: the function at
    address 7002. *)
Definition spinner (_ : ptr) : prog :=
  Coroutine_switch (Goto 7002 0).

(** generator_trivial: just returns; the function at address 7003. *)
Definition generator_trivial (_ : ptr) : prog := Return.

(** What a child that waits for input does with what [from] gives it: it
    returns on NULL, and once it has a datum it hands control back again
    and again, as [spinner] does. *)
Definition listen (v : ptr) : prog :=
  if v =? NULL then Return else Goto 7002 0.

(** The child that waits for input; the function at address 7004. *)
Definition listener (_ : ptr) : prog := From listen.

Definition test_functions : program :=
  fun f =>
    if f =? 7000 then Some generator_silent
    else if f =? 7001 then Some consume_loop
    else if f =? 7002 then Some spinner
    else if f =? 7003 then Some generator_trivial
    else if f =? 7004 then Some listener
    else None.

(** ** Vocabulary of the statements *)

(** [springboard] after the call of the entry function. *)
Definition springboard_exit : act unit :=
  perform (StoreField Func NULL) ;;
  perform SWAP_CONTEXT ;;
  never Unreachable.

(** The context a party leaves in the record when [from] switches away:
    the rest of [from], then the rest [k] of its caller. *)
Definition waiting_in_from (not_filled : ptr) (k : ptr -> act unit) : act unit :=
  v <- from_rest not_filled ;; k v.

(** The release hook seen from outside: the call of [free_func], if any. *)
Definition released (s : store) : store :=
  if free_func (chan s) =? NULL then s
  else record (Freed (turn s) (free_func (chan s)) (free_after (chan s))) s.

(** A store after a write to a field. *)
Definition written (f : field) (v : ptr) (s : store) : store :=
  record (Wrote (turn s) f v) (with_chan (set f v (chan s)) s).

(** The context switch done by the machine. *)
Definition switched (k : context) (s : store) : store :=
  with_turn (peer (turn s)) (with_chan (save_context k (chan s)) s).

(** Code without a [Ret] leaf. *)
Fixpoint noreturn {A : Type} (m : act A) : Prop :=
  match m with
  | Ret _ => False
  | Do _ k => forall x, noreturn (k x)
  end.

(** The C runtime calls [main] and exits when it returns. *)
Definition start (main : act unit) (heap : Z -> Z -> option ptr) : machine :=
  mkMachine (main ;; Ret tt) (power_on heap).

Section Returning.

Variable not_filled : ptr.

Variable text : ptr -> option (ptr -> act unit).

(** Runs the child until the parent's stack is the running one again. *)
Fixpoint until_parent (n : nat) (m : machine) : option machine :=
  match turn (mem m) with
  | Parent => Some m
  | Child =>
      match n with
      | O => None
      | S n' =>
          match step not_filled text m with
          | Continue m' => until_parent n' m'
          | _ => None
          end
      end
  end.

(** The machine at the moment the constructor called first in [m] returns
    to its caller. *)
Definition creation_returns (n : nat) (m : machine) : option machine :=
  match step not_filled text m with
  | Continue m1 => until_parent n m1
  | _ => None
  end.

End Returning.

(** The block a constructor puts the record in, with its size: the
    caller's, or the 524288 bytes that [posix_memalign] gives. *)
Definition block_of (target : abi) (c : creator) (heap : Z -> Z -> option ptr)
  : option (ptr * Z) :=
  match c with
  | Given_memory block blocksize => Some (block, blocksize)
  | Allocating _ =>
      match heap (STACK_ALIGNMENT target) 524288 with
      | Some block => Some (block, 524288)
      | None => None
      end
  end.

(** What is left of the constructor when the child first switches back:
    [coroutine_create_given_memory] returns at once, [coroutine_create] has
    the release hook to record before it returns. *)
Definition finishing (not_filled : ptr) (bound : nat) (c : creator)
    (block : ptr) (rest : prog) : act unit :=
  match c with
  | Given_memory _ _ => denote not_filled bound rest
  | Allocating free => setting_hooks not_filled bound block free rest
  end.

(** The store when the constructor has returned. *)
Definition created (c : creator) (block : ptr) (s : store) : store :=
  match c with
  | Given_memory _ _ => s
  | Allocating free => written Free_func free (written Free_after block s)
  end.

(** ** User code between two context switches *)

Section UserCode.

Variable not_filled : ptr.
Variable bound : nat.

(** The code of a stack between two calls on the channel, and where a
    party can be resumed: inside [from], or inside the loop of
    [close_and_join]. *)
Inductive user_code : act unit -> Prop :=
| uc_denote (p : prog) : user_code (denote not_filled bound p)
| uc_from (k : ptr -> prog) :
    user_code (waiting_in_from not_filled
                 (fun v => perform (SayGot v) ;;
                           denote not_filled bound (k v)))
| uc_close (n : nat) (k : prog) :
    user_code (close_and_join n ;; denote not_filled bound k).

(** What the calls of user code do to the store, one call (or one half of
    a call, up to its context switch) at a time. *)
Inductive moves : store -> store -> Prop :=
| mv_yield v s :
    moves s (record (Switched (turn s))
               (written Value v (record (Yielded (turn s) v) s)))
| mv_nil s :
    (func (chan s) =? NULL) = false ->
    moves s (record (Switched (turn s)) (written Value NULL s))
| mv_switch s :
    (func (chan s) =? NULL) = false ->
    moves s (record (Switched (turn s)) s)
| mv_take s :
    (func (chan s) =? NULL) = false ->
    moves s (record (Got (turn s) (value (chan s))) (written Value not_filled s))
| mv_end s :
    (func (chan s) =? NULL) = true ->
    moves s (record (Got (turn s) NULL) (released s))
| mv_release s :
    (func (chan s) =? NULL) = true ->
    moves s (released s)
| mv_call f arg s :
    moves s (record (Called (turn s) f arg) s).

Inductive reach : store -> store -> Prop :=
| reach_refl s : reach s s
| reach_step s1 s2 s3 : moves s1 s2 -> reach s2 s3 -> reach s1 s3.

Definition lands (s : store) (o : outcome unit) : Prop :=
  match o with
  | Finished _ s' => reach s s'
  | AtSwap u s' => user_code u /\ reach s s'
  | AtCall _ _ u s' => u = Ret tt /\ reach s s'
  | AtBootstrap _ _ => False
  | Stopped r s' => r = Out_of_fuel /\ reach s s'
  end.

End UserCode.

(** ** The slot protocol *)

(** What the trace says about the slot: the argument of the entry function
    is in it ([Argument]) or has just been read out of it ([Passed]); it
    holds the sentinel ([Vacant]); a party has announced a value
    ([Announced]) or put one there ([Holding]); [from] has just replaced
    a value by the sentinel and is about to return it ([Taken]); or [from]
    has returned NULL without looking at the slot, the entry being empty
    ([Over]). *)
Inductive slot :=
| Argument (v : ptr)
| Passed (v : ptr)
| Vacant
| Announced (v : ptr)
| Holding (v : ptr)
| Taken (v : ptr)
| Over.

Definition track1 (not_filled : ptr) (st : slot) (e : event) : option slot :=
  match e with
  | Initialised _ _ arg =>
      match st with
      | Vacant => Some (Argument arg)
      | _ => None
      end
  | Yielded _ v =>
      match st with
      | Vacant | Holding _ => Some (Announced v)
      | Over => Some Over
      | _ => None
      end
  | Wrote _ Value w =>
      match st with
      | Argument v => if w =? not_filled then Some (Passed v) else None
      | Announced v => if w =? v then Some (Holding v) else None
      | Holding v =>
          if w =? not_filled then Some (Taken v)
          else if w =? NULL then Some (Holding NULL) else None
      | Vacant =>
          if w =? not_filled then Some (Taken not_filled)
          else if w =? NULL then Some (Holding NULL) else None
      | Over => Some Over
      | Passed _ | Taken _ => None
      end
  | Called _ _ a =>
      match st with
      | Passed v => if a =? v then Some Vacant else None
      | Vacant | Holding _ | Over => Some st
      | _ => None
      end
  | Got _ w =>
      match st with
      | Taken v => if w =? v then Some Vacant else None
      | Vacant | Holding _ | Over => if w =? NULL then Some Over else None
      | _ => None
      end
  | _ => Some st
  end.

Fixpoint track (not_filled : ptr) (st : slot) (tr : list event) : option slot :=
  match tr with
  | [] => Some st
  | e :: tr' =>
      match track1 not_filled st e with
      | Some st' => track not_filled st' tr'
      | None => None
      end
  end.

(** The slot as the trace has it is the slot of the record. *)
Definition agrees (not_filled : ptr) (st : slot) (c : channel) : Prop :=
  match st with
  | Vacant => value c = not_filled
  | Holding v => value c = v
  | Over => func c = NULL
  | _ => False
  end.

Definition slot_ok (not_filled : ptr) (s : store) : Prop :=
  exists st, track not_filled Vacant (trace s) = Some st /\ agrees not_filled st (chan s).

(** Events that only the constructors and [springboard] produce. *)
Definition user_event (e : event) : Prop :=
  match e with
  | Initialised _ _ _ | Bootstrapped
  | Wrote _ Func _ | Wrote _ Free_after _ | Wrote _ Free_func _ => False
  | _ => True
  end.

Definition hook_event (e : event) : Prop :=
  match e with
  | Wrote _ Free_after _ | Wrote _ Free_func _ | Freed _ _ _ => True
  | _ => False
  end.

(** What user code leaves as it is. *)
Record frame (s s' : store) : Prop := mkFrame {
  fr_func : func (chan s') = func (chan s);
  fr_context : context_inactive (chan s') = context_inactive (chan s);
  fr_free_after : free_after (chan s') = free_after (chan s);
  fr_free_func : free_func (chan s') = free_func (chan s);
  fr_turn : turn s' = turn s;
  fr_trace : exists new,
      trace s' = trace s ++ new
      /\ Forall user_event new
      /\ (free_func (chan s) = NULL -> Forall (fun e => ~ hook_event e) new)
}.

(** ** What holds of every run *)

Definition entry_write (e : event) : Prop :=
  match e with
  | Wrote _ Func _ => True
  | _ => False
  end.

(** The entry is the function given to the constructor and nothing has
    written it since. *)
Definition entry_kept (entry : ptr) (s : store) : Prop :=
  func (chan s) = entry /\ Forall (fun e => ~ entry_write e) (trace s).

(** The entry is empty; it has been written once, with NULL, on the child
    stack, and the next thing that stack did was to switch context. *)
Definition entry_emptied (s : store) : Prop :=
  func (chan s) = NULL
  /\ exists l1 l2,
      trace s = l1 ++ [Wrote Child Func NULL; Switched Child] ++ l2
      /\ Forall (fun e => ~ entry_write e) l1
      /\ Forall (fun e => ~ entry_write e) l2.

Definition hooks_clear (s : store) : Prop :=
  free_func (chan s) = NULL /\ free_after (chan s) = NULL
  /\ Forall (fun e => ~ hook_event e) (trace s).

Definition store_of (st : status) : store :=
  match st with
  | Continue m => mem m
  | Exited s => s
  | Halted _ s => s
  end.

Definition outcome_store {A : Type} (o : outcome A) : store :=
  match o with
  | Finished _ s | AtSwap _ s | AtBootstrap _ s | AtCall _ _ _ s | Stopped _ s => s
  end.

Section Invariant.

Variable not_filled : ptr.
Variable bound : nat.

(** Whether the channel was made by [coroutine_create_given_memory] called
    by the program itself, and not through [coroutine_create]. *)
Variable given : bool.
Variable entry : ptr.

(** The parent is in user code, or still in [coroutine_create], which has
    the release hook to record. *)
Definition parent_code (c : act unit) : Prop :=
  (exists u, user_code not_filled bound u /\ c = (u ;; Ret tt))
  \/ (given = false
      /\ exists block free rest,
          c = (setting_hooks not_filled bound block free rest ;; Ret tt)).

Definition child_code (c : act unit) : Prop :=
  exists u, user_code not_filled bound u /\ c = (u ;; springboard_exit).

Inductive phase (m : machine) : Prop :=
| ph_parent :
    turn (mem m) = Parent -> entry_kept entry (mem m) ->
    parent_code (running m) ->
    child_code (context_inactive (chan (mem m))) -> phase m
| ph_child :
    turn (mem m) = Child -> entry_kept entry (mem m) ->
    child_code (running m) ->
    parent_code (context_inactive (chan (mem m))) -> phase m
| ph_done :
    turn (mem m) = Parent -> entry_emptied (mem m) ->
    parent_code (running m) ->
    context_inactive (chan (mem m)) = never Unreachable -> phase m
| ph_lost :
    turn (mem m) = Child -> entry_emptied (mem m) ->
    running m = never Unreachable -> phase m.

(** The sentinel is the address of an object: it is not NULL. *)
Definition sentinel_not_null : Prop := (not_filled =? NULL) = false.

Definition invariant (m : machine) : Prop :=
  (sentinel_not_null -> slot_ok not_filled (mem m))
  /\ (given = true -> hooks_clear (mem m)) /\ phase m.

Definition healthy (s : store) : Prop :=
  (sentinel_not_null -> track not_filled Vacant (trace s) <> None)
  /\ (given = true -> hooks_clear s)
  /\ (entry_kept entry s \/ entry_emptied s).

Definition sound (st : status) : Prop :=
  match st with
  | Continue m => invariant m
  | Exited s | Halted _ s => healthy s
  end.

End Invariant.

(** The store when BOOTSTRAP_CONTEXT has started the child stack: the record
    at [channel] holds the context of the parent, the entry function and
    its argument. *)
Definition bootstrapped_store (parent : context) (channel entry arg : ptr)
    (heap : Z -> Z -> option ptr) : store :=
  mkStore (mkChannel parent entry arg NULL NULL) Child
    [Initialised channel entry arg; Bootstrapped] heap.

(** The store when [springboard] then calls the entry function. *)
Definition entered_store (not_filled : ptr) (parent : context)
    (channel entry arg : ptr) (heap : Z -> Z -> option ptr) : store :=
  mkStore (mkChannel parent entry not_filled NULL NULL) Child
    [Initialised channel entry arg; Bootstrapped;
     Wrote Child Value not_filled; Called Child entry arg]
    heap.
(** ** Properties of traces *)

(** Events that are neither a call of [yield_to] by user code nor a return
    of [from] to user code. *)
Definition quiet (e : event) : Prop :=
  match e with
  | Yielded _ _ | Got _ _ => False
  | _ => True
  end.

Definition carries (st : slot) (w : ptr) : Prop :=
  st = Announced w \/ st = Holding w \/ st = Taken w.

Definition within (v : ptr) (st : slot) : Prop :=
  st = Announced v \/ st = Holding v \/ st = Taken v
  \/ st = Holding NULL \/ st = Taken NULL \/ st = Over.

Definition switch_event (e : event) : Prop :=
  match e with
  | Switched _ => True
  | _ => False
  end.

(** No call of the entry function and no call of user code on the child
    stack has left a mark. *)
Definition entry_has_not_run (tr : list event) : Prop :=
  forall e, In e tr ->
    match e with
    | Called Child _ _ | Yielded Child _ | Got Child _ => False
    | _ => True
    end.

(** How many calls of [from] have returned [v]. *)
Fixpoint returns_of (v : ptr) (tr : list event) : nat :=
  match tr with
  | [] => 0
  | Got _ w :: tr' => (if w =? v then 1 else 0) + returns_of v tr'
  | _ :: tr' => returns_of v tr'
  end.

Definition every_value_returned_once (tr : list event) : Prop :=
  forall p v, In (Yielded p v) tr -> v <> NULL -> returns_of v tr = 1%nat.

(** A function that returns as soon as a call of [from] gives it NULL. *)
Fixpoint returns_on_nil (p : prog) : Prop :=
  match p with
  | From k => k NULL = Return /\ forall v, returns_on_nil (k v)
  | Yield_to _ k | Coroutine_switch k | Close_and_join k => returns_on_nil k
  | Return | Goto _ _ => True
  end.

Definition well_behaved (functions : program) : Prop :=
  forall f body arg, functions f = Some body -> returns_on_nil (body arg).

(** How many context switches party [who] has made. *)
Fixpoint switches_by (who : party) (tr : list event) : nat :=
  match tr with
  | [] => 0
  | Switched Parent :: tr' =>
      match who with
      | Parent => S (switches_by who tr')
      | Child => switches_by who tr'
      end
  | Switched Child :: tr' =>
      match who with
      | Child => S (switches_by who tr')
      | Parent => switches_by who tr'
      end
  | _ :: tr' => switches_by who tr'
  end.

(** What the child, resumed with NULL in the slot and with [p] to run, does
    before it returns: it hands control back [r] times, by [yield_to] or
    [coroutine_switch], and then returns, or calls [from] and returns when
    that call gives it NULL. *)
Inductive settles (functions : program) : nat -> prog -> Prop :=
| settles_return : settles functions 0 Return
| settles_from (k : ptr -> prog) :
    k NULL = Return -> settles functions 0 (From k)
| settles_yield (r : nat) (v : ptr) (k : prog) :
    settles functions r k -> settles functions (S r) (Yield_to v k)
| settles_switch (r : nat) (k : prog) :
    settles functions r k -> settles functions (S r) (Coroutine_switch k)
| settles_goto (r : nat) (f arg : ptr) (body : ptr -> prog) :
    functions f = Some body -> settles functions r (body arg) ->
    settles functions r (Goto f arg).

(** Where the child is suspended when [close_and_join] is called: after a
    call of [yield_to] or of [coroutine_switch], with [p] left to run, or
    inside [from]. *)
Inductive closable (not_filled : ptr) (bound : nat) (functions : program)
  : nat -> act unit -> Prop :=
| closable_code (r : nat) (p : prog) :
    settles functions r p ->
    closable not_filled bound functions r (denote not_filled bound p)
| closable_from (k : ptr -> prog) :
    k NULL = Return ->
    closable not_filled bound functions 0
      (waiting_in_from not_filled
         (fun v => perform (SayGot v) ;; denote not_filled bound (k v))).

(** ** Runs of the tests *)

(** consumer_silent: the parent creates generator_silent in a block of 8192
    bytes at address 4096 and consumes what it yields. *)
Definition consumer_silent : machine :=
  start (main_given_memory 999 5 x86_64 7000 42 4096 8192 (Goto 7001 0)) no_heap.

(** test_child_on_parent_stack: generator_trivial in a caller-supplied
    block. *)
Definition test_child_on_parent_stack : machine :=
  start (main_given_memory 999 5 x86_64 7003 42 4096 8192 (Goto 7001 0)) no_heap.

(** The parent hands control to generator_silent once more before it
    starts to consume. *)
Definition switch_then_consume : machine :=
  start (main_given_memory 999 5 x86_64 7000 42 4096 8192
           (Coroutine_switch (Goto 7001 0))) no_heap.

(** The parent creates [listener], gives it the datum 5 and calls
    [close_and_join]. *)
Definition close_listener (bound : nat) : machine :=
  start (main_given_memory 999 bound x86_64 7004 42 4096 8192
           (Yield_to 5 (Close_and_join Return))) no_heap.

(** The parent creates [listener] and calls [close_and_join] at once. *)
Definition close_listener_at_once : machine :=
  start (main_given_memory 999 5 x86_64 7004 42 4096 8192
           (Close_and_join Return)) no_heap.

Definition spinner_context (bound : nat) : context :=
  denote 999 bound (Goto 7002 0) ;; springboard_exit.

Definition closing_context (b : nat) : context :=
  (close_and_join b ;; Ret tt) ;; Ret tt.

Definition spin_store (ctx : context) (who : party) (v : ptr) (tr : list event)
  : store :=
  mkStore (mkChannel ctx 7004 v NULL NULL) who tr no_heap.

Definition not_exited (st : status) : Prop :=
  match st with
  | Exited _ => False
  | _ => True
  end.

(** * The backend on kernel threads

    The second implementation of coroutine.h: every child runs on a thread
    of its own, and a context switch hands the one mutex of the tree over
    through the condition variable of the channel.  A thread is modelled by
    the code it has left to run and by what it is blocked on; any thread
    that can move may be the next to move. *)

(** What user code can observe of a run: the values it passes to
    [yield_to], the values [from] returns to it, and the calls through
    function pointers with their arguments. *)
Definition observable (e : event) : bool :=
  match e with
  | Yielded _ _ | Got _ _ | Called _ _ _ => true
  | _ => false
  end.

Definition observe (tr : list event) : list event := filter observable tr.

Module Pthreads.

(** The width of [unsigned long], the type of the counter of the tree, on
    an LP64 target. *)
Definition ULONG_WIDTH : Z := 64.

(** The fields of [struct channel] other than [cond] and [thread]. *)
Inductive field := Tree_mutex | In_child | Func | Value.

Inductive op : Type -> Type :=
| LoadField (f : field) : op Z
| StoreField (f : field) (v : Z) : op unit
| InitChannel (tree_mutex func arg : ptr) : op unit
| LoadTls : op ptr
| StoreTls (v : ptr) : op unit
| LoadCount : op Z
| StoreCount (v : Z) : op unit
| Calloc : op ptr
| Malloc : op unit
| Free (p : ptr) : op unit
| FreeChannel : op unit
| MutexInit : op unit
| MutexLock : op unit
| MutexUnlock : op unit
| MutexDestroy : op unit
| CondInit : op unit
| CondSignal : op unit
| CondWaitUntil (in_child : Z) : op unit
| CondDestroy : op unit
| PthreadCreate : op unit
| PthreadJoin : op unit
| Call (func arg : ptr) : op unit
| OutOfFuel : op Empty_set
| SayYielded (v : ptr) : op unit
| SayGot (v : ptr) : op unit.

Inductive act (A : Type) : Type :=
| Ret (a : A)
| Do {X : Type} (o : op X) (k : X -> act A).

Arguments Ret {A} a.

Arguments Do {A X} o k.

Fixpoint bind {A B : Type} (m : act A) (k : A -> act B) : act B :=
  match m with
  | Ret a => k a
  | Do o h => Do o (fun x => bind (h x) k)
  end.

Definition perform {X : Type} (o : op X) : act X := Do o Ret.

Definition never {A : Type} (o : op Empty_set) : act A :=
  Do o (fun x : Empty_set => match x with end).

Declare Scope pth_scope.

Delimit Scope pth_scope with pth.

Notation "x <- m ;; k" := (bind m (fun x => k))
  (at level 61, m at next level, right associativity) : pth_scope.

Notation "m ;; k" := (bind m (fun _ => k))
  (at level 61, right associativity) : pth_scope.

Local Open Scope pth_scope.

(** ** Threads and the store *)

Record channel := mkChannel {
  tree_mutex : ptr;
  in_child : Z;
  func : ptr;
  value : ptr
}.

(** A thread: not created yet; able to run its code; blocked in
    [pthread_mutex_lock]; blocked in [pthread_cond_wait], inside the loop
    that waits for [in_child] to be [until]; woken from that wait, by a
    signal or spuriously, and about to take the mutex again; blocked in
    [pthread_join]; or returned from its thread function. *)
Inductive thread :=
| Absent
| Ready (k : act unit)
| Locking (k : act unit)
| Waiting (until : Z) (k : act unit)
| Woken (until : Z) (k : act unit)
| Joining (k : act unit)
| Returned.

Record store := mkStore {
  chan : channel;
  count : Z;                (* tree_mutex->count *)
  owner : option party;     (* the thread that holds tree_mutex->mutex *)
  tls_parent : ptr;         (* _tls_tree_mutex of the parent thread *)
  tls_child : ptr;          (* _tls_tree_mutex of the child thread *)
  parent_thread : thread;
  child_thread : thread;
  self : party;             (* the thread that is running *)
  trace : list event;       (* the observable events so far, oldest first *)
  tree_address : ptr        (* where calloc puts the struct tree_mutex *)
}.

Definition get (f : field) (c : channel) : Z :=
  match f with
  | Tree_mutex => tree_mutex c
  | In_child => in_child c
  | Func => func c
  | Value => value c
  end.

Definition set (f : field) (v : Z) (c : channel) : channel :=
  match f with
  | Tree_mutex => mkChannel v (in_child c) (func c) (value c)
  | In_child => mkChannel (tree_mutex c) v (func c) (value c)
  | Func => mkChannel (tree_mutex c) (in_child c) v (value c)
  | Value => mkChannel (tree_mutex c) (in_child c) (func c) v
  end.

Definition with_chan (c : channel) (s : store) : store :=
  mkStore c (count s) (owner s) (tls_parent s) (tls_child s) (parent_thread s)
    (child_thread s) (self s) (trace s) (tree_address s).

Definition with_count (n : Z) (s : store) : store :=
  mkStore (chan s) n (owner s) (tls_parent s) (tls_child s) (parent_thread s)
    (child_thread s) (self s) (trace s) (tree_address s).

Definition with_owner (o : option party) (s : store) : store :=
  mkStore (chan s) (count s) o (tls_parent s) (tls_child s) (parent_thread s)
    (child_thread s) (self s) (trace s) (tree_address s).

Definition with_self (p : party) (s : store) : store :=
  mkStore (chan s) (count s) (owner s) (tls_parent s) (tls_child s)
    (parent_thread s) (child_thread s) p (trace s) (tree_address s).

Definition record (e : event) (s : store) : store :=
  mkStore (chan s) (count s) (owner s) (tls_parent s) (tls_child s)
    (parent_thread s) (child_thread s) (self s) (trace s ++ [e]) (tree_address s).

Definition tls (p : party) (s : store) : ptr :=
  match p with Parent => tls_parent s | Child => tls_child s end.

Definition with_tls (p : party) (v : ptr) (s : store) : store :=
  match p with
  | Parent =>
      mkStore (chan s) (count s) (owner s) v (tls_child s) (parent_thread s)
        (child_thread s) (self s) (trace s) (tree_address s)
  | Child =>
      mkStore (chan s) (count s) (owner s) (tls_parent s) v (parent_thread s)
        (child_thread s) (self s) (trace s) (tree_address s)
  end.

Definition thread_of (p : party) (s : store) : thread :=
  match p with Parent => parent_thread s | Child => child_thread s end.

Definition with_thread (p : party) (t : thread) (s : store) : store :=
  match p with
  | Parent =>
      mkStore (chan s) (count s) (owner s) (tls_parent s) (tls_child s) t
        (child_thread s) (self s) (trace s) (tree_address s)
  | Child =>
      mkStore (chan s) (count s) (owner s) (tls_parent s) (tls_child s)
        (parent_thread s) t (self s) (trace s) (tree_address s)
  end.

(** [pthread_cond_signal]: a thread blocked on the condition variable is
    unblocked; the only thread that can be blocked on it is the peer of
    the one that signals. *)
Definition wake (t : thread) : thread :=
  match t with
  | Waiting until k => Woken until k
  | _ => t
  end.

Definition signalled (s : store) : store :=
  with_thread (peer (self s)) (wake (thread_of (peer (self s)) s)) s.

(** ** Running the code of a thread up to where it blocks *)

Inductive reply (X : Type) : Type :=
| Next (x : X) (s : store)
| Waits (until : Z) (x : X) (s : store)
| Locks (x : X) (s : store)
| Joins (x : X) (s : store)
| Creates (x : X) (s : store)
| Calls (func arg : ptr) (x : X) (s : store)
| Halts (r : reason) (s : store).

Arguments Next {X} x s.

Arguments Waits {X} until x s.

Arguments Locks {X} x s.

Arguments Joins {X} x s.

Arguments Creates {X} x s.

Arguments Calls {X} func arg x s.

Arguments Halts {X} r s.

Definition handle {X : Type} (o : op X) (s : store) : reply X :=
  match o in op X return reply X with
  | LoadField f => Next (get f (chan s)) s
  | StoreField f v => Next tt (with_chan (set f v (chan s)) s)
  | InitChannel tm f arg =>
      (* *channel = (struct channel) { .tree_mutex = _tls_tree_mutex,
         .func = func, .value = arg, .in_child = 1 } *)
      Next tt (with_chan (mkChannel tm 1 f arg) s)
  | LoadTls => Next (tls (self s) s) s
  | StoreTls v => Next tt (with_tls (self s) v s)
  | LoadCount => Next (count s) s
  | StoreCount v => Next tt (with_count v s)
  | Calloc => Next (tree_address s) (with_count 0 s)
  | Malloc => Next tt s
  | Free _ => Next tt s
  | FreeChannel => Next tt s
  | MutexInit => Next tt (with_owner None s)
  | MutexLock =>
      match owner s with
      | None => Next tt (with_owner (Some (self s)) s)
      | Some _ => Locks tt s
      end
  | MutexUnlock => Next tt (with_owner None s)
  | MutexDestroy => Next tt s
  | CondInit => Next tt s
  | CondSignal => Next tt (signalled s)
  | CondWaitUntil b => Waits b tt (with_owner None s)
  | CondDestroy => Next tt s
  | PthreadCreate => Creates tt s
  | PthreadJoin =>
      match child_thread s with
      | Returned => Next tt s
      | _ => Joins tt s
      end
  | Call f arg => Calls f arg tt (record (Called (self s) f arg) s)
  | OutOfFuel => Halts Out_of_fuel s
  | SayYielded v => Next tt (record (Yielded (self s) v) s)
  | SayGot v => Next tt (record (Got (self s) v) s)
  end.

Inductive outcome (A : Type) : Type :=
| Finished (a : A) (s : store)
| AtWait (until : Z) (k : act A) (s : store)
| AtLock (k : act A) (s : store)
| AtJoin (k : act A) (s : store)
| AtCreate (k : act A) (s : store)
| AtCall (func arg : ptr) (k : act A) (s : store)
| Stopped (r : reason) (s : store).

Arguments Finished {A} a s.

Arguments AtWait {A} until k s.

Arguments AtLock {A} k s.

Arguments AtJoin {A} k s.

Arguments AtCreate {A} k s.

Arguments AtCall {A} func arg k s.

Arguments Stopped {A} r s.

Fixpoint exec {A : Type} (m : act A) (s : store) : outcome A :=
  match m with
  | Ret a => Finished a s
  | Do o k =>
      match handle o s with
      | Next x s' => exec (k x) s'
      | Waits b x s' => AtWait b (k x) s'
      | Locks x s' => AtLock (k x) s'
      | Joins x s' => AtJoin (k x) s'
      | Creates x s' => AtCreate (k x) s'
      | Calls f arg x s' => AtCall f arg (k x) s'
      | Halts r s' => Stopped r s'
      end
  end.

(** ** The library *)

Section Library.

(** The sentinel: [static void * const not_filled = &(void * ){ NULL }]. *)
Variable not_filled : ptr.

(** [!x] of C. *)
Definition logical_not (x : Z) : Z := if x =? 0 then 1 else 0.

(** The loop [do pthread_cond_wait(...); while (channel->in_child !=
    in_child_at_entry)] is the one operation [CondWaitUntil]. *)
Definition context_switch : act unit :=
  in_child_at_entry <- perform (LoadField In_child) ;;
  perform (StoreField In_child (logical_not in_child_at_entry)) ;;
  perform CondSignal ;;
  perform (CondWaitUntil in_child_at_entry).

Definition coroutine_switch : act unit :=
  f <- perform (LoadField Func) ;;
  if f =? NULL then Ret tt else context_switch.

(** The thread function of a child. *)
Definition springboard : act unit :=
  tm <- perform (LoadField Tree_mutex) ;;
  perform (StoreTls tm) ;;
  perform MutexLock ;;
  arg <- perform (LoadField Value) ;;
  perform (StoreField Value not_filled) ;;
  f <- perform (LoadField Func) ;;
  perform (Call f arg) ;;
  perform (StoreField Func NULL) ;;
  perform (StoreField In_child 0) ;;
  perform CondSignal ;;
  perform MutexUnlock ;;
  Ret tt.

(** The thread attributes, which only set the size of the stack, are left
    out; [malloc] and [calloc], whose results the source does not check,
    succeed. *)
Definition coroutine_create (func arg : ptr) : act unit :=
  t <- perform LoadTls ;;
  (if t =? NULL then
     a <- perform Calloc ;;
     perform (StoreTls a) ;;
     perform MutexInit ;;
     perform MutexLock
   else Ret tt) ;;
  perform Malloc ;;
  tm <- perform LoadTls ;;
  perform (InitChannel tm func arg) ;;
  c <- perform LoadCount ;;
  perform (StoreCount ((c + 1) mod 2 ^ ULONG_WIDTH)) ;;
  perform CondInit ;;
  perform PthreadCreate ;;
  perform CondSignal ;;
  perform (CondWaitUntil 0).

Definition coroutine_create_given_memory (func arg block blocksize : ptr)
  : act unit :=
  coroutine_create func arg.

Definition yield_to (pointer : ptr) : act unit :=
  perform (StoreField Value pointer) ;;
  context_switch.

Definition channel_join_and_cleanup : act unit :=
  perform PthreadJoin ;;
  c <- perform LoadCount ;;
  perform (StoreCount ((c - 1) mod 2 ^ ULONG_WIDTH)) ;;
  c' <- perform LoadCount ;;
  (if c' =? 0 then
     perform MutexUnlock ;;
     perform MutexDestroy ;;
     tm <- perform (LoadField Tree_mutex) ;;
     perform (Free tm) ;;
     perform (StoreTls NULL)
   else Ret tt) ;;
  perform CondDestroy ;;
  perform FreeChannel.

(** [from] after its first statement. *)
Definition from_rest : act ptr :=
  f <- perform (LoadField Func) ;;
  if f =? NULL then
    channel_join_and_cleanup ;;
    Ret NULL
  else
    ret <- perform (LoadField Value) ;;
    perform (StoreField Value not_filled) ;;
    Ret ret.

Definition from : act ptr :=
  f <- perform (LoadField Func) ;;
  (if f =? NULL then Ret tt
   else
     v <- perform (LoadField Value) ;;
     if not_filled =? v then context_switch else Ret tt) ;;
  from_rest.

(** [while (channel->func) yield_to(channel, NULL)], unrolled at most
    [fuel] times, then the cleanup. *)
Fixpoint close_and_join (fuel : nat) : act unit :=
  f <- perform (LoadField Func) ;;
  if f =? NULL then channel_join_and_cleanup
  else
    match fuel with
    | O => never OutOfFuel
    | S fuel' => yield_to NULL ;; close_and_join fuel'
    end.

(** [springboard] after the call of the entry function. *)
Definition springboard_exit : act unit :=
  perform (StoreField Func NULL) ;;
  perform (StoreField In_child 0) ;;
  perform CondSignal ;;
  perform MutexUnlock ;;
  Ret tt.

(** ** User code on this backend *)

Variable bound : nat.

Fixpoint denote (p : prog) : act unit :=
  match p with
  | Return => Ret tt
  | Yield_to v k =>
      perform (SayYielded v) ;; yield_to v ;; denote k
  | From k =>
      v <- from ;; perform (SayGot v) ;; denote (k v)
  | Coroutine_switch k => coroutine_switch ;; denote k
  | Close_and_join k => close_and_join bound ;; denote k
  | Goto f arg => perform (Call f arg)
  end.

Definition text_of (functions : program) : ptr -> option (ptr -> act unit) :=
  fun f =>
    match functions f with
    | Some body => Some (fun arg => denote (body arg))
    | None => None
    end.

(** The program that creates its channel with the constructor [c]. *)
Definition main_with (c : creator) (entry arg : ptr) (rest : prog) : act unit :=
  match c with
  | Given_memory block blocksize =>
      coroutine_create_given_memory entry arg block blocksize ;; denote rest
  | Allocating _ => coroutine_create entry arg ;; denote rest
  end.

End Library.

(** ** The threads *)

Inductive status :=
| Continue (s : store)
| Exited (s : store)
| Halted (r : reason) (s : store).

Definition store_of (st : status) : store :=
  match st with
  | Continue s | Exited s | Halted _ s => s
  end.

(** The process starts with its main thread only; it ends when [main]
    returns. *)
Definition start (main : act unit) (tree : ptr) : store :=
  mkStore (mkChannel NULL 0 NULL NULL) 0 None NULL NULL
    (Ready (main ;; Ret tt)) Absent Parent [] tree.

Section Machine.

Variable not_filled : ptr.

(** The code behind each function address. *)
Variable text : ptr -> option (ptr -> act unit).

(** What has become of thread [t] when its code has run up to where it
    blocks, creates the child thread, calls through a function pointer, or
    returns. *)
Definition after (t : party) (o : outcome unit) : status :=
  match o with
  | Finished _ s =>
      match t with
      | Parent => Exited s
      | Child => Continue (with_thread Child Returned s)
      end
  | AtWait b k s => Continue (with_thread t (Waiting b k) s)
  | AtLock k s => Continue (with_thread t (Locking k) s)
  | AtJoin k s => Continue (with_thread t (Joining k) s)
  | AtCreate k s =>
      Continue (with_thread Child (Ready (springboard not_filled))
                  (with_thread t (Ready k) s))
  | AtCall f arg k s =>
      match text f with
      | Some body => Continue (with_thread t (Ready (body arg ;; k)) s)
      | None => Halted Undefined_behaviour s
      end
  | Stopped r s => Halted r s
  end.

(** One move of one thread.  A thread that has been woken takes the mutex
    when it is free and looks at [in_child]: it goes on if the flag is what
    it waits for, and waits again, giving the mutex back, if not. *)
Inductive step (s : store) : status -> Prop :=
| step_run (t : party) (k : act unit) :
    thread_of t s = Ready k ->
    step s (after t (exec k (with_self t s)))
| step_spurious (t : party) (b : Z) (k : act unit) :
    thread_of t s = Waiting b k ->
    step s (Continue (with_thread t (Woken b k) s))
| step_reacquire (t : party) (b : Z) (k : act unit) :
    thread_of t s = Woken b k -> owner s = None ->
    step s (Continue
              (if in_child (chan s) =? b
               then with_thread t (Ready k) (with_owner (Some t) s)
               else with_thread t (Waiting b k) s))
| step_lock (t : party) (k : act unit) :
    thread_of t s = Locking k -> owner s = None ->
    step s (Continue (with_thread t (Ready k) (with_owner (Some t) s)))
| step_join (t : party) (k : act unit) :
    thread_of t s = Joining k -> child_thread s = Returned ->
    step s (Continue (with_thread t (Ready k) s)).

(** The states a schedule can reach. *)
Inductive reaches : status -> status -> Prop :=
| reaches_refl (st : status) : reaches st st
| reaches_step (s : store) (st st' : status) :
    step s st -> reaches st st' -> reaches (Continue s) st'.

End Machine.

End Pthreads.

(** ** The two backends side by side *)

Section Backends.

Variable not_filled : ptr.

Variable bound : nat.

(** The code of the two backends at the same point of the same user
    program: in user code, inside [from] after its context switch, inside
    the loop of [close_and_join]; and, for the assembly backend, at the
    return of [coroutine_create_given_memory] into [coroutine_create]. *)
Inductive same_code : act unit -> Pthreads.act unit -> Prop :=
| same_denote (p : prog) :
    same_code (denote not_filled bound p) (Pthreads.denote not_filled bound p)
| same_from (k : ptr -> prog) :
    same_code
      (waiting_in_from not_filled
         (fun v => perform (SayGot v) ;; denote not_filled bound (k v)))
      (Pthreads.bind (Pthreads.from_rest not_filled)
         (fun v =>
            Pthreads.bind (Pthreads.perform (Pthreads.SayGot v))
              (fun _ => Pthreads.denote not_filled bound (k v))))
| same_close (n : nat) (k : prog) :
    same_code
      (close_and_join n ;; denote not_filled bound k)
      (Pthreads.bind (Pthreads.close_and_join n)
         (fun _ => Pthreads.denote not_filled bound k))
| same_hooks (block free : ptr) (p : prog) :
    same_code (setting_hooks not_filled bound block free p)
      (Pthreads.denote not_filled bound p).

(** The value of [in_child] while a party runs. *)
Definition flag (t : party) : Z :=
  match t with Parent => 0 | Child => 1 end.

(** The stores of the two backends while party [t] runs user code: same
    entry, same slot, same observable events; on kernel threads the other
    thread stays as it is, [parked], and once the entry is empty the child
    thread has returned. *)
Record agree (t : party) (parked : Pthreads.thread) (sn : store)
    (sp : Pthreads.store) : Prop := mkAgree {
  ag_func : func (chan sn) = Pthreads.func (Pthreads.chan sp);
  ag_value : value (chan sn) = Pthreads.value (Pthreads.chan sp);
  ag_trace : observe (trace sn) = observe (Pthreads.trace sp);
  ag_turn : turn sn = t;
  ag_self : Pthreads.self sp = t;
  ag_flag : Pthreads.in_child (Pthreads.chan sp) = flag t;
  ag_parked : Pthreads.thread_of (peer t) sp = parked;
  ag_done :
    Pthreads.func (Pthreads.chan sp) = NULL ->
    Pthreads.child_thread sp = Pthreads.Returned
}.

(** The store when [context_switch] blocks: the flag is flipped, the peer
    is woken, the mutex is free. *)
Definition handed_off (sp : Pthreads.store) : Pthreads.store :=
  Pthreads.with_owner None
    (Pthreads.signalled
       (Pthreads.with_chan
          (Pthreads.set Pthreads.In_child
             (Pthreads.logical_not (Pthreads.in_child (Pthreads.chan sp)))
             (Pthreads.chan sp))
          sp)).

(** The store when the thread function of the child returns. *)
Definition left_by_child (sp : Pthreads.store) : Pthreads.store :=
  Pthreads.with_owner None
    (Pthreads.signalled
       (Pthreads.with_chan
          (Pthreads.set Pthreads.In_child 0
             (Pthreads.set Pthreads.Func NULL (Pthreads.chan sp)))
          sp)).

(** The store after [channel_join_and_cleanup]. *)
Definition cleaned (sp : Pthreads.store) : Pthreads.store :=
  let c := (Pthreads.count sp - 1) mod 2 ^ Pthreads.ULONG_WIDTH in
  if c =? 0 then
    Pthreads.with_tls (Pthreads.self sp) NULL
      (Pthreads.with_owner None (Pthreads.with_count c sp))
  else Pthreads.with_count c sp.

(** Where the code of the two backends stops, from stores that agree. *)
Definition matched (t : party) (parked : Pthreads.thread)
    (on : outcome unit) (op : Pthreads.outcome unit) : Prop :=
  match on, op with
  | Finished _ sn, Pthreads.Finished _ sp => agree t parked sn sp
  | AtSwap un sn, Pthreads.AtWait b up sp =>
      same_code un up /\ b = flag t
      /\ exists sp0, agree t parked sn sp0 /\ sp = handed_off sp0
  | AtCall f a kn sn, Pthreads.AtCall f' a' kp sp =>
      f = f' /\ a = a' /\ kn = Ret tt /\ kp = Pthreads.Ret tt
      /\ agree t parked sn sp
  | Stopped r sn, Pthreads.Stopped r' sp => r = r' /\ agree t parked sn sp
  | _, _ => False
  end.

End Backends.

(** ** Runs of the two backends side by side *)

Section Simulation.

Variable not_filled : ptr.

Variable bound : nat.

(** [coroutine_create] after [pthread_create]. *)
Definition create_tail : Pthreads.act unit :=
  Pthreads.bind (Pthreads.perform Pthreads.CondSignal)
    (fun _ => Pthreads.perform (Pthreads.CondWaitUntil 0)).

(** The thread function of the child after [pthread_mutex_lock]. *)
Definition springboard_locked : Pthreads.act unit :=
  Pthreads.bind (Pthreads.perform (Pthreads.LoadField Pthreads.Value))
    (fun arg =>
       Pthreads.bind
         (Pthreads.perform (Pthreads.StoreField Pthreads.Value not_filled))
         (fun _ =>
            Pthreads.bind (Pthreads.perform (Pthreads.LoadField Pthreads.Func))
              (fun f =>
                 Pthreads.bind (Pthreads.perform (Pthreads.Call f arg))
                   (fun _ => Pthreads.springboard_exit)))).

(** Thread [t] is blocked in the loop of [context_switch] or of
    [coroutine_create], with [k] to run when [in_child] is its own flag
    again. *)
Definition waits (t : party) (sp : Pthreads.store) (k : Pthreads.act unit)
  : Prop :=
  Pthreads.thread_of t sp = Pthreads.Waiting (flag t) k
  \/ Pthreads.thread_of t sp = Pthreads.Woken (flag t) k.

(** Thread [t] runs [k], or has been woken to run it and finds the mutex
    free. *)
Definition runs (t : party) (sp : Pthreads.store) (k : Pthreads.act unit)
  : Prop :=
  Pthreads.thread_of t sp = Pthreads.Ready k
  \/ (Pthreads.thread_of t sp = Pthreads.Woken (flag t) k
      /\ Pthreads.owner sp = None).

(** The child thread has not yet called the entry function. *)
Definition starting (sp : Pthreads.store) : Prop :=
  Pthreads.child_thread sp = Pthreads.Ready (Pthreads.springboard not_filled)
  \/ Pthreads.child_thread sp = Pthreads.Locking springboard_locked.

(** The threads between [pthread_create] and the call of the entry
    function: the parent holds the mutex until it waits. *)
Definition creating (sp : Pthreads.store) (kp : Pthreads.act unit) : Prop :=
  (Pthreads.parent_thread sp = Pthreads.Ready (Pthreads.bind create_tail (fun _ => kp))
   /\ Pthreads.owner sp = Some Parent /\ starting sp)
  \/ (waits Parent sp kp
      /\ ((Pthreads.owner sp = None /\ starting sp)
          \/ Pthreads.child_thread sp = Pthreads.Ready springboard_locked)).

(** The assembly backend has jumped into a context that has no code. *)
Definition stuck (st : status) : Prop :=
  match st with
  | Continue m => running m = never Unreachable
  | Halted r _ => r = Undefined_behaviour
  | Exited _ => False
  end.

(** A state of the threads and the state of the two stacks it stands for. *)
Inductive sim : Pthreads.status -> status -> Prop :=
| sim_creating sp m un up :
    running m = springboard not_filled ->
    turn (mem m) = Child ->
    context_inactive (chan (mem m)) = (un ;; Ret tt) ->
    same_code not_filled bound un up ->
    func (chan (mem m)) = Pthreads.func (Pthreads.chan sp) ->
    value (chan (mem m)) = Pthreads.value (Pthreads.chan sp) ->
    observe (trace (mem m)) = observe (Pthreads.trace sp) ->
    Pthreads.in_child (Pthreads.chan sp) = 1 ->
    creating sp (Pthreads.bind up (fun _ => Pthreads.Ret tt)) ->
    sim (Pthreads.Continue sp) (Continue m)
| sim_child sp m un up vn vp :
    running m = (un ;; springboard_exit) ->
    same_code not_filled bound un up ->
    context_inactive (chan (mem m)) = (vn ;; Ret tt) ->
    same_code not_filled bound vn vp ->
    func (chan (mem m)) <> NULL ->
    agree Child (Pthreads.parent_thread sp) (mem m) (Pthreads.with_self Child sp) ->
    waits Parent sp (Pthreads.bind vp (fun _ => Pthreads.Ret tt)) ->
    runs Child sp (Pthreads.bind up (fun _ => Pthreads.springboard_exit)) ->
    sim (Pthreads.Continue sp) (Continue m)
| sim_parent sp m un up vn vp :
    running m = (vn ;; Ret tt) ->
    same_code not_filled bound vn vp ->
    context_inactive (chan (mem m)) = (un ;; springboard_exit) ->
    same_code not_filled bound un up ->
    func (chan (mem m)) <> NULL ->
    agree Parent (Pthreads.child_thread sp) (mem m) (Pthreads.with_self Parent sp) ->
    waits Child sp (Pthreads.bind up (fun _ => Pthreads.springboard_exit)) ->
    runs Parent sp (Pthreads.bind vp (fun _ => Pthreads.Ret tt)) ->
    sim (Pthreads.Continue sp) (Continue m)
| sim_done sp m vn vp :
    running m = (vn ;; Ret tt) ->
    same_code not_filled bound vn vp ->
    context_inactive (chan (mem m)) = never Unreachable ->
    func (chan (mem m)) = NULL ->
    agree Parent Pthreads.Returned (mem m) (Pthreads.with_self Parent sp) ->
    runs Parent sp (Pthreads.bind vp (fun _ => Pthreads.Ret tt)) ->
    sim (Pthreads.Continue sp) (Continue m)
| sim_lost sp st b k :
    stuck st ->
    observe (trace (store_of st)) = observe (Pthreads.trace sp) ->
    Pthreads.child_thread sp = Pthreads.Returned ->
    Pthreads.parent_thread sp = Pthreads.Waiting b k
    \/ Pthreads.parent_thread sp = Pthreads.Woken b k ->
    Pthreads.in_child (Pthreads.chan sp) <> b ->
    sim (Pthreads.Continue sp) st
| sim_exited sp sn :
    observe (trace sn) = observe (Pthreads.trace sp) ->
    sim (Pthreads.Exited sp) (Exited sn)
| sim_halted r sp sn :
    observe (trace sn) = observe (Pthreads.trace sp) ->
    sim (Pthreads.Halted r sp) (Halted r sn).

(** The state after the next step of the two stacks. *)
Definition next (text : ptr -> option (ptr -> act unit)) (st : status) : status :=
  match st with
  | Continue m => step not_filled text m
  | _ => st
  end.

End Simulation.

(** The constructor gets its memory. *)
Definition can_create (target : abi) (c : creator) (heap : Z -> Z -> option ptr)
  : Prop :=
  match c with
  | Given_memory _ _ => True
  | Allocating _ => heap (STACK_ALIGNMENT target) 524288 <> None
  end.

(** The program has returned from [main]. *)
Definition has_exited (st : status) : Prop :=
  match st with
  | Exited _ => True
  | _ => False
  end.

Definition threads_have_exited (st : Pthreads.status) : Prop :=
  match st with
  | Pthreads.Exited _ => True
  | _ => False
  end.

(** * Further properties: vocabulary *)

(** A pointer has the width of [size_t] on the targets of coroutine.c:
    what the processor makes of an address it computes. *)
Definition pointer_value (target : abi) (address : Z) : Z :=
  address mod 2 ^ SIZE_WIDTH target.

(** What a block of [blocksize] bytes lacks to hold the record, rounded up
    to a multiple of the stack alignment. *)
Definition lacking (target : abi) (blocksize : Z) : Z :=
  STACK_ALIGNMENT target *
  ((sizeof_struct_channel target - blocksize + STACK_ALIGNMENT target - 1)
   / STACK_ALIGNMENT target).

(** The values the calls of [from] by party [who] have returned, oldest
    first. *)
Fixpoint gots (who : party) (tr : list event) : list ptr :=
  match tr with
  | [] => []
  | Got Parent v :: tr' =>
      match who with Parent => v :: gots who tr' | Child => gots who tr' end
  | Got Child v :: tr' =>
      match who with Child => v :: gots who tr' | Parent => gots who tr' end
  | _ :: tr' => gots who tr'
  end.

(** The calls of a release function, oldest first. *)
Fixpoint releases (tr : list event) : list (party * ptr * ptr) :=
  match tr with
  | [] => []
  | Freed who f p :: tr' => (who, f, p) :: releases tr'
  | _ :: tr' => releases tr'
  end.
(** The parent thread is blocked in the wait loop of [context_switch] for
    ever: the child thread has returned and the flag is not the one the
    parent waits for. *)
Definition parent_waits_for_ever (tr : list event) (k : Pthreads.act unit)
    (st : Pthreads.status) : Prop :=
  exists sp b,
    st = Pthreads.Continue sp
    /\ Pthreads.child_thread sp = Pthreads.Returned
    /\ (Pthreads.parent_thread sp = Pthreads.Waiting b k
        \/ Pthreads.parent_thread sp = Pthreads.Woken b k)
    /\ Pthreads.in_child (Pthreads.chan sp) <> b
    /\ Pthreads.trace sp = tr.

(** ** Who calls the release function of [coroutine_create], and when *)

(** The code of the parent's stack: what runs, or the context in the
    record while the child runs. *)
Definition parent_stack (m : machine) : act unit :=
  match turn (mem m) with
  | Parent => running m
  | Child => context_inactive (chan (mem m))
  end.

Section Custody.

Variable not_filled : ptr.

Variable bound : nat.

(** The address of libc's [free] and the block [posix_memalign] gave. *)
Variables free block : ptr.

(** [coroutine_create] has not yet recorded the release hook. *)
Definition hook_pending (s : store) : Prop :=
  free_func (chan s) = NULL /\ releases (trace s) = [].

(** No release function has been called while the entry is not empty, and
    every call was made on the parent's stack, of [free], with the block. *)
Definition released_by_the_parent (s : store) : Prop :=
  (func (chan s) <> NULL -> releases (trace s) = [])
  /\ Forall (eq (Parent, free, block)) (releases (trace s)).

Definition hook_set (s : store) : Prop :=
  free_func (chan s) = free /\ free_after (chan s) = block
  /\ released_by_the_parent s.

Definition custody (m : machine) : Prop :=
  (hook_pending (mem m)
   /\ exists rest,
       parent_stack m = (setting_hooks not_filled bound block free rest ;; Ret tt))
  \/ (hook_set (mem m)
      /\ exists u, user_code not_filled bound u /\ parent_stack m = (u ;; Ret tt)).

Definition in_custody (st : status) : Prop :=
  match st with
  | Continue m => custody m
  | Exited s | Halted _ s => released_by_the_parent s
  end.

End Custody.

(** ** Programs of the tests, for any data *)

(** generator: [for (...) yield_to(parent, ...)], here for the values of a
    list, then return. *)
Fixpoint yields (vs : list ptr) : prog :=
  match vs with
  | [] => Return
  | v :: vs' => Yield_to v (yields vs')
  end.

(** consumer: [for (...; (p = from(child)); ) ...], the loop being the
    function at address [loop]. *)
Definition consumer (loop : ptr) (a : ptr) : prog :=
  From (fun v => if v =? NULL then Return else Goto loop a).

(** The calls of the release function by [from] or [close_and_join] on a
    channel with the hook ([free_func], [free_after]). *)
Definition hook_call (free_func free_after : ptr) : list (party * ptr * ptr) :=
  if free_func =? NULL then [] else [(Parent, free_func, free_after)].

(** What a constructor records as release hook once the child has switched
    back for the first time: [coroutine_create] the block and [free],
    [coroutine_create_given_memory] nothing. *)
Definition hook_written (target : abi) (c : creator)
    (heap : Z -> Z -> option ptr) : option (ptr * ptr) :=
  match c with
  | Given_memory _ _ => None
  | Allocating free =>
      match heap (STACK_ALIGNMENT target) 524288 with
      | Some block => Some (block, free)
      | None => None
      end
  end.

Definition hooked (h : option (ptr * ptr)) (s : store) : store :=
  match h with
  | Some (block, free) => written Free_func free (written Free_after block s)
  | None => s
  end.

Definition hook_calls (h : option (ptr * ptr)) : list (party * ptr * ptr) :=
  match h with
  | Some (block, free) => hook_call free block
  | None => []
  end.

(** cooperative_multitasking_child and its parents: [n] calls of
    [coroutine_switch], then the rest. *)
Fixpoint switches (n : nat) (p : prog) : prog :=
  match n with
  | O => p
  | S n' => Coroutine_switch (switches n' p)
  end.

(** mirror: [for (...; (string = from(parent)); ) yield_to(parent, f string)],
    the loop being the function itself, at address [self]. *)
Definition mirror (f : ptr -> ptr) (self a : ptr) : prog :=
  From (fun v => if v =? NULL then Return else Yield_to (f v) (Goto self a)).

(** two_way_example: [yield_to(child, w); from(child)] for every [w] of a
    list, then [close_and_join(child)]. *)
Fixpoint sends (ws : list ptr) : prog :=
  match ws with
  | [] => Close_and_join Return
  | w :: ws' => Yield_to w (From (fun _ => sends ws'))
  end.

(** * The assembly macros, instruction by instruction

    SWAP_CONTEXT and BOOTSTRAP_CONTEXT of coroutine.c are blocks of inline
    assembly without a branch inside; each is embedded as the list of its
    instructions, run in order on the registers and the memory of the
    machine.  Memory is an array of bytes; the targets modelled are
    little-endian. *)

Module Bytes.

Definition memory := Z -> Z.

(** The [n] bytes at [a], least significant first, as a number. *)
Fixpoint load (n : nat) (a : Z) (m : memory) : Z :=
  match n with
  | O => 0
  | S n' => m a + 256 * load n' (a + 1) m
  end.

(** The [n] low bytes of [v] written at [a], least significant first. *)
Fixpoint store (n : nat) (a v : Z) (m : memory) : memory :=
  match n with
  | O => m
  | S n' => store n' (a + 1) (v / 256) (fun x => if x =? a then v mod 256 else m x)
  end.

End Bytes.

(** ** x86_64 *)

Module X86_64.

Inductive reg :=
| RAX | RBX | RCX | RDX | RSI | RDI | RBP | RSP
| R8 | R9 | R10 | R11 | R12 | R13 | R14 | R15.

Definition reg_eqb (a b : reg) : bool :=
  match a, b with
  | RAX, RAX | RBX, RBX | RCX, RCX | RDX, RDX | RSI, RSI | RDI, RDI
  | RBP, RBP | RSP, RSP | R8, R8 | R9, R9 | R10, R10 | R11, R11
  | R12, R12 | R13, R13 | R14, R14 | R15, R15 => true
  | _, _ => false
  end.

Record state := mkState {
  regs : reg -> Z;
  rip : Z;
  mem : Bytes.memory
}.

Definition wrap (x : Z) : Z := x mod 2 ^ 64.

Definition set_reg (r : reg) (v : Z) (s : state) : state :=
  mkState (fun r' => if reg_eqb r' r then v else regs s r') (rip s) (mem s).

Definition set_mem (m : Bytes.memory) (s : state) : state :=
  mkState (regs s) (rip s) m.

Definition set_rip (v : Z) (s : state) : state :=
  mkState (regs s) v (mem s).

(** The instructions of the two macros, in AT&T syntax: source first.
    [lea_rip l r] is [lea l(%rip), %r] for a label [l]; [call_reg r ret] is
    [call *%r], the instruction that follows it being at [ret]. *)
Inductive instr :=
| lea_rip (label : Z) (dst : reg)
| movq_store (src : reg) (off : Z) (base : reg)
| movq_load (off : Z) (base : reg) (dst : reg)
| movq (src dst : reg)
| call_reg (target : reg) (return_address : Z)
| jmp_reg (target : reg).

Definition exec_instr (i : instr) (s : state) : state :=
  match i with
  | lea_rip l dst => set_reg dst l s
  | movq_store src off base =>
      set_mem (Bytes.store 8 (wrap (regs s base + off)) (regs s src) (mem s)) s
  | movq_load off base dst =>
      set_reg dst (Bytes.load 8 (wrap (regs s base + off)) (mem s)) s
  | movq src dst => set_reg dst (regs s src) s
  | call_reg target ret =>
      let sp := wrap (regs s RSP - 8) in
      set_rip (regs s target)
        (set_reg RSP sp (set_mem (Bytes.store 8 sp ret (mem s)) s))
  | jmp_reg target => set_rip (regs s target) s
  end.

Definition run (code : list instr) (s : state) : state :=
  fold_left (fun s i => exec_instr i s) code s.

(** [_buf] is in rdx and [_func] in rsi; [label_1] is the address of the
    label [1:] at the end of the block. *)
Definition BOOTSTRAP_CONTEXT (label_1 : Z) : list instr :=
  [ lea_rip label_1 R8;
    movq_store R8 0 RDX;
    movq_store RSP 8 RDX;
    movq_store RBP 16 RDX;
    movq RDX RSP;
    movq RDX RDI;
    call_reg RSI label_1 ].

(** [_buf] is in rdi. *)
Definition SWAP_CONTEXT (label_1 : Z) : list instr :=
  [ movq_load 0 RDI RSI;
    movq_load 8 RDI RDX;
    movq_load 16 RDI RCX;
    lea_rip label_1 R8;
    movq_store R8 0 RDI;
    movq_store RSP 8 RDI;
    movq_store RBP 16 RDI;
    movq RDX RSP;
    movq RCX RBP;
    jmp_reg RSI ].

(** A saved context: where to resume, and the stack and frame pointers. *)
Record context := mkContext {
  saved_rip : Z;
  saved_rsp : Z;
  saved_rbp : Z
}.

(** The context buffer at [buf] holds [c]. *)
Definition holds (m : Bytes.memory) (buf : Z) (c : context) : Prop :=
  Bytes.load 8 buf m = saved_rip c
  /\ Bytes.load 8 (buf + 8) m = saved_rsp c
  /\ Bytes.load 8 (buf + 16) m = saved_rbp c.

(** The context the machine is in. *)
Definition current (s : state) : context :=
  mkContext (rip s) (regs s RSP) (regs s RBP).

Definition word (v : Z) : Prop := 0 <= v < 2 ^ 64.

End X86_64.

(** ** aarch64 *)

Module Aarch64.

(** x0 to x30, and the stack pointer. *)
Inductive reg :=
| X (n : nat)
| SP.

Definition reg_eqb (a b : reg) : bool :=
  match a, b with
  | X n, X n' => Nat.eqb n n'
  | SP, SP => true
  | _, _ => false
  end.

Record state := mkState {
  regs : reg -> Z;
  pc : Z;
  mem : Bytes.memory
}.

Definition wrap (x : Z) : Z := x mod 2 ^ 64.

Definition set_reg (r : reg) (v : Z) (s : state) : state :=
  mkState (fun r' => if reg_eqb r' r then v else regs s r') (pc s) (mem s).

Definition set_mem (m : Bytes.memory) (s : state) : state :=
  mkState (regs s) (pc s) m.

Definition set_pc (v : Z) (s : state) : state :=
  mkState (regs s) v (mem s).

(** The instructions of the two macros, destination first: [stp a b n off]
    is [stp a, b, [n, #off]] and [ldp a b n off] is [ldp a, b, [n, #off]]. *)
Inductive instr :=
| adr (dst : reg) (label : Z)
| mov (dst src : reg)
| stp (first second base : reg) (off : Z)
| ldp (first second base : reg) (off : Z)
| br (target : reg).

Definition exec_instr (i : instr) (s : state) : state :=
  match i with
  | adr dst l => set_reg dst l s
  | mov dst src => set_reg dst (regs s src) s
  | stp a b base off =>
      let address := wrap (regs s base + off) in
      set_mem (Bytes.store 8 (address + 8) (regs s b)
                 (Bytes.store 8 address (regs s a) (mem s))) s
  | ldp a b base off =>
      let address := wrap (regs s base + off) in
      set_reg b (Bytes.load 8 (address + 8) (mem s))
        (set_reg a (Bytes.load 8 address (mem s)) s)
  | br target => set_pc (regs s target) s
  end.

Definition run (code : list instr) (s : state) : state :=
  fold_left (fun s i => exec_instr i s) code s.

(** [_buf] is in x0 and [_func] in x1; [label_0] is the address of the
    label [0:] at the end of the block. *)
Definition BOOTSTRAP_CONTEXT (label_0 : Z) : list instr :=
  [ adr (X 4) label_0;
    mov (X 5) SP;
    stp (X 4) (X 5) (X 0) 0;
    stp (X 29) (X 18) (X 0) 16;
    mov (X 5) (X 0);
    mov SP (X 5);
    br (X 1) ].

Definition SWAP_CONTEXT (label_0 : Z) : list instr :=
  [ ldp (X 6) (X 7) (X 0) 0;
    ldp (X 8) (X 9) (X 0) 16;
    adr (X 4) label_0;
    mov (X 5) SP;
    stp (X 4) (X 5) (X 0) 0;
    stp (X 29) (X 18) (X 0) 16;
    mov (X 29) (X 8);
    mov (X 18) (X 9);
    mov SP (X 7);
    br (X 6) ].

(** A saved context: where to resume, the stack pointer, the frame pointer
    x29 and the platform register x18. *)
Record context := mkContext {
  saved_pc : Z;
  saved_sp : Z;
  saved_x29 : Z;
  saved_x18 : Z
}.

Definition holds (m : Bytes.memory) (buf : Z) (c : context) : Prop :=
  Bytes.load 8 buf m = saved_pc c
  /\ Bytes.load 8 (buf + 8) m = saved_sp c
  /\ Bytes.load 8 (buf + 16) m = saved_x29 c
  /\ Bytes.load 8 (buf + 24) m = saved_x18 c.

Definition current (s : state) : context :=
  mkContext (pc s) (regs s SP) (regs s (X 29)) (regs s (X 18)).

Definition word (v : Z) : Prop := 0 <= v < 2 ^ 64.

End Aarch64.

(** ** riscv, 64 bits *)

Module Riscv64.

(** x0 to x31; x0 reads as zero. *)
Inductive reg :=
| x (n : nat).

Definition reg_eqb (a b : reg) : bool :=
  match a, b with
  | x n, x n' => Nat.eqb n n'
  end.

Record state := mkState {
  regs : reg -> Z;
  pc : Z;
  mem : Bytes.memory
}.

Definition wrap (v : Z) : Z := v mod 2 ^ 64.

Definition get_reg (r : reg) (s : state) : Z :=
  if reg_eqb r (x 0) then 0 else regs s r.

Definition set_reg (r : reg) (v : Z) (s : state) : state :=
  if reg_eqb r (x 0) then s
  else mkState (fun r' => if reg_eqb r' r then v else regs s r') (pc s) (mem s).

Definition set_mem (m : Bytes.memory) (s : state) : state :=
  mkState (regs s) (pc s) m.

Definition set_pc (v : Z) (s : state) : state :=
  mkState (regs s) v (mem s).

(** The instructions of the two macros: [sd src off base] is
    [sd src, off(base)] and [ld dst off base] is [ld dst, off(base)]. *)
Inductive instr :=
| la (dst : reg) (label : Z)
| sd (src : reg) (off : Z) (base : reg)
| ld (dst : reg) (off : Z) (base : reg)
| mv (dst src : reg)
| jr (target : reg).

Definition exec_instr (i : instr) (s : state) : state :=
  match i with
  | la dst l => set_reg dst l s
  | sd src off base =>
      set_mem (Bytes.store 8 (wrap (get_reg base s + off)) (get_reg src s) (mem s)) s
  | ld dst off base =>
      set_reg dst (Bytes.load 8 (wrap (get_reg base s + off)) (mem s)) s
  | mv dst src => set_reg dst (get_reg src s) s
  | jr target => set_pc (get_reg target s) s
  end.

Definition run (code : list instr) (s : state) : state :=
  fold_left (fun s i => exec_instr i s) code s.

(** [_buf] is in x10 and [_func] in x11; [label_1] is the address of the
    label [1:] at the end of the block. *)
Definition BOOTSTRAP_CONTEXT (label_1 : Z) : list instr :=
  [ la (x 6) label_1;
    sd (x 6) 0 (x 10);
    sd (x 2) 8 (x 10);
    sd (x 8) 16 (x 10);
    sd (x 1) 24 (x 10);
    mv (x 2) (x 10);
    jr (x 11) ].

Definition SWAP_CONTEXT (label_1 : Z) : list instr :=
  [ ld (x 11) 0 (x 10);
    ld (x 12) 8 (x 10);
    ld (x 13) 16 (x 10);
    ld (x 14) 24 (x 10);
    la (x 6) label_1;
    sd (x 6) 0 (x 10);
    sd (x 2) 8 (x 10);
    sd (x 8) 16 (x 10);
    sd (x 1) 24 (x 10);
    mv (x 2) (x 12);
    mv (x 8) (x 13);
    mv (x 1) (x 14);
    jr (x 11) ].

(** A saved context: where to resume, the stack pointer x2, the frame
    pointer x8 and the return address x1. *)
Record context := mkContext {
  saved_pc : Z;
  saved_x2 : Z;
  saved_x8 : Z;
  saved_x1 : Z
}.

Definition holds (m : Bytes.memory) (buf : Z) (c : context) : Prop :=
  Bytes.load 8 buf m = saved_pc c
  /\ Bytes.load 8 (buf + 8) m = saved_x2 c
  /\ Bytes.load 8 (buf + 16) m = saved_x8 c
  /\ Bytes.load 8 (buf + 24) m = saved_x1 c.

Definition current (s : state) : context :=
  mkContext (pc s) (regs s (x 2)) (regs s (x 8)) (regs s (x 1)).

Definition word (v : Z) : Prop := 0 <= v < 2 ^ 64.

End Riscv64.

(** ** i386 *)

Module I386.

Inductive reg := EAX | EBX | ECX | EDX | ESI | EDI | EBP | ESP.

Definition reg_eqb (a b : reg) : bool :=
  match a, b with
  | EAX, EAX | EBX, EBX | ECX, ECX | EDX, EDX
  | ESI, ESI | EDI, EDI | EBP, EBP | ESP, ESP => true
  | _, _ => false
  end.

Record state := mkState {
  regs : reg -> Z;
  eip : Z;
  mem : Bytes.memory
}.

Definition wrap (v : Z) : Z := v mod 2 ^ 32.

Definition set_reg (r : reg) (v : Z) (s : state) : state :=
  mkState (fun r' => if reg_eqb r' r then v else regs s r') (eip s) (mem s).

Definition set_mem (m : Bytes.memory) (s : state) : state :=
  mkState (regs s) (eip s) m.

Definition set_eip (v : Z) (s : state) : state :=
  mkState (regs s) v (mem s).

(** [push]: the stack pointer goes down by 4, then the value is stored. *)
Definition pushed (v : Z) (s : state) : state :=
  let sp := wrap (regs s ESP - 4) in
  set_reg ESP sp (set_mem (Bytes.store 4 sp v (mem s)) s).

(** The instructions of the two macros, in AT&T syntax: source first.
    [call_next l] is [call 0f] where the label [0:], at address [l], is on
    the next instruction; [add_imm i r] is [add $i, %r]; [call_reg r ret]
    is [call *%r], the instruction that follows it being at [ret]. *)
Inductive instr :=
| call_next (label_0 : Z)
| pop (dst : reg)
| add_imm (imm : Z) (dst : reg)
| sub_imm (imm : Z) (dst : reg)
| mov_store (src : reg) (off : Z) (base : reg)
| mov_load (off : Z) (base : reg) (dst : reg)
| mov (src dst : reg)
| push (src : reg)
| call_reg (target : reg) (return_address : Z)
| jmp_reg (target : reg).

Definition exec_instr (i : instr) (s : state) : state :=
  match i with
  | call_next l => pushed l s
  | pop dst =>
      set_reg dst (Bytes.load 4 (regs s ESP) (mem s))
        (set_reg ESP (wrap (regs s ESP + 4)) s)
  | add_imm imm dst => set_reg dst (wrap (regs s dst + imm)) s
  | sub_imm imm dst => set_reg dst (wrap (regs s dst - imm)) s
  | mov_store src off base =>
      set_mem (Bytes.store 4 (wrap (regs s base + off)) (regs s src) (mem s)) s
  | mov_load off base dst =>
      set_reg dst (Bytes.load 4 (wrap (regs s base + off)) (mem s)) s
  | mov src dst => set_reg dst (regs s src) s
  | push src => pushed (regs s src) s
  | call_reg target ret => set_eip (regs s target) (pushed ret s)
  | jmp_reg target => set_eip (regs s target) s
  end.

Definition run (code : list instr) (s : state) : state :=
  fold_left (fun s i => exec_instr i s) code s.

(** [_buf] is in edx and [_func] in esi; [label_0] and [label_1] are the
    addresses of the labels [0:] and [1:] of the block. *)
Definition BOOTSTRAP_CONTEXT (label_0 label_1 : Z) : list instr :=
  [ call_next label_0;
    pop EAX;
    add_imm (label_1 - label_0) EAX;
    mov_store EAX 0 EDX;
    mov_store ESP 4 EDX;
    mov_store EBP 8 EDX;
    mov EDX ESP;
    mov EDX EDI;
    sub_imm 12 ESP;
    push EDX;
    call_reg ESI label_1 ].

Definition SWAP_CONTEXT (label_0 label_1 : Z) : list instr :=
  [ mov_load 0 EDX ESI;
    mov_load 4 EDX EDI;
    mov_load 8 EDX ECX;
    call_next label_0;
    pop EAX;
    add_imm (label_1 - label_0) EAX;
    mov_store EAX 0 EDX;
    mov_store ESP 4 EDX;
    mov_store EBP 8 EDX;
    mov EDI ESP;
    mov ECX EBP;
    jmp_reg ESI ].

Record context := mkContext {
  saved_eip : Z;
  saved_esp : Z;
  saved_ebp : Z
}.

Definition holds (m : Bytes.memory) (buf : Z) (c : context) : Prop :=
  Bytes.load 4 buf m = saved_eip c
  /\ Bytes.load 4 (buf + 4) m = saved_esp c
  /\ Bytes.load 4 (buf + 8) m = saved_ebp c.

Definition current (s : state) : context :=
  mkContext (eip s) (regs s ESP) (regs s EBP).

Definition word (v : Z) : Prop := 0 <= v < 2 ^ 32.

End I386.

(** ** arm, other than armv6-m *)

Module Arm.

(** r0 to r12, the stack pointer and the link register. *)
Inductive reg :=
| R (n : nat)
| SP
| LR.

Definition reg_eqb (a b : reg) : bool :=
  match a, b with
  | R n, R n' => Nat.eqb n n'
  | SP, SP | LR, LR => true
  | _, _ => false
  end.

(** [thumb] is the T bit: the instruction set the processor is in. *)
Record state := mkState {
  regs : reg -> Z;
  pc : Z;
  thumb : bool;
  mem : Bytes.memory
}.

Definition wrap (v : Z) : Z := v mod 2 ^ 32.

Definition set_reg (r : reg) (v : Z) (s : state) : state :=
  mkState (fun r' => if reg_eqb r' r then v else regs s r') (pc s) (thumb s) (mem s).

Definition set_mem (m : Bytes.memory) (s : state) : state :=
  mkState (regs s) (pc s) (thumb s) m.

(** An interworking branch: bit 0 of the target selects the instruction
    set and is not part of the address. *)
Definition branch (v : Z) (s : state) : state :=
  mkState (regs s) (2 * (v / 2)) (Z.odd v) (mem s).

(** The instructions of the two macros: [push2 a b] is [push {a, b}], the
    lower register at the lower address; [pop_pc a] is [pop {a, pc}];
    [str src base] is [str src, [base]] and [ldr dst base] is
    [ldr dst, [base]]. *)
Inductive instr :=
| adr (dst : reg) (label : Z)
| orr_imm (dst : reg) (imm : Z)
| push2 (first second : reg)
| pop_pc (first : reg)
| mov (dst src : reg)
| str (src base : reg)
| ldr (dst base : reg)
| bx (target : reg).

Definition exec_instr (i : instr) (s : state) : state :=
  match i with
  | adr dst l => set_reg dst l s
  | orr_imm dst imm => set_reg dst (Z.lor (regs s dst) imm) s
  | push2 a b =>
      let sp := wrap (regs s SP - 8) in
      set_reg SP sp
        (set_mem (Bytes.store 4 (sp + 4) (regs s b)
                    (Bytes.store 4 sp (regs s a) (mem s))) s)
  | pop_pc a =>
      let sp := regs s SP in
      branch (Bytes.load 4 (sp + 4) (mem s))
        (set_reg SP (wrap (sp + 8)) (set_reg a (Bytes.load 4 sp (mem s)) s))
  | mov dst src => set_reg dst (regs s src) s
  | str src base => set_mem (Bytes.store 4 (regs s base) (regs s src) (mem s)) s
  | ldr dst base => set_reg dst (Bytes.load 4 (regs s base) (mem s)) s
  | bx target => branch (regs s target) s
  end.

Definition run (code : list instr) (s : state) : state :=
  fold_left (fun s i => exec_instr i s) code s.

(** [orr lr, #1] when the code is compiled to Thumb, nothing otherwise. *)
Definition SET_LSB_IN_LR_IF_THUMB (compiled_to_thumb : bool) : list instr :=
  if compiled_to_thumb then [orr_imm LR 1] else [].

(** [_buf] is in r0 and [_func] in r1; [label_0] is the address of the
    label [0:] at the end of the block. *)
Definition BOOTSTRAP_CONTEXT (compiled_to_thumb : bool) (label_0 : Z) : list instr :=
  [adr LR label_0]
  ++ SET_LSB_IN_LR_IF_THUMB compiled_to_thumb
  ++ [ push2 (R 11) LR;
       mov (R 5) SP;
       str (R 5) (R 0);
       mov SP (R 0);
       bx (R 1) ].

Definition SWAP_CONTEXT (compiled_to_thumb : bool) (label_0 : Z) : list instr :=
  [adr LR label_0]
  ++ SET_LSB_IN_LR_IF_THUMB compiled_to_thumb
  ++ [ push2 (R 11) LR;
       ldr (R 6) (R 0);
       mov (R 4) SP;
       str (R 4) (R 0);
       mov SP (R 6);
       pop_pc (R 11) ].

(** The value left in [lr] for the address [label_0]. *)
Definition return_value (compiled_to_thumb : bool) (label_0 : Z) : Z :=
  if compiled_to_thumb then Z.lor label_0 1 else label_0.

(** A context: where the machine goes on and in which instruction set,
    the stack pointer and the frame pointer r11. *)
Record context := mkContext {
  saved_pc : Z;
  saved_thumb : bool;
  saved_sp : Z;
  saved_r11 : Z
}.

(** A suspended context: the buffer holds the stack pointer, and the two
    words at the top of that stack are r11 and the return value. *)
Definition suspended (m : Bytes.memory) (buf : Z) (c : context) (ret : Z) : Prop :=
  let sp := Bytes.load 4 buf m in
  saved_sp c = sp + 8
  /\ Bytes.load 4 sp m = saved_r11 c
  /\ Bytes.load 4 (sp + 4) m = ret
  /\ saved_pc c = 2 * (ret / 2)
  /\ saved_thumb c = Z.odd ret.

Definition current (s : state) : context :=
  mkContext (pc s) (thumb s) (regs s SP) (regs s (R 11)).

Definition word (v : Z) : Prop := 0 <= v < 2 ^ 32.

(** Two ranges of addresses [a, a + n) and [b, b + k) without a byte in
    common. *)
Definition apart (a n b k : Z) : Prop := a + n <= b \/ b + k <= a.

End Arm.

(** * The ucontext backend

    The alternative implementation of coroutine.h on getcontext,
    makecontext, swapcontext and setcontext.  The record holds a pointer
    [inactive] to a [ucontext_t] that is a local variable of whichever
    function switched away last; such a variable is modelled by a number,
    given when it is declared, and by what it holds until the function that
    declared it returns. *)

Module Ucontext.

Definition STACK_ALIGNMENT : Z := 64.

(** A [ucontext_t] local variable. *)
Definition ref := nat.

Inductive op : Type -> Type :=
| LoadField (f : field) : op ptr
| StoreField (f : field) (v : ptr) : op unit
| LoadInactive : op (option ref)
| StoreInactive (r : ref) : op unit
| InitChannel (channel func arg : ptr) : op unit
| Enter : op ref
| Leave (r : ref) : op unit
| Getcontext (r : ref) : op unit
| Makecontext (r : ref) (stack_bottom stack_size : Z) : op unit
| Swapcontext (save : ref) (target : option ref) : op unit
| Setcontext (target : option ref) : op unit
| Call (func arg : ptr) : op unit
| CallFree (free_func free_after : ptr) : op unit
| PosixMemalign (alignment size : Z) : op (option ptr)
| CallAbort : op Empty_set
| Unreachable : op Empty_set
| OutOfFuel : op Empty_set
| SayYielded (v : ptr) : op unit
| SayGot (v : ptr) : op unit.

Inductive act (A : Type) : Type :=
| Ret (a : A)
| Do {X : Type} (o : op X) (k : X -> act A).

Arguments Ret {A} a.

Arguments Do {A X} o k.

Fixpoint bind {A B : Type} (m : act A) (k : A -> act B) : act B :=
  match m with
  | Ret a => k a
  | Do o h => Do o (fun x => bind (h x) k)
  end.

Definition perform {X : Type} (o : op X) : act X := Do o Ret.

Definition never {A : Type} (o : op Empty_set) : act A :=
  Do o (fun x : Empty_set => match x with end).

Declare Scope uc_scope.

Delimit Scope uc_scope with uc.

Notation "x <- m ;; k" := (bind m (fun x => k))
  (at level 61, m at next level, right associativity) : uc_scope.

Notation "m ;; k" := (bind m (fun _ => k))
  (at level 61, right associativity) : uc_scope.

Local Open Scope uc_scope.

(** ** The record, the contexts and the store *)

Record channel := mkChannel {
  inactive : option ref;   (* None is the null pointer *)
  func : ptr;
  value : ptr;
  free_after : ptr;
  free_func : ptr
}.

(** What a [ucontext_t] variable holds: nothing, because it is not declared
    or the function that declared it has returned; an indeterminate value;
    a context saved by getcontext or swapcontext, which is the code that
    runs when it is resumed; or the context makecontext made, which calls
    [springboard] with the channel on the given stack. *)
Inductive object :=
| Out_of_scope
| Indeterminate
| Saved (k : act unit)
| Made (stack_bottom stack_size : Z).

Record store := mkStore {
  chan : channel;
  objects : ref -> object;
  next : ref;                  (* the number of the next variable declared *)
  turn : party;                (* which of the two stacks is running *)
  trace : list event;          (* what has happened so far, oldest first *)
  heap : Z -> Z -> option ptr  (* answer of posix_memalign, None on failure *)
}.

Definition get (f : field) (c : channel) : ptr :=
  match f with
  | Func => func c
  | Value => value c
  | Free_after => free_after c
  | Free_func => free_func c
  end.

Definition set (f : field) (v : ptr) (c : channel) : channel :=
  match f with
  | Func => mkChannel (inactive c) v (value c) (free_after c) (free_func c)
  | Value => mkChannel (inactive c) (func c) v (free_after c) (free_func c)
  | Free_after => mkChannel (inactive c) (func c) (value c) v (free_func c)
  | Free_func => mkChannel (inactive c) (func c) (value c) (free_after c) v
  end.

Definition set_inactive (r : option ref) (c : channel) : channel :=
  mkChannel r (func c) (value c) (free_after c) (free_func c).

Definition with_chan (c : channel) (s : store) : store :=
  mkStore c (objects s) (next s) (turn s) (trace s) (heap s).

Definition with_object (r : ref) (o : object) (s : store) : store :=
  mkStore (chan s) (fun x => if Nat.eqb x r then o else objects s x) (next s)
    (turn s) (trace s) (heap s).

Definition with_turn (p : party) (s : store) : store :=
  mkStore (chan s) (objects s) (next s) p (trace s) (heap s).

Definition record (e : event) (s : store) : store :=
  mkStore (chan s) (objects s) (next s) (turn s) (trace s ++ [e]) (heap s).

(** The declaration of a [ucontext_t] variable. *)
Definition entered (s : store) : store :=
  mkStore (chan s)
    (fun x => if Nat.eqb x (next s) then Indeterminate else objects s x)
    (S (next s)) (turn s) (trace s) (heap s).

(** ** Running code up to its next context switch or call *)

Inductive reply (X : Type) : Type :=
| Next (x : X) (s : store)
| Gets (r : ref) (x : X) (s : store)
| Swaps (save : ref) (target : option ref) (x : X) (s : store)
| Sets (target : option ref) (s : store)
| Calls (func arg : ptr) (x : X) (s : store)
| Halts (r : reason) (s : store).

Arguments Next {X} x s.

Arguments Gets {X} r x s.

Arguments Swaps {X} save target x s.

Arguments Sets {X} target s.

Arguments Calls {X} func arg x s.

Arguments Halts {X} r s.

Definition handle {X : Type} (o : op X) (s : store) : reply X :=
  match o in op X return reply X with
  | LoadField f => Next (get f (chan s)) s
  | StoreField f v =>
      Next tt (record (Wrote (turn s) f v) (with_chan (set f v (chan s)) s))
  | LoadInactive => Next (inactive (chan s)) s
  | StoreInactive r => Next tt (with_chan (set_inactive (Some r) (chan s)) s)
  | InitChannel a f arg =>
      (* *channel = (struct channel) { .func = func, .value = arg };
         all other members are zeroed *)
      Next tt (record (Initialised a f arg)
                 (with_chan (mkChannel None f arg NULL NULL) s))
  | Enter => Next (next s) (entered s)
  | Leave r => Next tt (with_object r Out_of_scope s)
  | Getcontext r => Gets r tt s
  | Makecontext r stack_bottom stack_size =>
      (* the context must have been initialised by getcontext *)
      match objects s r with
      | Saved _ => Next tt (with_object r (Made stack_bottom stack_size) s)
      | _ => Halts Undefined_behaviour s
      end
  | Swapcontext save target => Swaps save target tt (record (Switched (turn s)) s)
  | Setcontext target => Sets target (record (Switched (turn s)) s)
  | Call f arg => Calls f arg tt (record (Called (turn s) f arg) s)
  | CallFree f p => Next tt (record (Freed (turn s) f p) s)
  | PosixMemalign al sz => Next (heap s al sz) s
  | CallAbort => Halts Aborted s
  | Unreachable => Halts Undefined_behaviour s
  | OutOfFuel => Halts Out_of_fuel s
  | SayYielded v => Next tt (record (Yielded (turn s) v) s)
  | SayGot v => Next tt (record (Got (turn s) v) s)
  end.

Inductive outcome (A : Type) : Type :=
| Finished (a : A) (s : store)
| AtGet (r : ref) (k : act A) (s : store)
| AtSwap (save : ref) (target : option ref) (k : act A) (s : store)
| AtSet (target : option ref) (s : store)
| AtCall (func arg : ptr) (k : act A) (s : store)
| Stopped (r : reason) (s : store).

Arguments Finished {A} a s.

Arguments AtGet {A} r k s.

Arguments AtSwap {A} save target k s.

Arguments AtSet {A} target s.

Arguments AtCall {A} func arg k s.

Arguments Stopped {A} r s.

Fixpoint exec {A : Type} (m : act A) (s : store) : outcome A :=
  match m with
  | Ret a => Finished a s
  | Do o k =>
      match handle o s with
      | Next x s' => exec (k x) s'
      | Gets r x s' => AtGet r (k x) s'
      | Swaps save target x s' => AtSwap save target (k x) s'
      | Sets target s' => AtSet target s'
      | Calls f arg x s' => AtCall f arg (k x) s'
      | Halts r s' => Stopped r s'
      end
  end.

(** ** The library *)

Section Library.

(** The sentinel: [static void * const not_filled = &(void * ){ NULL }]. *)
Variable not_filled : ptr.

(** What the build fixes: the size of a pointer and the width of
    [size_t]. *)
Variables pointer_bytes size_width : Z.

(** [struct channel] is five pointers. *)
Definition sizeof_struct_channel : Z := 5 * pointer_bytes.

Definition springboard : act unit :=
  arg <- perform (LoadField Value) ;;
  perform (StoreField Value not_filled) ;;
  f <- perform (LoadField Func) ;;
  perform (Call f arg) ;;
  perform (StoreField Func NULL) ;;
  target <- perform LoadInactive ;;
  perform (Setcontext target) ;;
  never Unreachable.

(** [buf] is a local variable: it goes out of scope when the function
    returns, which is after the context saved in it has been resumed. *)
Definition swap_context_symmetric : act unit :=
  buf <- perform Enter ;;
  tmp <- perform LoadInactive ;;
  perform (StoreInactive buf) ;;
  perform (Swapcontext buf tmp) ;;
  perform (Leave buf).

(** The members of [uc_stack] are set by [Makecontext], which also makes
    the context call [springboard] with the channel. *)
Definition bootstrap_context (stack_bottom stack_size : Z) : act unit :=
  dest <- perform Enter ;;
  perform (Getcontext dest) ;;
  perform (Makecontext dest stack_bottom stack_size) ;;
  perform (StoreInactive dest) ;;
  swap_context_symmetric ;;
  perform (Leave dest).

Definition coroutine_switch : act unit :=
  f <- perform (LoadField Func) ;;
  if f =? NULL then Ret tt else swap_context_symmetric.

(** [(blocksize - sizeof(struct channel)) & ~(STACK_ALIGNMENT - 1)], the
    subtraction being one of [size_t]. *)
Definition channel_offset (blocksize : Z) : Z :=
  Z.land ((blocksize - sizeof_struct_channel) mod 2 ^ size_width)
         (Z.lnot (STACK_ALIGNMENT - 1)).

Definition coroutine_create_given_memory
    (func arg block blocksize : ptr) : act ptr :=
  let channel := block + channel_offset blocksize in
  perform (InitChannel channel func arg) ;;
  bootstrap_context block (channel - block) ;;
  Ret channel.

Definition yield_to (pointer : ptr) : act unit :=
  perform (StoreField Value pointer) ;;
  swap_context_symmetric.

(** [if (channel->free_func) channel->free_func(channel->free_after)] *)
Definition release : act unit :=
  ff <- perform (LoadField Free_func) ;;
  if ff =? NULL then Ret tt
  else fa <- perform (LoadField Free_after) ;; perform (CallFree ff fa).

(** [from] after its first statement. *)
Definition from_rest : act ptr :=
  f <- perform (LoadField Func) ;;
  if f =? NULL then
    release ;;
    Ret NULL
  else
    ret <- perform (LoadField Value) ;;
    perform (StoreField Value not_filled) ;;
    Ret ret.

Definition from : act ptr :=
  f <- perform (LoadField Func) ;;
  (if f =? NULL then Ret tt
   else
     v <- perform (LoadField Value) ;;
     if not_filled =? v then swap_context_symmetric else Ret tt) ;;
  from_rest.

(** [while (channel->func) yield_to(channel, NULL)], unrolled at most
    [fuel] times, then the release hook. *)
Fixpoint close_and_join (fuel : nat) : act unit :=
  f <- perform (LoadField Func) ;;
  if f =? NULL then release
  else
    match fuel with
    | O => never OutOfFuel
    | S fuel' => yield_to NULL ;; close_and_join fuel'
    end.

(** The address of libc's [free]. *)
Variable free : ptr.

Definition coroutine_create (func arg : ptr) : act ptr :=
  r <- perform (PosixMemalign STACK_ALIGNMENT 524288) ;;
  match r with
  | None => never CallAbort
  | Some block =>
      channel <- coroutine_create_given_memory func arg block 524288 ;;
      perform (StoreField Free_after block) ;;
      perform (StoreField Free_func free) ;;
      Ret channel
  end.

End Library.

(** ** User code on this backend *)

Section Programs.

Variable not_filled : ptr.

Variables pointer_bytes size_width : Z.

Variable bound : nat.

Fixpoint denote (p : prog) : act unit :=
  match p with
  | Return => Ret tt
  | Yield_to v k => perform (SayYielded v) ;; yield_to v ;; denote k
  | From k => v <- from not_filled ;; perform (SayGot v) ;; denote (k v)
  | Coroutine_switch k => coroutine_switch ;; denote k
  | Close_and_join k => close_and_join bound ;; denote k
  | Goto f arg => perform (Call f arg)
  end.

Definition text_of (functions : program) : ptr -> option (ptr -> act unit) :=
  fun f =>
    match functions f with
    | Some body => Some (fun arg => denote (body arg))
    | None => None
    end.

Definition main_with (c : creator) (entry arg : ptr) (rest : prog) : act unit :=
  match c with
  | Given_memory block blocksize =>
      coroutine_create_given_memory pointer_bytes size_width entry arg block
        blocksize ;;
      denote rest
  | Allocating free =>
      coroutine_create pointer_bytes size_width free entry arg ;; denote rest
  end.

End Programs.

(** ** The two stacks *)

Record machine := mkMachine {
  running : act unit;
  mem : store
}.

Inductive status :=
| Continue (m : machine)
| Exited (s : store)
| Halted (r : reason) (s : store).

Section Machine.

Variable not_filled : ptr.

Variable text : ptr -> option (ptr -> act unit).

(** The jump of swapcontext and setcontext: to the code saved in the
    target, or to [springboard] if makecontext made it; through a null
    pointer, or a pointer to a variable that holds no context or is out of
    scope, it is undefined. *)
Definition resume (target : option ref) (s : store) : status :=
  match target with
  | None => Halted Undefined_behaviour s
  | Some r =>
      match objects s r with
      | Saved k => Continue (mkMachine k (with_turn (peer (turn s)) s))
      | Made _ _ =>
          Continue (mkMachine (springboard not_filled) (with_turn (peer (turn s)) s))
      | _ => Halted Undefined_behaviour s
      end
  end.

(** getcontext saves the context in which it returns and returns;
    swapcontext saves that context and jumps; setcontext only jumps. *)
Definition step (m : machine) : status :=
  match exec (running m) (mem m) with
  | Finished _ s => Exited s
  | AtGet r k s =>
      match objects s r with
      | Out_of_scope => Halted Undefined_behaviour s
      | _ => Continue (mkMachine k (with_object r (Saved k) s))
      end
  | AtSwap save target k s =>
      match objects s save with
      | Out_of_scope => Halted Undefined_behaviour s
      | _ => resume target (with_object save (Saved k) s)
      end
  | AtSet target s => resume target s
  | AtCall f arg k s =>
      match text f with
      | Some body => Continue (mkMachine (body arg ;; k) s)
      | None => Halted Undefined_behaviour s
      end
  | Stopped r s => Halted r s
  end.

Fixpoint run (n : nat) (m : machine) : status :=
  match n with
  | O => Continue m
  | S n' =>
      match step m with
      | Continue m' => run n' m'
      | st => st
      end
  end.

End Machine.

Definition blank : channel := mkChannel None NULL NULL NULL NULL.

Definition power_on (heap : Z -> Z -> option ptr) : store :=
  mkStore blank (fun _ => Out_of_scope) 0%nat Parent [] heap.

(** The C runtime calls [main] and exits when it returns. *)
Definition start (main : act unit) (heap : Z -> Z -> option ptr) : machine :=
  mkMachine (main ;; Ret tt) (power_on heap).

Definition store_of (st : status) : store :=
  match st with
  | Continue m => mem m
  | Exited s => s
  | Halted _ s => s
  end.

(** [springboard] up to the call of the entry function, and after it. *)
Definition springboard_entry (not_filled : ptr) : act unit :=
  arg <- perform (LoadField Value) ;;
  perform (StoreField Value not_filled) ;;
  f <- perform (LoadField Func) ;;
  perform (Call f arg).

Definition springboard_exit : act unit :=
  perform (StoreField Func NULL) ;;
  target <- perform LoadInactive ;;
  perform (Setcontext target) ;;
  never Unreachable.

(** The release hook seen from outside: the call of [free_func], if any. *)
Definition released (s : store) : store :=
  if free_func (chan s) =? NULL then s
  else record (Freed (turn s) (free_func (chan s)) (free_after (chan s))) s.

(** A store after a write to a field. *)
Definition written (f : field) (v : ptr) (s : store) : store :=
  record (Wrote (turn s) f v) (with_chan (set f v (chan s)) s).

(** The store at the swapcontext of [swap_context_symmetric]: [buf] is
    declared and the record points to it. *)
Definition swapping (s : store) : store :=
  record (Switched (turn s))
    (with_chan (set_inactive (Some (next s)) (chan s)) (entered s)).

(** [coroutine_create] from the return of [coroutine_create_given_memory]
    on, followed by the code after the constructor. *)
Definition setting_hooks (not_filled : ptr) (bound : nat) (block free : ptr)
    (rest : prog) : act unit :=
  perform (StoreField Free_after block) ;;
  perform (StoreField Free_func free) ;;
  denote not_filled bound rest.

(** The code of a party that is resumed inside [swap_context_symmetric]:
    the function returns, its [buf] goes out of scope, and the caller goes
    on with [k]. *)
Definition resumed (buf : ref) (k : act unit) : act unit :=
  perform (Leave buf) ;; k.

(** The same through the returns of several functions, innermost first. *)
Definition leaving (l : list ref) (k : act unit) : act unit :=
  fold_right resumed k l.

(** The store once the variables of [l] are out of scope. *)
Definition left (l : list ref) (s : store) : store :=
  fold_left (fun s r => with_object r Out_of_scope s) l s.

(** The code that follows the user code of a party: the exit of the
    process for the parent, the end of [springboard] for the child. *)
Definition tail (t : party) : act unit :=
  match t with
  | Parent => Ret tt
  | Child => springboard_exit
  end.

Definition has_exited (st : status) : Prop :=
  match st with
  | Exited _ => True
  | _ => False
  end.

Definition has_halted (r : reason) (st : status) : Prop :=
  match st with
  | Halted r' _ => r' = r
  | _ => False
  end.

End Ucontext.

(** ** The ucontext backend beside the assembly backend *)

(** What a run leaves in the trace that does not depend on the backend:
    the writes to the fields of the record, the calls through function
    pointers, the calls of the release function, and what user code passes
    to [yield_to] and gets from [from]. *)
Definition visible (e : event) : bool :=
  match e with
  | Wrote _ _ _ | Called _ _ _ | Freed _ _ _ | Yielded _ _ | Got _ _ => true
  | _ => false
  end.

Definition visibly (tr : list event) : list event := filter visible tr.

Definition has_halted (r : reason) (st : status) : Prop :=
  match st with
  | Halted r' _ => r' = r
  | _ => False
  end.

(** [posix_memalign] answers the two backends alike, which ask for
    different alignments on some targets. *)
Definition same_block (target : abi) (c : creator) (heap : Z -> Z -> option ptr)
  : Prop :=
  match c with
  | Given_memory _ _ => True
  | Allocating _ =>
      heap (STACK_ALIGNMENT target) 524288 = heap Ucontext.STACK_ALIGNMENT 524288
  end.

(** The code that follows the user code of a party on the assembly
    backend. *)
Definition tail (t : party) : act unit :=
  match t with
  | Parent => Ret tt
  | Child => springboard_exit
  end.

(** [springboard] of the assembly backend up to the call of the entry
    function. *)
Definition springboard_entry (not_filled : ptr) : act unit :=
  (arg <- perform (LoadField Value) ;;
   perform (StoreField Value not_filled) ;;
   f <- perform (LoadField Func) ;;
   perform (Call f arg))%act.

Section UcontextBackend.

Variable not_filled : ptr.

Variable bound : nat.

(** The code of the two backends at the same point of the same program. *)
Inductive same_ucode : act unit -> Ucontext.act unit -> Prop :=
| same_udenote (p : prog) :
    same_ucode (denote not_filled bound p) (Ucontext.denote not_filled bound p)
| same_ufrom (k : ptr -> prog) :
    same_ucode
      (waiting_in_from not_filled
         (fun v => perform (SayGot v) ;; denote not_filled bound (k v))%act)
      (Ucontext.bind (Ucontext.from_rest not_filled)
         (fun v =>
            Ucontext.bind (Ucontext.perform (Ucontext.SayGot v))
              (fun _ => Ucontext.denote not_filled bound (k v))))
| same_uclose (n : nat) (k : prog) :
    same_ucode
      (close_and_join n ;; denote not_filled bound k)%act
      (Ucontext.bind (Ucontext.close_and_join n)
         (fun _ => Ucontext.denote not_filled bound k))
| same_uhooks (block free : ptr) (p : prog) :
    same_ucode (setting_hooks not_filled bound block free p)
      (Ucontext.setting_hooks not_filled bound block free p)
| same_uentry :
    same_ucode (springboard_entry not_filled)
      (Ucontext.springboard_entry not_filled).

(** The stores of the two backends: same fields, same party running, same
    visible events. *)
Record uagree (sn : store) (su : Ucontext.store) : Prop := mkUagree {
  ua_func : func (chan sn) = Ucontext.func (Ucontext.chan su);
  ua_value : value (chan sn) = Ucontext.value (Ucontext.chan su);
  ua_free_after : free_after (chan sn) = Ucontext.free_after (Ucontext.chan su);
  ua_free_func : free_func (chan sn) = Ucontext.free_func (Ucontext.chan su);
  ua_turn : turn sn = Ucontext.turn su;
  ua_trace : visibly (trace sn) = visibly (Ucontext.trace su)
}.

(** The [ucontext_t] variables and the pointer to the inactive one are as
    they were. *)
Definition kept (su su' : Ucontext.store) : Prop :=
  Ucontext.objects su' = Ucontext.objects su
  /\ Ucontext.next su' = Ucontext.next su
  /\ Ucontext.inactive (Ucontext.chan su') = Ucontext.inactive (Ucontext.chan su).

(** The store at the swapcontext of [swap_context_symmetric]: [buf] is
    declared and the record points to it. *)
Definition handed (su su' : Ucontext.store) : Prop :=
  Ucontext.objects su' = Ucontext.objects (Ucontext.entered su)
  /\ Ucontext.next su' = S (Ucontext.next su)
  /\ Ucontext.inactive (Ucontext.chan su') = Some (Ucontext.next su).

(** Where the code of the two backends stops, from stores that agree. *)
Definition umatched (su : Ucontext.store) (on : outcome unit)
    (ou : Ucontext.outcome unit) : Prop :=
  match on, ou with
  | Finished _ sn', Ucontext.Finished _ su' => uagree sn' su' /\ kept su su'
  | AtSwap un sn', Ucontext.AtSwap buf tmp ku su' =>
      exists uu,
        same_ucode un uu /\ ku = Ucontext.resumed buf uu
        /\ buf = Ucontext.next su
        /\ tmp = Ucontext.inactive (Ucontext.chan su)
        /\ uagree sn' su' /\ handed su su'
  | AtCall f a kn sn', Ucontext.AtCall f' a' ku su' =>
      f = f' /\ a = a' /\ kn = Ret tt /\ ku = Ucontext.Ret tt
      /\ uagree sn' su' /\ kept su su'
  | Stopped r sn', Ucontext.Stopped r' su' => r = r' /\ uagree sn' su'
  | _, _ => False
  end.

(** A state of the ucontext backend and the state of the assembly backend
    it stands for.  While the child has not returned, the record points to
    a variable that is in scope and holds the context of the inactive
    party, declared after every variable the running party has still to
    leave; once the child has returned, the variable it points to is out of
    scope, or is about to be. *)
Inductive usim : Ucontext.status -> status -> Prop :=
| usim_alive mu m t un uu vn vu r lr ls :
    running m = (un ;; tail t)%act ->
    Ucontext.running mu =
      Ucontext.leaving lr (Ucontext.bind uu (fun _ => Ucontext.tail t)) ->
    same_ucode un uu ->
    context_inactive (chan (mem m)) = (vn ;; tail (peer t))%act ->
    Ucontext.inactive (Ucontext.chan (Ucontext.mem mu)) = Some r ->
    Ucontext.objects (Ucontext.mem mu) r =
      Ucontext.Saved
        (Ucontext.leaving (r :: ls)
           (Ucontext.bind vu (fun _ => Ucontext.tail (peer t)))) ->
    same_ucode vn vu ->
    Forall (fun x => (x < r)%nat) lr ->
    Forall (fun x => (x < r)%nat) ls ->
    (r < Ucontext.next (Ucontext.mem mu))%nat ->
    uagree (mem m) (Ucontext.mem mu) ->
    usim (Ucontext.Continue mu) (Continue m)
| usim_done mu m vn vu r lr :
    running m = (vn ;; Ret tt)%act ->
    Ucontext.running mu =
      Ucontext.leaving lr (Ucontext.bind vu (fun _ => Ucontext.Ret tt)) ->
    same_ucode vn vu ->
    context_inactive (chan (mem m)) = never Unreachable ->
    Ucontext.inactive (Ucontext.chan (Ucontext.mem mu)) = Some r ->
    In r lr \/ Ucontext.objects (Ucontext.mem mu) r = Ucontext.Out_of_scope ->
    (r < Ucontext.next (Ucontext.mem mu))%nat ->
    uagree (mem m) (Ucontext.mem mu) ->
    usim (Ucontext.Continue mu) (Continue m)
| usim_lost su m :
    running m = never Unreachable ->
    visibly (trace (mem m)) = visibly (Ucontext.trace su) ->
    usim (Ucontext.Halted Undefined_behaviour su) (Continue m)
| usim_exited su sn :
    visibly (trace sn) = visibly (Ucontext.trace su) ->
    usim (Ucontext.Exited su) (Exited sn)
| usim_halted r su sn :
    visibly (trace sn) = visibly (Ucontext.trace su) ->
    usim (Ucontext.Halted r su) (Halted r sn).

End UcontextBackend.

(** The state after the next step of the ucontext backend. *)
Definition unext (not_filled : ptr)
    (text : ptr -> option (ptr -> Ucontext.act unit)) (st : Ucontext.status)
  : Ucontext.status :=
  match st with
  | Ucontext.Continue m => Ucontext.step not_filled text m
  | _ => st
  end.

(** * The backend on kernel threads and semaphores

    coroutine_using_pthreads.c runs the child on a kernel thread and hands
    control over with two semaphores: the parent waits on [sem[0]], the
    child on [sem[1]].  A thread is modelled by the code it has left to run
    and by what it is blocked in; it moves from one blocking call to the
    next, and any thread that can move may be the next to move. *)

Module Semaphores.

(** The fields of [struct channel] other than [sem] and [thread]. *)
Inductive field := In_child | Func | Value.

Inductive op : Type -> Type :=
| LoadField (f : field) : op Z
| StoreField (f : field) (v : Z) : op unit
| InitChannel (func arg : ptr) : op unit
| Malloc : op unit
| FreeChannel : op unit
| SemInit (i v : Z) : op unit
| SemPost (i : Z) : op unit
| SemWait (i : Z) : op unit
| SemDestroy (i : Z) : op unit
| PthreadCreate : op unit
| PthreadJoin : op unit
| Call (func arg : ptr) : op unit
| OutOfFuel : op Empty_set
| SayYielded (v : ptr) : op unit
| SayGot (v : ptr) : op unit.

Inductive act (A : Type) : Type :=
| Ret (a : A)
| Do {X : Type} (o : op X) (k : X -> act A).

Arguments Ret {A} a.

Arguments Do {A X} o k.

Fixpoint bind {A B : Type} (m : act A) (k : A -> act B) : act B :=
  match m with
  | Ret a => k a
  | Do o h => Do o (fun x => bind (h x) k)
  end.

Definition perform {X : Type} (o : op X) : act X := Do o Ret.

Definition never {A : Type} (o : op Empty_set) : act A :=
  Do o (fun x : Empty_set => match x with end).

Declare Scope sem_scope.

Delimit Scope sem_scope with sem.

Notation "x <- m ;; k" := (bind m (fun x => k))
  (at level 61, m at next level, right associativity) : sem_scope.

Notation "m ;; k" := (bind m (fun _ => k))
  (at level 61, right associativity) : sem_scope.

Local Open Scope sem_scope.

(** ** Threads and the store *)

Record channel := mkChannel {
  in_child : Z;
  func : ptr;
  value : ptr
}.

(** A thread: not created yet; able to run its code; blocked in
    [sem_wait] on the semaphore of that index; blocked in [pthread_join];
    or returned from its thread function. *)
Inductive thread :=
| Absent
| Ready (k : act unit)
| Waiting (i : Z) (k : act unit)
| Joining (k : act unit)
| Returned.

Record store := mkStore {
  chan : channel;
  sem : Z -> Z;             (* the values of sem[0] and sem[1] *)
  parent_thread : thread;
  child_thread : thread;
  self : party;             (* the thread that is running *)
  trace : list event        (* the observable events so far, oldest first *)
}.

Definition get (f : field) (c : channel) : Z :=
  match f with
  | In_child => in_child c
  | Func => func c
  | Value => value c
  end.

Definition set (f : field) (v : Z) (c : channel) : channel :=
  match f with
  | In_child => mkChannel v (func c) (value c)
  | Func => mkChannel (in_child c) v (value c)
  | Value => mkChannel (in_child c) (func c) v
  end.

Definition with_chan (c : channel) (s : store) : store :=
  mkStore c (sem s) (parent_thread s) (child_thread s) (self s) (trace s).

Definition with_sem (i v : Z) (s : store) : store :=
  mkStore (chan s) (fun x => if x =? i then v else sem s x) (parent_thread s)
    (child_thread s) (self s) (trace s).

Definition with_self (p : party) (s : store) : store :=
  mkStore (chan s) (sem s) (parent_thread s) (child_thread s) p (trace s).

Definition record (e : event) (s : store) : store :=
  mkStore (chan s) (sem s) (parent_thread s) (child_thread s) (self s)
    (trace s ++ [e]).

Definition thread_of (p : party) (s : store) : thread :=
  match p with Parent => parent_thread s | Child => child_thread s end.

Definition with_thread (p : party) (t : thread) (s : store) : store :=
  match p with
  | Parent => mkStore (chan s) (sem s) t (child_thread s) (self s) (trace s)
  | Child => mkStore (chan s) (sem s) (parent_thread s) t (self s) (trace s)
  end.

(** [channel->sem + i] is one of the two semaphores. *)
Definition in_range (i : Z) : bool := (i =? 0) || (i =? 1).

(** ** Running the code of a thread up to where it blocks *)

Inductive reply (X : Type) : Type :=
| Next (x : X) (s : store)
| Waits (i : Z) (x : X) (s : store)
| Joins (x : X) (s : store)
| Creates (x : X) (s : store)
| Calls (func arg : ptr) (x : X) (s : store)
| Halts (r : reason) (s : store).

Arguments Next {X} x s.

Arguments Waits {X} i x s.

Arguments Joins {X} x s.

Arguments Creates {X} x s.

Arguments Calls {X} func arg x s.

Arguments Halts {X} r s.

(** [sem_post] adds one to the semaphore and does not block; [sem_wait]
    takes one if the semaphore is positive and blocks if it is zero. *)
Definition handle {X : Type} (o : op X) (s : store) : reply X :=
  match o in op X return reply X with
  | LoadField f => Next (get f (chan s)) s
  | StoreField f v => Next tt (with_chan (set f v (chan s)) s)
  | InitChannel f arg =>
      (* *channel = (struct channel) { .func = func, .value = arg,
         .in_child = 1 } *)
      Next tt (with_chan (mkChannel 1 f arg) s)
  | Malloc => Next tt s
  | FreeChannel => Next tt s
  | SemInit i v =>
      if in_range i then Next tt (with_sem i v s)
      else Halts Undefined_behaviour s
  | SemPost i =>
      if in_range i then Next tt (with_sem i (sem s i + 1) s)
      else Halts Undefined_behaviour s
  | SemWait i =>
      if in_range i then
        if 0 <? sem s i then Next tt (with_sem i (sem s i - 1) s)
        else Waits i tt s
      else Halts Undefined_behaviour s
  | SemDestroy i =>
      if in_range i then Next tt s else Halts Undefined_behaviour s
  | PthreadCreate => Creates tt s
  | PthreadJoin =>
      match child_thread s with
      | Returned => Next tt s
      | _ => Joins tt s
      end
  | Call f arg => Calls f arg tt (record (Called (self s) f arg) s)
  | OutOfFuel => Halts Out_of_fuel s
  | SayYielded v => Next tt (record (Yielded (self s) v) s)
  | SayGot v => Next tt (record (Got (self s) v) s)
  end.

Inductive outcome (A : Type) : Type :=
| Finished (a : A) (s : store)
| AtWait (i : Z) (k : act A) (s : store)
| AtJoin (k : act A) (s : store)
| AtCreate (k : act A) (s : store)
| AtCall (func arg : ptr) (k : act A) (s : store)
| Stopped (r : reason) (s : store).

Arguments Finished {A} a s.

Arguments AtWait {A} i k s.

Arguments AtJoin {A} k s.

Arguments AtCreate {A} k s.

Arguments AtCall {A} func arg k s.

Arguments Stopped {A} r s.

Fixpoint exec {A : Type} (m : act A) (s : store) : outcome A :=
  match m with
  | Ret a => Finished a s
  | Do o k =>
      match handle o s with
      | Next x s' => exec (k x) s'
      | Waits i x s' => AtWait i (k x) s'
      | Joins x s' => AtJoin (k x) s'
      | Creates x s' => AtCreate (k x) s'
      | Calls f arg x s' => AtCall f arg (k x) s'
      | Halts r s' => Stopped r s'
      end
  end.

(** ** The library *)

Section Library.

(** The sentinel: [static void * const not_filled = &(void * ){ NULL }]. *)
Variable not_filled : ptr.

(** [!x] of C. *)
Definition logical_not (x : Z) : Z := if x =? 0 then 1 else 0.

Definition context_switch : act unit :=
  in_child_at_entry <- perform (LoadField In_child) ;;
  perform (StoreField In_child (logical_not in_child_at_entry)) ;;
  perform (SemPost (logical_not in_child_at_entry)) ;;
  perform (SemWait in_child_at_entry).

Definition coroutine_switch : act unit :=
  f <- perform (LoadField Func) ;;
  if f =? NULL then Ret tt else context_switch.

(** The thread function of a child. *)
Definition springboard : act unit :=
  arg <- perform (LoadField Value) ;;
  perform (StoreField Value not_filled) ;;
  f <- perform (LoadField Func) ;;
  perform (Call f arg) ;;
  perform (StoreField Func NULL) ;;
  perform (SemPost 0) ;;
  Ret tt.

(** The thread attributes, which only set the size of the stack, are left
    out; [malloc], whose result the source does not check, succeeds. *)
Definition coroutine_create (func arg : ptr) : act unit :=
  perform Malloc ;;
  perform (InitChannel func arg) ;;
  perform (SemInit 0 0) ;;
  perform (SemInit 1 0) ;;
  perform PthreadCreate ;;
  perform (SemWait 0).

Definition coroutine_create_given_memory (func arg block blocksize : ptr)
  : act unit :=
  coroutine_create func arg.

Definition yield_to (pointer : ptr) : act unit :=
  perform (StoreField Value pointer) ;;
  context_switch.

Definition channel_join_and_cleanup : act unit :=
  perform PthreadJoin ;;
  perform (SemDestroy 0) ;;
  perform (SemDestroy 1) ;;
  perform FreeChannel.

(** [from] after its first statement. *)
Definition from_rest : act ptr :=
  f <- perform (LoadField Func) ;;
  if f =? NULL then
    channel_join_and_cleanup ;;
    Ret NULL
  else
    ret <- perform (LoadField Value) ;;
    perform (StoreField Value not_filled) ;;
    Ret ret.

Definition from : act ptr :=
  f <- perform (LoadField Func) ;;
  (if f =? NULL then Ret tt
   else
     v <- perform (LoadField Value) ;;
     if not_filled =? v then context_switch else Ret tt) ;;
  from_rest.

(** [while (channel->func) yield_to(channel, NULL)], unrolled at most
    [fuel] times, then the cleanup. *)
Fixpoint close_and_join (fuel : nat) : act unit :=
  f <- perform (LoadField Func) ;;
  if f =? NULL then channel_join_and_cleanup
  else
    match fuel with
    | O => never OutOfFuel
    | S fuel' => yield_to NULL ;; close_and_join fuel'
    end.

(** [springboard] up to the call of the entry function, and after it. *)
Definition springboard_exit : act unit :=
  perform (StoreField Func NULL) ;;
  perform (SemPost 0) ;;
  Ret tt.

(** ** User code on this backend *)

Variable bound : nat.

Fixpoint denote (p : prog) : act unit :=
  match p with
  | Return => Ret tt
  | Yield_to v k =>
      perform (SayYielded v) ;; yield_to v ;; denote k
  | From k =>
      v <- from ;; perform (SayGot v) ;; denote (k v)
  | Coroutine_switch k => coroutine_switch ;; denote k
  | Close_and_join k => close_and_join bound ;; denote k
  | Goto f arg => perform (Call f arg)
  end.

Definition text_of (functions : program) : ptr -> option (ptr -> act unit) :=
  fun f =>
    match functions f with
    | Some body => Some (fun arg => denote (body arg))
    | None => None
    end.

(** The program that creates its channel with the constructor [c]. *)
Definition main_with (c : creator) (entry arg : ptr) (rest : prog) : act unit :=
  match c with
  | Given_memory block blocksize =>
      coroutine_create_given_memory entry arg block blocksize ;; denote rest
  | Allocating _ => coroutine_create entry arg ;; denote rest
  end.

End Library.

(** ** The threads *)

Inductive status :=
| Continue (s : store)
| Exited (s : store)
| Halted (r : reason) (s : store).

Definition store_of (st : status) : store :=
  match st with
  | Continue s | Exited s | Halted _ s => s
  end.

(** The process starts with its main thread only; it ends when [main]
    returns. *)
Definition start (main : act unit) : store :=
  mkStore (mkChannel 0 NULL NULL) (fun _ => 0)
    (Ready (main ;; Ret tt)) Absent Parent [].

Section Machine.

Variable not_filled : ptr.

(** The code behind each function address. *)
Variable text : ptr -> option (ptr -> act unit).

(** What has become of thread [t] when its code has run up to where it
    blocks, creates the child thread, calls through a function pointer, or
    returns. *)
Definition after (t : party) (o : outcome unit) : status :=
  match o with
  | Finished _ s =>
      match t with
      | Parent => Exited s
      | Child => Continue (with_thread Child Returned s)
      end
  | AtWait i k s => Continue (with_thread t (Waiting i k) s)
  | AtJoin k s => Continue (with_thread t (Joining k) s)
  | AtCreate k s =>
      Continue (with_thread Child (Ready (springboard not_filled))
                  (with_thread t (Ready k) s))
  | AtCall f arg k s =>
      match text f with
      | Some body => Continue (with_thread t (Ready (body arg ;; k)) s)
      | None => Halted Undefined_behaviour s
      end
  | Stopped r s => Halted r s
  end.

(** One move of one thread: a thread that is able to run runs to its next
    blocking call; a thread blocked in [sem_wait] takes one from the
    semaphore once it is positive; a thread blocked in [pthread_join] goes
    on once the child thread has returned. *)
Inductive step (s : store) : status -> Prop :=
| step_run (t : party) (k : act unit) :
    thread_of t s = Ready k ->
    step s (after t (exec k (with_self t s)))
| step_wake (t : party) (i : Z) (k : act unit) :
    thread_of t s = Waiting i k -> 0 < sem s i ->
    step s (Continue (with_thread t (Ready k) (with_sem i (sem s i - 1) s)))
| step_join (t : party) (k : act unit) :
    thread_of t s = Joining k -> child_thread s = Returned ->
    step s (Continue (with_thread t (Ready k) s)).

(** The states a schedule can reach. *)
Inductive reaches : status -> status -> Prop :=
| reaches_refl (st : status) : reaches st st
| reaches_step (s : store) (st st' : status) :
    step s st -> reaches st st' -> reaches (Continue s) st'.

End Machine.

Definition has_exited (st : status) : Prop :=
  match st with
  | Exited _ => True
  | _ => False
  end.

End Semaphores.

(** ** The semaphore backend beside the assembly backend *)

Section SemaphoreBackend.

Variable not_filled : ptr.

Variable bound : nat.

(** The code of the two backends at the same point of the same user
    program. *)
Inductive same_scode : act unit -> Semaphores.act unit -> Prop :=
| same_sdenote (p : prog) :
    same_scode (denote not_filled bound p) (Semaphores.denote not_filled bound p)
| same_sfrom (k : ptr -> prog) :
    same_scode
      (waiting_in_from not_filled
         (fun v => perform (SayGot v) ;; denote not_filled bound (k v))%act)
      (Semaphores.bind (Semaphores.from_rest not_filled)
         (fun v =>
            Semaphores.bind (Semaphores.perform (Semaphores.SayGot v))
              (fun _ => Semaphores.denote not_filled bound (k v))))
| same_sclose (n : nat) (k : prog) :
    same_scode
      (close_and_join n ;; denote not_filled bound k)%act
      (Semaphores.bind (Semaphores.close_and_join n)
         (fun _ => Semaphores.denote not_filled bound k))
| same_shooks (block free : ptr) (p : prog) :
    same_scode (setting_hooks not_filled bound block free p)
      (Semaphores.denote not_filled bound p).

(** The semaphore a party waits on: the value of [in_child] when it calls
    [context_switch] while its peer is alive. *)
Definition sflag (t : party) : Z :=
  match t with Parent => 0 | Child => 1 end.

(** The code that follows the user code of a thread. *)
Definition stail (t : party) : Semaphores.act unit :=
  match t with
  | Parent => Semaphores.Ret tt
  | Child => Semaphores.springboard_exit
  end.

(** The record and the trace of the two backends while party [t] runs:
    same entry, same slot, same observable events, [in_child] is [e], and
    once the entry is empty the child thread has returned. *)
Record slinked (t : party) (e : Z) (sn : store) (sp : Semaphores.store)
  : Prop := mkSlinked {
  sl_func : func (chan sn) = Semaphores.func (Semaphores.chan sp);
  sl_value : value (chan sn) = Semaphores.value (Semaphores.chan sp);
  sl_trace : observe (trace sn) = observe (Semaphores.trace sp);
  sl_turn : turn sn = t;
  sl_flag : Semaphores.in_child (Semaphores.chan sp) = e;
  sl_done :
    Semaphores.func (Semaphores.chan sp) = NULL ->
    Semaphores.child_thread sp = Semaphores.Returned
}.

(** The same while the thread of [t] runs user code: both semaphores are
    zero, and the other thread stays as it is, [parked]. *)
Record sagree (t : party) (e : Z) (parked : Semaphores.thread) (sn : store)
    (sp : Semaphores.store) : Prop := mkSagree {
  sa_linked : slinked t e sn sp;
  sa_self : Semaphores.self sp = t;
  sa_bit : e = 0 \/ e = 1;
  sa_sem0 : Semaphores.sem sp 0 = 0;
  sa_sem1 : Semaphores.sem sp 1 = 0;
  sa_parked : Semaphores.thread_of (peer t) sp = parked
}.

(** The store when [context_switch] blocks: the flag is flipped and the
    semaphore of the peer is posted. *)
Definition shanded_off (sp : Semaphores.store) : Semaphores.store :=
  let e := Semaphores.in_child (Semaphores.chan sp) in
  Semaphores.with_sem (Semaphores.logical_not e)
    (Semaphores.sem sp (Semaphores.logical_not e) + 1)
    (Semaphores.with_chan
       (Semaphores.set Semaphores.In_child (Semaphores.logical_not e)
          (Semaphores.chan sp))
       sp).

(** The store when the thread function of the child returns. *)
Definition sleft_by_child (sp : Semaphores.store) : Semaphores.store :=
  Semaphores.with_sem 0 (Semaphores.sem sp 0 + 1)
    (Semaphores.with_chan
       (Semaphores.set Semaphores.Func NULL (Semaphores.chan sp)) sp).

(** Where the code of the two backends stops, from stores that agree. *)
Definition smatched (t : party) (e : Z) (parked : Semaphores.thread)
    (on : outcome unit) (os : Semaphores.outcome unit) : Prop :=
  match on, os with
  | Finished _ sn, Semaphores.Finished _ sp => sagree t e parked sn sp
  | AtSwap un sn, Semaphores.AtWait i up sp =>
      same_scode un up /\ i = e
      /\ exists sp0, sagree t e parked sn sp0 /\ sp = shanded_off sp0
  | AtCall f a kn sn, Semaphores.AtCall f' a' kp sp =>
      f = f' /\ a = a' /\ kn = Ret tt /\ kp = Semaphores.Ret tt
      /\ sagree t e parked sn sp
  | Stopped r sn, Semaphores.Stopped r' sp => r = r' /\ sagree t e parked sn sp
  | _, _ => False
  end.

(** Thread [t] is blocked in the [sem_wait] of [context_switch] or of
    [coroutine_create], or about to call it, with [k] to run afterwards;
    its semaphore is zero. *)
Definition swaits (t : party) (sp : Semaphores.store)
    (k : Semaphores.act unit) : Prop :=
  (Semaphores.thread_of t sp = Semaphores.Waiting (sflag t) k
   \/ Semaphores.thread_of t sp =
      Semaphores.Ready
        (Semaphores.bind (Semaphores.perform (Semaphores.SemWait (sflag t)))
           (fun _ => k)))
  /\ Semaphores.sem sp (sflag t) = 0.

(** Thread [t] runs [k], or its semaphore has been posted and it will run
    [k] once it has taken it. *)
Definition sruns (t : party) (sp : Semaphores.store)
    (k : Semaphores.act unit) : Prop :=
  (Semaphores.thread_of t sp = Semaphores.Ready k
   /\ Semaphores.sem sp (sflag t) = 0)
  \/ ((Semaphores.thread_of t sp = Semaphores.Waiting (sflag t) k
       \/ Semaphores.thread_of t sp =
          Semaphores.Ready
            (Semaphores.bind (Semaphores.perform (Semaphores.SemWait (sflag t)))
               (fun _ => k)))
      /\ Semaphores.sem sp (sflag t) = 1).

(** A state of the threads and the state of the two stacks it stands for. *)
Inductive ssim : Semaphores.status -> status -> Prop :=
| ssim_creating sp m un up :
    running m = springboard not_filled ->
    turn (mem m) = Child ->
    context_inactive (chan (mem m)) = (un ;; Ret tt)%act ->
    same_scode un up ->
    func (chan (mem m)) = Semaphores.func (Semaphores.chan sp) ->
    value (chan (mem m)) = Semaphores.value (Semaphores.chan sp) ->
    observe (trace (mem m)) = observe (Semaphores.trace sp) ->
    Semaphores.in_child (Semaphores.chan sp) = 1 ->
    Semaphores.child_thread sp = Semaphores.Ready (Semaphores.springboard not_filled) ->
    Semaphores.sem sp 1 = 0 ->
    swaits Parent sp (Semaphores.bind up (fun _ => Semaphores.Ret tt)) ->
    ssim (Semaphores.Continue sp) (Continue m)
| ssim_alive sp m t un up vn vp :
    running m = (un ;; tail t)%act ->
    same_scode un up ->
    context_inactive (chan (mem m)) = (vn ;; tail (peer t))%act ->
    same_scode vn vp ->
    func (chan (mem m)) <> NULL ->
    slinked t (sflag t) (mem m) sp ->
    swaits (peer t) sp (Semaphores.bind vp (fun _ => stail (peer t))) ->
    sruns t sp (Semaphores.bind up (fun _ => stail t)) ->
    ssim (Semaphores.Continue sp) (Continue m)
| ssim_done sp m vn vp :
    running m = (vn ;; Ret tt)%act ->
    same_scode vn vp ->
    context_inactive (chan (mem m)) = never Unreachable ->
    func (chan (mem m)) = NULL ->
    slinked Parent 1 (mem m) sp ->
    Semaphores.child_thread sp = Semaphores.Returned ->
    Semaphores.sem sp 1 = 0 ->
    sruns Parent sp (Semaphores.bind vp (fun _ => Semaphores.Ret tt)) ->
    ssim (Semaphores.Continue sp) (Continue m)
| ssim_lost sp st k :
    stuck st ->
    observe (trace (store_of st)) = observe (Semaphores.trace sp) ->
    Semaphores.child_thread sp = Semaphores.Returned ->
    Semaphores.parent_thread sp = Semaphores.Waiting 1 k ->
    Semaphores.sem sp 1 = 0 ->
    ssim (Semaphores.Continue sp) st
| ssim_exited sp sn :
    observe (trace sn) = observe (Semaphores.trace sp) ->
    ssim (Semaphores.Exited sp) (Exited sn)
| ssim_halted r sp sn :
    observe (trace sn) = observe (Semaphores.trace sp) ->
    ssim (Semaphores.Halted r sp) (Halted r sn).

End SemaphoreBackend.

(** * decouple_handlers_from_program_stack

    The block of Cortex-M assembly that gives the interrupt handlers a
    stack of their own: the thread goes on with the process stack pointer,
    set to where the main stack pointer is, and the main stack pointer,
    which handlers use, is set to the top of [handler_stack]. *)

Module CortexM.

(** The special registers the block names. *)
Inductive sysreg := MSP | PSP | CONTROL.

Record state := mkState {
  regs : nat -> Z;     (* r0 .. r12 *)
  msp : Z;             (* main stack pointer *)
  psp : Z;             (* process stack pointer *)
  control : Z;         (* bit 0 nPRIV, bit 1 SPSEL, bit 2 FPCA *)
  primask : Z;         (* 1 when interrupts are disabled *)
  handler : bool       (* handler mode, as opposed to thread mode *)
}.

Definition wrap (v : Z) : Z := v mod 2 ^ 32.

(** Handler mode is privileged; thread mode is unless nPRIV is set. *)
Definition privileged (s : state) : bool :=
  handler s || negb (Z.testbit (control s) 0).

(** The stack pointer in use: handlers use the main one, the thread the
    one SPSEL selects. *)
Definition sp (s : state) : Z :=
  if handler s then msp s
  else if Z.testbit (control s) 1 then psp s else msp s.

Definition set_reg (r : nat) (v : Z) (s : state) : state :=
  mkState (fun x => if Nat.eqb x r then wrap v else regs s x) (msp s) (psp s)
    (control s) (primask s) (handler s).

(** The two low bits of a stack pointer are always zero. *)
Definition stack_pointer (v : Z) : Z := Z.land (wrap v) (Z.lnot 3).

(** Reads of the stack pointers by unprivileged code give zero. *)
Definition read (r : sysreg) (s : state) : Z :=
  match r with
  | MSP => if privileged s then msp s else 0
  | PSP => if privileged s then psp s else 0
  | CONTROL => control s
  end.

(** Writes by unprivileged code are ignored; in handler mode a write of
    CONTROL leaves SPSEL as it is. *)
Definition write (r : sysreg) (v : Z) (s : state) : state :=
  if privileged s then
    match r with
    | MSP => mkState (regs s) (stack_pointer v) (psp s) (control s) (primask s)
               (handler s)
    | PSP => mkState (regs s) (msp s) (stack_pointer v) (control s) (primask s)
               (handler s)
    | CONTROL =>
        let v' :=
          if handler s then
            Z.lor (Z.land v 5) (Z.land (control s) 2)
          else Z.land v 7 in
        mkState (regs s) (msp s) (psp s) v' (primask s) (handler s)
    end
  else s.

Definition set_primask (v : Z) (s : state) : state :=
  if privileged s then
    mkState (regs s) (msp s) (psp s) (control s) v (handler s)
  else s.

Inductive instr :=
| cpsid_i
| cpsie_i
| mrs (rd : nat) (r : sysreg)
| msr (r : sysreg) (rn : nat)
| mov_imm (rd : nat) (imm : Z)
| orr (rd rm : nat)
| isb.

Definition exec_instr (s : state) (i : instr) : state :=
  match i with
  | cpsid_i => set_primask 1 s
  | cpsie_i => set_primask 0 s
  | mrs rd r => set_reg rd (read r s) s
  | msr r rn => write r (regs s rn) s
  | mov_imm rd imm => set_reg rd imm s
  | orr rd rm => set_reg rd (Z.lor (regs s rd) (regs s rm)) s
  | isb => s
  end.

Definition run (code : list instr) (s : state) : state :=
  fold_left exec_instr code s.

(** The block; [top] is the register the compiler has put
    [handler_stack + sizeof(handler_stack)] in, which is neither r0 nor
    r1, since the block clobbers them. *)
Definition decouple_handlers_from_program_stack (top : nat) : list instr :=
  [ cpsid_i;
    mrs 0 MSP;
    msr PSP 0;
    mrs 0 CONTROL;
    mov_imm 1 2;
    orr 0 1;
    msr CONTROL 0;
    isb;
    msr MSP top;
    cpsie_i ].

(** A word that is a multiple of four. *)
Definition aligned_word (v : Z) : Prop := 0 <= v < 2 ^ 32 /\ v mod 4 = 0.

(** The states the block goes through, from after its first instruction to
    before its last. *)
Definition inside (top : nat) (s : state) : list state :=
  map (fun n => run (firstn n (decouple_handlers_from_program_stack top)) s)
    (seq 1 9).

End CortexM.

(** * Proofs *)

Ltac split_if :=
  match goal with
  | |- context [if ?b then _ else _] => destruct b eqn:?
  end.

Ltac crunch := simpl; repeat (split_if; simpl); try reflexivity.

Ltac eqb_cases H :=
  repeat match type of H with
         | context [if ?b then _ else _] => destruct b eqn:?
         end.

Lemma exec_bind {A B : Type} (m : act A) (k : A -> act B) (s : store) :
  exec (bind m k) s =
  match exec m s with
  | Finished a s' => exec (k a) s'
  | AtSwap m' s' => AtSwap (bind m' k) s'
  | AtBootstrap m' s' => AtBootstrap (bind m' k) s'
  | AtCall f arg m' s' => AtCall f arg (bind m' k) s'
  | Stopped r s' => Stopped r s'
  end.
Proof.
  revert s. induction m as [a | X o h IH]; intros s; simpl.
  - reflexivity.
  - destruct (handle o s); auto.
Qed.

Lemma noreturn_bind {A B : Type} (m : act A) (k : A -> act B) :
  (forall a, noreturn (k a)) -> noreturn (bind m k).
Proof.
  intros Hk. induction m as [a | X o h IH]; simpl; auto.
Qed.

Lemma noreturn_exec {A : Type} (m : act A) (s : store) :
  noreturn m ->
  match exec m s with
  | Finished _ _ => False
  | AtSwap k _ | AtBootstrap k _ | AtCall _ _ k _ => noreturn k
  | Stopped _ _ => True
  end.
Proof.
  revert s. induction m as [a | X o h IH]; intros s Hm; simpl in *.
  - contradiction.
  - destruct (handle o s); [apply IH | | | | exact I]; apply Hm.
Qed.

Lemma release_exec (s : store) : exec release s = Finished tt (released s).
Proof.
  unfold release, released. crunch.
Qed.

Lemma coroutine_switch_exec (s : store) :
  exec coroutine_switch s =
  if func (chan s) =? NULL then Finished tt s
  else AtSwap (Ret tt) (record (Switched (turn s)) s).
Proof. unfold coroutine_switch. crunch. Qed.

Lemma turn_released (s : store) : turn (released s) = turn s.
Proof. unfold released. destruct (free_func (chan s) =? NULL); reflexivity. Qed.

Lemma from_rest_exec (nf : ptr) (s : store) :
  exec (from_rest nf) s =
  if func (chan s) =? NULL then Finished NULL (released s)
  else Finished (value (chan s)) (written Value nf s).
Proof.
  unfold from_rest, released, written. crunch.
Qed.

Lemma from_exec (nf : ptr) (s : store) :
  exec (from nf) s =
  if negb (func (chan s) =? NULL) && (nf =? value (chan s))
  then AtSwap (from_rest nf) (record (Switched (turn s)) s)
  else exec (from_rest nf) s.
Proof.
  unfold from. cbn -[from_rest].
  destruct (func (chan s) =? NULL) eqn:Hf; cbn -[from_rest].
  - reflexivity.
  - destruct (nf =? value (chan s)); reflexivity.
Qed.

(** ** [from] *)

(** C1. A call of [from] switches context exactly when the entry is not
    empty and the slot holds the sentinel, and then only once; when control
    is back (or at once, if it did not switch) it returns NULL, having called
    the release hook if one is recorded, if the entry is empty, and otherwise
    returns the contents of the slot and puts the sentinel in the slot. *)
Theorem from_behaviour (not_filled : ptr) (s : store) :
  exec (from not_filled) s =
    (if negb (func (chan s) =? NULL) && (not_filled =? value (chan s))
     then AtSwap (from_rest not_filled) (record (Switched (turn s)) s)
     else exec (from_rest not_filled) s)
  /\ (forall s' : store,
        exec (from_rest not_filled) s' =
        if func (chan s') =? NULL
        then Finished NULL
               (if free_func (chan s') =? NULL then s'
                else record (Freed (turn s') (free_func (chan s'))
                               (free_after (chan s'))) s')
        else Finished (value (chan s'))
               (record (Wrote (turn s') Value not_filled)
                  (with_chan (set Value not_filled (chan s')) s'))).
Proof.
  split.
  - apply from_exec.
  - intros s'. apply from_rest_exec.
Qed.

(** ** [springboard] *)

(** C3. [springboard] is the code BOOTSTRAP_CONTEXT starts on the child
    stack.  It reads the argument out of the slot and puts the sentinel there
    before it calls the entry function with that argument; the code after the
    call, reached when the entry function returns, empties the entry and
    switches context once, to the context saved in the record, which is the
    parent's; the context left behind by that switch has no code to go on
    with, and no path through [springboard] returns. *)
Theorem springboard_steps (not_filled : ptr) :
  (forall text k s,
      step not_filled text (mkMachine (perform BOOTSTRAP_CONTEXT ;; k) s) =
      Continue (mkMachine (springboard not_filled)
                  (with_turn Child
                     (with_chan (save_context k (chan s)) (record Bootstrapped s)))))
  /\ (forall s,
        exec (springboard not_filled) s =
        AtCall (func (chan s)) (value (chan s)) springboard_exit
          (record (Called (turn s) (func (chan s)) (value (chan s)))
             (written Value not_filled s)))
  /\ (forall text body s,
        text (func (chan s)) = Some body ->
        run not_filled text 1 (mkMachine (springboard not_filled) s) =
        Continue (mkMachine (body (value (chan s)) ;; springboard_exit)
                    (record (Called (turn s) (func (chan s)) (value (chan s)))
                       (written Value not_filled s))))
  /\ (forall (body : act unit) s s',
        exec body s = Finished tt s' ->
        exec (body ;; springboard_exit) s =
        AtSwap (never Unreachable)
          (record (Switched (turn s')) (written Func NULL s')))
  /\ (forall text (body : act unit) s s',
        exec body s = Finished tt s' ->
        step not_filled text (mkMachine (body ;; springboard_exit) s) =
        Continue (mkMachine (context_inactive (chan s'))
                    (switched (never Unreachable)
                       (record (Switched (turn s')) (written Func NULL s')))))
  /\ (forall s, exec (never Unreachable : act unit) s = Stopped Undefined_behaviour s)
  /\ noreturn (springboard not_filled)
  /\ (forall body : act unit, noreturn (body ;; springboard_exit)).
Proof.
  repeat split.
  - intros text body s H. simpl. unfold step. simpl. rewrite H. reflexivity.
  - intros body s s' H. rewrite exec_bind, H. reflexivity.
  - intros text body s s' H. unfold step. simpl running. simpl mem.
    rewrite exec_bind, H. reflexivity.
  - simpl. intros _ _ _ _ _ _ [].
  - intros body. apply noreturn_bind. intros _. simpl. intros _ _ [].
Qed.

Lemma springboard_steps_witness :
  let text := text_of 999 5 test_functions in
  let s := with_chan (mkChannel (Ret tt) 7000 42 NULL NULL) (power_on no_heap) in
  text (func (chan s)) = Some (fun arg => denote 999 5 (generator_silent arg))
  /\ run 999 text 1 (mkMachine (springboard 999) s) =
     Continue (mkMachine (denote 999 5 (generator_silent 42) ;; springboard_exit)
                 (record (Called Parent 7000 42) (written Value 999 s)))
  /\ exec (Ret tt ;; springboard_exit) s =
     AtSwap (never Unreachable) (record (Switched Parent) (written Func NULL s)).
Proof.
  intros text s.
  pose proof (springboard_steps 999) as (_ & _ & Hcall & Hret & _ & _).
  split; [reflexivity |].
  split.
  - apply (Hcall text (fun arg => denote 999 5 (generator_silent arg)) s).
    reflexivity.
  - apply (Hret (Ret tt) s s). reflexivity.
Defined.

(** ** The nil marker *)

(** C4. Whichever party runs: when it calls [yield_to] with NULL while its
    peer is suspended in [from], the peer's stack is resumed in that call of
    [from], which returns NULL to its caller. *)
Theorem nil_reaches_waiting_peer (not_filled : ptr)
    (text : ptr -> option (ptr -> act unit)) (s : store)
    (rest_of_sender : act unit) (rest_of_receiver : ptr -> act unit) :
  let waiting := waiting_in_from not_filled rest_of_receiver in
  let m := mkMachine (yield_to NULL ;; rest_of_sender)
             (with_chan (save_context waiting (chan s)) s) in
  let s1 := switched rest_of_sender
              (record (Switched (turn s))
                 (written Value NULL (with_chan (save_context waiting (chan s)) s))) in
  let s2 := if func (chan s) =? NULL then released s1
            else written Value not_filled s1 in
  (forall s0,
      (func (chan s0) =? NULL) = false -> value (chan s0) = not_filled ->
      exec (v <- from not_filled ;; rest_of_receiver v) s0 =
      AtSwap waiting (record (Switched (turn s0)) s0))
  /\ step not_filled text m = Continue (mkMachine waiting s1)
  /\ turn s1 = peer (turn s)
  /\ value (chan s1) = NULL
  /\ context_inactive (chan s1) = rest_of_sender
  /\ exec waiting s1 = exec (rest_of_receiver NULL) s2
  /\ turn s2 = peer (turn s).
Proof.
  intros waiting m s1 s2. repeat split.
  - intros s0 Hf Hv. rewrite exec_bind.
    rewrite from_exec.
    rewrite Hf, Hv, Z.eqb_refl. reflexivity.
  - unfold waiting, waiting_in_from. rewrite exec_bind, from_rest_exec.
    unfold s2. change (func (chan s1)) with (func (chan s)).
    destruct (func (chan s) =? NULL); reflexivity.
  - unfold s2. destruct (func (chan s) =? NULL); [| reflexivity].
    unfold released. destruct (free_func (chan s1) =? NULL); reflexivity.
Qed.

Lemma nil_reaches_waiting_peer_witness :
  let s0 := with_chan (mkChannel (Ret tt) 7000 999 NULL NULL) (power_on no_heap) in
  exec (v <- from 999 ;; Ret tt) s0 =
  AtSwap (waiting_in_from 999 (fun _ => Ret tt)) (record (Switched Parent) s0).
Proof.
  intros s0.
  pose proof (nil_reaches_waiting_peer 999 (fun _ => None) s0 (Ret tt) (fun _ => Ret tt))
    as [H _].
  apply (H s0); reflexivity.
Defined.

(** ** User code between two context switches *)

Section UserCode.

Variable not_filled : ptr.

Variable bound : nat.

Lemma lands_after s1 s2 o : moves not_filled s1 s2 -> lands not_filled bound s2 o -> lands not_filled bound s1 o.
Proof.
  intros Hm. destruct o; simpl; try tauto;
    try (intros [? ?]; split; trivial); try intros ?;
    eapply reach_step; eauto.
Qed.

Lemma reach_one s1 s2 : moves not_filled s1 s2 -> reach not_filled s1 s2.
Proof. intros H. eapply reach_step; [exact H | apply reach_refl]. Qed.

Lemma close_lands (k : prog) :
  (forall s, lands not_filled bound s (exec (denote not_filled bound k) s)) ->
  forall n s, lands not_filled bound s (exec (close_and_join n ;; denote not_filled bound k) s).
Proof.
  intros IH n s.
  destruct n as [| n]; cbn -[denote release yield_to];
    destruct (func (chan s) =? NULL) eqn:Hf.
  - rewrite exec_bind, release_exec.
    apply lands_after with (released s); [now apply mv_release | apply IH].
  - simpl. split; [reflexivity | apply reach_refl].
  - rewrite exec_bind, release_exec.
    apply lands_after with (released s); [now apply mv_release | apply IH].
  - simpl. split; [apply uc_close | apply reach_one; now apply mv_nil].
Qed.

Lemma from_rest_lands (k : ptr -> prog) :
  (forall v s, lands not_filled bound s (exec (denote not_filled bound (k v)) s)) ->
  forall s,
    lands not_filled bound s (exec (waiting_in_from not_filled
                     (fun v => perform (SayGot v) ;;
                               denote not_filled bound (k v))) s).
Proof.
  intros IH s. unfold waiting_in_from. rewrite exec_bind, from_rest_exec.
  destruct (func (chan s) =? NULL) eqn:Hf; cbn -[denote].
  - rewrite turn_released.
    apply lands_after with (record (Got (turn s) NULL) (released s));
      [now apply mv_end | apply IH].
  - eapply lands_after; [| apply IH]. now apply mv_take.
Qed.

Lemma denote_lands (p : prog) (s : store) :
  lands not_filled bound s (exec (denote not_filled bound p) s).
Proof.
  revert s. induction p as [| v k IH | k IH | k IH | k IH | f arg]; intros s.
  - simpl. apply reach_refl.
  - simpl. split; [apply uc_denote | apply reach_one, mv_yield].
  - change (denote not_filled bound (From k))
      with (v <- from not_filled ;;
            perform (SayGot v) ;; denote not_filled bound (k v)).
    rewrite exec_bind.
    rewrite from_exec.
    destruct (func (chan s) =? NULL) eqn:Hf; simpl negb; cbv beta iota.
    + simpl andb. cbv iota. rewrite <- exec_bind.
      apply (from_rest_lands k IH).
    + destruct (not_filled =? value (chan s)) eqn:Hv; simpl andb; cbv iota.
      * split; [apply uc_from | apply reach_one; now apply mv_switch].
      * rewrite <- exec_bind. apply (from_rest_lands k IH).
  - change (denote not_filled bound (Coroutine_switch k))
      with (coroutine_switch ;; denote not_filled bound k).
    rewrite exec_bind, coroutine_switch_exec.
    destruct (func (chan s) =? NULL) eqn:Hf.
    + apply IH.
    + split; [apply uc_denote | apply reach_one; now apply mv_switch].
  - apply (close_lands k IH).
  - simpl. split; [reflexivity | apply reach_one, mv_call].
Qed.

Lemma user_code_lands (u : act unit) (s : store) :
  user_code not_filled bound u -> lands not_filled bound s (exec u s).
Proof.
  intros [p | k | n k].
  - apply denote_lands.
  - apply from_rest_lands. intros v s'. apply denote_lands.
  - apply close_lands. intros s'. apply denote_lands.
Qed.

End UserCode.

(** ** The slot protocol *)

Lemma track_app nf st l1 l2 :
  track nf st (l1 ++ l2) =
  match track nf st l1 with
  | Some st' => track nf st' l2
  | None => None
  end.
Proof.
  revert st. induction l1 as [| e l1 IH]; intros st; simpl.
  - reflexivity.
  - destruct (track1 nf st e); auto.
Qed.

Lemma frame_refl s : frame s s.
Proof.
  constructor; try reflexivity.
  exists []. rewrite app_nil_r. repeat split; constructor.
Qed.

Lemma frame_trans s1 s2 s3 : frame s1 s2 -> frame s2 s3 -> frame s1 s3.
Proof.
  intros [F1 C1 A1 H1 T1 (n1 & E1 & U1 & K1)] [F2 C2 A2 H2 T2 (n2 & E2 & U2 & K2)].
  constructor; try congruence.
  exists (n1 ++ n2). rewrite E2, E1, app_assoc. repeat split.
  - apply Forall_app; auto.
  - intros Hn. apply Forall_app. split; [auto |]. apply K2. congruence.
Qed.

Lemma frame_released s : frame s (released s).
Proof.
  unfold released. destruct (free_func (chan s) =? NULL) eqn:Hff.
  - apply frame_refl.
  - constructor; try reflexivity.
    exists [Freed (turn s) (free_func (chan s)) (free_after (chan s))].
    repeat split.
    + repeat constructor.
    + intros Hn. rewrite Hn in Hff. discriminate.
Qed.

Lemma frame_events s s' (new : list event) :
  func (chan s') = func (chan s) ->
  context_inactive (chan s') = context_inactive (chan s) ->
  free_after (chan s') = free_after (chan s) ->
  free_func (chan s') = free_func (chan s) ->
  turn s' = turn s ->
  trace s' = trace s ++ new ->
  Forall (fun e => user_event e /\ ~ hook_event e) new ->
  frame s s'.
Proof.
  intros. constructor; trivial. exists new. repeat split; trivial.
  - eapply Forall_impl; [| eassumption]. simpl. tauto.
  - intros _. eapply Forall_impl; [| eassumption]. simpl. tauto.
Qed.

Section Moves.

Variable not_filled : ptr.

Lemma moves_frame s s' : moves not_filled s s' -> frame s s'.
Proof.
  intros H. destruct H.
  - apply frame_events
      with (new := [Yielded (turn s) v; Wrote (turn s) Value v; Switched (turn s)]);
      try reflexivity.
    + simpl. now rewrite <- !app_assoc.
    + repeat constructor; simpl; auto.
  - apply frame_events
      with (new := [Wrote (turn s) Value NULL; Switched (turn s)]);
      try reflexivity.
    + simpl. now rewrite <- !app_assoc.
    + repeat constructor; simpl; auto.
  - apply frame_events with (new := [Switched (turn s)]); try reflexivity.
    repeat constructor; simpl; auto.
  - apply frame_events
      with (new := [Wrote (turn s) Value not_filled; Got (turn s) (value (chan s))]);
      try reflexivity.
    + simpl. now rewrite <- !app_assoc.
    + repeat constructor; simpl; auto.
  - apply frame_trans with (released s); [apply frame_released |].
    apply frame_events with (new := [Got (turn s) NULL]); try reflexivity.
    repeat constructor; simpl; auto.
  - apply frame_released.
  - apply frame_events with (new := [Called (turn s) f arg]); try reflexivity.
    repeat constructor; simpl; auto.
Qed.

Lemma reach_frame s s' : reach not_filled s s' -> frame s s'.
Proof.
  induction 1 as [s | s1 s2 s3 Hm _ IH].
  - apply frame_refl.
  - eapply frame_trans; [apply moves_frame; eassumption | exact IH].
Qed.

Hypothesis sentinel_not_null : (not_filled =? NULL) = false.

Lemma slot_ok_released s : slot_ok not_filled s -> slot_ok not_filled (released s).
Proof.
  unfold released. destruct (free_func (chan s) =? NULL); [trivial |].
  intros (st & Ht & Ha). exists st. split; [| exact Ha].
  simpl. rewrite track_app, Ht. reflexivity.
Qed.

Lemma moves_slot s s' :
  moves not_filled s s' -> slot_ok not_filled s -> slot_ok not_filled s'.
Proof.
  assert (Hsym : (NULL =? not_filled) = false)
    by (rewrite Z.eqb_sym; exact sentinel_not_null).
  intros H. destruct H; intros Hok;
    [ | | | | apply slot_ok_released in Hok | apply slot_ok_released in Hok | ];
    destruct Hok as (st & Ht & Ha).
  - destruct st; simpl in Ha; try contradiction;
      [exists (Holding v) | exists (Holding v) | exists Over];
      simpl; rewrite !track_app, Ht; simpl; rewrite ?Z.eqb_refl;
      split; trivial.
  - destruct st; simpl in Ha; try contradiction;
      [exists (Holding NULL) | exists (Holding NULL)
       | apply Z.eqb_neq in H; contradiction];
      simpl; rewrite !track_app, Ht; simpl; rewrite Hsym; split; reflexivity.
  - exists st. simpl. rewrite track_app, Ht. split; [reflexivity | exact Ha].
  - exists Vacant. simpl. rewrite !track_app, Ht.
    destruct st; simpl in Ha; try contradiction;
      [ | | apply Z.eqb_neq in H; contradiction];
      simpl; rewrite Z.eqb_refl; simpl; rewrite ?Ha, Z.eqb_refl;
      split; reflexivity.
  - exists Over. simpl. rewrite track_app, Ht.
    assert (Hf : func (chan (released s)) = NULL).
    { unfold released. destruct (free_func (chan s) =? NULL);
        apply Z.eqb_eq in H; exact H. }
    destruct st; simpl in Ha; try contradiction; simpl;
      (split; [reflexivity | exact Hf]).
  - exists st. split; assumption.
  - exists st. simpl. rewrite track_app, Ht.
    destruct st; simpl in Ha; try contradiction; (split; [reflexivity | exact Ha]).
Qed.

Lemma reach_slot s s' :
  reach not_filled s s' -> slot_ok not_filled s -> slot_ok not_filled s'.
Proof.
  induction 1 as [s | s1 s2 s3 Hm _ IH]; [trivial |].
  intros Hok. apply IH. eapply moves_slot; eassumption.
Qed.

End Moves.

(** ** What holds of every run *)

Lemma user_event_no_entry_write e : user_event e -> ~ entry_write e.
Proof. destruct e as [| | who f v | | | | |]; simpl; try tauto. destruct f; tauto. Qed.

Lemma frame_entry_kept entry s s' :
  frame s s' -> entry_kept entry s -> entry_kept entry s'.
Proof.
  intros [F _ _ _ _ (new & E & U & _)] [Hf Ht]. split; [congruence |].
  rewrite E. apply Forall_app. split; [exact Ht |].
  eapply Forall_impl; [| exact U]. apply user_event_no_entry_write.
Qed.

Lemma frame_entry_emptied s s' :
  frame s s' -> entry_emptied s -> entry_emptied s'.
Proof.
  intros [F _ _ _ _ (new & E & U & _)] (Hf & l1 & l2 & Ht & H1 & H2).
  split; [congruence |].
  exists l1, (l2 ++ new). rewrite E, Ht. repeat split.
  - now rewrite <- !app_assoc.
  - exact H1.
  - apply Forall_app. split; [exact H2 |].
    eapply Forall_impl; [| exact U]. apply user_event_no_entry_write.
Qed.

Lemma frame_hooks_clear s s' :
  frame s s' -> hooks_clear s -> hooks_clear s'.
Proof.
  intros [_ _ A H _ (new & E & _ & K)] (Hff & Hfa & Ht).
  repeat split; try congruence.
  rewrite E. apply Forall_app. split; [exact Ht | auto].
Qed.

Section Invariant.

Variable not_filled : ptr.

Variable bound : nat.

Variable functions : program.

Variable given : bool.

Variable entry : ptr.

Local Abbreviation text := (text_of not_filled bound functions).

Lemma slot_ok_accepts s :
  slot_ok not_filled s -> track not_filled Vacant (trace s) <> None.
Proof. intros (st & Ht & _). congruence. Qed.

Lemma healthy_intro s :
  (sentinel_not_null not_filled -> slot_ok not_filled s) ->
  (given = true -> hooks_clear s) ->
  entry_kept entry s \/ entry_emptied s -> healthy not_filled given entry s.
Proof.
  intros Hs Hh He.
  split; [intros Hn; now apply slot_ok_accepts, Hs | split; assumption].
Qed.

Lemma invariant_healthy m :
  invariant not_filled bound given entry m -> healthy not_filled given entry (mem m).
Proof.
  intros (Hs & Hh & Hp). apply healthy_intro; trivial. destruct Hp; auto.
Qed.

(** *** The writes of the release hook by [coroutine_create] *)

Lemma slot_ok_hook (f : field) (v : ptr) (s : store) :
  f = Free_after \/ f = Free_func ->
  slot_ok not_filled s -> slot_ok not_filled (written f v s).
Proof.
  intros Hf (st & Ht & Ha). exists st. split.
  - simpl. rewrite track_app, Ht. destruct Hf as [-> | ->]; reflexivity.
  - destruct Hf as [-> | ->]; destruct st; exact Ha.
Qed.

Lemma entry_kept_hook (f : field) (v : ptr) (s : store) :
  f = Free_after \/ f = Free_func ->
  entry_kept entry s -> entry_kept entry (written f v s).
Proof.
  intros Hf [Hfn Hev]. split.
  - destruct Hf as [-> | ->]; exact Hfn.
  - simpl. apply Forall_app. split; [exact Hev |].
    destruct Hf as [-> | ->]; repeat constructor; simpl; tauto.
Qed.

Lemma entry_emptied_hook (f : field) (v : ptr) (s : store) :
  f = Free_after \/ f = Free_func ->
  entry_emptied s -> entry_emptied (written f v s).
Proof.
  intros Hf (Hfn & l1 & l2 & Ht & H1 & H2). split.
  - destruct Hf as [-> | ->]; exact Hfn.
  - exists l1, (l2 ++ [Wrote (turn s) f v]). split; [| split; [exact H1 |]].
    + simpl. rewrite Ht, <- !app_assoc. reflexivity.
    + apply Forall_app. split; [exact H2 |].
      destruct Hf as [-> | ->]; repeat constructor; simpl; tauto.
Qed.

Lemma step_setting_hooks (block free : ptr) (rest : prog) (s : store) :
  step not_filled text
    (mkMachine (setting_hooks not_filled bound block free rest ;; Ret tt) s) =
  step not_filled text
    (mkMachine (denote not_filled bound rest ;; Ret tt)
       (written Free_func free (written Free_after block s))).
Proof. reflexivity. Qed.

(** *** One step of the machine *)

(** The parent runs user code, the child is suspended. *)
Lemma parent_step_sound (u : act unit) (s : store) :
  user_code not_filled bound u ->
  (sentinel_not_null not_filled -> slot_ok not_filled s) ->
  (given = true -> hooks_clear s) ->
  turn s = Parent -> entry_kept entry s ->
  child_code not_filled bound (context_inactive (chan s)) ->
  sound not_filled bound given entry
    (step not_filled text (mkMachine (u ;; Ret tt) s)).
Proof.
  intros Hu Hs Hh Ht He Hc. unfold step. cbn [running mem]. rewrite exec_bind.
  pose proof (user_code_lands not_filled bound u s Hu) as L.
  destruct (exec u s) as [[] s1 | u' s1 | u' s1 | f arg u' s1 | r s1];
    simpl in L; try contradiction;
    [ | destruct L as [Hu' L] | destruct L as [-> L] | destruct L as [-> L] ];
    pose proof (reach_frame _ _ _ L) as F;
    assert (Hs1 : sentinel_not_null not_filled -> slot_ok not_filled s1)
      by (intros Hn; exact (reach_slot _ Hn _ _ L (Hs Hn)));
    assert (Hh1 : given = true -> hooks_clear s1)
      by (intros G; exact (frame_hooks_clear _ _ F (Hh G)));
    pose proof (frame_entry_kept _ _ _ F He) as He1.
  - simpl. apply healthy_intro; auto.
  - simpl. split; [exact Hs1 | split; [exact Hh1 |]].
    apply ph_child; simpl.
    + now rewrite (fr_turn _ _ F), Ht.
    + exact He1.
    + now rewrite (fr_context _ _ F).
    + left. exists u'. split; [exact Hu' | reflexivity].
  - unfold text_of. destruct (functions f) as [b |]; simpl.
    + split; [exact Hs1 | split; [exact Hh1 |]].
      apply ph_parent; simpl; trivial.
      * now rewrite (fr_turn _ _ F).
      * left. exists (denote not_filled bound (b arg)).
        split; [apply uc_denote | reflexivity].
      * now rewrite (fr_context _ _ F).
    + apply healthy_intro; auto.
  - simpl. apply healthy_intro; auto.
Qed.

(** The child runs user code, the parent is suspended. *)
Lemma child_step_sound (u : act unit) (s : store) :
  user_code not_filled bound u ->
  (sentinel_not_null not_filled -> slot_ok not_filled s) ->
  (given = true -> hooks_clear s) ->
  turn s = Child -> entry_kept entry s ->
  parent_code not_filled bound given (context_inactive (chan s)) ->
  sound not_filled bound given entry
    (step not_filled text (mkMachine (u ;; springboard_exit) s)).
Proof.
  intros Hu Hs Hh Ht He Hc. unfold step. cbn [running mem]. rewrite exec_bind.
  pose proof (user_code_lands not_filled bound u s Hu) as L.
  destruct (exec u s) as [[] s1 | u' s1 | u' s1 | f arg u' s1 | r s1];
    simpl in L; try contradiction;
    [ | destruct L as [Hu' L] | destruct L as [-> L] | destruct L as [-> L] ];
    pose proof (reach_frame _ _ _ L) as F;
    assert (Hs1 : sentinel_not_null not_filled -> slot_ok not_filled s1)
      by (intros Hn; exact (reach_slot _ Hn _ _ L (Hs Hn)));
    assert (Hh1 : given = true -> hooks_clear s1)
      by (intros G; exact (frame_hooks_clear _ _ F (Hh G)));
    pose proof (frame_entry_kept _ _ _ F He) as He1.
  - (* the entry function has returned *)
    assert (Ht1 : turn s1 = Child) by now rewrite (fr_turn _ _ F).
    simpl. rewrite Ht1. split; [| split].
    + intros Hn. destruct (Hs1 Hn) as (st & Hst & Ha). exists st. split.
      * simpl. rewrite !track_app, Hst. reflexivity.
      * destruct st; simpl in Ha; try contradiction; simpl; trivial.
    + intros G. destruct (Hh1 G) as (Hff & Hfa & Hev). repeat split; trivial.
      simpl. rewrite !Forall_app. repeat split; trivial;
        repeat constructor; simpl; tauto.
    + apply ph_done; simpl; trivial.
      * destruct He1 as [_ Hev]. split; [reflexivity |].
        exists (trace s1), []. split; [| split; [exact Hev | constructor]].
        simpl. now rewrite <- app_assoc.
      * now rewrite (fr_context _ _ F).
  - simpl. split; [exact Hs1 | split; [exact Hh1 |]].
    apply ph_parent; simpl.
    + now rewrite (fr_turn _ _ F), Ht.
    + exact He1.
    + now rewrite (fr_context _ _ F).
    + exists u'. split; [exact Hu' | reflexivity].
  - unfold text_of. destruct (functions f) as [b |]; simpl.
    + split; [exact Hs1 | split; [exact Hh1 |]].
      apply ph_child; simpl; trivial.
      * now rewrite (fr_turn _ _ F).
      * exists (denote not_filled bound (b arg)).
        split; [apply uc_denote | reflexivity].
      * now rewrite (fr_context _ _ F).
    + apply healthy_intro; auto.
  - simpl. apply healthy_intro; auto.
Qed.

(** The parent runs user code, the child has returned. *)
Lemma done_step_sound (u : act unit) (s : store) :
  user_code not_filled bound u ->
  (sentinel_not_null not_filled -> slot_ok not_filled s) ->
  (given = true -> hooks_clear s) ->
  turn s = Parent -> entry_emptied s ->
  context_inactive (chan s) = never Unreachable ->
  sound not_filled bound given entry
    (step not_filled text (mkMachine (u ;; Ret tt) s)).
Proof.
  intros Hu Hs Hh Ht He Hdead. unfold step. cbn [running mem]. rewrite exec_bind.
  pose proof (user_code_lands not_filled bound u s Hu) as L.
  destruct (exec u s) as [[] s1 | u' s1 | u' s1 | f arg u' s1 | r s1];
    simpl in L; try contradiction;
    [ | destruct L as [Hu' L] | destruct L as [-> L] | destruct L as [-> L] ];
    pose proof (reach_frame _ _ _ L) as F;
    assert (Hs1 : sentinel_not_null not_filled -> slot_ok not_filled s1)
      by (intros Hn; exact (reach_slot _ Hn _ _ L (Hs Hn)));
    assert (Hh1 : given = true -> hooks_clear s1)
      by (intros G; exact (frame_hooks_clear _ _ F (Hh G)));
    pose proof (frame_entry_emptied _ _ F He) as He1.
  - simpl. apply healthy_intro; auto.
  - simpl. split; [exact Hs1 | split; [exact Hh1 |]].
    apply ph_lost; simpl.
    + now rewrite (fr_turn _ _ F), Ht.
    + exact He1.
    + rewrite (fr_context _ _ F). exact Hdead.
  - unfold text_of. destruct (functions f) as [b |]; simpl.
    + split; [exact Hs1 | split; [exact Hh1 |]].
      apply ph_done; simpl; trivial.
      * now rewrite (fr_turn _ _ F).
      * left. exists (denote not_filled bound (b arg)).
        split; [apply uc_denote | reflexivity].
      * now rewrite (fr_context _ _ F).
    + apply healthy_intro; auto.
  - simpl. apply healthy_intro; auto.
Qed.

Lemma step_sound m :
  invariant not_filled bound given entry m ->
  sound not_filled bound given entry (step not_filled text m).
Proof.
  intros (Hs & Hh & Hp). destruct m as [c s]. cbn [running mem] in Hs, Hh.
  destruct Hp as [Ht He Hr Hc | Ht He (u & Hu & Hr) Hc | Ht He Hr Hdead | Ht He Hr];
    cbn [running mem] in *.
  - (* the parent runs, the child is suspended *)
    destruct Hr as [(u & Hu & ->) | (G & block & free & rest & ->)].
    + now apply parent_step_sound.
    + rewrite step_setting_hooks. apply parent_step_sound; trivial.
      * apply uc_denote.
      * intros Hn. apply slot_ok_hook; [now right |].
        apply slot_ok_hook; [now left |]. now apply Hs.
      * intros G'. congruence.
      * apply entry_kept_hook; [now right |]. apply entry_kept_hook; [now left |].
        exact He.
  - (* the child runs, the parent is suspended *)
    subst c. now apply child_step_sound.
  - (* the parent runs, the child has returned *)
    destruct Hr as [(u & Hu & ->) | (G & block & free & rest & ->)].
    + now apply done_step_sound.
    + rewrite step_setting_hooks. apply done_step_sound; trivial.
      * apply uc_denote.
      * intros Hn. apply slot_ok_hook; [now right |].
        apply slot_ok_hook; [now left |]. now apply Hs.
      * intros G'. congruence.
      * apply entry_emptied_hook; [now right |].
        apply entry_emptied_hook; [now left |]. exact He.
  - (* the stack of the child has been resumed after its last switch *)
    subst c. unfold step. simpl. apply healthy_intro; auto.
Qed.

Lemma run_sound n m :
  invariant not_filled bound given entry m ->
  sound not_filled bound given entry (run not_filled text n m).
Proof.
  revert m. induction n as [| n IH]; intros m Hm; simpl.
  - exact Hm.
  - pose proof (step_sound m Hm) as H.
    destruct (step not_filled text m); simpl in H.
    + apply IH, H.
    + exact H.
    + exact H.
Qed.

Lemma sound_healthy st :
  sound not_filled bound given entry st -> healthy not_filled given entry (store_of st).
Proof.
  destruct st; simpl; trivial. apply invariant_healthy.
Qed.

(** *** From the start of the child stack on *)

Variables arg channel : ptr.

Variable parent : context.

Variable heap : Z -> Z -> option ptr.

Hypothesis parent_suspended : parent_code not_filled bound given parent.

Local Abbreviation s1 := (bootstrapped_store parent channel entry arg heap).

Local Abbreviation s2 := (entered_store not_filled parent channel entry arg heap).

Lemma creation_step_2 :
  step not_filled text (mkMachine (springboard not_filled) s1) =
  match functions entry with
  | Some body =>
      Continue (mkMachine (denote not_filled bound (body arg) ;; springboard_exit) s2)
  | None => Halted Undefined_behaviour s2
  end.
Proof.
  unfold step, text_of. simpl. destruct (functions entry); reflexivity.
Qed.

Lemma s1_healthy : healthy not_filled given entry s1.
Proof.
  split; [intros _; simpl; discriminate | split].
  - intros _. repeat split; repeat constructor; simpl; tauto.
  - left. split; [reflexivity |]. repeat constructor; simpl; tauto.
Qed.

Lemma s2_slot_ok : slot_ok not_filled s2.
Proof.
  exists Vacant. simpl. rewrite !Z.eqb_refl. split; reflexivity.
Qed.

Lemma s2_hooks_clear : hooks_clear s2.
Proof. repeat split; repeat constructor; simpl; tauto. Qed.

Lemma s2_entry_kept : entry_kept entry s2.
Proof. split; [reflexivity |]. repeat constructor; simpl; tauto. Qed.

Lemma creation_invariant (body : ptr -> prog) :
  invariant not_filled bound given entry
    (mkMachine (denote not_filled bound (body arg) ;; springboard_exit) s2).
Proof.
  split; [intros _; apply s2_slot_ok | split; [intros _; apply s2_hooks_clear |]].
  apply ph_child; simpl.
  - reflexivity.
  - apply s2_entry_kept.
  - eexists. split; [apply uc_denote | reflexivity].
  - exact parent_suspended.
Qed.

(** From the start of the child stack on, every state of a run is healthy. *)
Lemma bootstrapped_healthy (n : nat) :
  healthy not_filled given entry
    (store_of (run not_filled text n (mkMachine (springboard not_filled) s1))).
Proof.
  destruct n as [| n].
  - apply s1_healthy.
  - change (run not_filled text (S n) (mkMachine (springboard not_filled) s1))
      with (match step not_filled text (mkMachine (springboard not_filled) s1) with
            | Continue m' => run not_filled text n m'
            | st => st
            end).
    rewrite creation_step_2.
    destruct (functions entry) as [body |].
    + apply sound_healthy, run_sound, creation_invariant.
    + apply healthy_intro;
        [intros _; apply s2_slot_ok | intros _; apply s2_hooks_clear
         | left; apply s2_entry_kept].
Qed.

End Invariant.

Section Created.

Variable not_filled : ptr.

Variable bound : nat.

Variable functions : program.

Variable target : abi.

Variables entry arg : ptr.

Variable rest : prog.

Variable heap : Z -> Z -> option ptr.

Local Abbreviation text := (text_of not_filled bound functions).

Lemma healthy_any_constructor (s : store) :
  healthy not_filled true entry s -> healthy not_filled false entry s.
Proof.
  intros (Hs & _ & He). split; [exact Hs | split; [discriminate | exact He]].
Qed.

(** From the first step on, every state of a run that starts with
    [coroutine_create_given_memory] is healthy. *)
Lemma run_healthy (block blocksize : ptr) (n : nat) :
  healthy not_filled true entry
    (store_of
       (run not_filled text (S n)
          (start (main_given_memory not_filled bound target entry arg block
                    blocksize rest) heap))).
Proof.
  apply (bootstrapped_healthy not_filled bound functions true entry arg
           (block + channel_offset target blocksize)
           (denote not_filled bound rest ;; Ret tt) heap).
  left. eexists. split; [apply uc_denote | reflexivity].
Qed.

(** The same of a run that starts with [coroutine_create], unless
    [posix_memalign] fails, and with a release hook. *)
Lemma run_healthy_allocating (free : ptr) (n : nat) :
  let s :=
    store_of
      (run not_filled text n
         (start (main_allocating not_filled bound target free entry arg rest)
            heap)) in
  trace s = [] \/ healthy not_filled false entry s.
Proof.
  destruct n as [| n]; [left; reflexivity |].
  cbn zeta.
  change (run not_filled text (S n)
            (start (main_allocating not_filled bound target free entry arg rest)
               heap))
    with (match step not_filled text
                  (start (main_allocating not_filled bound target free entry arg
                            rest) heap) with
          | Continue m' => run not_filled text n m'
          | st => st
          end).
  unfold step, start, main_allocating, coroutine_create. simpl.
  destruct (heap (STACK_ALIGNMENT target) 524288) as [block |]; simpl.
  - right.
    apply (bootstrapped_healthy not_filled bound functions false entry arg
             (block + channel_offset target 524288)
             (setting_hooks not_filled bound block free rest ;; Ret tt) heap).
    right. split; [reflexivity |]. exists block, free, rest. reflexivity.
  - left. reflexivity.
Qed.

(** Either constructor. *)
Lemma run_healthy_with (c : creator) (n : nat) :
  let s :=
    store_of
      (run not_filled text n
         (start (main_with not_filled bound target c entry arg rest) heap)) in
  trace s = [] \/ healthy not_filled false entry s.
Proof.
  destruct c as [block blocksize | free].
  - destruct n as [| n]; [left; reflexivity |].
    right. apply healthy_any_constructor, run_healthy.
  - apply run_healthy_allocating.
Qed.

End Created.

(** ** Traces only grow *)

Lemma exec_extends {A : Type} (m : act A) (s : store) :
  exists l, trace (outcome_store (exec m s)) = trace s ++ l.
Proof.
  revert s. induction m as [a | X o h IH]; intros s; simpl.
  - exists []. now rewrite app_nil_r.
  - destruct o; simpl;
      try (exists []; now rewrite app_nil_r);
      try (eexists; reflexivity);
      try (match goal with
           | |- context [exec (h ?x) ?s'] =>
               destruct (IH x s') as [l Hl]; rewrite Hl; simpl
           end;
           first [ now exists l
                 | rewrite <- app_assoc; eexists; reflexivity ]).
Qed.

Lemma step_extends nf text (m : machine) :
  exists l, trace (store_of (step nf text m)) = trace (mem m) ++ l.
Proof.
  unfold step. destruct (exec_extends (running m) (mem m)) as [l Hl].
  destruct (exec (running m) (mem m)) as [a s | k s | k s | f arg k s | r s];
    simpl in *; try (now exists l).
  destruct (text f); simpl; now exists l.
Qed.

Lemma run_extends nf text (n : nat) (m : machine) :
  exists l, trace (store_of (run nf text n m)) = trace (mem m) ++ l.
Proof.
  revert m. induction n as [| n IH]; intros m; simpl.
  - exists []. now rewrite app_nil_r.
  - destruct (step_extends nf text m) as [l Hl].
    destruct (step nf text m) as [m' | s | r s]; simpl in Hl.
    + destruct (IH m') as [l' Hl']. exists (l ++ l').
      now rewrite Hl', Hl, app_assoc.
    + now exists l.
    + now exists l.
Qed.

Lemma run_plus nf text (n k : nat) (m : machine) :
  run nf text (n + k) m =
  match run nf text n m with
  | Continue m' => run nf text k m'
  | st => st
  end.
Proof.
  revert m. induction n as [| n IH]; intros m; simpl.
  - reflexivity.
  - destruct (step nf text m); auto.
Qed.

Lemma run_later nf text (n k : nat) (m : machine) :
  exists l,
    trace (store_of (run nf text (n + k) m)) =
    trace (store_of (run nf text n m)) ++ l.
Proof.
  rewrite run_plus.
  destruct (run nf text n m) as [m' | s | r s]; simpl.
  - apply run_extends.
  - exists []. now rewrite app_nil_r.
  - exists []. now rewrite app_nil_r.
Qed.

Lemma kept_not_emptied (entry : ptr) (s : store) (l : list event) :
  entry_emptied s -> Forall (fun e => ~ entry_write e) (trace s ++ l) -> False.
Proof.
  intros (_ & l1 & l2 & Ht & _) H. rewrite Ht in H.
  rewrite !Forall_app in H. destruct H as [[_ [H _]] _].
  inversion H as [| e l' He _]; subst. apply He. exact I.
Qed.

(** ** The entry of a channel *)

(** C7. In every state of every run of two parties that call [yield_to],
    [from], [close_and_join] and [coroutine_switch], whichever constructor
    made the channel: nothing has happened yet (or [posix_memalign] has
    failed), or the entry is still the function given to the constructor and
    nothing has written the entry field, or the field is NULL after exactly
    one write, the write of NULL done on the child stack by [springboard]
    and followed at once by the context switch of that stack; and once the
    entry is empty it stays empty. *)
Theorem entry_emptied_at_most_once
    (not_filled : ptr) (bound : nat) (functions : program) (target : abi)
    (c : creator) (entry arg : ptr) (rest : prog)
    (heap : Z -> Z -> option ptr) (n : nat) :
  let m0 := start (main_with not_filled bound target c entry arg rest) heap in
  let state := fun i =>
    store_of (run not_filled (text_of not_filled bound functions) i m0) in
  (trace (state n) = [] \/ entry_kept entry (state n) \/ entry_emptied (state n))
  /\ (forall k : nat, entry_emptied (state n) -> entry_emptied (state (n + k)%nat)).
Proof.
  intros m0 state.
  assert (H : forall i, trace (state i) = []
                        \/ entry_kept entry (state i) \/ entry_emptied (state i)).
  { intros i.
    destruct (run_healthy_with not_filled bound functions target entry arg rest
                heap c i) as [H | (_ & _ & H)]; [left; exact H | right; exact H]. }
  split; [apply H |].
  intros k He.
  destruct (run_later not_filled (text_of not_filled bound functions) n k m0)
    as [l Hl].
  destruct (H (n + k)%nat) as [Hk | [[_ Hk] | Hk]]; [| | exact Hk]; exfalso.
  - destruct He as (_ & l1 & l2 & Ht & _).
    unfold state in Hk, Ht. rewrite Hl, Ht in Hk.
    destruct l1; discriminate.
  - unfold state in Hk. rewrite Hl in Hk.
    exact (kept_not_emptied entry _ _ He Hk).
Qed.

Lemma entry_emptied_at_most_once_witness :
  let m0 := start (main_with 999 5 x86_64 (Allocating 555) 7000 42
                     (Goto 7001 0)) one_block in
  let state := fun i => store_of (run 999 (text_of 999 5 test_functions) i m0) in
  entry_emptied (state 17%nat) /\ entry_emptied (state (17 + 3)%nat).
Proof.
  intros m0 state.
  assert (He : entry_emptied (state 17%nat)).
  { split; [reflexivity |].
    exists (firstn 35 (trace (state 17%nat))), (skipn 37 (trace (state 17%nat))).
    vm_compute.
    split; [reflexivity |]. split; repeat constructor; tauto. }
  split; [exact He |].
  exact (proj2 (entry_emptied_at_most_once 999 5 test_functions x86_64
                  (Allocating 555) 7000 42 (Goto 7001 0) one_block 17)
           3%nat He).
Defined.

(** ** The release hook of a caller-supplied block *)

(** C10. In every state of every run that starts with
    [coroutine_create_given_memory]: both release-hook fields are NULL,
    nothing has written them, and no release function has been called. *)
Theorem given_memory_is_never_released
    (not_filled : ptr) (bound : nat) (functions : program) (target : abi)
    (entry arg block blocksize : ptr) (rest : prog)
    (heap : Z -> Z -> option ptr) (n : nat) :
  let m0 := start (main_given_memory not_filled bound target entry arg block
                     blocksize rest) heap in
  let s := store_of (run not_filled (text_of not_filled bound functions) n m0) in
  free_func (chan s) = NULL
  /\ free_after (chan s) = NULL
  /\ Forall (fun e => ~ hook_event e) (trace s)
  /\ (forall who f p, ~ In (Freed who f p) (trace s)).
Proof.
  intros m0 s.
  assert (H : hooks_clear s).
  { unfold s. destruct n as [| n].
    - repeat split. constructor.
    - now apply (run_healthy not_filled bound functions target entry arg rest
                   heap block blocksize n). }
  destruct H as (Hff & Hfa & Hev). repeat split; trivial.
  intros who f p Hin. rewrite Forall_forall in Hev.
  apply (Hev _ Hin). exact I.
Qed.

Lemma given_memory_is_never_released_witness :
  ~ In (Freed Parent 0 0)
      (trace (store_of (run 999 (text_of 999 5 test_functions) 30 consumer_silent))).
Proof.
  exact (proj2 (proj2 (proj2 (given_memory_is_never_released 999 5 test_functions
                                x86_64 7000 42 4096 8192 (Goto 7001 0) no_heap 30)))
           Parent 0 0).
Defined.

(** ** Values through the slot *)

Lemma track_got_matched (nf : ptr) (l1 : list event) :
  forall (st : slot) (q : party) (w : ptr) (l2 : list event),
    track nf st (l1 ++ Got q w :: l2) <> None ->
    w <> NULL -> w <> nf ->
    (carries st w /\ Forall quiet l1)
    \/ (exists l0 p mid, l1 = l0 ++ Yielded p w :: mid /\ Forall quiet mid).
Proof.
  induction l1 as [| e l1 IH]; intros st q w l2 H Hn Hs.
  - left. split; [| constructor].
    simpl in H. destruct st; simpl in H; try (exfalso; apply H; reflexivity);
      eqb_cases H; try (exfalso; apply H; reflexivity);
      try (apply Z.eqb_eq in Heqb; congruence).
    apply Z.eqb_eq in Heqb. subst. right. right. reflexivity.
  - simpl in H. destruct (track1 nf st e) as [st' |] eqn:E;
      [| exfalso; apply H; reflexivity].
    destruct (IH st' q w l2 H Hn Hs) as [[Hc Hq] | (l0 & p & mid & -> & Hq)].
    + destruct e as [a f x | | who f x | who | who f x | who f x | who x | who x].
      * exfalso. destruct st; simpl in E; inversion E; subst;
          destruct Hc as [Hc | [Hc | Hc]]; discriminate.
      * left. simpl in E. inversion E; subst. split; [exact Hc | now constructor].
      * left. split; [| constructor; [exact I | exact Hq]].
        destruct f; simpl in E; try (inversion E; subst; exact Hc).
        destruct st; simpl in E; eqb_cases E; inversion E; subst;
          destruct Hc as [Hc | [Hc | Hc]]; inversion Hc; subst;
          repeat match goal with
                 | H : (_ =? _) = true |- _ => apply Z.eqb_eq in H; subst
                 end;
          try congruence; unfold carries; auto.
      * left. simpl in E. inversion E; subst. split; [exact Hc | now constructor].
      * left. split; [| constructor; [exact I | exact Hq]].
        destruct st; simpl in E; eqb_cases E; inversion E; subst;
          destruct Hc as [Hc | [Hc | Hc]]; inversion Hc; subst;
          unfold carries; auto.
      * left. simpl in E. inversion E; subst. split; [exact Hc | now constructor].
      * right. exists [], who, l1. split; [| exact Hq].
        destruct st; simpl in E; inversion E; subst;
          destruct Hc as [Hc | [Hc | Hc]]; inversion Hc; subst; reflexivity.
      * exfalso. destruct st; simpl in E; eqb_cases E; inversion E; subst;
          destruct Hc as [Hc | [Hc | Hc]]; discriminate.
    + right. exists (e :: l0), p, mid. split; [reflexivity | exact Hq].
Qed.

Lemma track1_within (nf : ptr) (v : ptr) (st st' : slot) (e : event) :
  within v st -> quiet e -> track1 nf st e = Some st' -> within v st'.
Proof.
  intros Hw Hq E.
  destruct e as [a f x | | who f x | who | who f x | who f x | who x | who x];
    simpl in Hq; try contradiction;
    try (simpl in E; inversion E; subst; exact Hw).
  - destruct Hw as [-> | [-> | [-> | [-> | [-> | ->]]]]]; discriminate.
  - destruct f; simpl in E; try (inversion E; subst; exact Hw).
    destruct Hw as [-> | [-> | [-> | [-> | [-> | ->]]]]];
      simpl in E; eqb_cases E; inversion E; subst; unfold within; auto 7.
  - destruct Hw as [-> | [-> | [-> | [-> | [-> | ->]]]]];
      simpl in E; inversion E; subst; unfold within; auto 7.
Qed.

Lemma track_next_got (nf : ptr) (v : ptr) (mid : list event) :
  forall (st : slot) (q : party) (w : ptr) (l2 : list event),
    within v st -> Forall quiet mid ->
    track nf st (mid ++ Got q w :: l2) <> None ->
    w = v \/ w = NULL.
Proof.
  induction mid as [| e mid IH]; intros st q w l2 Hw Hq H.
  - simpl in H.
    destruct Hw as [-> | [-> | [-> | [-> | [-> | ->]]]]];
      simpl in H; eqb_cases H; try (exfalso; apply H; reflexivity);
      match goal with
      | E : (_ =? _) = true |- _ => apply Z.eqb_eq in E; auto
      end.
  - simpl in H. inversion Hq as [| e' mid' He Hmid]; subst.
    destruct (track1 nf st e) as [st' |] eqn:E;
      [| exfalso; apply H; reflexivity].
    apply (IH st' q w l2); trivial.
    eapply track1_within; eassumption.
Qed.

(** C2, as the code has it.  In every state of every run of two parties that
    call [yield_to], [from], [coroutine_switch] and [close_and_join]: a call
    of [from] that returns a value other than NULL and the sentinel returns
    the value of the latest call of [yield_to], and no call of [from] has
    returned between the two, so that no value is returned twice; and the
    first call of [from] that returns after a call of [yield_to] returns the
    value yielded, or NULL. *)
Theorem value_returned_once
    (not_filled : ptr) (bound : nat) (functions : program) (target : abi)
    (c : creator) (entry arg : ptr) (rest : prog)
    (heap : Z -> Z -> option ptr) (n : nat) :
  (not_filled =? NULL) = false ->
  let m0 := start (main_with not_filled bound target c entry arg rest) heap in
  let tr := trace (store_of (run not_filled (text_of not_filled bound functions) n m0)) in
  (forall l1 q w l2,
      tr = l1 ++ Got q w :: l2 -> w <> NULL -> w <> not_filled ->
      exists l0 p mid, l1 = l0 ++ Yielded p w :: mid /\ Forall quiet mid)
  /\ (forall l0 p v mid q w l2,
        tr = l0 ++ Yielded p v :: mid ++ Got q w :: l2 -> Forall quiet mid ->
        w = v \/ w = NULL).
Proof.
  intros Hnf m0 tr.
  assert (Hacc : track not_filled Vacant tr <> None).
  { destruct (run_healthy_with not_filled bound functions target entry arg rest
                heap c n) as [H | (H & _)].
    - unfold tr, m0. rewrite H. discriminate.
    - exact (H Hnf). }
  split.
  - intros l1 q w l2 E Hn Hs. rewrite E in Hacc.
    destruct (track_got_matched not_filled l1 Vacant q w l2 Hacc Hn Hs)
      as [[[Hc | [Hc | Hc]] _] | H]; try discriminate. exact H.
  - intros l0 p v mid q w l2 E Hq. rewrite E, track_app in Hacc.
    destruct (track not_filled Vacant l0) as [st |] eqn:E0;
      [| exfalso; apply Hacc; reflexivity].
    cbn [track] in Hacc.
    destruct (track1 not_filled st (Yielded p v)) as [st' |] eqn:E1;
      [| exfalso; apply Hacc; reflexivity].
    apply (track_next_got not_filled v mid st' q w l2); trivial.
    destruct st; simpl in E1; inversion E1; subst; unfold within; auto 7.
Qed.

Lemma value_returned_once_witness :
  let m0 := start (main_with 999 5 x86_64 (Given_memory 4096 8192) 7000 42
                     (Goto 7001 0)) no_heap in
  let tr := trace (store_of (run 999 (text_of 999 5 test_functions) 30 m0)) in
  exists l0 p mid,
    firstn 9 tr = l0 ++ Yielded p 100 :: mid /\ Forall quiet mid.
Proof.
  intros m0 tr.
  assert (Hnf : (999 =? NULL) = false) by reflexivity.
  destruct (value_returned_once 999 5 test_functions x86_64
              (Given_memory 4096 8192) 7000 42 (Goto 7001 0) no_heap 30 Hnf)
    as [H _].
  apply (H (firstn 9 tr) Parent 100 (skipn 10 tr)).
  - vm_compute. reflexivity.
  - discriminate.
  - discriminate.
Defined.

(** ** When the constructor returns *)

Lemma handle_log {X : Type} (o : op X) (s : store) :
  match handle o s with
  | Next _ s' =>
      turn s' = turn s
      /\ exists l, Forall (fun e => ~ switch_event e) l /\ trace s' = trace s ++ l
  | Swaps _ s' => trace s' = trace s ++ [Switched (turn s)]
  | Boots _ s' | Calls _ _ _ s' | Halts _ s' =>
      exists l, Forall (fun e => ~ switch_event e) l /\ trace s' = trace s ++ l
  end.
Proof.
  destruct o; simpl;
    try reflexivity;
    try (split; [reflexivity |]);
    try (exists []; split; [constructor | now rewrite app_nil_r]);
    eexists; (split; [| reflexivity]); repeat constructor; simpl; tauto.
Qed.

(** Code logs a context switch only as the last thing before it stops at
    that switch. *)
Lemma exec_switch_last {A : Type} (m : act A) (s : store) :
  exists l,
    Forall (fun e => ~ switch_event e) l
    /\ trace (outcome_store (exec m s)) =
       trace s ++ l ++ match exec m s with
                       | AtSwap _ _ => [Switched (turn s)]
                       | _ => []
                       end.
Proof.
  revert s. induction m as [a | X o h IH]; intros s.
  - exists []. split; [constructor | simpl; now rewrite app_nil_r].
  - simpl. pose proof (handle_log o s) as H.
    destruct (handle o s) as [x s' | x s' | x s' | f arg x s' | r s'].
    + destruct H as (Ht & l & Hl & E).
      destruct (IH x s') as (l' & Hl' & E').
      exists (l ++ l'). split; [now apply Forall_app |].
      rewrite E', E, Ht, <- !app_assoc. reflexivity.
    + exists []. split; [constructor | exact H].
    + destruct H as (l & Hl & E). exists l. split; [exact Hl |].
      simpl. now rewrite app_nil_r.
    + destruct H as (l & Hl & E). exists l. split; [exact Hl |].
      simpl. now rewrite app_nil_r.
    + destruct H as (l & Hl & E). exists l. split; [exact Hl |].
      simpl. now rewrite app_nil_r.
Qed.

Section ChildFirst.

Variable not_filled : ptr.

Variable bound : nat.

Variable functions : program.

Local Abbreviation text := (text_of not_filled bound functions).

Lemma until_parent_parent (n : nat) (m : machine) :
  turn (mem m) = Parent -> until_parent not_filled text n m = Some m.
Proof. intros H. destruct n; simpl; rewrite H; reflexivity. Qed.

(** The child stack runs user code until it switches context; the parent
    then goes on where it was. *)
Lemma until_parent_runs (n : nat) :
  forall (m m' : machine) (u : act unit),
    turn (mem m) = Child ->
    running m = (u ;; springboard_exit) ->
    user_code not_filled bound u ->
    until_parent not_filled text n m = Some m' ->
    running m' = context_inactive (chan (mem m))
    /\ turn (mem m') = Parent
    /\ exists mid,
        trace (mem m') = trace (mem m) ++ mid ++ [Switched Child]
        /\ Forall (fun e => ~ switch_event e) mid.
Proof.
  induction n as [| n IH]; intros m m' u Ht Hr Hu H; simpl in H; rewrite Ht in H.
  - discriminate.
  - unfold step in H. rewrite Hr, exec_bind in H.
    pose proof (user_code_lands not_filled bound u (mem m) Hu) as L.
    destruct (exec_switch_last u (mem m)) as (l & Hl & E).
    rewrite Ht in E.
    destruct (exec u (mem m)) as [[] s1 | u' s1 | u' s1 | f arg u' s1 | r s1];
      simpl in L, E; try contradiction;
      [ | destruct L as [Hu' L] | destruct L as [-> L] | destruct L as [-> L] ];
      pose proof (reach_frame _ _ _ L) as F;
      assert (Ht1 : turn s1 = Child) by (now rewrite (fr_turn _ _ F)).
    + simpl in H. rewrite until_parent_parent in H
        by (simpl; now rewrite Ht1).
      inversion H; subst m'; clear H. simpl. rewrite Ht1. repeat split.
      * now rewrite (fr_context _ _ F).
      * exists (l ++ [Wrote Child Func NULL]). split.
        -- rewrite E, app_nil_r, <- !app_assoc. reflexivity.
        -- apply Forall_app. split; [exact Hl |].
           repeat constructor; simpl; tauto.
    + simpl in H. rewrite until_parent_parent in H
        by (simpl; now rewrite Ht1).
      inversion H; subst m'; clear H. simpl. rewrite Ht1. repeat split.
      * now rewrite (fr_context _ _ F).
      * exists l. split; [exact E | exact Hl].
    + unfold text, text_of in H. destruct (functions f) as [b |]; [| discriminate].
      destruct (IH (mkMachine (denote not_filled bound (b arg) ;; springboard_exit) s1)
                  m' (denote not_filled bound (b arg)) Ht1 eq_refl
                  (uc_denote _ _ _) H) as (Hrun & Hturn & mid & Hmid & Hq).
      simpl in Hrun, Hmid. repeat split; trivial.
      * now rewrite Hrun, (fr_context _ _ F).
      * exists (l ++ mid). split.
        -- rewrite Hmid, E, app_nil_r, <- !app_assoc. reflexivity.
        -- now apply Forall_app.
    + discriminate.
Qed.

(** The constructor returns to its caller, with the address of the record,
    when the child, started on its own stack by the call of the entry
    function, first switches context. *)
Lemma creation_returns_general (target : abi) (entry arg block blocksize : ptr)
    (k : ptr -> act unit) (s : store) (n : nat) (m' : machine) :
  creation_returns not_filled text n
    (mkMachine
       (ch <- coroutine_create_given_memory target entry arg block blocksize ;; k ch)
       s) = Some m' ->
  let channel := block + channel_offset target blocksize in
  running m' = k channel
  /\ turn (mem m') = Parent
  /\ exists mid,
      trace (mem m') =
      trace s ++ [Initialised channel entry arg; Bootstrapped;
                  Wrote Child Value not_filled; Called Child entry arg]
              ++ mid ++ [Switched Child]
      /\ Forall (fun e => ~ switch_event e) mid.
Proof.
  intros H channel. unfold creation_returns in H. simpl in H.
  destruct n as [| n]; [discriminate |].
  simpl in H. unfold step in H. simpl in H.
  unfold text, text_of in H.
  destruct (functions entry) as [body |]; [| discriminate].
  match type of H with
  | until_parent _ _ _ ?m = _ =>
      destruct (until_parent_runs n m m' (denote not_filled bound (body arg))
                  eq_refl eq_refl (uc_denote _ _ _) H)
        as (Hrun & Hturn & mid & Hmid & Hq)
  end.
  simpl in Hrun, Hmid. repeat split; trivial.
  exists mid. split; [| exact Hq].
  rewrite Hmid, <- !app_assoc. reflexivity.
Qed.

End ChildFirst.

(** C6 fails: when the constructor returns in consumer_silent, the entry
    function of the child has been called and has made its first call of
    [yield_to]. *)
Lemma child_not_suspended_at_entry :
  exists m',
    creation_returns 999 (text_of 999 5 test_functions) 5 consumer_silent = Some m'
    /\ In (Yielded Child 100) (trace (mem m'))
    /\ ~ entry_has_not_run (trace (mem m')).
Proof.
  eexists. split; [vm_compute; reflexivity |]. split.
  - simpl. tauto.
  - intros H. apply (H (Yielded Child 100)). simpl. tauto.
Qed.

(** C6, as the code has it.  When the child first switches context, and
    only then, control is back in the constructor: [springboard] has put the
    sentinel in the slot and called the entry function with the argument,
    and the child stack has run from there up to that switch, where it is
    suspended.  [coroutine_create_given_memory] then returns at once;
    [coroutine_create], which has called it on the block of
    [posix_memalign], records the release hook and returns, without another
    context switch.  The parent goes on with the code after the
    constructor. *)
Theorem child_has_run_when_creation_returns
    (not_filled : ptr) (bound : nat) (functions : program) (target : abi)
    (c : creator) (entry arg : ptr) (rest : prog)
    (heap : Z -> Z -> option ptr) (n : nat) (m' : machine) :
  creation_returns not_filled (text_of not_filled bound functions) n
    (start (main_with not_filled bound target c entry arg rest) heap) = Some m' ->
  exists block blocksize,
    block_of target c heap = Some (block, blocksize)
    /\ running m' = (finishing not_filled bound c block rest ;; Ret tt)
    /\ exec (running m') (mem m') =
       exec (denote not_filled bound rest ;; Ret tt) (created c block (mem m'))
    /\ turn (mem m') = Parent
    /\ exists mid,
        trace (mem m') =
        [Initialised (block + channel_offset target blocksize) entry arg;
         Bootstrapped; Wrote Child Value not_filled; Called Child entry arg]
        ++ mid ++ [Switched Child]
        /\ Forall (fun e => ~ switch_event e) mid.
Proof.
  intros H. destruct c as [block blocksize | free].
  - exists block, blocksize.
    destruct (creation_returns_general not_filled bound functions target entry arg
                block blocksize (fun _ => denote not_filled bound rest ;; Ret tt)
                (power_on heap) n m' H) as (Hrun & Hturn & Hmid).
    repeat split; trivial. rewrite Hrun. reflexivity.
  - unfold creation_returns, start, main_with, main_allocating, coroutine_create,
      step in H.
    cbn -[coroutine_create_given_memory until_parent denote] in H.
    unfold block_of.
    destruct (heap (STACK_ALIGNMENT target) 524288) as [block |] eqn:Hheap;
      [| cbn in H; discriminate].
    exists block, 524288. split; [reflexivity |].
    assert (H' : creation_returns not_filled (text_of not_filled bound functions) n
                   (mkMachine
                      (ch <- coroutine_create_given_memory target entry arg block
                               524288 ;;
                       (setting_hooks not_filled bound block free rest ;; Ret tt))
                      (power_on heap)) = Some m').
    { unfold creation_returns, step. exact H. }
    destruct (creation_returns_general not_filled bound functions target entry arg
                block 524288
                (fun _ => setting_hooks not_filled bound block free rest ;; Ret tt)
                (power_on heap) n m' H') as (Hrun & Hturn & Hmid).
    repeat split; trivial. rewrite Hrun. reflexivity.
Qed.

Lemma child_has_run_when_creation_returns_witness :
  exists m' mid,
    creation_returns 999 (text_of 999 5 test_functions) 5
      (start (main_with 999 5 x86_64 (Allocating 99) 7000 42 (Goto 7001 0))
         one_block) = Some m'
    /\ running m' = (setting_hooks 999 5 4096 99 (Goto 7001 0) ;; Ret tt)
    /\ trace (mem m') =
       [Initialised 528320 7000 42; Bootstrapped; Wrote Child Value 999;
        Called Child 7000 42] ++ mid ++ [Switched Child].
Proof.
  destruct (creation_returns 999 (text_of 999 5 test_functions) 5
              (start (main_with 999 5 x86_64 (Allocating 99) 7000 42 (Goto 7001 0))
                 one_block))
    as [m' |] eqn:E; [| vm_compute in E; discriminate].
  destruct (child_has_run_when_creation_returns 999 5 test_functions x86_64
              (Allocating 99) 7000 42 (Goto 7001 0) one_block 5 m' E)
    as (block & blocksize & Hb & Hrun & _ & _ & mid & Hmid & _).
  injection Hb as <- <-.
  exists m', mid. repeat split; [exact Hrun | exact Hmid].
Defined.

(** ** Where the record is placed *)

Lemma land_lnot_pow2 (x a : Z) :
  0 <= a -> Z.land x (Z.lnot (2 ^ a - 1)) = 2 ^ a * (x / 2 ^ a).
Proof.
  intros Ha. rewrite <- Z.ldiff_land.
  replace (2 ^ a - 1) with (Z.ones a) by (rewrite Z.ones_equiv; lia).
  rewrite Z.ldiff_ones_r by lia.
  rewrite Z.shiftl_mul_pow2, Z.shiftr_div_pow2 by lia. lia.
Qed.

(** C8 fails for the fields of the record the constructor returns: in
    test_child_on_parent_stack the slot holds the sentinel, not the argument,
    and the entry is empty. *)
Lemma returned_record_differs :
  exists m',
    creation_returns 999 (text_of 999 5 test_functions) 5
      test_child_on_parent_stack = Some m'
    /\ value (chan (mem m')) = 999
    /\ func (chan (mem m')) = NULL
    /\ ~ (func (chan (mem m')) = 7003 /\ value (chan (mem m')) = 42).
Proof.
  eexists. split; [vm_compute; reflexivity |].
  repeat split. simpl. intros [H _]. discriminate.
Qed.

(** C8, as the code has it.  For a block aligned to the stack alignment (a
    power of two) and a block size of at least the size of the record, the
    constructor has no failing path: it writes the record inside the block,
    at the offset (blocksize - size of the record) rounded down to a
    multiple of the stack alignment, with the given entry function, the
    argument in the slot and both release-hook fields NULL, and starts the
    child on the new stack; when the child first switches context it returns
    the address of that record, [springboard] having meanwhile taken the
    argument out of the slot. *)
Theorem create_given_memory_places_the_record
    (not_filled : ptr) (bound : nat) (functions : program) (target : abi)
    (a entry arg block blocksize : Z) :
  0 <= a -> STACK_ALIGNMENT target = 2 ^ a ->
  0 <= sizeof_struct_channel target <= blocksize ->
  blocksize < 2 ^ SIZE_WIDTH target ->
  block mod STACK_ALIGNMENT target = 0 ->
  let offset :=
    STACK_ALIGNMENT target *
    ((blocksize - sizeof_struct_channel target) / STACK_ALIGNMENT target) in
  let channel := block + offset in
  channel_offset target blocksize = offset
  /\ 0 <= offset
  /\ offset + sizeof_struct_channel target <= blocksize
  /\ blocksize - sizeof_struct_channel target - STACK_ALIGNMENT target < offset
  /\ channel mod STACK_ALIGNMENT target = 0
  /\ (forall s,
        exec (coroutine_create_given_memory target entry arg block blocksize) s =
        AtBootstrap (Ret channel)
          (record Bootstrapped
             (record (Initialised channel entry arg)
                (with_chan (mkChannel (never Unreachable) entry arg NULL NULL) s))))
  /\ (forall (k : ptr -> act unit) s n m',
        creation_returns not_filled (text_of not_filled bound functions) n
          (mkMachine
             (ch <- coroutine_create_given_memory target entry arg block blocksize ;;
              k ch) s) = Some m' ->
        running m' = k channel
        /\ exists l,
            trace (mem m') =
            trace s ++ [Initialised channel entry arg; Bootstrapped;
                        Wrote Child Value not_filled; Called Child entry arg] ++ l).
Proof.
  intros Ha HA Hsize Hwidth Hblock offset channel.
  assert (Hpos : 0 < STACK_ALIGNMENT target) by (rewrite HA; apply Z.pow_pos_nonneg; lia).
  assert (Hoff : channel_offset target blocksize = offset).
  { unfold channel_offset, offset.
    rewrite Z.mod_small by lia. rewrite HA. apply land_lnot_pow2. exact Ha. }
  set (d := blocksize - sizeof_struct_channel target) in *.
  assert (Hd : 0 <= d) by (unfold d; lia).
  pose proof (Z.mul_div_le d _ Hpos) as Hle.
  pose proof (Z.mod_pos_bound d _ Hpos) as Hmod.
  pose proof (Z.div_mod d (STACK_ALIGNMENT target) ltac:(lia)) as Hdm.
  pose proof (Z.div_pos d _ Hd Hpos) as Hq.
  split; [exact Hoff |].
  split; [unfold offset; nia |].
  split; [unfold offset, d in *; lia |].
  split; [unfold offset, d in *; lia |].
  split.
  { unfold channel, offset.
    rewrite Z.add_mod, Hblock, Z.add_0_l, Z.mod_mod by lia.
    rewrite Z.mul_comm. apply Z.mod_mul. lia. }
  split.
  { intros s. unfold coroutine_create_given_memory. rewrite Hoff. reflexivity. }
  intros k s n m' H.
  destruct (creation_returns_general not_filled bound functions target entry arg
              block blocksize k s n m' H) as (Hrun & _ & mid & Hmid & _).
  rewrite Hoff in Hrun, Hmid. split; [exact Hrun |].
  eexists. exact Hmid.
Qed.

Lemma create_given_memory_places_the_record_witness :
  channel_offset x86_64 8192 = 8128
  /\ 4096 + 8128 = 12224
  /\ 8128 + sizeof_struct_channel x86_64 <= 8192.
Proof.
  assert (H1 : 0 <= 6) by lia.
  assert (H2 : STACK_ALIGNMENT x86_64 = 2 ^ 6) by reflexivity.
  assert (H3 : 0 <= sizeof_struct_channel x86_64 <= 8192) by (vm_compute; split; discriminate).
  assert (H4 : 8192 < 2 ^ SIZE_WIDTH x86_64) by reflexivity.
  assert (H5 : 4096 mod STACK_ALIGNMENT x86_64 = 0) by reflexivity.
  destruct (create_given_memory_places_the_record 999 5 test_functions x86_64
              6 7003 42 4096 8192 H1 H2 H3 H4 H5) as (Hoff & _ & Hin & _).
  split; [exact Hoff |]. split; [reflexivity | exact Hin].
Defined.

Lemma architectures_alignment :
  Forall (fun t => exists a, 0 <= a /\ STACK_ALIGNMENT t = 2 ^ a) architectures.
Proof.
  repeat constructor;
    first [ now exists 6 | now exists 4 | now exists 3 | now exists 0 ].
Qed.

(** ** [close_and_join] *)

Lemma spin_round (bound b : nat) (v : ptr) (tr : list event) :
  run 999 (text_of 999 bound test_functions) 3
    (mkMachine (closing_context (S b))
       (spin_store (spinner_context bound) Parent v tr)) =
  Continue
    (mkMachine (closing_context b)
       (spin_store (spinner_context bound) Parent NULL
          (((((tr ++ [Wrote Parent Value NULL]) ++ [Switched Parent])
               ++ [Called Child 7002 0]) ++ [Switched Child])))).
Proof. reflexivity. Qed.

Lemma spin_forever (bound : nat) :
  forall (b n : nat) (v : ptr) (tr : list event),
    not_exited
      (run 999 (text_of 999 bound test_functions) n
         (mkMachine (closing_context b)
            (spin_store (spinner_context bound) Parent v tr))).
Proof.
  induction b as [| b IH]; intros n v tr.
  - destruct n as [| n]; exact I.
  - destruct n as [| [| [| n]]]; try exact I.
    change (S (S (S n))) with (3 + n)%nat.
    rewrite run_plus, spin_round. apply IH.
Qed.

Lemma close_listener_starts (bound : nat) :
  run 999 (text_of 999 bound test_functions) 6 (close_listener bound) =
  Continue
    (mkMachine (closing_context bound)
       (spin_store (spinner_context bound) Parent 999
          [Initialised 12224 7004 42; Bootstrapped; Wrote Child Value 999;
           Called Child 7004 42; Switched Child; Yielded Parent 5;
           Wrote Parent Value 5; Switched Parent; Wrote Child Value 999;
           Got Child 5; Called Child 7002 0; Switched Child])).
Proof. reflexivity. Qed.

(** C5 fails without more about the child.  Every function of the tests
    returns when [from] gives it NULL.  [listener] is suspended in its call
    of [from] when the constructor returns, and [close_and_join] called
    then returns, the process exits; but once [from] has given it a datum
    it hands control back without calling [from] again, and
    [close_and_join] called then does not return, however long the run and
    however far its loop is unrolled. *)
Lemma close_and_join_can_spin :
  well_behaved test_functions
  /\ (exists s,
        run 999 (text_of 999 5 test_functions) 3 close_listener_at_once =
        Continue (mkMachine (denote 999 5 (Close_and_join Return) ;; Ret tt) s)
        /\ context_inactive (chan s) =
           (waiting_in_from 999
              (fun v => perform (SayGot v) ;; denote 999 5 (listen v)) ;;
            springboard_exit))
  /\ (exists s,
        run 999 (text_of 999 5 test_functions) 6 close_listener_at_once = Exited s
        /\ In (Got Child NULL) (trace s))
  /\ (exists s,
        run 999 (text_of 999 5 test_functions) 6 (close_listener 5) =
        Continue (mkMachine (denote 999 5 (Close_and_join Return) ;; Ret tt) s)
        /\ In (Got Child 5) (trace s))
  /\ forall (bound n : nat),
      not_exited (run 999 (text_of 999 bound test_functions) n (close_listener bound)).
Proof.
  split; [| split; [| split; [| split]]].
  - intros f body arg H. unfold test_functions in H.
    repeat match type of H with
           | (if ?b then _ else _) = _ => destruct b
           end;
      inversion H; subst; simpl; auto;
      (split; [reflexivity |]); intros v; unfold listen;
      destruct (v =? NULL); exact I.
  - eexists. split; reflexivity.
  - eexists. split; [vm_compute; reflexivity | simpl; tauto].
  - eexists. split; [apply close_listener_starts | simpl; tauto].
  - intros bound n. destruct (Nat.le_gt_cases 6 n) as [Hn | Hn].
    + replace n with (6 + (n - 6))%nat by lia.
      rewrite run_plus, close_listener_starts. apply spin_forever.
    + pose proof (close_listener_starts bound) as H.
      replace 6%nat with (n + (6 - n))%nat in H by lia.
      rewrite run_plus in H.
      destruct (run 999 (text_of 999 bound test_functions) n (close_listener bound));
        [exact I | discriminate H | exact I].
Qed.

Lemma switches_by_app (who : party) (l1 l2 : list event) :
  switches_by who (l1 ++ l2) = (switches_by who l1 + switches_by who l2)%nat.
Proof.
  induction l1 as [| e l1 IH]; simpl; [reflexivity |].
  destruct e as [| | | w | | | |]; simpl; rewrite ?IH; try reflexivity.
  destruct w, who; simpl; rewrite ?IH; reflexivity.
Qed.

Section Closing.

Variable not_filled : ptr.

Variable bound : nat.

Variable functions : program.

Hypothesis sentinel : (not_filled =? NULL) = false.

Local Abbreviation text := (text_of not_filled bound functions).

(** One iteration of the loop: the closing party puts NULL in the slot and
    resumes its peer. *)
Lemma close_resumes (b : nat) (k : act unit) (s : store) :
  (func (chan s) =? NULL) = false ->
  step not_filled text (mkMachine (close_and_join (S b) ;; k) s) =
  Continue (mkMachine (context_inactive (chan s))
              (switched (close_and_join b ;; k)
                 (record (Switched (turn s)) (written Value NULL s)))).
Proof.
  intros Hf. unfold step. cbn -[close_and_join]. cbn [close_and_join].
  cbn -[close_and_join]. rewrite Hf. reflexivity.
Qed.

(** What a run of the child, resumed in the loop, leaves as it was and
    what it adds to the trace: [r] more iterations, and the last switch of
    the child. *)
Definition closed_after (r : nat) (s s2 : store) : Prop :=
  func (chan s2) = NULL
  /\ turn s2 = peer (turn s)
  /\ free_func (chan s2) = free_func (chan s)
  /\ free_after (chan s2) = free_after (chan s)
  /\ exists new,
      trace s2 = trace s ++ new
      /\ switches_by (peer (turn s)) new = r
      /\ switches_by (turn s) new = S r.

Lemma child_settles (r : nat) (p : prog) :
  settles functions r p ->
  forall (b : nat) (k : act unit) (s : store),
    (func (chan s) =? NULL) = false -> value (chan s) = NULL ->
    context_inactive (chan s) = (close_and_join (r + b) ;; k) ->
    exists (N : nat) (s2 : store),
      run not_filled text N
        (mkMachine (denote not_filled bound p ;; springboard_exit) s) =
      Continue (mkMachine (close_and_join b ;; k) s2)
      /\ closed_after r s s2.
Proof.
  induction 1 as [| k0 Hk | r v k0 Hs IH | r k0 Hs IH | r f arg body Hf Hs IH];
    intros b k s Hfn Hv Hctx.
  - (* the child returns *)
    exists 1%nat. eexists. split.
    + cbn [run]. unfold step. cbn. rewrite Hctx. reflexivity.
    + unfold closed_after. cbn. repeat split.
      exists [Wrote (turn s) Func NULL; Switched (turn s)].
      split; [now rewrite <- app_assoc |].
      destruct (turn s); split; reflexivity.
  - (* the child calls from, which gives it NULL *)
    exists 1%nat. eexists. split.
    + cbn [run]. unfold step. cbn [running mem].
      change (denote not_filled bound (From k0))
        with (v <- from not_filled ;;
              perform (SayGot v) ;; denote not_filled bound (k0 v)).
      rewrite !exec_bind, from_exec, Hfn, Hv, sentinel. cbn [negb andb].
      rewrite from_rest_exec, Hfn, Hv. cbn -[denote].
      rewrite Hk. cbn. rewrite Hctx. reflexivity.
    + unfold closed_after. cbn. repeat split.
      exists [Wrote (turn s) Value not_filled; Got (turn s) NULL;
              Wrote (turn s) Func NULL; Switched (turn s)].
      split; [now rewrite <- !app_assoc |].
      destruct (turn s); split; reflexivity.
  - (* the child yields a value: one more iteration *)
    set (s1 := switched (denote not_filled bound k0 ;; springboard_exit)
                 (record (Switched (turn s))
                    (written Value v (record (Yielded (turn s) v) s)))).
    set (s2 := switched (close_and_join (r + b) ;; k)
                 (record (Switched (turn s1)) (written Value NULL s1))).
    destruct (IH b k s2) as (N & s3 & Hrun & Hc).
    { cbn. exact Hfn. }
    { reflexivity. }
    { reflexivity. }
    exists (S (S N)), s3. split.
    + cbn [run]. unfold step at 1. cbn. rewrite Hctx.
      change (S r + b)%nat with (S (r + b)).
      fold s1. rewrite close_resumes by exact Hfn. exact Hrun.
    + destruct Hc as (H1 & H2 & H3 & H4 & new & H5 & H6 & H7).
      unfold closed_after. cbn in H2, H3, H4, H5, H6, H7.
      rewrite H1, H2, H3, H4. repeat split.
      * destruct (turn s); reflexivity.
      * assert (E : peer (peer (turn s)) = turn s) by now destruct (turn s).
        rewrite E in H6, H7.
        eexists. split; [rewrite H5, <- !app_assoc; reflexivity |].
        rewrite !switches_by_app, H6, H7. cbn.
        destruct (turn s); cbn; split; lia.
  - (* the child hands control back: one more iteration *)
    set (s1 := switched (denote not_filled bound k0 ;; springboard_exit)
                 (record (Switched (turn s)) s)).
    set (s2 := switched (close_and_join (r + b) ;; k)
                 (record (Switched (turn s1)) (written Value NULL s1))).
    destruct (IH b k s2) as (N & s3 & Hrun & Hc).
    { cbn. exact Hfn. }
    { reflexivity. }
    { reflexivity. }
    exists (S (S N)), s3. split.
    + cbn [run]. unfold step at 1. cbn [running mem].
      change (denote not_filled bound (Coroutine_switch k0))
        with (coroutine_switch ;; denote not_filled bound k0).
      rewrite !exec_bind, coroutine_switch_exec, Hfn. cbn -[denote close_and_join].
      rewrite Hctx.
      change (S r + b)%nat with (S (r + b)).
      fold s1. rewrite close_resumes by exact Hfn. exact Hrun.
    + destruct Hc as (H1 & H2 & H3 & H4 & new & H5 & H6 & H7).
      unfold closed_after. cbn in H2, H3, H4, H5, H6, H7.
      rewrite H1, H2, H3, H4. repeat split.
      * destruct (turn s); reflexivity.
      * assert (E : peer (peer (turn s)) = turn s) by now destruct (turn s).
        rewrite E in H6, H7.
        eexists. split; [rewrite H5, <- !app_assoc; reflexivity |].
        rewrite !switches_by_app, H6, H7. cbn.
        destruct (turn s); cbn; split; lia.
  - (* the child calls another function *)
    destruct (IH b k (record (Called (turn s) f arg) s)) as (N & s3 & Hrun & Hc);
      trivial.
    exists (S N), s3. split.
    + cbn [run]. unfold step at 1. cbn. unfold text_of. rewrite Hf. exact Hrun.
    + destruct Hc as (H1 & H2 & H3 & H4 & new & H5 & H6 & H7).
      unfold closed_after. cbn in H2, H3, H4, H5.
      repeat split; trivial.
      exists (Called (turn s) f arg :: new).
      split; [rewrite H5, <- app_assoc; reflexivity |].
      cbn. split; assumption.
Qed.

(** The loop with the child suspended anywhere it can be. *)
Lemma close_settles (r : nat) (u : act unit) (b : nat) (k : act unit)
    (s : store) :
  closable not_filled bound functions r u ->
  (func (chan s) =? NULL) = false ->
  context_inactive (chan s) = (u ;; springboard_exit) ->
  exists (N : nat) (s2 : store),
    run not_filled text N (mkMachine (close_and_join (S r + b) ;; k) s) =
    Continue (mkMachine (close_and_join b ;; k) s2)
    /\ func (chan s2) = NULL
    /\ turn s2 = turn s
    /\ free_func (chan s2) = free_func (chan s)
    /\ free_after (chan s2) = free_after (chan s)
    /\ (exists new,
          trace s2 = trace s ++ new
          /\ switches_by (turn s) new = S r
          /\ switches_by (peer (turn s)) new = S r)
    /\ exec (close_and_join b ;; k) s2 = exec k (released s2).
Proof.
  intros Hu Hfn Hctx.
  set (s1 := switched (close_and_join (r + b) ;; k)
               (record (Switched (turn s)) (written Value NULL s))).
  assert (Hgo : exists N s2,
             run not_filled text N (mkMachine (u ;; springboard_exit) s1) =
             Continue (mkMachine (close_and_join b ;; k) s2)
             /\ closed_after r s1 s2).
  { destruct Hu as [r p Hp | k0 Hk].
    - apply child_settles; trivial.
    - exists 1%nat. eexists. split.
      + cbn [run]. unfold step. cbn [running mem].
        unfold waiting_in_from. rewrite !exec_bind, from_rest_exec.
        cbn [s1 switched chan func value with_turn with_chan save_context record
             written set].
        rewrite Hfn. cbn -[denote close_and_join]. rewrite Hk. cbn -[close_and_join].
        reflexivity.
      + unfold closed_after. cbn. repeat split.
        eexists. split; [rewrite <- !app_assoc; reflexivity |].
        destruct (turn s); split; reflexivity. }
  destruct Hgo as (N & s2 & Hrun & H1 & H2 & H3 & H4 & new & H5 & H6 & H7).
  exists (S N), s2. cbn in H2, H3, H4, H5, H6, H7.
  split; [| split; [| split; [| split; [| split; [| split]]]]]; trivial.
  - cbn [run]. change (S r + b)%nat with (S (r + b)).
    rewrite close_resumes by exact Hfn. rewrite Hctx. exact Hrun.
  - rewrite H2. now destruct (turn s).
  - assert (E : peer (peer (turn s)) = turn s) by now destruct (turn s).
    rewrite E in H6.
    eexists. split; [rewrite H5, <- !app_assoc; reflexivity |].
    rewrite !switches_by_app, H6, H7. cbn.
    destruct (turn s); cbn; split; lia.
  - rewrite exec_bind.
    assert (Hz : (func (chan s2) =? NULL) = true) by (rewrite H1; reflexivity).
    destruct b; cbn -[release]; rewrite Hz, release_exec; reflexivity.
Qed.

End Closing.

(** C5, as the code has it.  [close_and_join] calls [yield_to] with NULL
    for as long as the entry is not empty, and then calls the release hook
    if one is recorded.  Every such call resumes the child with NULL in the
    slot.  A child that is suspended in [from], or that after handing
    control back [r] more times (by [yield_to] or [coroutine_switch])
    returns or calls [from], gets NULL from that call without a context
    switch; when it then returns, [springboard] empties the entry and the
    loop ends, after [r + 1] calls of [yield_to]: one call if the child is
    suspended in [from].  On a channel whose entry is empty already, there
    is no call of [yield_to] and no context switch, only the release. *)
Theorem close_and_join_ends_when_the_child_settles
    (not_filled : ptr) (bound : nat) (functions : program)
    (n : nat) (k : act unit) :
  (forall s,
      (func (chan s) =? NULL) = false ->
      exec (close_and_join (S n) ;; k) s =
      AtSwap (close_and_join n ;; k)
        (record (Switched (turn s)) (written Value NULL s)))
  /\ (forall s,
        (func (chan s) =? NULL) = true ->
        exec (close_and_join n ;; k) s = exec k (released s))
  /\ (forall (r : nat) (u : act unit) (s : store),
        (not_filled =? NULL) = false ->
        (func (chan s) =? NULL) = false ->
        closable not_filled bound functions r u ->
        context_inactive (chan s) = (u ;; springboard_exit) ->
        exists (N : nat) (s2 : store),
          run not_filled (text_of not_filled bound functions) N
            (mkMachine (close_and_join (S r + n) ;; k) s) =
          Continue (mkMachine (close_and_join n ;; k) s2)
          /\ func (chan s2) = NULL
          /\ turn s2 = turn s
          /\ free_func (chan s2) = free_func (chan s)
          /\ free_after (chan s2) = free_after (chan s)
          /\ (exists new,
                trace s2 = trace s ++ new
                /\ switches_by (turn s) new = S r
                /\ switches_by (peer (turn s)) new = S r)
          /\ exec (close_and_join n ;; k) s2 = exec k (released s2))
  /\ (forall s (body : ptr -> prog),
        (func (chan s) =? NULL) = false ->
        body NULL = Return ->
        context_inactive (chan s) =
          (waiting_in_from not_filled
             (fun v => perform (SayGot v) ;; denote not_filled bound (body v)) ;;
           springboard_exit) ->
        exists s2,
          run not_filled (text_of not_filled bound functions) 2
            (mkMachine (close_and_join (S n) ;; k) s) =
          Continue (mkMachine (close_and_join n ;; k) s2)
          /\ func (chan s2) = NULL
          /\ turn s2 = turn s
          /\ free_func (chan s2) = free_func (chan s)
          /\ free_after (chan s2) = free_after (chan s)
          /\ trace s2 =
             trace s ++ [Wrote (turn s) Value NULL; Switched (turn s);
                         Wrote (peer (turn s)) Value not_filled;
                         Got (peer (turn s)) NULL;
                         Wrote (peer (turn s)) Func NULL;
                         Switched (peer (turn s))]
          /\ exec (close_and_join n ;; k) s2 = exec k (released s2)).
Proof.
  assert (Hloop : forall s,
             (func (chan s) =? NULL) = false ->
             exec (close_and_join (S n) ;; k) s =
             AtSwap (close_and_join n ;; k)
               (record (Switched (turn s)) (written Value NULL s))).
  { intros s Hf. cbn -[close_and_join release]. cbn [close_and_join].
    cbn -[close_and_join release]. rewrite Hf. reflexivity. }
  assert (Hexit : forall m s,
             (func (chan s) =? NULL) = true ->
             exec (close_and_join m ;; k) s = exec k (released s)).
  { intros m s Hf. rewrite exec_bind.
    destruct m; cbn -[release]; rewrite Hf, release_exec; reflexivity. }
  split; [exact Hloop |]. split; [apply Hexit |]. split.
  { intros r u s Hnf Hf Hu Hctx.
    exact (close_settles not_filled bound functions Hnf r u n k s Hu Hf Hctx). }
  intros s body Hf Hbody Hctx.
  eexists. split; [| split; [| split; [| split; [| split; [| split]]]]].
  - cbn [run]. unfold step at 1. cbn [running mem]. rewrite (Hloop s Hf).
    cbn [chan record written with_chan context_inactive set]. rewrite Hctx.
    unfold step. cbn [running mem].
    rewrite exec_bind. unfold waiting_in_from. rewrite exec_bind, from_rest_exec.
    cbn [chan func with_turn with_chan save_context record written set].
    rewrite Hf.
    cbn -[denote close_and_join]. rewrite Hbody. cbn -[close_and_join].
    reflexivity.
  - reflexivity.
  - cbn. destruct (turn s); reflexivity.
  - reflexivity.
  - reflexivity.
  - cbn. rewrite <- !app_assoc. cbn. destruct (turn s); reflexivity.
  - apply Hexit. reflexivity.
Qed.

(** generator_silent, suspended after its first call of [yield_to]: it
    hands control back three more times and returns. *)
Lemma close_and_join_ends_when_the_child_settles_witness :
  let rest := Yield_to 101 (Yield_to 102 (Yield_to 103 Return)) in
  let s :=
    mkStore (mkChannel (denote 999 5 rest ;; springboard_exit) 7000 100 NULL NULL)
      Parent [] no_heap in
  exists N s2,
    run 999 (text_of 999 5 test_functions) N
      (mkMachine (close_and_join 4 ;; Ret tt) s) =
    Continue (mkMachine (close_and_join 0 ;; Ret tt) s2)
    /\ func (chan s2) = NULL
    /\ exists new,
        trace s2 = trace s ++ new /\ switches_by Parent new = 4%nat.
Proof.
  intros rest s.
  destruct (close_and_join_ends_when_the_child_settles 999 5 test_functions
              0 (Ret tt)) as (_ & _ & H & _).
  destruct (H 3%nat (denote 999 5 rest) s eq_refl eq_refl) as
    (N & s2 & Hrun & Hf & _ & _ & _ & (new & Hnew & Hsw & _) & _).
  - apply closable_code. repeat constructor.
  - reflexivity.
  - exists N, s2. split; [exact Hrun |]. split; [exact Hf |].
    exists new. split; assumption.
Defined.

(** ** A value that no call of [from] returns *)

(** C2 fails: the first value of the generator is overwritten by the second
    before any call of [from], and no call of [from] returns it. *)
Lemma yielded_value_lost :
  exists s,
    run 999 (text_of 999 5 test_functions) 40 switch_then_consume = Exited s
    /\ In (Yielded Child 100) (trace s)
    /\ returns_of 100 (trace s) = 0%nat
    /\ ~ every_value_returned_once (trace s).
Proof.
  eexists. split; [vm_compute; reflexivity |].
  split; [simpl; tauto |]. split; [reflexivity |].
  intros H. specialize (H Child 100). simpl in H.
  assert (E : 0%nat = 1%nat) by (apply H; [tauto | discriminate]).
  discriminate.
Qed.

(** * The backend on kernel threads *)

Lemma pthreads_exec_bind {A B : Type} (m : Pthreads.act A)
    (k : A -> Pthreads.act B) (s : Pthreads.store) :
  Pthreads.exec (Pthreads.bind m k) s =
  match Pthreads.exec m s with
  | Pthreads.Finished a s' => Pthreads.exec (k a) s'
  | Pthreads.AtWait b m' s' => Pthreads.AtWait b (Pthreads.bind m' k) s'
  | Pthreads.AtLock m' s' => Pthreads.AtLock (Pthreads.bind m' k) s'
  | Pthreads.AtJoin m' s' => Pthreads.AtJoin (Pthreads.bind m' k) s'
  | Pthreads.AtCreate m' s' => Pthreads.AtCreate (Pthreads.bind m' k) s'
  | Pthreads.AtCall f arg m' s' => Pthreads.AtCall f arg (Pthreads.bind m' k) s'
  | Pthreads.Stopped r s' => Pthreads.Stopped r s'
  end.
Proof.
  revert s. induction m as [a | X o h IH]; intros s; simpl.
  - reflexivity.
  - destruct (Pthreads.handle o s); auto.
Qed.

Lemma pthreads_context_switch_exec (s : Pthreads.store) :
  Pthreads.exec Pthreads.context_switch s =
  Pthreads.AtWait (Pthreads.in_child (Pthreads.chan s)) (Pthreads.Ret tt)
    (handed_off s).
Proof. reflexivity. Qed.

Lemma pthreads_cleanup_exec (s : Pthreads.store) :
  Pthreads.child_thread s = Pthreads.Returned ->
  Pthreads.exec Pthreads.channel_join_and_cleanup s =
  Pthreads.Finished tt (cleaned s).
Proof.
  intros H. unfold Pthreads.channel_join_and_cleanup, cleaned. simpl.
  rewrite H. simpl.
  match goal with
  | |- context [if ?b then _ else _] => destruct b
  end; reflexivity.
Qed.

Lemma observe_app (l1 l2 : list event) :
  observe (l1 ++ l2) = observe l1 ++ observe l2.
Proof. apply filter_app. Qed.

Lemma pthreads_from_rest_exec (nf : ptr) (s : Pthreads.store) :
  (Pthreads.func (Pthreads.chan s) = NULL ->
   Pthreads.child_thread s = Pthreads.Returned) ->
  Pthreads.exec (Pthreads.from_rest nf) s =
  if Pthreads.func (Pthreads.chan s) =? NULL
  then Pthreads.Finished NULL (cleaned s)
  else Pthreads.Finished (Pthreads.value (Pthreads.chan s))
         (Pthreads.with_chan
            (Pthreads.set Pthreads.Value nf (Pthreads.chan s)) s).
Proof.
  intros H. unfold Pthreads.from_rest.
  cbn -[Pthreads.channel_join_and_cleanup].
  destruct (Pthreads.func (Pthreads.chan s) =? NULL) eqn:Hf.
  - apply Z.eqb_eq in Hf.
    rewrite pthreads_exec_bind, pthreads_cleanup_exec by auto.
    reflexivity.
  - reflexivity.
Qed.

Lemma agree_released t parked sn sp :
  agree t parked sn sp -> Pthreads.child_thread sp = Pthreads.Returned ->
  agree t parked (released sn) (cleaned sp).
Proof.
  intros [Hf Hv Ht Hturn Hs Hfl Hp Hd] Hret.
  unfold released, cleaned. rewrite Hs.
  destruct (free_func (chan sn) =? NULL);
    destruct ((Pthreads.count sp - 1) mod 2 ^ Pthreads.ULONG_WIDTH =? 0);
    destruct t; constructor; simpl; trivial.
  all: rewrite observe_app; simpl; rewrite app_nil_r; exact Ht.
Qed.

(** The two backends log the same observable event. *)
Lemma agree_record t parked sn sp (e : party -> event) :
  observable (e t) = true ->
  agree t parked sn sp ->
  agree t parked (record (e (turn sn)) sn) (Pthreads.record (e (Pthreads.self sp)) sp).
Proof.
  intros He [Hf Hv Ht Hturn Hs Hfl Hp Hd].
  constructor; simpl; trivial.
  rewrite !observe_app, Ht, Hturn, Hs. reflexivity.
Qed.

(** An event of the assembly backend that user code does not observe. *)
Lemma agree_silent t parked sn sp (e : event) :
  observable e = false ->
  agree t parked sn sp -> agree t parked (record e sn) sp.
Proof.
  intros He [Hf Hv Ht Hturn Hs Hfl Hp Hd].
  constructor; simpl; trivial.
  rewrite observe_app. simpl. rewrite He, app_nil_r. exact Ht.
Qed.

Lemma agree_value t parked sn sp (v : ptr) :
  agree t parked sn sp ->
  agree t parked (written Value v sn)
    (Pthreads.with_chan (Pthreads.set Pthreads.Value v (Pthreads.chan sp)) sp).
Proof.
  intros [Hf Hv Ht Hturn Hs Hfl Hp Hd].
  constructor; simpl; trivial.
  rewrite observe_app. simpl. rewrite app_nil_r. exact Ht.
Qed.

Lemma agree_hook t parked sn sp (f : field) (v : ptr) :
  f = Free_after \/ f = Free_func ->
  agree t parked sn sp -> agree t parked (written f v sn) sp.
Proof.
  intros Hfield [Hf Hv Ht Hturn Hs Hfl Hp Hd].
  destruct Hfield as [-> | ->]; constructor; simpl; trivial;
    rewrite observe_app; simpl; rewrite app_nil_r; exact Ht.
Qed.

Lemma pthreads_from_exec (nf : ptr) (s : Pthreads.store) :
  Pthreads.exec (Pthreads.from nf) s =
  if negb (Pthreads.func (Pthreads.chan s) =? NULL)
     && (nf =? Pthreads.value (Pthreads.chan s))
  then Pthreads.AtWait (Pthreads.in_child (Pthreads.chan s))
         (Pthreads.from_rest nf) (handed_off s)
  else Pthreads.exec (Pthreads.from_rest nf) s.
Proof.
  unfold Pthreads.from. cbn -[Pthreads.from_rest].
  destruct (Pthreads.func (Pthreads.chan s) =? NULL); cbn -[Pthreads.from_rest].
  - reflexivity.
  - destruct (nf =? Pthreads.value (Pthreads.chan s)); reflexivity.
Qed.

Lemma pthreads_coroutine_switch_exec (s : Pthreads.store) :
  Pthreads.exec Pthreads.coroutine_switch s =
  if Pthreads.func (Pthreads.chan s) =? NULL then Pthreads.Finished tt s
  else Pthreads.AtWait (Pthreads.in_child (Pthreads.chan s)) (Pthreads.Ret tt)
         (handed_off s).
Proof.
  unfold Pthreads.coroutine_switch. simpl.
  destruct (Pthreads.func (Pthreads.chan s) =? NULL); reflexivity.
Qed.

Section Lockstep.

Variable not_filled : ptr.

Variable bound : nat.

Local Abbreviation ndenote := (denote not_filled bound).

Local Abbreviation pdenote := (Pthreads.denote not_filled bound).

Lemma lockstep_from_rest t parked (k : ptr -> prog) :
  (forall v sn sp, agree t parked sn sp ->
     matched not_filled bound t parked
       (exec (ndenote (k v)) sn) (Pthreads.exec (pdenote (k v)) sp)) ->
  forall sn sp,
    agree t parked sn sp ->
    matched not_filled bound t parked
      (exec (waiting_in_from not_filled
               (fun v => perform (SayGot v) ;; ndenote (k v))) sn)
      (Pthreads.exec
         (Pthreads.bind (Pthreads.from_rest not_filled)
            (fun v =>
               Pthreads.bind (Pthreads.perform (Pthreads.SayGot v))
                 (fun _ => pdenote (k v)))) sp).
Proof.
  intros IH sn sp H. unfold waiting_in_from.
  rewrite exec_bind, from_rest_exec, pthreads_exec_bind,
    pthreads_from_rest_exec by apply (ag_done _ _ _ _ H).
  rewrite <- (ag_func _ _ _ _ H), <- (ag_value _ _ _ _ H).
  destruct (func (chan sn) =? NULL) eqn:Hf.
  - cbn -[denote Pthreads.denote].
    assert (Hret : Pthreads.child_thread sp = Pthreads.Returned).
    { apply (ag_done _ _ _ _ H). rewrite <- (ag_func _ _ _ _ H).
      now apply Z.eqb_eq. }
    pose proof (agree_released _ _ _ _ H Hret) as H1.
    apply IH.
    exact (agree_record t parked _ _ (fun who => Got who NULL) eq_refl H1).
  - cbn -[denote Pthreads.denote]. apply IH.
    exact (agree_record t parked _ _ (fun who => Got who (value (chan sn)))
             eq_refl (agree_value _ _ _ _ not_filled H)).
Qed.

Lemma lockstep_close t parked (k : prog) :
  (forall sn sp, agree t parked sn sp ->
     matched not_filled bound t parked
       (exec (ndenote k) sn) (Pthreads.exec (pdenote k) sp)) ->
  forall n sn sp,
    agree t parked sn sp ->
    matched not_filled bound t parked
      (exec (close_and_join n ;; ndenote k) sn)
      (Pthreads.exec
         (Pthreads.bind (Pthreads.close_and_join n) (fun _ => pdenote k)) sp).
Proof.
  intros IH n sn sp H.
  assert (Hd := ag_done _ _ _ _ H).
  assert (Hfn := ag_func _ _ _ _ H).
  destruct n as [| n];
    cbn -[denote release yield_to Pthreads.denote
          Pthreads.channel_join_and_cleanup Pthreads.yield_to];
    rewrite <- Hfn; destruct (func (chan sn) =? NULL) eqn:Hf.
  - assert (Hret : Pthreads.child_thread sp = Pthreads.Returned)
      by (apply Hd; rewrite <- Hfn; now apply Z.eqb_eq).
    rewrite exec_bind, release_exec, pthreads_exec_bind,
      pthreads_cleanup_exec by exact Hret.
    apply IH. now apply agree_released.
  - simpl. split; [reflexivity | exact H].
  - assert (Hret : Pthreads.child_thread sp = Pthreads.Returned)
      by (apply Hd; rewrite <- Hfn; now apply Z.eqb_eq).
    rewrite exec_bind, release_exec, pthreads_exec_bind,
      pthreads_cleanup_exec by exact Hret.
    apply IH. now apply agree_released.
  - simpl. split; [apply same_close | split; [apply (ag_flag _ _ _ _ H) |]].
    exists (Pthreads.with_chan
              (Pthreads.set Pthreads.Value NULL (Pthreads.chan sp)) sp).
    split; [| reflexivity].
    apply agree_silent; [reflexivity |]. now apply agree_value.
Qed.

Lemma lockstep_denote t parked (p : prog) :
  forall sn sp,
    agree t parked sn sp ->
    matched not_filled bound t parked
      (exec (ndenote p) sn) (Pthreads.exec (pdenote p) sp).
Proof.
  induction p as [| v k IH | k IH | k IH | k IH | f arg]; intros sn sp H.
  - simpl. exact H.
  - simpl. split; [apply same_denote | split; [apply (ag_flag _ _ _ _ H) |]].
    exists (Pthreads.with_chan
              (Pthreads.set Pthreads.Value v (Pthreads.chan sp))
              (Pthreads.record (Yielded (Pthreads.self sp) v) sp)).
    split; [| reflexivity].
    apply agree_silent; [reflexivity |].
    apply (agree_value t parked _ _ v
             (agree_record t parked _ _ (fun who => Yielded who v) eq_refl H)).
  - change (ndenote (From k))
      with (v <- from not_filled ;; perform (SayGot v) ;; ndenote (k v)).
    change (pdenote (From k))
      with (Pthreads.bind (Pthreads.from not_filled)
              (fun v => Pthreads.bind (Pthreads.perform (Pthreads.SayGot v))
                          (fun _ => pdenote (k v)))).
    rewrite exec_bind, from_exec, pthreads_exec_bind, pthreads_from_exec.
    rewrite <- (ag_func _ _ _ _ H), <- (ag_value _ _ _ _ H).
    destruct (negb (func (chan sn) =? NULL) && (not_filled =? value (chan sn))).
    + split; [apply same_from | split; [apply (ag_flag _ _ _ _ H) |]].
      exists sp. split; [| reflexivity].
      apply agree_silent; [reflexivity | exact H].
    + rewrite <- exec_bind, <- pthreads_exec_bind.
      apply (lockstep_from_rest t parked k IH sn sp H).
  - change (ndenote (Coroutine_switch k))
      with (coroutine_switch ;; ndenote k).
    change (pdenote (Coroutine_switch k))
      with (Pthreads.bind Pthreads.coroutine_switch (fun _ => pdenote k)).
    rewrite exec_bind, coroutine_switch_exec, pthreads_exec_bind,
      pthreads_coroutine_switch_exec.
    rewrite <- (ag_func _ _ _ _ H).
    destruct (func (chan sn) =? NULL).
    + apply IH, H.
    + split; [apply same_denote | split; [apply (ag_flag _ _ _ _ H) |]].
      exists sp. split; [| reflexivity].
      apply agree_silent; [reflexivity | exact H].
  - apply (lockstep_close t parked k IH bound sn sp H).
  - simpl. split; [reflexivity | split; [reflexivity |]].
    split; [reflexivity | split; [reflexivity |]].
    exact (agree_record t parked _ _ (fun who => Called who f arg) eq_refl H).
Qed.

(** From stores that agree, the code of the two backends runs to the same
    place, through the same observable events. *)
Lemma lockstep t parked (un : act unit) (up : Pthreads.act unit) :
  same_code not_filled bound un up ->
  forall sn sp,
    agree t parked sn sp ->
    matched not_filled bound t parked (exec un sn) (Pthreads.exec up sp).
Proof.
  intros [p | k | n k | block free p] sn sp H.
  - now apply lockstep_denote.
  - apply lockstep_from_rest; trivial. intros v. apply lockstep_denote.
  - apply lockstep_close; trivial. apply lockstep_denote.
  - change (exec (setting_hooks not_filled bound block free p) sn)
      with (exec (ndenote p)
              (written Free_func free (written Free_after block sn))).
    apply lockstep_denote.
    apply agree_hook; [now right |]. apply agree_hook; [now left | exact H].
Qed.

End Lockstep.

(** ** The threads follow the two stacks *)

Lemma lands_reach nf bound (s : store) (o : outcome unit) :
  lands nf bound s o -> reach nf s (outcome_store o).
Proof.
  destruct o; simpl; try tauto.
Qed.

(** User code leaves the entry and the saved context as they are. *)
Lemma same_code_keeps nf bound (un : act unit) (up : Pthreads.act unit)
    (sn : store) :
  same_code nf bound un up ->
  func (chan (outcome_store (exec un sn))) = func (chan sn)
  /\ context_inactive (chan (outcome_store (exec un sn))) =
     context_inactive (chan sn).
Proof.
  assert (U : forall u s, user_code nf bound u ->
              func (chan (outcome_store (exec u s))) = func (chan s)
              /\ context_inactive (chan (outcome_store (exec u s))) =
                 context_inactive (chan s)).
  { intros u s Hu.
    pose proof (reach_frame _ _ _
                  (lands_reach _ _ _ _ (user_code_lands nf bound u s Hu))) as F.
    split; [apply (fr_func _ _ F) | apply (fr_context _ _ F)]. }
  intros [p | k | n k | block free p].
  - apply U, uc_denote.
  - apply U, uc_from.
  - apply U, uc_close.
  - change (exec (setting_hooks nf bound block free p) sn)
      with (exec (denote nf bound p)
              (written Free_func free (written Free_after block sn))).
    destruct (U _ (written Free_func free (written Free_after block sn))
                (uc_denote nf bound p)) as [-> ->].
    split; reflexivity.
Qed.

Lemma agree_settle t parked th sn sp :
  agree t parked sn sp ->
  (func (chan sn) = NULL -> t = Parent) ->
  agree t (Pthreads.thread_of (peer t) (Pthreads.with_thread t th sp)) sn
    (Pthreads.with_self t (Pthreads.with_thread t th sp)).
Proof.
  intros [Hf Hv Ht Hturn Hs Hfl Hp Hd] Hn.
  destruct t; constructor; simpl; trivial.
  intros E. rewrite <- Hf in E. discriminate (Hn E).
Qed.

Lemma parked_settle t parked th sn sp :
  agree t parked sn sp ->
  Pthreads.thread_of (peer t) (Pthreads.with_thread t th sp) = parked.
Proof.
  intros [Hf Hv Ht Hturn Hs Hfl Hp Hd]. destruct t; exact Hp.
Qed.

Lemma flag_peer t : Pthreads.logical_not (flag t) = flag (peer t).
Proof. destruct t; reflexivity. Qed.

(** The stores at a context switch still agree, with the parties
    exchanged. *)
Lemma agree_handed_off t parked k kn sn sp0 :
  agree t parked sn sp0 ->
  func (chan sn) <> NULL ->
  agree (peer t) (Pthreads.Waiting (flag t) k) (switched kn sn)
    (Pthreads.with_self (peer t)
       (Pthreads.with_thread t (Pthreads.Waiting (flag t) k) (handed_off sp0))).
Proof.
  intros [Hf Hv Ht Hturn Hs Hfl Hp Hd] Hn.
  unfold handed_off, Pthreads.signalled. simpl. rewrite Hs, Hfl.
  destruct t; constructor; simpl; trivial;
    try (now rewrite Hturn);
    intros E; exfalso; apply Hn; congruence.
Qed.

Lemma handed_off_peer t parked k sn sp0 :
  agree t parked sn sp0 ->
  Pthreads.thread_of (peer t)
    (Pthreads.with_thread t k (handed_off sp0)) = Pthreads.wake parked.
Proof.
  intros [Hf Hv Ht Hturn Hs Hfl Hp Hd].
  unfold handed_off, Pthreads.signalled. simpl. rewrite Hs.
  destruct t; simpl in *; now rewrite Hp.
Qed.

Lemma handed_off_owner t k sp0 :
  Pthreads.owner (Pthreads.with_thread t k (handed_off sp0)) = None.
Proof. destruct t; reflexivity. Qed.

Lemma signalled_trace (s : Pthreads.store) :
  Pthreads.trace (Pthreads.signalled s) = Pthreads.trace s.
Proof. unfold Pthreads.signalled. destruct (peer (Pthreads.self s)); reflexivity. Qed.

Lemma signalled_chan (s : Pthreads.store) :
  Pthreads.chan (Pthreads.signalled s) = Pthreads.chan s.
Proof. unfold Pthreads.signalled. destruct (peer (Pthreads.self s)); reflexivity. Qed.

Lemma springboard_exit_exec (sp : Pthreads.store) :
  Pthreads.exec Pthreads.springboard_exit sp =
  Pthreads.Finished tt (left_by_child sp).
Proof. reflexivity. Qed.

(** The stores when the entry function has returned. *)
Lemma agree_exit parked sn sp :
  agree Child parked sn sp ->
  agree Parent Pthreads.Returned
    (switched (never Unreachable)
       (record (Switched (turn sn)) (written Func NULL sn)))
    (Pthreads.with_self Parent
       (Pthreads.with_thread Child Pthreads.Returned (left_by_child sp))).
Proof.
  intros [Hf Hv Ht Hturn Hs Hfl Hp Hd].
  unfold left_by_child, Pthreads.signalled. simpl. rewrite Hs.
  constructor; simpl; trivial.
  - rewrite !observe_app. simpl. rewrite !app_nil_r. exact Ht.
  - now rewrite Hturn.
Qed.

Lemma left_by_child_parent parked sn sp :
  agree Child parked sn sp ->
  Pthreads.parent_thread
    (Pthreads.with_thread Child Pthreads.Returned (left_by_child sp)) =
  Pthreads.wake parked.
Proof.
  intros [Hf Hv Ht Hturn Hs Hfl Hp Hd].
  unfold left_by_child, Pthreads.signalled. simpl. rewrite Hs. simpl.
  simpl in Hp. now rewrite Hp.
Qed.

(** Moves of the threads that touch neither the record nor the trace. *)
Lemma agree_move t parked parked' sn sp sp' :
  agree t parked sn (Pthreads.with_self t sp) ->
  Pthreads.chan sp' = Pthreads.chan sp ->
  Pthreads.trace sp' = Pthreads.trace sp ->
  func (chan sn) <> NULL \/ Pthreads.child_thread sp' = Pthreads.Returned ->
  Pthreads.thread_of (peer t) sp' = parked' ->
  agree t parked' sn (Pthreads.with_self t sp').
Proof.
  intros [Hf Hv Ht Hturn Hs Hfl Hp Hd] Hc Htr Hn Hp'. simpl in *.
  constructor; simpl; rewrite ?Hc, ?Htr; trivial.
  all: try (destruct t; exact Hp').
  intros E. destruct Hn as [Hn | Hn]; [| exact Hn].
  exfalso. apply Hn. congruence.
Qed.

Ltac moved_alive Ha Hn :=
  match goal with
  | |- agree ?t _ ?sn (Pthreads.with_self ?t ?sp') =>
      exact (agree_move t _ _ sn _ sp' Ha eq_refl eq_refl (or_introl Hn) eq_refl)
  end.

Ltac moved_done Ha Hret :=
  match goal with
  | |- agree ?t _ ?sn (Pthreads.with_self ?t ?sp') =>
      exact (agree_move t _ _ sn _ sp' Ha eq_refl eq_refl (or_intror Hret) Hret)
  end.

Lemma wake_waits b k th :
  th = Pthreads.Waiting b k \/ th = Pthreads.Woken b k ->
  Pthreads.wake th = Pthreads.Woken b k.
Proof. intros [-> | ->]; reflexivity. Qed.

Section Simulation.

Variable not_filled : ptr.

Variable bound : nat.

Variable functions : program.

Local Abbreviation ntext := (text_of not_filled bound functions).

Local Abbreviation ptext := (Pthreads.text_of not_filled bound functions).

Local Abbreviation sim' := (sim not_filled bound).

(** The parent runs user code while the child waits. *)
Lemma parent_runs sp m un up vn vp :
  running m = (vn ;; Ret tt) ->
  same_code not_filled bound vn vp ->
  context_inactive (chan (mem m)) = (un ;; springboard_exit) ->
  same_code not_filled bound un up ->
  func (chan (mem m)) <> NULL ->
  agree Parent (Pthreads.child_thread sp) (mem m) (Pthreads.with_self Parent sp) ->
  waits Child sp (Pthreads.bind up (fun _ => Pthreads.springboard_exit)) ->
  sim' (Pthreads.after not_filled ptext Parent
          (Pthreads.exec (Pthreads.bind vp (fun _ => Pthreads.Ret tt))
             (Pthreads.with_self Parent sp)))
       (step not_filled ntext m).
Proof.
  intros Hr Hv Hc Hu Hn Ha Hw. unfold step.
  rewrite Hr, exec_bind, pthreads_exec_bind.
  pose proof (lockstep not_filled bound Parent _ vn vp Hv _ _ Ha) as L.
  destruct (same_code_keeps not_filled bound vn vp (mem m) Hv) as [Kf Kc].
  destruct (exec vn (mem m)) as [[] sn | vn' sn | vn' sn | f arg kn sn | r sn];
    destruct (Pthreads.exec vp (Pthreads.with_self Parent sp))
      as [[] sq | b vp' sq | k' sq | k' sq | k' sq | f' arg' kp sq | r' sq];
    simpl in L; try contradiction; simpl in Kf, Kc.
  - (* main returns *)
    simpl. apply sim_exited. apply (ag_trace _ _ _ _ L).
  - (* context switch *)
    destruct L as (Hs' & -> & sp0 & Ha0 & ->).
    cbn [Pthreads.after]. rewrite Kc, Hc.
    assert (Hn' : func (chan sn) <> NULL) by congruence.
    apply sim_child with (un := un) (up := up) (vn := vn') (vp := vp').
    + reflexivity.
    + exact Hu.
    + reflexivity.
    + exact Hs'.
    + exact Hn'.
    + exact (agree_handed_off Parent _ _ _ _ _ Ha0 Hn').
    + left. reflexivity.
    + right. split; [| apply handed_off_owner].
      rewrite (handed_off_peer Parent _ _ _ _ Ha0).
      apply wake_waits. exact Hw.
  - (* call through a function pointer *)
    destruct L as (<- & <- & -> & -> & Ha0).
    cbn [Pthreads.after]. unfold text_of, Pthreads.text_of.
    destruct (functions f) as [body |].
    + apply sim_parent with (un := un) (up := up)
        (vn := denote not_filled bound (body arg))
        (vp := Pthreads.denote not_filled bound (body arg)).
      * reflexivity.
      * apply same_denote.
      * simpl. congruence.
      * exact Hu.
      * simpl. congruence.
      * apply (agree_settle Parent _ _ _ _ Ha0). reflexivity.
      * unfold waits.
        rewrite (parked_settle Parent _ _ _ _ Ha0). exact Hw.
      * left. reflexivity.
    + apply sim_halted. apply (ag_trace _ _ _ _ Ha0).
  - (* the loop of close_and_join is out of fuel *)
    destruct L as [<- Ha0]. simpl. apply sim_halted. apply (ag_trace _ _ _ _ Ha0).
Qed.

(** The child runs user code while the parent waits. *)
Lemma child_runs sp m un up vn vp :
  running m = (un ;; springboard_exit) ->
  same_code not_filled bound un up ->
  context_inactive (chan (mem m)) = (vn ;; Ret tt) ->
  same_code not_filled bound vn vp ->
  func (chan (mem m)) <> NULL ->
  agree Child (Pthreads.parent_thread sp) (mem m) (Pthreads.with_self Child sp) ->
  waits Parent sp (Pthreads.bind vp (fun _ => Pthreads.Ret tt)) ->
  sim' (Pthreads.after not_filled ptext Child
          (Pthreads.exec (Pthreads.bind up (fun _ => Pthreads.springboard_exit))
             (Pthreads.with_self Child sp)))
       (step not_filled ntext m).
Proof.
  intros Hr Hu Hc Hv Hn Ha Hw. unfold step.
  rewrite Hr, exec_bind, pthreads_exec_bind.
  pose proof (lockstep not_filled bound Child _ un up Hu _ _ Ha) as L.
  destruct (same_code_keeps not_filled bound un up (mem m) Hu) as [Kf Kc].
  destruct (exec un (mem m)) as [[] sn | un' sn | un' sn | f arg kn sn | r sn];
    destruct (Pthreads.exec up (Pthreads.with_self Child sp))
      as [[] sq | b up' sq | k' sq | k' sq | k' sq | f' arg' kp sq | r' sq];
    simpl in L; try contradiction; simpl in Kf, Kc.
  - (* the entry function returns *)
    rewrite springboard_exit_exec. cbn [Pthreads.after].
    change (exec springboard_exit sn)
      with (AtSwap (never Unreachable : act unit)
              (record (Switched (turn sn)) (written Func NULL sn))).
    cbv iota.
    apply sim_done with (vn := vn) (vp := vp).
    + simpl. congruence.
    + exact Hv.
    + reflexivity.
    + reflexivity.
    + exact (agree_exit _ _ _ L).
    + right. split; [| reflexivity].
      change (Pthreads.thread_of Parent
                (Pthreads.with_thread Child Pthreads.Returned (left_by_child sq)))
        with (Pthreads.parent_thread
                (Pthreads.with_thread Child Pthreads.Returned (left_by_child sq))).
      rewrite (left_by_child_parent _ _ _ L).
      apply wake_waits. exact Hw.
  - (* context switch *)
    destruct L as (Hs' & -> & sp0 & Ha0 & ->).
    cbn [Pthreads.after]. rewrite Kc, Hc.
    assert (Hn' : func (chan sn) <> NULL) by congruence.
    apply sim_parent with (un := un') (up := up') (vn := vn) (vp := vp).
    + reflexivity.
    + exact Hv.
    + reflexivity.
    + exact Hs'.
    + exact Hn'.
    + exact (agree_handed_off Child _ _ _ _ _ Ha0 Hn').
    + left. reflexivity.
    + right. split; [| apply handed_off_owner].
      rewrite (handed_off_peer Child _ _ _ _ Ha0).
      apply wake_waits. exact Hw.
  - (* call through a function pointer *)
    destruct L as (<- & <- & -> & -> & Ha0).
    cbn [Pthreads.after]. unfold text_of, Pthreads.text_of.
    destruct (functions f) as [body |].
    + assert (Hn' : func (chan sn) <> NULL) by congruence.
      apply sim_child with (vn := vn) (vp := vp)
        (un := denote not_filled bound (body arg))
        (up := Pthreads.denote not_filled bound (body arg)).
      * reflexivity.
      * apply same_denote.
      * simpl. congruence.
      * exact Hv.
      * exact Hn'.
      * apply (agree_settle Child _ _ _ _ Ha0). intros E. contradiction.
      * unfold waits.
        rewrite (parked_settle Child _ _ _ _ Ha0). exact Hw.
      * left. reflexivity.
    + apply sim_halted. apply (ag_trace _ _ _ _ Ha0).
  - (* the loop of close_and_join is out of fuel *)
    destruct L as [<- Ha0]. simpl. apply sim_halted. apply (ag_trace _ _ _ _ Ha0).
Qed.

(** The parent runs user code after the child has returned. *)
Lemma done_runs sp m vn vp :
  running m = (vn ;; Ret tt) ->
  same_code not_filled bound vn vp ->
  context_inactive (chan (mem m)) = never Unreachable ->
  func (chan (mem m)) = NULL ->
  agree Parent Pthreads.Returned (mem m) (Pthreads.with_self Parent sp) ->
  sim' (Pthreads.after not_filled ptext Parent
          (Pthreads.exec (Pthreads.bind vp (fun _ => Pthreads.Ret tt))
             (Pthreads.with_self Parent sp)))
       (step not_filled ntext m).
Proof.
  intros Hr Hv Hc Hn Ha. unfold step.
  rewrite Hr, exec_bind, pthreads_exec_bind.
  pose proof (lockstep not_filled bound Parent _ vn vp Hv _ _ Ha) as L.
  destruct (same_code_keeps not_filled bound vn vp (mem m) Hv) as [Kf Kc].
  destruct (exec vn (mem m)) as [[] sn | vn' sn | vn' sn | f arg kn sn | r sn];
    destruct (Pthreads.exec vp (Pthreads.with_self Parent sp))
      as [[] sq | b vp' sq | k' sq | k' sq | k' sq | f' arg' kp sq | r' sq];
    simpl in L; try contradiction; simpl in Kf, Kc.
  - simpl. apply sim_exited. apply (ag_trace _ _ _ _ L).
  - (* a context switch to the child that has returned *)
    destruct L as (Hs' & -> & sp0 & Ha0 & ->).
    cbn [Pthreads.after]. rewrite Kc, Hc.
    apply sim_lost with (b := flag Parent)
      (k := Pthreads.bind vp' (fun _ => Pthreads.Ret tt)).
    + reflexivity.
    + simpl. rewrite signalled_trace. apply (ag_trace _ _ _ _ Ha0).
    + change (Pthreads.thread_of (peer Parent)
                (Pthreads.with_thread Parent
                   (Pthreads.Waiting (flag Parent)
                      (Pthreads.bind vp' (fun _ => Pthreads.Ret tt)))
                   (handed_off sp0)) = Pthreads.Returned).
      rewrite (handed_off_peer Parent _ _ _ _ Ha0). reflexivity.
    + left. reflexivity.
    + simpl. rewrite signalled_chan. simpl.
      rewrite (ag_flag _ _ _ _ Ha0). discriminate.
  - destruct L as (<- & <- & -> & -> & Ha0).
    cbn [Pthreads.after]. unfold text_of, Pthreads.text_of.
    destruct (functions f) as [body |].
    + apply sim_done with
        (vn := denote not_filled bound (body arg))
        (vp := Pthreads.denote not_filled bound (body arg)).
      * reflexivity.
      * apply same_denote.
      * simpl. congruence.
      * simpl. congruence.
      * pose proof (agree_settle Parent _
                      (Pthreads.Ready
                         (Pthreads.bind
                            (Pthreads.denote not_filled bound (body arg))
                            (fun _ => Pthreads.Ret tt)))
                      _ _ Ha0 (fun _ => eq_refl)) as H.
        rewrite (parked_settle Parent _ _ _ _ Ha0) in H. exact H.
      * left. reflexivity.
    + apply sim_halted. apply (ag_trace _ _ _ _ Ha0).
  - destruct L as [<- Ha0]. simpl. apply sim_halted. apply (ag_trace _ _ _ _ Ha0).
Qed.

(** No function has the address NULL. *)
Hypothesis no_code_at_null : functions NULL = None.

(** The child thread takes the mutex and calls the entry function. *)
Lemma child_enters sp m un up k :
  running m = springboard not_filled ->
  turn (mem m) = Child ->
  context_inactive (chan (mem m)) = (un ;; Ret tt) ->
  same_code not_filled bound un up ->
  func (chan (mem m)) = Pthreads.func (Pthreads.chan sp) ->
  value (chan (mem m)) = Pthreads.value (Pthreads.chan sp) ->
  observe (trace (mem m)) = observe (Pthreads.trace sp) ->
  Pthreads.in_child (Pthreads.chan sp) = 1 ->
  waits Parent sp (Pthreads.bind up (fun _ => Pthreads.Ret tt)) ->
  (k = Pthreads.springboard not_filled /\ Pthreads.owner sp = None)
  \/ k = springboard_locked not_filled ->
  sim' (Pthreads.after not_filled ptext Child
          (Pthreads.exec k (Pthreads.with_self Child sp)))
       (step not_filled ntext m).
Proof.
  intros Hr Ht Hc Hu Hf Hv Ho Hi Hw Hk. unfold step. rewrite Hr.
  simpl. rewrite Ht.
  unfold text_of, Pthreads.text_of.
  destruct Hk as [[-> Hown] | ->]; simpl; try rewrite Hown; simpl;
    rewrite <- Hf, <- Hv;
    destruct (functions (func (chan (mem m)))) as [body |] eqn:Hb.
  all: try (apply sim_halted; simpl; rewrite !observe_app, Ho; simpl;
            rewrite app_nil_r; reflexivity).
  all: assert (Hn : func (chan (mem m)) <> NULL)
         by (intros E; rewrite E, no_code_at_null in Hb; discriminate).
  all: apply sim_child with (vn := un) (vp := up)
         (un := denote not_filled bound (body (value (chan (mem m)))))
         (up := Pthreads.denote not_filled bound (body (value (chan (mem m)))));
    [ reflexivity | apply same_denote | exact Hc | exact Hu | exact Hn
    | | exact Hw | left; reflexivity ].
  all: constructor; simpl; trivial;
    try (rewrite !observe_app, Ho; simpl; rewrite app_nil_r; reflexivity);
    try (intros E; exfalso; apply Hn; congruence).
Qed.

(** *** Every move of a thread is a step of the two stacks, or none *)

Lemma waits_inv t sp k b k' :
  waits t sp k ->
  Pthreads.thread_of t sp = Pthreads.Waiting b k'
  \/ Pthreads.thread_of t sp = Pthreads.Woken b k' ->
  b = flag t /\ k' = k.
Proof.
  intros [H | H] [H' | H']; rewrite H in H'; inversion H'; auto.
Qed.

Lemma child_phase_step sp m un up vn vp pst :
  running m = (un ;; springboard_exit) ->
  same_code not_filled bound un up ->
  context_inactive (chan (mem m)) = (vn ;; Ret tt) ->
  same_code not_filled bound vn vp ->
  func (chan (mem m)) <> NULL ->
  agree Child (Pthreads.parent_thread sp) (mem m) (Pthreads.with_self Child sp) ->
  waits Parent sp (Pthreads.bind vp (fun _ => Pthreads.Ret tt)) ->
  runs Child sp (Pthreads.bind up (fun _ => Pthreads.springboard_exit)) ->
  Pthreads.step not_filled ptext sp pst ->
  sim' pst (Continue m) \/ sim' pst (step not_filled ntext m).
Proof.
  intros Hr Hu Hc Hv Hn Ha Hw Hx Hstep.
  assert (Hi : Pthreads.in_child (Pthreads.chan sp) = 1)
    by apply (ag_flag _ _ _ _ Ha).
  destruct Hstep as [t k Ht | t b k Ht | t b k Ht Ho | t k Ht Ho | t k Ht Hch];
    destruct t; simpl in Ht.
  - destruct Hw as [Hw | Hw]; simpl in Hw; congruence.
  - destruct Hx as [Hx | [Hx _]]; simpl in Hx; [| congruence].
    rewrite Ht in Hx. injection Hx as ->.
    right. now apply child_runs with (un := un) (vn := vn) (vp := vp).
  - destruct (waits_inv Parent sp _ b k Hw (or_introl Ht)) as [-> ->].
    left. apply sim_child with (un := un) (up := up) (vn := vn) (vp := vp);
      trivial;
      first [ moved_alive Ha Hn | right; reflexivity ].
  - destruct Hx as [Hx | [Hx _]]; simpl in Hx; congruence.
  - destruct (waits_inv Parent sp _ b k Hw (or_intror Ht)) as [-> ->].
    rewrite Hi. simpl.
    left. apply sim_child with (un := un) (up := up) (vn := vn) (vp := vp);
      trivial;
      first [ moved_alive Ha Hn | left; reflexivity ].
  - destruct Hx as [Hx | [Hx _]]; simpl in Hx; [congruence |].
    rewrite Ht in Hx. injection Hx as -> ->.
    rewrite Hi. simpl.
    left. apply sim_child with (un := un) (up := up) (vn := vn) (vp := vp);
      trivial;
      first [ moved_alive Ha Hn | left; reflexivity ].
  - destruct Hw as [Hw | Hw]; simpl in Hw; congruence.
  - destruct Hx as [Hx | [Hx _]]; simpl in Hx; congruence.
  - destruct Hw as [Hw | Hw]; simpl in Hw; congruence.
  - destruct Hx as [Hx | [Hx _]]; simpl in Hx; congruence.
Qed.

Lemma parent_phase_step sp m un up vn vp pst :
  running m = (vn ;; Ret tt) ->
  same_code not_filled bound vn vp ->
  context_inactive (chan (mem m)) = (un ;; springboard_exit) ->
  same_code not_filled bound un up ->
  func (chan (mem m)) <> NULL ->
  agree Parent (Pthreads.child_thread sp) (mem m) (Pthreads.with_self Parent sp) ->
  waits Child sp (Pthreads.bind up (fun _ => Pthreads.springboard_exit)) ->
  runs Parent sp (Pthreads.bind vp (fun _ => Pthreads.Ret tt)) ->
  Pthreads.step not_filled ptext sp pst ->
  sim' pst (Continue m) \/ sim' pst (step not_filled ntext m).
Proof.
  intros Hr Hv Hc Hu Hn Ha Hw Hx Hstep.
  assert (Hi : Pthreads.in_child (Pthreads.chan sp) = 0)
    by apply (ag_flag _ _ _ _ Ha).
  destruct Hstep as [t k Ht | t b k Ht | t b k Ht Ho | t k Ht Ho | t k Ht Hch];
    destruct t; simpl in Ht.
  - destruct Hx as [Hx | [Hx _]]; simpl in Hx; [| congruence].
    rewrite Ht in Hx. injection Hx as ->.
    right. now apply parent_runs with (un := un) (up := up) (vn := vn).
  - destruct Hw as [Hw | Hw]; simpl in Hw; congruence.
  - destruct Hx as [Hx | [Hx _]]; simpl in Hx; congruence.
  - destruct (waits_inv Child sp _ b k Hw (or_introl Ht)) as [-> ->].
    left. apply sim_parent with (un := un) (up := up) (vn := vn) (vp := vp);
      trivial;
      first [ moved_alive Ha Hn | right; reflexivity ].
  - destruct Hx as [Hx | [Hx _]]; simpl in Hx; [congruence |].
    rewrite Ht in Hx. injection Hx as -> ->.
    rewrite Hi. simpl.
    left. apply sim_parent with (un := un) (up := up) (vn := vn) (vp := vp);
      trivial;
      first [ moved_alive Ha Hn | left; reflexivity ].
  - destruct (waits_inv Child sp _ b k Hw (or_intror Ht)) as [-> ->].
    rewrite Hi. simpl.
    left. apply sim_parent with (un := un) (up := up) (vn := vn) (vp := vp);
      trivial;
      first [ moved_alive Ha Hn | left; reflexivity ].
  - destruct Hx as [Hx | [Hx _]]; simpl in Hx; congruence.
  - destruct Hw as [Hw | Hw]; simpl in Hw; congruence.
  - destruct Hx as [Hx | [Hx _]]; simpl in Hx; congruence.
  - destruct Hw as [Hw | Hw]; simpl in Hw; congruence.
Qed.

Lemma done_phase_step sp m vn vp pst :
  running m = (vn ;; Ret tt) ->
  same_code not_filled bound vn vp ->
  context_inactive (chan (mem m)) = never Unreachable ->
  func (chan (mem m)) = NULL ->
  agree Parent Pthreads.Returned (mem m) (Pthreads.with_self Parent sp) ->
  runs Parent sp (Pthreads.bind vp (fun _ => Pthreads.Ret tt)) ->
  Pthreads.step not_filled ptext sp pst ->
  sim' pst (Continue m) \/ sim' pst (step not_filled ntext m).
Proof.
  intros Hr Hv Hc Hn Ha Hx Hstep.
  assert (Hi : Pthreads.in_child (Pthreads.chan sp) = 0)
    by apply (ag_flag _ _ _ _ Ha).
  assert (Hret : Pthreads.child_thread sp = Pthreads.Returned)
    by apply (ag_parked _ _ _ _ Ha).
  destruct Hstep as [t k Ht | t b k Ht | t b k Ht Ho | t k Ht Ho | t k Ht Hch];
    destruct t; simpl in Ht; try congruence.
  - destruct Hx as [Hx | [Hx _]]; simpl in Hx; [| congruence].
    rewrite Ht in Hx. injection Hx as ->.
    right. now apply done_runs with (vn := vn).
  - destruct Hx as [Hx | [Hx _]]; simpl in Hx; congruence.
  - destruct Hx as [Hx | [Hx _]]; simpl in Hx; [congruence |].
    rewrite Ht in Hx. injection Hx as -> ->.
    rewrite Hi. simpl.
    left. apply sim_done with (vn := vn) (vp := vp); trivial;
      first [ moved_done Ha Hret | left; reflexivity ].
  - destruct Hx as [Hx | [Hx _]]; simpl in Hx; congruence.
  - destruct Hx as [Hx | [Hx _]]; simpl in Hx; congruence.
Qed.

Lemma lost_phase_step sp st b k pst :
  stuck st ->
  observe (trace (store_of st)) = observe (Pthreads.trace sp) ->
  Pthreads.child_thread sp = Pthreads.Returned ->
  Pthreads.parent_thread sp = Pthreads.Waiting b k
  \/ Pthreads.parent_thread sp = Pthreads.Woken b k ->
  Pthreads.in_child (Pthreads.chan sp) <> b ->
  Pthreads.step not_filled ptext sp pst ->
  sim' pst st.
Proof.
  intros Hs Ho Hret Hp Hi Hstep.
  destruct Hstep as [t k' Ht | t b' k' Ht | t b' k' Ht Hown | t k' Ht Hown
                    | t k' Ht Hch];
    destruct t; simpl in Ht; try congruence;
    try (destruct Hp as [Hp | Hp]; congruence).
  - assert (E : b' = b /\ k' = k)
      by (destruct Hp as [Hp | Hp]; rewrite Ht in Hp; inversion Hp; auto).
    destruct E as [-> ->].
    apply sim_lost with (b := b) (k := k); trivial. right. reflexivity.
  - assert (E : b' = b /\ k' = k)
      by (destruct Hp as [Hp | Hp]; rewrite Ht in Hp; inversion Hp; auto).
    destruct E as [-> ->].
    apply Z.eqb_neq in Hi. rewrite Hi.
    apply sim_lost with (b := b) (k := k); trivial.
    + left. reflexivity.
    + now apply Z.eqb_neq.
Qed.

Lemma creating_phase_step sp m un up pst :
  running m = springboard not_filled ->
  turn (mem m) = Child ->
  context_inactive (chan (mem m)) = (un ;; Ret tt) ->
  same_code not_filled bound un up ->
  func (chan (mem m)) = Pthreads.func (Pthreads.chan sp) ->
  value (chan (mem m)) = Pthreads.value (Pthreads.chan sp) ->
  observe (trace (mem m)) = observe (Pthreads.trace sp) ->
  Pthreads.in_child (Pthreads.chan sp) = 1 ->
  creating not_filled sp (Pthreads.bind up (fun _ => Pthreads.Ret tt)) ->
  Pthreads.step not_filled ptext sp pst ->
  sim' pst (Continue m) \/ sim' pst (step not_filled ntext m).
Proof.
  intros Hr Ht Hc Hu Hf Hv Ho Hi Hcr Hstep.
  destruct Hcr as [(Hp & Hown & Hst) | (Hw & Hch)].
  - (* the parent has not yet waited *)
    destruct Hstep as [t k Hk | t b k Hk | t b k Hk Hfree | t k Hk Hfree
                      | t k Hk Hret];
      destruct t; simpl in Hk; try congruence;
      try (destruct Hst as [Hst | Hst]; congruence).
    + rewrite Hk in Hp. injection Hp as ->.
      left. simpl.
      apply sim_creating with (un := un) (up := up); trivial.
      right. split; [left; reflexivity |].
      left. split; [reflexivity |].
      destruct Hst as [Hst | Hst]; [left | right]; simpl; rewrite Hst;
        reflexivity.
    + destruct Hst as [Hst | Hst]; [| congruence].
      rewrite Hk in Hst. injection Hst as ->.
      left. simpl. rewrite Hown. simpl.
      apply sim_creating with (un := un) (up := up); trivial.
      left. repeat split; trivial. right. reflexivity.
  - (* the parent waits *)
    destruct Hstep as [t k Hk | t b k Hk | t b k Hk Hfree | t k Hk Hfree
                      | t k Hk Hret];
      destruct t; simpl in Hk;
      try (destruct Hw as [Hw | Hw]; simpl in Hw; congruence);
      try (destruct Hch as [[_ [Hst | Hst]] | Hst]; congruence).
    + right.
      apply child_enters with (un := un) (up := up); trivial.
      destruct Hch as [[Hown [Hst | Hst]] | Hst]; try congruence.
      * left. split; [congruence | exact Hown].
      * right. congruence.
    + destruct (waits_inv Parent sp _ b k Hw (or_introl Hk)) as [-> ->].
      left. apply sim_creating with (un := un) (up := up); trivial.
      right. split; [right; reflexivity | exact Hch].
    + destruct (waits_inv Parent sp _ b k Hw (or_intror Hk)) as [-> ->].
      rewrite Hi. simpl.
      left. apply sim_creating with (un := un) (up := up); trivial.
      right. split; [left; reflexivity | exact Hch].
    + destruct Hch as [[Hown [Hst | Hst]] | Hst]; try congruence.
      rewrite Hk in Hst. injection Hst as ->.
      left. apply sim_creating with (un := un) (up := up); trivial.
      right. split.
      * destruct Hw as [Hw | Hw]; [left | right]; exact Hw.
      * right. reflexivity.
Qed.

(** Whatever thread moves, the threads stand for the same state of the two
    stacks or for its successor. *)
Lemma sim_step sp st pst :
  sim' (Pthreads.Continue sp) st ->
  Pthreads.step not_filled ptext sp pst ->
  sim' pst st \/ sim' pst (next not_filled ntext st).
Proof.
  intros H Hstep. inversion H; subst.
  - eapply creating_phase_step; eassumption.
  - eapply child_phase_step; eassumption.
  - eapply parent_phase_step; eassumption.
  - eapply done_phase_step; eassumption.
  - left. eapply lost_phase_step; eassumption.
Qed.

(** *** The threads can always catch up with the two stacks *)

Lemma reaches_one sp pst :
  Pthreads.step not_filled ptext sp pst ->
  Pthreads.reaches not_filled ptext (Pthreads.Continue sp) pst.
Proof.
  intros H. eapply Pthreads.reaches_step; [exact H | apply Pthreads.reaches_refl].
Qed.

Lemma waiting_catch_up sp m un up :
  running m = springboard not_filled ->
  turn (mem m) = Child ->
  context_inactive (chan (mem m)) = (un ;; Ret tt) ->
  same_code not_filled bound un up ->
  func (chan (mem m)) = Pthreads.func (Pthreads.chan sp) ->
  value (chan (mem m)) = Pthreads.value (Pthreads.chan sp) ->
  observe (trace (mem m)) = observe (Pthreads.trace sp) ->
  Pthreads.in_child (Pthreads.chan sp) = 1 ->
  waits Parent sp (Pthreads.bind up (fun _ => Pthreads.Ret tt)) ->
  (Pthreads.owner sp = None /\ starting not_filled sp)
  \/ Pthreads.child_thread sp = Pthreads.Ready (springboard_locked not_filled) ->
  exists pst,
    Pthreads.reaches not_filled ptext (Pthreads.Continue sp) pst
    /\ sim' pst (step not_filled ntext m).
Proof.
  intros Hr Ht Hc Hu Hf Hv Ho Hi Hw [[Hown [Hst | Hst]] | Hst].
  - eexists. split.
    + apply reaches_one. apply (Pthreads.step_run _ _ _ Child _ Hst).
    + apply child_enters with (un := un) (up := up); auto.
  - eexists. split.
    + eapply Pthreads.reaches_step.
      * apply (Pthreads.step_lock _ _ _ Child _ Hst Hown).
      * apply reaches_one.
        apply (Pthreads.step_run _ _ _ Child (springboard_locked not_filled)).
        reflexivity.
    + apply child_enters with (un := un) (up := up); auto.
  - eexists. split.
    + apply reaches_one. apply (Pthreads.step_run _ _ _ Child _ Hst).
    + apply child_enters with (un := un) (up := up); auto.
Qed.

Lemma catch_up pst m :
  sim' pst (Continue m) ->
  exists pst',
    Pthreads.reaches not_filled ptext pst pst'
    /\ sim' pst' (step not_filled ntext m).
Proof.
  intros H. inversion H as [sp m' un up Hr Ht Hc Hu Hf Hv Ho Hi Hcr
                           | sp m' un up vn vp Hr Hu Hc Hv Hn Ha Hw Hx
                           | sp m' un up vn vp Hr Hv Hc Hu Hn Ha Hw Hx
                           | sp m' vn vp Hr Hv Hc Hn Ha Hx
                           | sp st b k Hs Ho Hret Hp Hi | | ]; subst.
  - destruct Hcr as [(Hp & Hown & Hst) | (Hw & Hch)].
    + destruct (waiting_catch_up
                  (Pthreads.with_thread Parent
                     (Pthreads.Waiting 0
                        (Pthreads.bind up (fun _ => Pthreads.Ret tt)))
                     (Pthreads.with_owner None
                        (Pthreads.signalled (Pthreads.with_self Parent sp))))
                  m un up) as (pst' & Hreach & Hsim); trivial.
      * left. reflexivity.
      * left. split; [reflexivity |].
        destruct Hst as [Hst | Hst]; [left | right]; simpl; rewrite Hst;
          reflexivity.
      * exists pst'. split; [| exact Hsim].
        eapply Pthreads.reaches_step; [| exact Hreach].
        apply (Pthreads.step_run _ _ _ Parent _ Hp).
    + now apply waiting_catch_up with (un := un) (up := up).
  - destruct Hx as [Hx | [Hx Hown]].
    + eexists. split.
      * apply reaches_one. apply (Pthreads.step_run _ _ _ Child _ Hx).
      * now apply child_runs with (un := un) (vn := vn) (vp := vp).
    + eexists. split.
      * eapply Pthreads.reaches_step.
        -- apply (Pthreads.step_reacquire _ _ _ Child _ _ Hx Hown).
        -- pose proof (ag_flag _ _ _ _ Ha) as Hi. simpl in Hi. rewrite Hi. simpl.
           apply reaches_one.
           apply (Pthreads.step_run _ _ _ Child
                    (Pthreads.bind up (fun _ => Pthreads.springboard_exit))).
           reflexivity.
      * apply child_runs with (un := un) (vn := vn) (vp := vp); trivial.
        moved_alive Ha Hn.
  - destruct Hx as [Hx | [Hx Hown]].
    + eexists. split.
      * apply reaches_one. apply (Pthreads.step_run _ _ _ Parent _ Hx).
      * now apply parent_runs with (un := un) (up := up) (vn := vn).
    + eexists. split.
      * eapply Pthreads.reaches_step.
        -- apply (Pthreads.step_reacquire _ _ _ Parent _ _ Hx Hown).
        -- pose proof (ag_flag _ _ _ _ Ha) as Hi. simpl in Hi. rewrite Hi. simpl.
           apply reaches_one.
           apply (Pthreads.step_run _ _ _ Parent
                    (Pthreads.bind vp (fun _ => Pthreads.Ret tt))).
           reflexivity.
      * apply parent_runs with (un := un) (up := up) (vn := vn); trivial.
        moved_alive Ha Hn.
  - assert (Hret : Pthreads.child_thread sp = Pthreads.Returned)
      by apply (ag_parked _ _ _ _ Ha).
    destruct Hx as [Hx | [Hx Hown]].
    + eexists. split.
      * apply reaches_one. apply (Pthreads.step_run _ _ _ Parent _ Hx).
      * now apply done_runs with (vn := vn).
    + eexists. split.
      * eapply Pthreads.reaches_step.
        -- apply (Pthreads.step_reacquire _ _ _ Parent _ _ Hx Hown).
        -- pose proof (ag_flag _ _ _ _ Ha) as Hi. simpl in Hi. rewrite Hi. simpl.
           apply reaches_one.
           apply (Pthreads.step_run _ _ _ Parent
                    (Pthreads.bind vp (fun _ => Pthreads.Ret tt))).
           reflexivity.
      * apply done_runs with (vn := vn); trivial.
        moved_done Ha Hret.
  - exists (Pthreads.Continue sp). split; [apply Pthreads.reaches_refl |].
    simpl in Hs. apply sim_lost with (b := b) (k := k); trivial.
    + unfold step. rewrite Hs. reflexivity.
    + unfold step. rewrite Hs. simpl. exact Ho.
Qed.

(** What a state of the threads says, the state of the two stacks says. *)
Lemma sim_observe pst st :
  sim' pst st ->
  observe (trace (store_of st)) =
  observe (Pthreads.trace (Pthreads.store_of pst)).
Proof.
  intros H. inversion H; subst; simpl; trivial;
    match goal with
    | Ha : agree _ _ _ _ |- _ => apply (ag_trace _ _ _ _ Ha)
    end.
Qed.

Lemma sim_exit pst st :
  sim' pst st -> (threads_have_exited pst <-> has_exited st).
Proof.
  intros H. inversion H; subst; simpl; try tauto.
  destruct st as [m | s | r s]; simpl in *; tauto.
Qed.

Lemma run_next (n : nat) (m : machine) :
  run not_filled ntext (S n) m = next not_filled ntext (run not_filled ntext n m).
Proof.
  revert m. induction n as [| n IH]; intros m.
  - simpl. destruct (step not_filled ntext m); reflexivity.
  - change (run not_filled ntext (S (S n)) m)
      with (match step not_filled ntext m with
            | Continue m' => run not_filled ntext (S n) m'
            | st => st
            end).
    change (run not_filled ntext (S n) m)
      with (match step not_filled ntext m with
            | Continue m' => run not_filled ntext n m'
            | st => st
            end).
    destruct (step not_filled ntext m); [apply IH | reflexivity | reflexivity].
Qed.

(** Every schedule of the threads follows the run of the two stacks. *)
Lemma sim_reaches (m0 : machine) pst pst' :
  Pthreads.reaches not_filled ptext pst pst' ->
  forall n, sim' pst (run not_filled ntext n m0) ->
  exists n', sim' pst' (run not_filled ntext n' m0).
Proof.
  induction 1 as [pst | sp pst pst' Hstep _ IH]; intros n Hsim.
  - now exists n.
  - destruct (sim_step _ _ _ Hsim Hstep) as [H | H].
    + now apply (IH n).
    + apply (IH (S n)). now rewrite run_next.
Qed.

(** Some schedule of the threads gets as far as the two stacks. *)
Lemma sim_follows (m0 : machine) pst0 :
  forall n n0,
    sim' pst0 (run not_filled ntext n0 m0) ->
    exists pst,
      Pthreads.reaches not_filled ptext pst0 pst
      /\ sim' pst (run not_filled ntext (n + n0) m0).
Proof.
  induction n as [| n IH]; intros n0 H0.
  - exists pst0. split; [apply Pthreads.reaches_refl | exact H0].
  - destruct (IH n0 H0) as (pst & Hreach & Hsim).
    change (S n + n0)%nat with (S (n + n0)). rewrite run_next.
    destruct (run not_filled ntext (n + n0) m0) as [m | s | r s] eqn:E.
    + destruct (catch_up pst m Hsim) as (pst' & Hreach' & Hsim').
      exists pst'. split; [| exact Hsim'].
      clear - Hreach Hreach'.
      induction Hreach as [pst | sp pst pst'' Hstep _ IH'].
      * exact Hreach'.
      * eapply Pthreads.reaches_step; [exact Hstep | now apply IH'].
    + exists pst. split; assumption.
    + exists pst. split; assumption.
Qed.

(** The first move: the main thread runs [coroutine_create] up to
    [pthread_create]. *)
Lemma start_step target c entry arg rest heap tree pst :
  can_create target c heap ->
  Pthreads.step not_filled ptext
    (Pthreads.start (Pthreads.main_with not_filled bound c entry arg rest) tree)
    pst ->
  sim' pst
    (step not_filled ntext
       (start (main_with not_filled bound target c entry arg rest) heap)).
Proof.
  intros Hcan Hstep.
  destruct Hstep as [t k Hk | t b k Hk | t b k Hk Hfree | t k Hk Hfree
                    | t k Hk Hret];
    destruct t; simpl in Hk; try discriminate.
  injection Hk as <-.
  destruct c as [block blocksize | free].
  - apply sim_creating with (un := denote not_filled bound rest)
      (up := Pthreads.denote not_filled bound rest); try reflexivity.
    + apply same_denote.
    + left. split; [reflexivity | split; [reflexivity | left; reflexivity]].
  - simpl in Hcan. unfold step, start, main_with, main_allocating, coroutine_create.
    simpl.
    destruct (heap (STACK_ALIGNMENT target) 524288) as [block |];
      [| contradiction].
    apply sim_creating with (un := setting_hooks not_filled bound block free rest)
      (up := Pthreads.denote not_filled bound rest); try reflexivity.
    + apply same_hooks.
    + left. split; [reflexivity | split; [reflexivity | left; reflexivity]].
Qed.

End Simulation.

(** ** The two backends are indistinguishable *)



(** * Further properties of the code *)

(** ** A block smaller than the record *)

(** [coroutine_create_given_memory] does not look at [blocksize]: when it is
    smaller than the record the subtraction of [size_t] wraps around, and
    so does the addition of the offset to the pointer.  The record is
    written [below] bytes before the block, [below] being what the block
    lacks, rounded up to the stack alignment. *)
Theorem block_smaller_than_the_record (target : abi)
    (a entry arg block blocksize : Z) :
  0 <= a -> STACK_ALIGNMENT target = 2 ^ a ->
  0 <= blocksize < sizeof_struct_channel target ->
  sizeof_struct_channel target + STACK_ALIGNMENT target <= 2 ^ SIZE_WIDTH target ->
  let below := lacking target blocksize in
  below <= block -> block + blocksize <= 2 ^ SIZE_WIDTH target ->
  channel_offset target blocksize = 2 ^ SIZE_WIDTH target - below
  /\ blocksize < channel_offset target blocksize
  /\ (forall s,
        exec (coroutine_create_given_memory target entry arg block blocksize) s =
        AtBootstrap (Ret (block + channel_offset target blocksize))
          (record Bootstrapped
             (record (Initialised (block + channel_offset target blocksize)
                        entry arg)
                (with_chan (mkChannel (never Unreachable) entry arg NULL NULL) s))))
  /\ pointer_value target (block + channel_offset target blocksize) = block - below
  /\ sizeof_struct_channel target - blocksize <= below
  /\ below < sizeof_struct_channel target - blocksize + STACK_ALIGNMENT target
  /\ block - below < block
  /\ block - below + sizeof_struct_channel target <= block + blocksize.
Proof.
  intros Ha HA Hsize Hwidth below Hblock Htop.
  assert (Hpos : 0 < STACK_ALIGNMENT target)
    by (rewrite HA; apply Z.pow_pos_nonneg; lia).
  assert (Hle : a <= SIZE_WIDTH target).
  { destruct (Z.le_gt_cases a (SIZE_WIDTH target)) as [H | H]; [exact H |].
    exfalso.
    assert (Hmono : 2 ^ SIZE_WIDTH target < 2 ^ a).
    { destruct (Z.lt_ge_cases (SIZE_WIDTH target) 0) as [Hn | Hn].
      - rewrite (Z.pow_neg_r 2 _ Hn). apply Z.pow_pos_nonneg; lia.
      - apply Z.pow_lt_mono_r; lia. }
    lia. }
  assert (Hw : 2 ^ SIZE_WIDTH target =
               STACK_ALIGNMENT target * 2 ^ (SIZE_WIDTH target - a)).
  { rewrite HA, <- Z.pow_add_r by lia. f_equal. lia. }
  unfold lacking in below.
  remember (STACK_ALIGNMENT target) as A eqn:EA.
  remember (2 ^ SIZE_WIDTH target) as W eqn:EW.
  remember (2 ^ (SIZE_WIDTH target - a)) as q eqn:Eq.
  remember (sizeof_struct_channel target - blocksize) as lack eqn:El.
  remember ((lack + A - 1) / A) as c eqn:Ec.
  pose proof (Z.div_mod (lack + A - 1) A ltac:(lia)) as Hdm.
  pose proof (Z.mod_pos_bound (lack + A - 1) A Hpos) as Hmb.
  rewrite <- Ec in Hdm.
  assert (Hb1 : lack <= A * c) by lia.
  assert (Hb2 : A * c < lack + A) by lia.
  assert (Hmod : (blocksize - sizeof_struct_channel target) mod W = W - lack).
  { symmetry. apply Z.mod_unique with (q := -1); lia. }
  assert (Hoff : channel_offset target blocksize = W - A * c).
  { unfold channel_offset. rewrite <- EW, <- EA, Hmod, HA, land_lnot_pow2 by exact Ha.
    rewrite <- HA.
    assert (Hq : (W - lack) / A = q - c).
    { symmetry. apply Z.div_unique with (r := A * c - lack); lia. }
    rewrite Hq. lia. }
  subst below.
  split; [exact Hoff |].
  split; [rewrite Hoff; lia |].
  split; [intros s; reflexivity |].
  split.
  { unfold pointer_value. rewrite <- EW, Hoff.
    symmetry. apply Z.mod_unique with (q := 1); lia. }
  repeat split; lia.
Qed.

Lemma block_smaller_than_the_record_witness :
  channel_offset x86_64 40 = 18446744073709551552
  /\ pointer_value x86_64 (4096 + channel_offset x86_64 40) = 4032.
Proof.
  assert (H1 : 0 <= 6) by lia.
  assert (H2 : STACK_ALIGNMENT x86_64 = 2 ^ 6) by reflexivity.
  assert (H3 : 0 <= 40 < sizeof_struct_channel x86_64)
    by (vm_compute; split; [discriminate | reflexivity]).
  assert (H4 : sizeof_struct_channel x86_64 + STACK_ALIGNMENT x86_64
               <= 2 ^ SIZE_WIDTH x86_64) by (vm_compute; discriminate).
  assert (H5 : lacking x86_64 40 <= 4096) by (vm_compute; discriminate).
  assert (H6 : 4096 + 40 <= 2 ^ SIZE_WIDTH x86_64) by (vm_compute; discriminate).
  destruct (block_smaller_than_the_record x86_64 6 7003 42 4096 40 H1 H2 H3 H4 H5 H6)
    as (Hoff & _ & _ & Hp & _).
  split; [exact Hoff | exact Hp].
Defined.

(** ** Traces, part by part *)

Lemma releases_app (l1 l2 : list event) :
  releases (l1 ++ l2) = releases l1 ++ releases l2.
Proof.
  induction l1 as [| e l1 IH]; simpl; [reflexivity |].
  destruct e; simpl; rewrite ?IH; reflexivity.
Qed.

Lemma gots_app (who : party) (l1 l2 : list event) :
  gots who (l1 ++ l2) = gots who l1 ++ gots who l2.
Proof.
  induction l1 as [| e l1 IH]; simpl; [reflexivity |].
  destruct e as [| | | | | | | w v]; simpl; rewrite ?IH; try reflexivity.
  destruct w, who; simpl; rewrite ?IH; reflexivity.
Qed.

(** ** [coroutine_switch] and a peer blocked in [from] *)

(** When a party calls [coroutine_switch] while its peer is blocked in
    [from], the slot holding the sentinel, the peer is resumed and its call
    of [from] returns the sentinel itself. *)
Theorem coroutine_switch_wakes_from_with_the_sentinel (not_filled : ptr)
    (text : ptr -> option (ptr -> act unit)) (s : store)
    (rest_of_switcher : act unit) (rest_of_receiver : ptr -> act unit) :
  (func (chan s) =? NULL) = false -> value (chan s) = not_filled ->
  let waiting := waiting_in_from not_filled rest_of_receiver in
  let s0 := with_chan (save_context waiting (chan s)) s in
  let s1 := switched rest_of_switcher (record (Switched (turn s)) s0) in
  step not_filled text (mkMachine (coroutine_switch ;; rest_of_switcher) s0) =
    Continue (mkMachine waiting s1)
  /\ exec waiting s1 =
     exec (rest_of_receiver not_filled) (written Value not_filled s1)
  /\ turn s1 = peer (turn s).
Proof.
  intros Hf Hv waiting s0 s1. split; [| split].
  - unfold step. cbn [running mem]. rewrite exec_bind, coroutine_switch_exec.
    change (func (chan s0)) with (func (chan s)). rewrite Hf. reflexivity.
  - unfold waiting, waiting_in_from. rewrite exec_bind, from_rest_exec.
    change (func (chan s1)) with (func (chan s)). rewrite Hf.
    change (value (chan s1)) with (value (chan s)). rewrite Hv. reflexivity.
  - reflexivity.
Qed.

Lemma coroutine_switch_wakes_from_with_the_sentinel_witness :
  let s := with_chan (mkChannel (Ret tt) 7000 999 NULL NULL) (power_on no_heap) in
  let waiting := waiting_in_from 999 (fun v => perform (SayGot v)) in
  let s1 := switched (Ret tt)
              (record (Switched Parent) (with_chan (save_context waiting (chan s)) s)) in
  gots Child (trace (outcome_store (exec waiting s1))) = [999].
Proof.
  intros s waiting s1.
  assert (H1 : (func (chan s) =? NULL) = false) by reflexivity.
  assert (H2 : value (chan s) = 999) by reflexivity.
  destruct (coroutine_switch_wakes_from_with_the_sentinel 999 (fun _ => None) s
              (Ret tt) (fun v => perform (SayGot v)) H1 H2) as (_ & He & _).
  assert (E : exec waiting s1 =
              exec (perform (SayGot 999)) (written Value 999 s1)) by exact He.
  rewrite E. reflexivity.
Defined.

(** ** Every state of a run, from the call of the entry function on *)

Section Started.

Variable not_filled : ptr.

Variable bound : nat.

Variable functions : program.

Variable target : abi.

Variables entry arg : ptr.

Variable rest : prog.

Variable heap : Z -> Z -> option ptr.

Local Abbreviation text := (text_of not_filled bound functions).

Lemma bootstrapped_sound (given : bool) (parent : context) (channel : ptr) (n : nat) :
  parent_code not_filled bound given parent ->
  sound not_filled bound given entry
    (run not_filled text (S n)
       (mkMachine (springboard not_filled)
          (bootstrapped_store parent channel entry arg heap))).
Proof.
  intros Hp.
  change (run not_filled text (S n)
            (mkMachine (springboard not_filled)
               (bootstrapped_store parent channel entry arg heap)))
    with (match step not_filled text
                  (mkMachine (springboard not_filled)
                     (bootstrapped_store parent channel entry arg heap)) with
          | Continue m' => run not_filled text n m'
          | st => st
          end).
  rewrite creation_step_2.
  destruct (functions entry) as [body |].
  - apply run_sound, creation_invariant, Hp.
  - apply healthy_intro;
      [intros _; apply s2_slot_ok | intros _; apply s2_hooks_clear
       | left; apply s2_entry_kept].
Qed.

Lemma started_sound (c : creator) (n : nat) :
  can_create target c heap ->
  sound not_filled bound false entry
    (run not_filled text (S (S n))
       (start (main_with not_filled bound target c entry arg rest) heap)).
Proof.
  intros Hcan. destruct c as [block blocksize | free].
  - apply (bootstrapped_sound false (denote not_filled bound rest ;; Ret tt)
             (block + channel_offset target blocksize) n).
    left. eexists. split; [apply uc_denote | reflexivity].
  - simpl in Hcan.
    change (run not_filled text (S (S n))
              (start (main_with not_filled bound target (Allocating free) entry
                        arg rest) heap))
      with (match step not_filled text
                    (start (main_allocating not_filled bound target free entry
                              arg rest) heap) with
            | Continue m' => run not_filled text (S n) m'
            | st => st
            end).
    unfold step, start, main_allocating, coroutine_create. simpl exec.
    destruct (heap (STACK_ALIGNMENT target) 524288) as [block |];
      [| contradiction].
    apply (bootstrapped_sound false
             (setting_hooks not_filled bound block free rest ;; Ret tt)
             (block + channel_offset target 524288) n).
    right. split; [reflexivity |]. exists block, free, rest. reflexivity.
Qed.

End Started.

(** ** [yield_to] after the child has returned *)

(** In a run from either constructor, with an entry function that is not
    NULL: when the parent calls [yield_to] after the entry function of the
    child has returned, the value is stored and control goes to the context
    [springboard] has left behind, which has no code: the behaviour is
    undefined, and the code after the call is never run. *)
Theorem yield_to_after_the_child_returned
    (not_filled : ptr) (bound : nat) (functions : program) (target : abi)
    (c : creator) (entry arg : ptr) (rest : prog) (heap : Z -> Z -> option ptr)
    (n : nat) (m : machine) (v : ptr) (k : prog) :
  can_create target c heap -> entry <> NULL ->
  let text := text_of not_filled bound functions in
  let m0 := start (main_with not_filled bound target c entry arg rest) heap in
  run not_filled text (S (S n)) m0 = Continue m ->
  func (chan (mem m)) = NULL ->
  running m = (denote not_filled bound (Yield_to v k) ;; Ret tt) ->
  run not_filled text (S (S n) + 2) m0 =
    Halted Undefined_behaviour
      (switched (denote not_filled bound k ;; Ret tt)
         (record (Switched Parent)
            (written Value v (record (Yielded Parent v) (mem m))))).
Proof.
  intros Hcan Hentry text m0 Hrun Hf Hr.
  pose proof (started_sound not_filled bound functions target entry arg rest
                heap c n Hcan) as Hs.
  fold text m0 in Hs. rewrite Hrun in Hs. simpl in Hs.
  destruct Hs as (_ & _ & Hp).
  rewrite run_plus, Hrun.
  destruct m as [code s]. cbn [running mem] in *. subst code.
  destruct Hp as [_ [He _] _ _ | _ [He _] _ _ | Ht _ _ Hdead | _ _ Hlost];
    cbn [running mem] in *.
  - congruence.
  - congruence.
  - destruct s as [[ctx f val fa ff] t tr hp]. simpl in Hf, Ht, Hdead.
    subst f t ctx. reflexivity.
  - apply (f_equal (fun code => exec code s)) in Hlost. simpl in Hlost.
    discriminate.
Qed.

Lemma yield_to_after_the_child_returned_witness :
  let text := text_of 999 5 test_functions in
  let m0 := start (main_with 999 5 x86_64 (Given_memory 4096 8192) 7003 42
                     (Yield_to 5 Return)) no_heap in
  exists s, run 999 text 5 m0 = Halted Undefined_behaviour s
            /\ observe (trace s) = [Called Child 7003 42; Yielded Parent 5].
Proof.
  intros text m0.
  assert (H1 : can_create x86_64 (Given_memory 4096 8192) no_heap) by exact I.
  assert (H2 : 7003 <> NULL) by discriminate.
  assert (H3 : run 999 text 3 m0 =
               Continue (mkMachine (denote 999 5 (Yield_to 5 Return) ;; Ret tt)
                           (store_of (run 999 text 3 m0)))) by reflexivity.
  assert (H4 : func (chan (store_of (run 999 text 3 m0))) = NULL) by reflexivity.
  pose proof (yield_to_after_the_child_returned 999 5 test_functions x86_64
                (Given_memory 4096 8192) 7003 42 (Yield_to 5 Return) no_heap 1
                _ 5 Return H1 H2 H3 H4 eq_refl) as H.
  eexists. split; [exact H | reflexivity].
Defined.

(** ** The same call on kernel threads *)

Section AfterReturn.

Variable not_filled : ptr.

Variable text : ptr -> option (ptr -> Pthreads.act unit).

Lemma parent_waits_for_ever_step tr k sp st :
  parent_waits_for_ever tr k (Pthreads.Continue sp) ->
  Pthreads.step not_filled text sp st -> parent_waits_for_ever tr k st.
Proof.
  intros (sp0 & b & E & Hc & Hp & Hb & Ht) Hstep. injection E as <-.
  destruct Hstep as [t c Hk | t b' c Hk | t b' c Hk Hfree | t c Hk Hfree
                    | t c Hk Hret];
    destruct t; simpl in Hk;
    try (rewrite Hc in Hk; discriminate);
    try (destruct Hp as [Hp | Hp]; rewrite Hp in Hk; discriminate).
  - destruct Hp as [Hp | Hp]; rewrite Hp in Hk; [| discriminate].
    injection Hk as <- <-.
    exists (Pthreads.with_thread Parent (Pthreads.Woken b k) sp), b.
    repeat split; trivial. now right.
  - destruct Hp as [Hp | Hp]; rewrite Hp in Hk; [discriminate |].
    injection Hk as <- <-.
    destruct (Pthreads.in_child (Pthreads.chan sp) =? b) eqn:E;
      [apply Z.eqb_eq in E; contradiction |].
    exists (Pthreads.with_thread Parent (Pthreads.Waiting b k) sp), b.
    repeat split; trivial. now left.
Qed.

Lemma parent_waits_for_ever_reaches tr k st st' :
  Pthreads.reaches not_filled text st st' ->
  parent_waits_for_ever tr k st -> parent_waits_for_ever tr k st'.
Proof.
  induction 1 as [st | sp st st' Hstep _ IH]; intros H; [exact H |].
  apply IH. eapply parent_waits_for_ever_step; eassumption.
Qed.

End AfterReturn.

(** On kernel threads, when the parent calls [yield_to] after the thread of
    the child has returned, nothing is undefined: the value is stored, the
    flag is flipped, and the parent waits for ever for the flag to come
    back, under every schedule and through every spurious wake-up; the code
    after the call is never run and the process never exits. *)
Theorem yield_to_after_the_child_thread_returned (not_filled : ptr)
    (text : ptr -> option (ptr -> Pthreads.act unit)) (sp : Pthreads.store)
    (v : ptr) (k : Pthreads.act unit) :
  Pthreads.child_thread sp = Pthreads.Returned ->
  Pthreads.parent_thread sp =
    Pthreads.Ready (Pthreads.bind (Pthreads.yield_to v) (fun _ => k)) ->
  forall st,
    Pthreads.reaches not_filled text (Pthreads.Continue sp) st ->
    st = Pthreads.Continue sp
    \/ (parent_waits_for_ever (Pthreads.trace sp) k st
        /\ Pthreads.value (Pthreads.chan (Pthreads.store_of st)) = v).
Proof.
  intros Hc Hp st Hreach.
  inversion Hreach as [st0 | sp0 st1 st' Hstep Hrest]; subst; [now left |].
  right.
  assert (H1 : parent_waits_for_ever (Pthreads.trace sp) k st1
               /\ Pthreads.value (Pthreads.chan (Pthreads.store_of st1)) = v).
  { destruct Hstep as [t c Hk | t b' c Hk | t b' c Hk Hfree | t c Hk Hfree
                      | t c Hk Hret];
      destruct t; simpl in Hk;
      try (rewrite Hc in Hk; discriminate);
      try (rewrite Hp in Hk; discriminate).
    rewrite Hp in Hk. injection Hk as <-.
    split; [| reflexivity].
    eexists _, (Pthreads.in_child (Pthreads.chan sp)).
    split; [reflexivity |]. simpl. rewrite Hc. simpl.
    repeat split; [now left |].
    unfold Pthreads.logical_not.
    destruct (Pthreads.in_child (Pthreads.chan sp) =? 0) eqn:E.
    - apply Z.eqb_eq in E. rewrite E. discriminate.
    - apply Z.eqb_neq in E. congruence. }
  destruct H1 as [H1 Hv]. split.
  - eapply parent_waits_for_ever_reaches; eassumption.
  - clear - Hrest H1 Hv. induction Hrest as [st | s st st' Hstep _ IH]; [exact Hv |].
    assert (H2 := parent_waits_for_ever_step not_filled text _ _ _ _ H1 Hstep).
    apply IH; [exact H2 |].
    destruct H1 as (sp0 & b & E & Hc & Hp & Hb & Ht). injection E as <-.
    destruct Hstep as [t c Hk | t b' c Hk | t b' c Hk Hfree | t c Hk Hfree
                      | t c Hk Hret];
      destruct t; simpl in Hk;
      try (rewrite Hc in Hk; discriminate);
      try (destruct Hp as [Hp | Hp]; rewrite Hp in Hk; discriminate);
      simpl; trivial.
    destruct (Pthreads.in_child (Pthreads.chan s) =? b'); exact Hv.
Qed.

Lemma yield_to_after_the_child_thread_returned_witness :
  let sp :=
    Pthreads.mkStore (Pthreads.mkChannel 1 0 NULL 999) 1 (Some Parent) 1 1
      (Pthreads.Ready
         (Pthreads.bind (Pthreads.yield_to 5) (fun _ => Pthreads.Ret tt)))
      Pthreads.Returned Parent [] 1 in
  let woken :=
    Pthreads.mkStore (Pthreads.mkChannel 1 1 NULL 5) 1 None 1 1
      (Pthreads.Woken 0 (Pthreads.Ret tt)) Pthreads.Returned Parent [] 1 in
  Pthreads.reaches 999 (fun _ => None) (Pthreads.Continue sp)
    (Pthreads.Continue woken)
  /\ parent_waits_for_ever [] (Pthreads.Ret tt) (Pthreads.Continue woken).
Proof.
  intros sp woken.
  assert (Hreach : Pthreads.reaches 999 (fun _ => None) (Pthreads.Continue sp)
                     (Pthreads.Continue woken)).
  { set (waiting :=
           Pthreads.mkStore (Pthreads.mkChannel 1 1 NULL 5) 1 None 1 1
             (Pthreads.Waiting 0 (Pthreads.Ret tt)) Pthreads.Returned Parent [] 1).
    apply Pthreads.reaches_step with (st := Pthreads.Continue waiting).
    - exact (Pthreads.step_run 999 (fun _ => None) sp Parent
               (Pthreads.bind (Pthreads.yield_to 5) (fun _ => Pthreads.Ret tt))
               eq_refl).
    - apply Pthreads.reaches_step with (st := Pthreads.Continue woken);
        [| apply Pthreads.reaches_refl].
      exact (Pthreads.step_spurious 999 (fun _ => None) waiting Parent 0
               (Pthreads.Ret tt) eq_refl). }
  split; [exact Hreach |].
  destruct (yield_to_after_the_child_thread_returned 999 (fun _ => None) sp 5
              (Pthreads.Ret tt) eq_refl eq_refl _ Hreach) as [H | [H _]].
  - discriminate H.
  - exact H.
Defined.

(** ** One thread at a time *)

(** In every state of every schedule of a program on kernel threads in
    which both threads are able to run, the thread of the child is at the
    very start of its thread function, before it takes the mutex: the code
    of the two parties never runs at the same time. *)
Theorem one_thread_runs_at_a_time
    (not_filled : ptr) (bound : nat) (functions : program) (target : abi)
    (c : creator) (entry arg : ptr) (rest : prog)
    (heap : Z -> Z -> option ptr) (tree : ptr)
    (sp : Pthreads.store) (kp kc : Pthreads.act unit) :
  functions NULL = None -> can_create target c heap ->
  Pthreads.reaches not_filled (Pthreads.text_of not_filled bound functions)
    (Pthreads.Continue
       (Pthreads.start (Pthreads.main_with not_filled bound c entry arg rest) tree))
    (Pthreads.Continue sp) ->
  Pthreads.parent_thread sp = Pthreads.Ready kp ->
  Pthreads.child_thread sp = Pthreads.Ready kc ->
  kc = Pthreads.springboard not_filled /\ Pthreads.owner sp = Some Parent.
Proof.
  intros Hnull Hcan Hreach Hp Hc.
  inversion Hreach as [st | sp0 st st' Hstep Hrest]; subst.
  - simpl in Hc. discriminate.
  - pose proof (start_step not_filled bound functions target c entry arg rest
                  heap tree st Hcan Hstep) as H1.
    destruct (sim_reaches not_filled bound functions Hnull
                (start (main_with not_filled bound target c entry arg rest) heap)
                _ _ Hrest 1%nat) as [n Hsim].
    { rewrite run_next. exact H1. }
    inversion Hsim as [sp' m un up _ _ _ _ _ _ _ _ Hcr
                      | sp' m un up vn vp _ _ _ _ _ _ Hw _
                      | sp' m un up vn vp _ _ _ _ _ _ Hw _
                      | sp' m vn vp _ _ _ _ Ha _
                      | sp' st0 b k _ _ Hret _ _ | | ]; subst.
    + destruct Hcr as [(_ & Ho & Hs) | (Hw & _)].
      * destruct Hs as [Hs | Hs]; rewrite Hs in Hc; [| discriminate].
        injection Hc as <-. split; [reflexivity | exact Ho].
      * destruct Hw as [Hw | Hw]; simpl in Hw; rewrite Hw in Hp; discriminate.
    + destruct Hw as [Hw | Hw]; simpl in Hw; rewrite Hw in Hp; discriminate.
    + destruct Hw as [Hw | Hw]; simpl in Hw; rewrite Hw in Hc; discriminate.
    + pose proof (ag_parked _ _ _ _ Ha) as Hr. simpl in Hr.
      rewrite Hr in Hc. discriminate.
    + rewrite Hret in Hc. discriminate.
Qed.

Lemma one_thread_runs_at_a_time_witness :
  let main :=
    Pthreads.main_with 999 5 (Given_memory 4096 8192) 7000 42 (Goto 7001 0) in
  let sp :=
    Pthreads.store_of
      (Pthreads.after 999 (Pthreads.text_of 999 5 test_functions) Parent
         (Pthreads.exec (Pthreads.bind main (fun _ => Pthreads.Ret tt))
            (Pthreads.with_self Parent (Pthreads.start main 1)))) in
  Pthreads.child_thread sp = Pthreads.Ready (Pthreads.springboard 999)
  /\ Pthreads.owner sp = Some Parent.
Proof.
  intros main sp.
  assert (Hreach :
            Pthreads.reaches 999 (Pthreads.text_of 999 5 test_functions)
              (Pthreads.Continue (Pthreads.start main 1)) (Pthreads.Continue sp)).
  { eapply Pthreads.reaches_step; [| apply Pthreads.reaches_refl].
    apply (Pthreads.step_run 999 (Pthreads.text_of 999 5 test_functions)
             (Pthreads.start main 1) Parent
             (Pthreads.bind main (fun _ => Pthreads.Ret tt))).
    reflexivity. }
  assert (H1 : test_functions NULL = None) by reflexivity.
  assert (H2 : can_create x86_64 (Given_memory 4096 8192) no_heap) by exact I.
  destruct (one_thread_runs_at_a_time 999 5 test_functions x86_64
              (Given_memory 4096 8192) 7000 42 (Goto 7001 0) no_heap 1 sp
              _ _ H1 H2 Hreach eq_refl eq_refl) as [_ Ho].
  split; [reflexivity | exact Ho].
Defined.

(** ** Who calls the release function of [coroutine_create], and when *)

Lemma releases_quiet (tr new : list event) :
  Forall (fun e => ~ hook_event e) new -> releases (tr ++ new) = releases tr.
Proof.
  intros H. rewrite releases_app.
  assert (E : releases new = []).
  { induction H as [| e new He _ IH]; [reflexivity |].
    destruct e; simpl in *; trivial; tauto. }
  rewrite E. apply app_nil_r.
Qed.

Section Custody.

Variable not_filled : ptr.

Variable bound : nat.

Variables free block : ptr.

Lemma moves_hook_pending s s' :
  moves not_filled s s' -> hook_pending s -> hook_pending s'.
Proof.
  intros Hm [Hff Hr].
  pose proof (moves_frame not_filled _ _ Hm) as [_ _ _ Hff' _ (new & E & _ & K)].
  split; [congruence |].
  rewrite E, releases_quiet; auto.
Qed.

Lemma moves_hook_set s s' :
  moves not_filled s s' -> (func (chan s) = NULL -> turn s = Parent) ->
  hook_set free block s -> hook_set free block s'.
Proof.
  intros Hm Ht (Hff & Hfa & Hn & Hall).
  pose proof (moves_frame not_filled _ _ Hm) as [Hf' _ Hfa' Hff' _ _].
  split; [congruence | split; [congruence |]].
  assert (Hquiet : forall new,
             Forall (fun e => ~ hook_event e) new ->
             func (chan s') = func (chan s) ->
             trace s' = trace s ++ new -> released_by_the_parent free block s').
  { intros new Hq Hf E. split.
    - intros H. rewrite E, releases_quiet; [apply Hn; congruence | exact Hq].
    - rewrite E, releases_quiet; [exact Hall | exact Hq]. }
  assert (Hrel : (func (chan s) =? NULL) = true ->
                 released_by_the_parent free block (released s)).
  { intros H. apply Z.eqb_eq in H. unfold released.
    destruct (free_func (chan s) =? NULL); [split; assumption |].
    split; [intros H'; simpl in H'; contradiction |].
    simpl. rewrite releases_app. apply Forall_app. split; [exact Hall |].
    simpl. rewrite (Ht H), Hff, Hfa. repeat constructor. }
  destruct Hm.
  - apply Hquiet
      with (new := [Yielded (turn s) v; Wrote (turn s) Value v; Switched (turn s)]);
      [repeat constructor; simpl; tauto | reflexivity |].
    simpl. now rewrite <- !app_assoc.
  - apply Hquiet with (new := [Wrote (turn s) Value NULL; Switched (turn s)]);
      [repeat constructor; simpl; tauto | reflexivity |].
    simpl. now rewrite <- !app_assoc.
  - apply Hquiet with (new := [Switched (turn s)]);
      [repeat constructor; simpl; tauto | reflexivity | reflexivity].
  - apply Hquiet
      with (new := [Wrote (turn s) Value not_filled; Got (turn s) (value (chan s))]);
      [repeat constructor; simpl; tauto | reflexivity |].
    simpl. now rewrite <- !app_assoc.
  - destruct (Hrel H) as [Hn' Hall']. split.
    + intros H'. simpl in H'. simpl. rewrite releases_app, Hn'; trivial.
    + simpl. rewrite releases_app. simpl. rewrite app_nil_r. exact Hall'.
  - exact (Hrel H).
  - apply Hquiet with (new := [Called (turn s) f arg]);
      [repeat constructor; simpl; tauto | reflexivity | reflexivity].
Qed.

Lemma reach_hook_pending s s' :
  reach not_filled s s' -> hook_pending s -> hook_pending s'.
Proof.
  induction 1 as [s | s1 s2 s3 Hm _ IH]; [trivial |].
  intros H. apply IH. eapply moves_hook_pending; eassumption.
Qed.

Lemma reach_hook_set s s' :
  reach not_filled s s' -> (func (chan s) = NULL -> turn s = Parent) ->
  hook_set free block s -> hook_set free block s'.
Proof.
  induction 1 as [s | s1 s2 s3 Hm _ IH]; [trivial |].
  intros Ht H.
  pose proof (moves_frame not_filled _ _ Hm) as [Hf' _ _ _ Ht' _].
  apply IH; [intros E; rewrite Ht'; apply Ht; congruence |].
  eapply moves_hook_set; eassumption.
Qed.

End Custody.

Section CustodyRun.

Variable not_filled : ptr.

Variable bound : nat.

Variable functions : program.

Variables free block entry : ptr.

Hypothesis entry_not_null : entry <> NULL.

Local Abbreviation text := (text_of not_filled bound functions).

Local Abbreviation custody' := (custody not_filled bound free block).

Local Abbreviation in_custody' := (in_custody not_filled bound free block).

Lemma hook_pending_released s :
  hook_pending s -> released_by_the_parent free block s.
Proof.
  intros [_ Hr]. unfold released_by_the_parent. rewrite Hr.
  split; [trivial | constructor].
Qed.

Lemma custody_released m : custody' m -> released_by_the_parent free block (mem m).
Proof.
  intros [[H _] | [(_ & _ & H) _]]; [now apply hook_pending_released | exact H].
Qed.

(** What a stretch of user code keeps, when every store it can reach
    keeps it. *)
Lemma exec_keeps (Q : store -> Prop) (u : act unit) (s : store) :
  user_code not_filled bound u ->
  (forall s', reach not_filled s s' -> Q s') ->
  match exec u s with
  | Finished _ s1 => frame s s1 /\ Q s1
  | AtSwap u' s1 => user_code not_filled bound u' /\ frame s s1 /\ Q s1
  | AtCall _ _ u' s1 => u' = Ret tt /\ frame s s1 /\ Q s1
  | AtBootstrap _ _ => False
  | Stopped _ s1 => frame s s1 /\ Q s1
  end.
Proof.
  intros Hu HQ.
  pose proof (user_code_lands not_filled bound u s Hu) as L.
  destruct (exec u s) as [[] s1 | u' s1 | u' s1 | f arg u' s1 | r s1];
    simpl in L; try contradiction.
  - split; [now apply (reach_frame not_filled) | now apply HQ].
  - destruct L as [Hu' L].
    split; [exact Hu' | split; [now apply (reach_frame not_filled) | now apply HQ]].
  - destruct L as [E L].
    split; [exact E | split; [now apply (reach_frame not_filled) | now apply HQ]].
  - destruct L as [_ L].
    split; [now apply (reach_frame not_filled) | now apply HQ].
Qed.

(** The parent runs user code, the hook being recorded. *)
Lemma parent_step_custody (u : act unit) (s : store) :
  user_code not_filled bound u -> turn s = Parent -> hook_set free block s ->
  in_custody' (step not_filled text (mkMachine (u ;; Ret tt) s)).
Proof.
  intros Hu Ht Hs. unfold step. cbn [running mem]. rewrite exec_bind.
  pose proof (exec_keeps (hook_set free block) u s Hu) as K.
  destruct (exec u s) as [[] s1 | u' s1 | u' s1 | f arg u' s1 | r s1].
  - destruct K as [_ (_ & _ & H)]; [| exact H].
    intros s' L. eapply reach_hook_set; eauto.
  - destruct K as (Hu' & F & H).
    { intros s' L. eapply reach_hook_set; eauto. }
    right. split; [exact H |]. exists u'. split; [exact Hu' |].
    unfold parent_stack. cbn [mem running switched with_turn turn].
    rewrite (fr_turn _ _ F), Ht. reflexivity.
  - destruct K. intros s' L. eapply reach_hook_set; eauto.
  - destruct K as (-> & F & H).
    { intros s' L. eapply reach_hook_set; eauto. }
    unfold text_of. destruct (functions f) as [b |].
    + right. split; [exact H |].
      exists (denote not_filled bound (b arg)). split; [apply uc_denote |].
      unfold parent_stack. cbn [mem running]. rewrite (fr_turn _ _ F), Ht.
      reflexivity.
    + destruct H as (_ & _ & H). exact H.
  - destruct K as [_ (_ & _ & H)]; [| exact H].
    intros s' L. eapply reach_hook_set; eauto.
Qed.

Lemma hook_set_written (s : store) :
  hook_pending s ->
  hook_set free block (written Free_func free (written Free_after block s)).
Proof.
  intros [_ Hr]. split; [reflexivity | split; [reflexivity |]].
  assert (E : releases (trace (written Free_func free (written Free_after block s)))
              = []).
  { simpl. rewrite !releases_app, Hr. reflexivity. }
  split; [intros _; exact E | rewrite E; constructor].
Qed.

(** The child runs user code. *)
Lemma child_step_custody (Q : store -> Prop) (u pc : act unit) (s : store) :
  user_code not_filled bound u -> turn s = Child -> func (chan s) <> NULL ->
  context_inactive (chan s) = pc ->
  (forall s', reach not_filled s s' -> Q s') ->
  (forall s1 k, Q s1 ->
     Q (switched k (record (Switched (turn s1)) (written Func NULL s1)))) ->
  (forall s1 k, Q s1 -> Q (switched k s1)) ->
  (forall s1, Q s1 -> released_by_the_parent free block s1) ->
  match step not_filled text (mkMachine (u ;; springboard_exit) s) with
  | Continue m => Q (mem m) /\ parent_stack m = pc
  | Exited s' | Halted _ s' => released_by_the_parent free block s'
  end.
Proof.
  intros Hu Ht Hf Hpc HQ Hexit Hswap Hrel.
  unfold step. cbn [running mem]. rewrite exec_bind.
  pose proof (exec_keeps Q u s Hu HQ) as K.
  destruct (exec u s) as [[] s1 | u' s1 | u' s1 | f arg u' s1 | r s1].
  - destruct K as [F H]. simpl exec. cbv iota. split; [now apply Hexit |].
    unfold parent_stack. simpl. rewrite (fr_turn _ _ F), Ht. simpl.
    rewrite (fr_context _ _ F). exact Hpc.
  - destruct K as (Hu' & F & H). split; [now apply Hswap |].
    unfold parent_stack. simpl. rewrite (fr_turn _ _ F), Ht. simpl.
    rewrite (fr_context _ _ F). exact Hpc.
  - destruct K.
  - destruct K as (-> & F & H).
    unfold text_of. destruct (functions f) as [b |].
    + split; [exact H |].
      unfold parent_stack. simpl. rewrite (fr_turn _ _ F), Ht.
      rewrite (fr_context _ _ F). exact Hpc.
    + now apply Hrel.
  - destruct K as [_ H]. now apply Hrel.
Qed.

Lemma step_custody m :
  invariant not_filled bound false entry m -> custody' m ->
  in_custody' (step not_filled text m).
Proof.
  intros (_ & _ & Hp) Hc. pose proof (custody_released m Hc) as Hrel.
  destruct m as [c s]. unfold custody, parent_stack in Hc. cbn [running mem] in *.
  assert (Hparent : turn s = Parent ->
                    in_custody' (step not_filled text (mkMachine c s))).
  { intros Ht. rewrite Ht in Hc.
    destruct Hc as [(Hs & rest & ->) | (Hs & u & Hu & ->)].
    - rewrite step_setting_hooks. apply parent_step_custody.
      + apply uc_denote.
      + exact Ht.
      + now apply hook_set_written.
    - now apply parent_step_custody. }
  destruct Hp as [Ht _ _ _ | Ht [He _] (u & Hu & Hr) _ | Ht _ _ _ | Ht _ Hr];
    cbn [running mem] in *.
  - now apply Hparent.
  - subst c. rewrite Ht in Hc.
    assert (Hf : func (chan s) <> NULL) by congruence.
    destruct Hc as [(Hs & rest & Hpc) | (Hs & v & Hv & Hpc)].
    + pose proof (child_step_custody hook_pending u _ s Hu Ht Hf Hpc) as H.
      assert (H1 : forall s', reach not_filled s s' -> hook_pending s').
      { intros s' L. eapply reach_hook_pending; eauto. }
      assert (H2 : forall s1 k, hook_pending s1 ->
                     hook_pending
                       (switched k (record (Switched (turn s1))
                                      (written Func NULL s1)))).
      { intros s1 k [Hff Hr]. split; [exact Hff |].
        simpl. rewrite !releases_app, Hr. reflexivity. }
      assert (H3 : forall s1 (k : context), hook_pending s1 ->
                     hook_pending (switched k s1)).
      { intros s1 k H0. exact H0. }
      specialize (H H1 H2 H3 hook_pending_released).
      destruct (step not_filled text (mkMachine (u ;; springboard_exit) s))
        as [m' | s' | r s']; simpl; trivial.
      left. destruct H as [Ha Hb]. split; [exact Ha |]. now exists rest.
    + pose proof (child_step_custody (hook_set free block) u _ s Hu Ht Hf Hpc) as H.
      assert (H1 : forall s', reach not_filled s s' -> hook_set free block s').
      { intros s' L. eapply reach_hook_set; eauto. intros E. contradiction. }
      assert (H2 : forall s1 k, hook_set free block s1 ->
                     hook_set free block
                       (switched k (record (Switched (turn s1))
                                      (written Func NULL s1)))).
      { intros s1 k (Hff & Hfa & Hn & Hall).
        split; [exact Hff | split; [exact Hfa |]].
        split; [intros E; simpl in E; contradiction |].
        simpl. rewrite !releases_app. simpl. rewrite !app_nil_r. exact Hall. }
      assert (H3 : forall s1 (k : context), hook_set free block s1 ->
                     hook_set free block (switched k s1)).
      { intros s1 k H0. exact H0. }
      assert (H4 : forall s1, hook_set free block s1 ->
                     released_by_the_parent free block s1).
      { intros s1 (_ & _ & H0). exact H0. }
      specialize (H H1 H2 H3 H4).
      destruct (step not_filled text (mkMachine (u ;; springboard_exit) s))
        as [m' | s' | r s']; simpl; trivial.
      right. destruct H as [Ha Hb]. split; [exact Ha |]. now exists v.
  - now apply Hparent.
  - subst c. unfold step. simpl. exact Hrel.
Qed.

Lemma run_custody n m :
  invariant not_filled bound false entry m -> custody' m ->
  in_custody' (run not_filled text n m).
Proof.
  revert m. induction n as [| n IH]; intros m Hi Hc; simpl; [exact Hc |].
  pose proof (step_sound not_filled bound functions false entry m Hi) as Hs.
  pose proof (step_custody m Hi Hc) as Hk.
  destruct (step not_filled text m); simpl in *; auto.
Qed.

End CustodyRun.

Lemma in_custody_released nf bound free block st :
  in_custody nf bound free block st ->
  released_by_the_parent free block (store_of st).
Proof.
  destruct st as [m | s | r s]; simpl; trivial. apply custody_released.
Qed.

(** In a run that creates its channel with [coroutine_create], with an
    entry function that is not NULL: every call of a release function is a
    call of [free] with the block [posix_memalign] returned, made on the
    parent's stack, and none is made before the entry function of the child
    has returned and [springboard] has emptied the entry. *)
Theorem block_released_by_the_parent_after_the_child_returned
    (not_filled : ptr) (bound : nat) (functions : program) (target : abi)
    (free entry arg : ptr) (rest : prog) (heap : Z -> Z -> option ptr)
    (block : ptr) (n : nat) :
  heap (STACK_ALIGNMENT target) 524288 = Some block -> entry <> NULL ->
  let s :=
    store_of
      (run not_filled (text_of not_filled bound functions) n
         (start (main_with not_filled bound target (Allocating free) entry arg rest)
            heap)) in
  Forall (eq (Parent, free, block)) (releases (trace s))
  /\ (releases (trace s) = [] \/ entry_emptied s).
Proof.
  intros Hheap Hentry s.
  assert (Hquiet : forall s0, releases (trace s0) = [] ->
                   Forall (eq (Parent, free, block)) (releases (trace s0))
                   /\ (releases (trace s0) = [] \/ entry_emptied s0)).
  { intros s0 E. rewrite E. split; [constructor | now left]. }
  destruct n as [| [| n]].
  - apply Hquiet. reflexivity.
  - apply Hquiet. unfold s, run, step, start, main_with, main_allocating,
      coroutine_create. simpl exec. rewrite Hheap. reflexivity.
  - set (parent := setting_hooks not_filled bound block free rest ;; Ret tt).
    set (channel := block + channel_offset target 524288).
    assert (E : run not_filled (text_of not_filled bound functions) (S (S n))
                  (start (main_with not_filled bound target (Allocating free)
                            entry arg rest) heap) =
                match functions entry with
                | Some body =>
                    run not_filled (text_of not_filled bound functions) n
                      (mkMachine
                         (denote not_filled bound (body arg) ;; springboard_exit)
                         (entered_store not_filled parent channel entry arg heap))
                | None =>
                    Halted Undefined_behaviour
                      (entered_store not_filled parent channel entry arg heap)
                end).
    { change (run not_filled (text_of not_filled bound functions) (S (S n))
                (start (main_with not_filled bound target (Allocating free)
                          entry arg rest) heap))
        with (match step not_filled (text_of not_filled bound functions)
                      (start (main_allocating not_filled bound target free entry
                                arg rest) heap) with
              | Continue m' =>
                  run not_filled (text_of not_filled bound functions) (S n) m'
              | st => st
              end).
      unfold step, start, main_allocating, coroutine_create. simpl exec.
      rewrite Hheap.
      change (run not_filled (text_of not_filled bound functions) (S n)
                (mkMachine (springboard not_filled)
                   (bootstrapped_store parent channel entry arg heap)) =
              match functions entry with
              | Some body =>
                  run not_filled (text_of not_filled bound functions) n
                    (mkMachine
                       (denote not_filled bound (body arg) ;; springboard_exit)
                       (entered_store not_filled parent channel entry arg heap))
              | None =>
                  Halted Undefined_behaviour
                    (entered_store not_filled parent channel entry arg heap)
              end).
      change (run not_filled (text_of not_filled bound functions) (S n)
                (mkMachine (springboard not_filled)
                   (bootstrapped_store parent channel entry arg heap)))
        with (match step not_filled (text_of not_filled bound functions)
                      (mkMachine (springboard not_filled)
                         (bootstrapped_store parent channel entry arg heap)) with
              | Continue m' =>
                  run not_filled (text_of not_filled bound functions) n m'
              | st => st
              end).
      rewrite creation_step_2. destruct (functions entry); reflexivity. }
    unfold s. rewrite E. destruct (functions entry) as [body |].
    + assert (Hpc : parent_code not_filled bound false parent).
      { right. split; [reflexivity |]. exists block, free, rest. reflexivity. }
      pose proof (creation_invariant not_filled bound false entry arg channel
                    parent heap Hpc body) as Hinv.
      assert (Hcust : custody not_filled bound free block
                        (mkMachine
                           (denote not_filled bound (body arg) ;; springboard_exit)
                           (entered_store not_filled parent channel entry arg heap))).
      { left. split; [split; reflexivity |]. exists rest. reflexivity. }
      pose proof (run_custody not_filled bound functions free block entry Hentry
                    n _ Hinv Hcust) as Hc.
      pose proof (run_sound not_filled bound functions false entry n _ Hinv) as Hs.
      apply in_custody_released in Hc. apply sound_healthy in Hs.
      destruct Hc as [Hn Hall]. split; [exact Hall |].
      destruct Hs as (_ & _ & [[Hk _] | He]); [| now right].
      left. apply Hn. congruence.
    + apply Hquiet. reflexivity.
Qed.

Lemma block_released_by_the_parent_after_the_child_returned_witness :
  let s :=
    store_of
      (run 999 (text_of 999 5 test_functions) 17
         (start (main_with 999 5 x86_64 (Allocating 555) 7000 42 (Goto 7001 0))
            one_block)) in
  releases (trace s) = [(Parent, 555, 4096)] /\ entry_emptied s.
Proof.
  intros s.
  assert (H1 : one_block (STACK_ALIGNMENT x86_64) 524288 = Some 4096) by reflexivity.
  assert (H2 : 7000 <> NULL) by discriminate.
  destruct (block_released_by_the_parent_after_the_child_returned 999 5
              test_functions x86_64 555 7000 42 (Goto 7001 0) one_block 4096 17
              H1 H2) as [_ [H | H]].
  - vm_compute in H. discriminate.
  - split; [reflexivity | exact H].
Defined.
(** ** What the release hook frees *)

(** The run of a program that creates its channel with [coroutine_create],
    from the call of the entry function on. *)
Lemma allocating_run_enters (not_filled : ptr) (bound : nat) (functions : program)
    (target : abi) (free entry arg : ptr) (rest : prog)
    (heap : Z -> Z -> option ptr) (block : ptr) (n : nat) :
  heap (STACK_ALIGNMENT target) 524288 = Some block ->
  let parent := setting_hooks not_filled bound block free rest ;; Ret tt in
  let channel := block + channel_offset target 524288 in
  run not_filled (text_of not_filled bound functions) (S (S n))
    (start (main_with not_filled bound target (Allocating free) entry arg rest)
       heap) =
  match functions entry with
  | Some body =>
      run not_filled (text_of not_filled bound functions) n
        (mkMachine (denote not_filled bound (body arg) ;; springboard_exit)
           (entered_store not_filled parent channel entry arg heap))
  | None =>
      Halted Undefined_behaviour
        (entered_store not_filled parent channel entry arg heap)
  end.
Proof.
  intros Hheap parent channel.
  change (run not_filled (text_of not_filled bound functions) (S (S n))
            (start (main_with not_filled bound target (Allocating free)
                      entry arg rest) heap))
    with (match step not_filled (text_of not_filled bound functions)
                  (start (main_allocating not_filled bound target free entry
                            arg rest) heap) with
          | Continue m' =>
              run not_filled (text_of not_filled bound functions) (S n) m'
          | st => st
          end).
  unfold step, start, main_allocating, coroutine_create. simpl exec.
  rewrite Hheap.
  change (run not_filled (text_of not_filled bound functions) (S n)
            (mkMachine (springboard not_filled)
               (bootstrapped_store parent channel entry arg heap)) =
          match functions entry with
          | Some body =>
              run not_filled (text_of not_filled bound functions) n
                (mkMachine
                   (denote not_filled bound (body arg) ;; springboard_exit)
                   (entered_store not_filled parent channel entry arg heap))
          | None =>
              Halted Undefined_behaviour
                (entered_store not_filled parent channel entry arg heap)
          end).
  change (run not_filled (text_of not_filled bound functions) (S n)
            (mkMachine (springboard not_filled)
               (bootstrapped_store parent channel entry arg heap)))
    with (match step not_filled (text_of not_filled bound functions)
                  (mkMachine (springboard not_filled)
                     (bootstrapped_store parent channel entry arg heap)) with
          | Continue m' =>
              run not_filled (text_of not_filled bound functions) n m'
          | st => st
          end).
  rewrite creation_step_2. destruct (functions entry); reflexivity.
Qed.



(** ** The calls of user code, one machine step at a time *)

Section Calls.

Variable not_filled : ptr.

Variable bound : nat.

Variable text : ptr -> option (ptr -> act unit).

Lemma run_S (n : nat) (m : machine) :
  run not_filled text (S n) m =
  match step not_filled text m with
  | Continue m' => run not_filled text n m'
  | st => st
  end.
Proof. reflexivity. Qed.

Lemma step_yield (v : ptr) (p : prog) (k : act unit) (s : store) :
  step not_filled text (mkMachine (denote not_filled bound (Yield_to v p) ;; k) s) =
  Continue (mkMachine (context_inactive (chan s))
              (switched (denote not_filled bound p ;; k)
                 (record (Switched (turn s))
                    (written Value v (record (Yielded (turn s) v) s))))).
Proof. reflexivity. Qed.

Lemma step_switch (p : prog) (k : act unit) (s : store) :
  (func (chan s) =? NULL) = false ->
  step not_filled text
    (mkMachine (denote not_filled bound (Coroutine_switch p) ;; k) s) =
  Continue (mkMachine (context_inactive (chan s))
              (switched (denote not_filled bound p ;; k)
                 (record (Switched (turn s)) s))).
Proof.
  intros Hf. unfold step. cbn [running mem].
  change (denote not_filled bound (Coroutine_switch p))
    with (coroutine_switch ;; denote not_filled bound p).
  rewrite !exec_bind, coroutine_switch_exec, Hf. reflexivity.
Qed.

Lemma exec_switch_done (p : prog) (k : act unit) (s : store) :
  (func (chan s) =? NULL) = true ->
  exec (denote not_filled bound (Coroutine_switch p) ;; k) s =
  exec (denote not_filled bound p ;; k) s.
Proof.
  intros Hf.
  change (denote not_filled bound (Coroutine_switch p))
    with (coroutine_switch ;; denote not_filled bound p).
  rewrite !exec_bind, coroutine_switch_exec, Hf. reflexivity.
Qed.

Lemma step_from_wait (K : ptr -> prog) (k : act unit) (s : store) :
  (func (chan s) =? NULL) = false -> value (chan s) = not_filled ->
  step not_filled text (mkMachine (denote not_filled bound (From K) ;; k) s) =
  Continue (mkMachine (context_inactive (chan s))
              (switched
                 (waiting_in_from not_filled
                    (fun v => perform (SayGot v) ;; denote not_filled bound (K v))
                  ;; k)
                 (record (Switched (turn s)) s))).
Proof.
  intros Hf Hv. unfold step. cbn [running mem].
  change (denote not_filled bound (From K))
    with (v <- from not_filled ;;
          perform (SayGot v) ;; denote not_filled bound (K v)).
  rewrite !exec_bind, from_exec, Hf, Hv, Z.eqb_refl. reflexivity.
Qed.

Lemma exec_from_take (K : ptr -> prog) (k : act unit) (s : store) :
  (func (chan s) =? NULL) = false -> (not_filled =? value (chan s)) = false ->
  exec (denote not_filled bound (From K) ;; k) s =
  exec (denote not_filled bound (K (value (chan s))) ;; k)
    (record (Got (turn s) (value (chan s))) (written Value not_filled s)).
Proof.
  intros Hf Hv.
  change (denote not_filled bound (From K))
    with (v <- from not_filled ;;
          perform (SayGot v) ;; denote not_filled bound (K v)).
  rewrite !exec_bind, from_exec, Hf, Hv. cbn [negb andb].
  rewrite from_rest_exec, Hf. cbn -[denote]. rewrite ?exec_bind. reflexivity.
Qed.

Lemma exec_from_end (K : ptr -> prog) (k : act unit) (s : store) :
  (func (chan s) =? NULL) = true ->
  exec (denote not_filled bound (From K) ;; k) s =
  exec (denote not_filled bound (K NULL) ;; k)
    (record (Got (turn s) NULL) (released s)).
Proof.
  intros Hf.
  change (denote not_filled bound (From K))
    with (v <- from not_filled ;;
          perform (SayGot v) ;; denote not_filled bound (K v)).
  rewrite !exec_bind, from_exec, Hf. cbn [negb andb].
  rewrite from_rest_exec, Hf. cbn -[denote]. rewrite ?exec_bind, ?turn_released.
  reflexivity.
Qed.

Lemma exec_waiting_take (K : ptr -> prog) (k : act unit) (s : store) :
  (func (chan s) =? NULL) = false ->
  exec (waiting_in_from not_filled
          (fun v => perform (SayGot v) ;; denote not_filled bound (K v)) ;; k) s =
  exec (denote not_filled bound (K (value (chan s))) ;; k)
    (record (Got (turn s) (value (chan s))) (written Value not_filled s)).
Proof.
  intros Hf. unfold waiting_in_from.
  rewrite !exec_bind, from_rest_exec, Hf. cbn -[denote]. rewrite ?exec_bind.
  reflexivity.
Qed.

Lemma exec_waiting_end (K : ptr -> prog) (k : act unit) (s : store) :
  (func (chan s) =? NULL) = true ->
  exec (waiting_in_from not_filled
          (fun v => perform (SayGot v) ;; denote not_filled bound (K v)) ;; k) s =
  exec (denote not_filled bound (K NULL) ;; k)
    (record (Got (turn s) NULL) (released s)).
Proof.
  intros Hf. unfold waiting_in_from.
  rewrite !exec_bind, from_rest_exec, Hf. cbn -[denote].
  rewrite ?exec_bind, ?turn_released. reflexivity.
Qed.

Lemma step_exit (s : store) :
  step not_filled text (mkMachine (denote not_filled bound Return ;; springboard_exit) s) =
  Continue (mkMachine (context_inactive (chan s))
              (switched (never Unreachable)
                 (record (Switched (turn s)) (written Func NULL s)))).
Proof. reflexivity. Qed.

End Calls.

Lemma gots_released (who : party) (s : store) :
  gots who (trace (released s)) = gots who (trace s).
Proof.
  unfold released. destruct (free_func (chan s) =? NULL); [reflexivity |].
  simpl. rewrite gots_app. simpl. apply app_nil_r.
Qed.

Lemma releases_released (s : store) :
  turn s = Parent ->
  releases (trace (released s)) =
  releases (trace s) ++ hook_call (free_func (chan s)) (free_after (chan s)).
Proof.
  intros Ht. unfold released, hook_call.
  destruct (free_func (chan s) =? NULL); [now rewrite app_nil_r |].
  simpl. rewrite releases_app, Ht. reflexivity.
Qed.

Ltac traces Ht :=
  repeat (rewrite ?gots_app, ?releases_app, ?Ht; simpl);
  rewrite ?app_nil_r, <- ?app_assoc; try reflexivity.

(** ** The generator pattern *)

Section Generator.

Variable not_filled : ptr.

Variable bound : nat.

Variable functions : program.

Variables entry loop a : ptr.

Hypothesis entry_not_null : (entry =? NULL) = false.

Hypothesis loop_code : functions loop = Some (consumer loop).

Local Abbreviation text := (text_of not_filled bound functions).

Lemma text_loop :
  text loop = Some (fun arg => denote not_filled bound (consumer loop arg)).
Proof. unfold text_of. rewrite loop_code. reflexivity. Qed.

(** The parent at the head of its loop, the slot empty, the child
    suspended with the values [vs] still to yield. *)
Lemma consume_rounds (vs : list ptr) :
  Forall (fun v => v <> NULL /\ v <> not_filled) vs ->
  forall s,
    turn s = Parent -> func (chan s) = entry -> value (chan s) = not_filled ->
    context_inactive (chan s) =
      (denote not_filled bound (yields vs) ;; springboard_exit) ->
    exists n sf,
      run not_filled text n
        (mkMachine (denote not_filled bound (consumer loop a) ;; Ret tt) s) = Exited sf
      /\ gots Parent (trace sf) = gots Parent (trace s) ++ vs ++ [NULL]
      /\ releases (trace sf) =
         releases (trace s) ++ hook_call (free_func (chan s)) (free_after (chan s)).
Proof.
  induction 1 as [| v vs [Hv Hnf] _ IH]; intros s Ht Hf Hval Hctx.
  - exists 3%nat. eexists. split; [| split].
    + rewrite run_S. unfold consumer at 1.
      rewrite step_from_wait; [| rewrite Hf; exact entry_not_null | exact Hval].
      rewrite Hctx, run_S. cbn [yields]. rewrite step_exit.
      rewrite run_S. unfold step. cbn [running mem].
      cbn [context_inactive chan switched with_chan with_turn record written
           save_context set].
      rewrite exec_waiting_end by reflexivity.
      rewrite Z.eqb_refl. reflexivity.
    + cbn [trace record]. rewrite gots_app, gots_released. traces Ht.
    + cbn [trace record]. rewrite releases_app, releases_released by (simpl; now rewrite Ht).
      traces Ht.
  - assert (Hv' : (v =? NULL) = false) by now apply Z.eqb_neq.
    set (waiting := waiting_in_from not_filled
                      (fun w => perform (SayGot w) ;;
                                denote not_filled bound
                                  (if w =? NULL then Return else Goto loop a))
                    ;; Ret tt).
    set (s1 := switched waiting (record (Switched (turn s)) s)).
    set (s2 := switched (denote not_filled bound (yields vs) ;; springboard_exit)
                 (record (Switched (turn s1))
                    (written Value v (record (Yielded (turn s1) v) s1)))).
    set (s3 := record (Called (turn s2) loop a)
                 (record (Got (turn s2) (value (chan s2)))
                    (written Value not_filled s2))).
    assert (E : run not_filled text 3
                  (mkMachine (denote not_filled bound (consumer loop a) ;; Ret tt) s)
                = Continue
                    (mkMachine (denote not_filled bound (consumer loop a) ;; Ret tt)
                       s3)).
    { rewrite run_S. unfold consumer at 1.
      rewrite step_from_wait; [| rewrite Hf; exact entry_not_null | exact Hval].
      rewrite Hctx, run_S. cbn [yields]. rewrite step_yield.
      rewrite run_S. unfold step. cbn [running mem].
      cbn [context_inactive chan switched with_chan with_turn record written
           save_context set].
      rewrite exec_waiting_take by (cbn; rewrite Hf; exact entry_not_null).
      cbn [value chan switched with_chan with_turn record written save_context set].
      rewrite Hv'. cbn -[consumer]. rewrite text_loop. reflexivity. }
    destruct (IH s3) as (n & sf & Hrun & Hg & Hr).
    + cbn. now rewrite Ht.
    + exact Hf.
    + reflexivity.
    + reflexivity.
    + exists (3 + n)%nat, sf. split; [| split].
      * rewrite run_plus, E. exact Hrun.
      * rewrite Hg. unfold s3, s2, s1. traces Ht.
      * rewrite Hr. unfold s3, s2, s1. traces Ht.
Qed.

End Generator.

(** ** From the constructor to the code after it *)

Lemma hooked_fields (h : option (ptr * ptr)) (s : store) :
  turn (hooked h s) = turn s
  /\ func (chan (hooked h s)) = func (chan s)
  /\ value (chan (hooked h s)) = value (chan s)
  /\ context_inactive (chan (hooked h s)) = context_inactive (chan s)
  /\ (forall who, gots who (trace (hooked h s)) = gots who (trace s))
  /\ releases (trace (hooked h s)) = releases (trace s)
  /\ hook_call (free_func (chan (hooked h s))) (free_after (chan (hooked h s))) =
     match h with
     | Some _ => hook_calls h
     | None => hook_call (free_func (chan s)) (free_after (chan s))
     end.
Proof.
  destruct h as [[block free] |]; simpl; repeat split; trivial.
  - intros who. rewrite !gots_app. simpl. now rewrite !app_nil_r.
  - rewrite !releases_app. simpl. now rewrite !app_nil_r.
Qed.

Lemma main_creates (not_filled : ptr) (bound : nat)
    (text : ptr -> option (ptr -> act unit)) (target : abi) (c : creator)
    (entry arg : ptr) (rest : prog) (heap : Z -> Z -> option ptr) :
  can_create target c heap ->
  exists parent channel,
    step not_filled text
      (start (main_with not_filled bound target c entry arg rest) heap) =
    Continue (mkMachine (springboard not_filled)
                (bootstrapped_store parent channel entry arg heap))
    /\ forall s,
        step not_filled text (mkMachine parent s) =
        step not_filled text
          (mkMachine (denote not_filled bound rest ;; Ret tt)
             (hooked (hook_written target c heap) s)).
Proof.
  intros Hcan. destruct c as [block blocksize | free].
  - exists (denote not_filled bound rest ;; Ret tt),
      (block + channel_offset target blocksize).
    split; reflexivity.
  - simpl in Hcan.
    destruct (heap (STACK_ALIGNMENT target) 524288) as [block |] eqn:E;
      [| contradiction].
    exists (setting_hooks not_filled bound block free rest ;; Ret tt),
      (block + channel_offset target 524288).
    split.
    + unfold step, start, main_with, main_allocating, coroutine_create.
      simpl exec. rewrite E. reflexivity.
    + intros s. unfold hook_written. rewrite E. reflexivity.
Qed.

Section GeneratorRun.

Variable not_filled : ptr.

Variable bound : nat.

Variable functions : program.

Variables entry loop a : ptr.

Hypothesis entry_not_null : (entry =? NULL) = false.

Hypothesis loop_code : functions loop = Some (consumer loop).

Local Abbreviation text := (text_of not_filled bound functions).

Lemma generator_runs (vs : list ptr) (parent : act unit) (channel arg : ptr)
    (heap : Z -> Z -> option ptr) (h : option (ptr * ptr)) :
  Forall (fun v => v <> NULL /\ v <> not_filled) vs ->
  functions entry = Some (fun _ => yields vs) ->
  (forall s,
      step not_filled text (mkMachine parent s) =
      step not_filled text
        (mkMachine (denote not_filled bound (consumer loop a) ;; Ret tt)
           (hooked h s))) ->
  exists n sf,
    run not_filled text n
      (mkMachine (springboard not_filled)
         (bootstrapped_store parent channel entry arg heap)) = Exited sf
    /\ gots Parent (trace sf) = vs ++ [NULL]
    /\ releases (trace sf) = hook_calls h.
Proof.
  intros Hvs Hentry Hparent.
  set (s2 := entered_store not_filled parent channel entry arg heap).
  assert (E2 : step not_filled text
                 (mkMachine (springboard not_filled)
                    (bootstrapped_store parent channel entry arg heap)) =
               Continue (mkMachine
                           (denote not_filled bound (yields vs) ;; springboard_exit)
                           s2)).
  { rewrite creation_step_2, Hentry. reflexivity. }
  destruct Hvs as [| v vs [Hv Hnf] Hvs].
  - exists 3%nat. eexists. split; [| split].
    + rewrite run_S, E2, run_S. cbn [yields]. rewrite step_exit.
      cbn [context_inactive chan s2 entered_store].
      rewrite run_S, Hparent. unfold step. cbn [running mem]. unfold consumer.
      rewrite exec_from_end.
      2:{ destruct (hooked_fields h
                      (switched (never Unreachable)
                         (record (Switched (turn s2)) (written Func NULL s2))))
            as (_ & Hf & _).
          rewrite Hf. reflexivity. }
      rewrite Z.eqb_refl. reflexivity.
    + cbn [trace record]. rewrite gots_app, gots_released.
      destruct h as [[block free] |]; reflexivity.
    + cbn [trace record]. rewrite releases_app.
      rewrite releases_released by (destruct h as [[block free] |]; reflexivity).
      destruct h as [[block free] |]; simpl; now rewrite ?app_nil_r.
  - assert (Hv' : (v =? NULL) = false) by now apply Z.eqb_neq.
    assert (Hnf' : (not_filled =? v) = false)
      by (apply Z.eqb_neq; congruence).
    set (s3 := switched (denote not_filled bound (yields vs) ;; springboard_exit)
                 (record (Switched (turn s2))
                    (written Value v (record (Yielded (turn s2) v) s2)))).
    set (s4 := record (Called Parent loop a)
                 (record (Got Parent v) (written Value not_filled (hooked h s3)))).
    assert (E : run not_filled text 3
                  (mkMachine (springboard not_filled)
                     (bootstrapped_store parent channel entry arg heap)) =
                Continue
                  (mkMachine (denote not_filled bound (consumer loop a) ;; Ret tt)
                     s4)).
    { rewrite run_S, E2, run_S. cbn [yields]. rewrite step_yield.
      cbn [context_inactive chan s2 entered_store].
      rewrite run_S, Hparent. unfold step. cbn [running mem]. unfold consumer at 1.
      destruct (hooked_fields h s3) as (Ht & Hf & Hval & _).
      unfold s3 in Ht, Hf, Hval.
      rewrite exec_from_take; rewrite ?Hf, ?Hval; try assumption.
      rewrite Ht. cbn [value chan s3 switched with_chan with_turn record written
           save_context set turn s2 entered_store peer].
      rewrite Hv'. cbn -[consumer].
      rewrite (text_loop not_filled bound functions loop loop_code).
      destruct h as [[block free] |]; reflexivity. }
    destruct (consume_rounds not_filled bound functions entry loop a
                entry_not_null loop_code vs Hvs s4) as (n & sf & Hrun & Hg & Hr).
    + destruct h as [[block free] |]; reflexivity.
    + destruct h as [[block free] |]; reflexivity.
    + reflexivity.
    + destruct h as [[block free] |]; reflexivity.
    + exists (3 + n)%nat, sf. split; [| split].
      * rewrite run_plus, E. exact Hrun.
      * rewrite Hg. destruct h as [[block free] |]; reflexivity.
      * rewrite Hr. destruct h as [[block free] |]; simpl; now rewrite ?app_nil_r.
Qed.

End GeneratorRun.

(** The generator pattern of the tests, for any data: the child yields the
    values of a list, none of them NULL or the sentinel, and returns; the
    parent calls [from] until it returns NULL.  The program exits; the
    calls of [from] by the parent have returned the values of the list in
    their order and then NULL; and the release function, if the
    constructor has recorded one, has been called once. *)
Theorem generator_values_reach_the_consumer
    (not_filled : ptr) (bound : nat) (functions : program) (target : abi)
    (c : creator) (entry loop arg a : ptr) (heap : Z -> Z -> option ptr)
    (vs : list ptr) :
  entry <> NULL ->
  functions entry = Some (fun _ => yields vs) ->
  functions loop = Some (consumer loop) ->
  Forall (fun v => v <> NULL /\ v <> not_filled) vs ->
  can_create target c heap ->
  exists n sf,
    run not_filled (text_of not_filled bound functions) n
      (start (main_with not_filled bound target c entry arg (consumer loop a))
         heap) = Exited sf
    /\ gots Parent (trace sf) = vs ++ [NULL]
    /\ releases (trace sf) = hook_calls (hook_written target c heap).
Proof.
  intros Hentry Hgen Hloop Hvs Hcan.
  destruct (main_creates not_filled bound (text_of not_filled bound functions)
              target c entry arg (consumer loop a) heap Hcan)
    as (parent & channel & E1 & Hparent).
  apply Z.eqb_neq in Hentry.
  destruct (generator_runs not_filled bound functions entry loop a Hentry Hloop
              vs parent channel arg heap _ Hvs Hgen Hparent)
    as (n & sf & Hrun & Hg & Hr).
  exists (S n), sf. split; [| split; assumption].
  rewrite run_S, E1. exact Hrun.
Qed.

Lemma generator_values_reach_the_consumer_witness :
  let functions : program :=
    fun f =>
      if f =? 7000 then Some (fun _ => yields [100; 101])
      else if f =? 7001 then Some (consumer 7001)
      else None in
  exists n sf,
    run 999 (text_of 999 5 functions) n
      (start (main_with 999 5 x86_64 (Allocating 555) 7000 42 (consumer 7001 0))
         one_block) = Exited sf
    /\ gots Parent (trace sf) = [100; 101; NULL]
    /\ releases (trace sf) = [(Parent, 555, 4096)].
Proof.
  intros functions.
  assert (H1 : 7000 <> NULL) by discriminate.
  assert (H2 : functions 7000 = Some (fun _ => yields [100; 101])) by reflexivity.
  assert (H3 : functions 7001 = Some (consumer 7001)) by reflexivity.
  assert (H4 : Forall (fun v => v <> NULL /\ v <> 999) [100; 101])
    by (repeat constructor; discriminate).
  assert (H5 : can_create x86_64 (Allocating 555) one_block)
    by (simpl; discriminate).
  exact (generator_values_reach_the_consumer 999 5 functions x86_64
           (Allocating 555) 7000 7001 42 0 one_block [100; 101] H1 H2 H3 H4 H5).
Defined.

(** ** Handing control back and forth *)

Lemma switches_by_released (who : party) (s : store) :
  switches_by who (trace (released s)) = switches_by who (trace s).
Proof.
  unfold released. destruct (free_func (chan s) =? NULL); [reflexivity |].
  simpl. rewrite switches_by_app. simpl. lia.
Qed.

Section Multitasking.

Variable not_filled : ptr.

Variable bound : nat.

Variable text : ptr -> option (ptr -> act unit).

Variable entry : ptr.

Hypothesis entry_not_null : (entry =? NULL) = false.

Lemma step_close_yield (b : nat) (K k : act unit) (s : store) :
  (func (chan s) =? NULL) = false ->
  step not_filled text (mkMachine ((close_and_join (S b) ;; K) ;; k) s) =
  Continue (mkMachine (context_inactive (chan s))
              (switched ((close_and_join b ;; K) ;; k)
                 (record (Switched (turn s)) (written Value NULL s)))).
Proof.
  intros Hf. unfold step. cbn -[close_and_join]. cbn [close_and_join].
  cbn -[close_and_join]. rewrite Hf. reflexivity.
Qed.

Lemma exec_close_done (b : nat) (K k : act unit) (s : store) :
  (func (chan s) =? NULL) = true ->
  exec ((close_and_join b ;; K) ;; k) s = exec (K ;; k) (released s).
Proof.
  intros Hf. rewrite !exec_bind.
  assert (E : exec (close_and_join b) s = Finished tt (released s)).
  { destruct b; cbn -[release]; rewrite Hf; apply release_exec. }
  rewrite E, <- exec_bind. reflexivity.
Qed.

(** The child has returned: the calls of [coroutine_switch] the parent
    still makes do nothing, and [close_and_join] only releases. *)
Lemma parent_alone (j : nat) (s : store) :
  (func (chan s) =? NULL) = true ->
  exec (denote not_filled bound (switches j (Close_and_join Return)) ;; Ret tt) s =
  Finished tt (released s).
Proof.
  intros Hf. induction j as [| j IH]; cbn [switches].
  - change (denote not_filled bound (Close_and_join Return))
      with (close_and_join bound ;; denote not_filled bound Return).
    rewrite exec_close_done by exact Hf. reflexivity.
  - rewrite exec_switch_done by exact Hf. exact IH.
Qed.

(** The parent in the loop of [close_and_join], the child suspended with
    [i] calls of [coroutine_switch] still to make. *)
Lemma close_drains (i : nat) :
  forall (b : nat) (s : store),
    (i < b)%nat -> turn s = Parent -> func (chan s) = entry ->
    context_inactive (chan s) =
      (denote not_filled bound (switches i Return) ;; springboard_exit) ->
    exists n sf,
      run not_filled text n
        (mkMachine ((close_and_join b ;; denote not_filled bound Return) ;; Ret tt) s)
      = Exited sf
      /\ switches_by Parent (trace sf) = (switches_by Parent (trace s) + S i)%nat
      /\ gots Parent (trace sf) = gots Parent (trace s)
      /\ releases (trace sf) =
         releases (trace s) ++ hook_call (free_func (chan s)) (free_after (chan s)).
Proof.
  induction i as [| i IH]; intros b s Hb Ht Hf Hctx;
    (destruct b as [| b]; [lia |]).
  - exists 3%nat. eexists. split; [| split; [| split]].
    + rewrite run_S, step_close_yield by (rewrite Hf; exact entry_not_null).
      cbn [context_inactive chan record written with_chan set].
      rewrite Hctx, run_S. cbn [switches]. rewrite step_exit.
      rewrite run_S. unfold step. cbn [running mem].
      cbn [context_inactive chan switched with_chan with_turn record written
           save_context set].
      rewrite exec_close_done by reflexivity. reflexivity.
    + rewrite switches_by_released. simpl. rewrite !switches_by_app, Ht. simpl. lia.
    + rewrite gots_released. simpl. rewrite !gots_app. simpl.
      now rewrite !app_nil_r.
    + rewrite releases_released by (simpl; now rewrite Ht).
      simpl. rewrite !releases_app. simpl. now rewrite !app_nil_r.
  - set (s1 := switched ((close_and_join b ;; denote not_filled bound Return) ;; Ret tt)
                 (record (Switched (turn s)) (written Value NULL s))).
    set (s2 := switched (denote not_filled bound (switches i Return) ;; springboard_exit)
                 (record (Switched (turn s1)) s1)).
    assert (E : run not_filled text 2
                  (mkMachine ((close_and_join (S b) ;; denote not_filled bound Return)
                              ;; Ret tt) s) =
                Continue
                  (mkMachine ((close_and_join b ;; denote not_filled bound Return)
                              ;; Ret tt) s2)).
    { rewrite run_S, step_close_yield by (rewrite Hf; exact entry_not_null).
      cbn [context_inactive chan record written with_chan set].
      rewrite Hctx, run_S. cbn [switches].
      rewrite step_switch by (cbn; rewrite Hf; exact entry_not_null).
      reflexivity. }
    destruct (IH b s2) as (n & sf & Hrun & Hsw & Hg & Hr).
    + lia.
    + cbn. now rewrite Ht.
    + exact Hf.
    + reflexivity.
    + exists (2 + n)%nat, sf. split; [| split; [| split]].
      * rewrite run_plus, E. exact Hrun.
      * rewrite Hsw. unfold s2, s1. simpl. rewrite !switches_by_app, Ht. simpl. lia.
      * rewrite Hg. unfold s2, s1. simpl. rewrite !gots_app. simpl.
        now rewrite !app_nil_r.
      * rewrite Hr. unfold s2, s1. simpl. rewrite !releases_app. simpl.
        now rewrite !app_nil_r.
Qed.

(** The parent with [j] calls of [coroutine_switch] to make before it calls
    [close_and_join]. *)
Lemma parent_switches (j : nat) :
  forall (i : nat) (s : store),
    (S i - j <= bound)%nat -> turn s = Parent -> func (chan s) = entry ->
    context_inactive (chan s) =
      (denote not_filled bound (switches i Return) ;; springboard_exit) ->
    exists n sf,
      run not_filled text n
        (mkMachine
           (denote not_filled bound (switches j (Close_and_join Return)) ;; Ret tt) s)
      = Exited sf
      /\ switches_by Parent (trace sf) = (switches_by Parent (trace s) + S i)%nat
      /\ gots Parent (trace sf) = gots Parent (trace s)
      /\ releases (trace sf) =
         releases (trace s) ++ hook_call (free_func (chan s)) (free_after (chan s)).
Proof.
  induction j as [| j IH]; intros i s Hb Ht Hf Hctx.
  - apply close_drains; trivial; lia.
  - destruct i as [| i].
    + exists 3%nat. eexists. split; [| split; [| split]].
      * rewrite run_S. cbn [switches].
        rewrite step_switch by (rewrite Hf; exact entry_not_null).
        rewrite Hctx, run_S. cbn [switches]. rewrite step_exit.
        rewrite run_S. unfold step. cbn [running mem].
        cbn [context_inactive chan switched with_chan with_turn record written
             save_context set].
        rewrite parent_alone by reflexivity. reflexivity.
      * rewrite switches_by_released. simpl. rewrite !switches_by_app, Ht. simpl. lia.
      * rewrite gots_released. simpl. rewrite !gots_app. simpl.
        now rewrite !app_nil_r.
      * rewrite releases_released by (simpl; now rewrite Ht).
        simpl. rewrite !releases_app. simpl. now rewrite !app_nil_r.
    + set (s1 := switched
                   (denote not_filled bound (switches j (Close_and_join Return))
                    ;; Ret tt)
                   (record (Switched (turn s)) s)).
      set (s2 := switched
                   (denote not_filled bound (switches i Return) ;; springboard_exit)
                   (record (Switched (turn s1)) s1)).
      assert (E : run not_filled text 2
                    (mkMachine
                       (denote not_filled bound
                          (switches (S j) (Close_and_join Return)) ;; Ret tt) s) =
                  Continue
                    (mkMachine
                       (denote not_filled bound
                          (switches j (Close_and_join Return)) ;; Ret tt) s2)).
      { rewrite run_S. cbn [switches].
        rewrite step_switch by (rewrite Hf; exact entry_not_null).
        rewrite Hctx, run_S. cbn [switches].
        rewrite step_switch by (cbn; rewrite Hf; exact entry_not_null).
        reflexivity. }
      destruct (IH i s2) as (n & sf & Hrun & Hsw & Hg & Hr).
      * lia.
      * cbn. now rewrite Ht.
      * exact Hf.
      * reflexivity.
      * exists (2 + n)%nat, sf. split; [| split; [| split]].
        -- rewrite run_plus, E. exact Hrun.
        -- rewrite Hsw. unfold s2, s1. simpl. rewrite !switches_by_app, Ht.
           simpl. lia.
        -- rewrite Hg. unfold s2, s1. simpl. rewrite !gots_app. simpl.
           now rewrite !app_nil_r.
        -- rewrite Hr. unfold s2, s1. simpl. rewrite !releases_app. simpl.
           now rewrite !app_nil_r.
Qed.

End Multitasking.

Section MultitaskingRun.

Variable not_filled : ptr.

Variable bound : nat.

Variable functions : program.

Variable entry : ptr.

Hypothesis entry_not_null : (entry =? NULL) = false.

Local Abbreviation text := (text_of not_filled bound functions).

Lemma multitasking_runs (k j : nat) (parent : act unit) (channel arg : ptr)
    (heap : Z -> Z -> option ptr) (h : option (ptr * ptr)) :
  (k - j <= bound)%nat ->
  functions entry = Some (fun _ => switches k Return) ->
  (forall s,
      step not_filled text (mkMachine parent s) =
      step not_filled text
        (mkMachine
           (denote not_filled bound (switches j (Close_and_join Return)) ;; Ret tt)
           (hooked h s))) ->
  exists n sf,
    run not_filled text n
      (mkMachine (springboard not_filled)
         (bootstrapped_store parent channel entry arg heap)) = Exited sf
    /\ switches_by Parent (trace sf) = k
    /\ releases (trace sf) = hook_calls h.
Proof.
  intros Hb Hentry Hparent.
  set (s2 := entered_store not_filled parent channel entry arg heap).
  assert (E2 : step not_filled text
                 (mkMachine (springboard not_filled)
                    (bootstrapped_store parent channel entry arg heap)) =
               Continue (mkMachine
                           (denote not_filled bound (switches k Return)
                            ;; springboard_exit) s2)).
  { rewrite creation_step_2, Hentry. reflexivity. }
  destruct k as [| k].
  - exists 3%nat. eexists. split; [| split].
    + rewrite run_S, E2, run_S. cbn [switches]. rewrite step_exit.
      cbn [context_inactive chan s2 entered_store].
      rewrite run_S, Hparent. unfold step. cbn [running mem].
      rewrite parent_alone by (destruct h as [[block free] |]; reflexivity).
      reflexivity.
    + rewrite switches_by_released. destruct h as [[block free] |]; reflexivity.
    + rewrite releases_released by (destruct h as [[block free] |]; reflexivity).
      destruct h as [[block free] |]; reflexivity.
  - set (s3 := switched (denote not_filled bound (switches k Return) ;; springboard_exit)
                 (record (Switched (turn s2)) s2)).
    destruct (parent_switches not_filled bound text entry entry_not_null j k
                (hooked h s3)) as (n & sf & Hrun & Hsw & _ & Hr).
    + lia.
    + destruct h as [[block free] |]; reflexivity.
    + destruct h as [[block free] |]; reflexivity.
    + destruct h as [[block free] |]; reflexivity.
    + destruct n as [| n]; [discriminate |].
      exists (S (S (S n))), sf. split; [| split].
      * rewrite run_S, E2, run_S. cbn [switches].
        rewrite step_switch by exact entry_not_null.
        cbn [context_inactive chan s2 entered_store].
        rewrite run_S, Hparent. rewrite run_S in Hrun. exact Hrun.
      * rewrite Hsw. destruct h as [[block free] |]; reflexivity.
      * rewrite Hr. destruct h as [[block free] |]; reflexivity.
Qed.

End MultitaskingRun.

(** The cooperative multitasking of the tests, for any numbers of rounds:
    the child calls [coroutine_switch] [k] times and returns, the parent
    calls it [j] times and then [close_and_join].  Whichever of the two
    finishes first, the program exits, the loop of [close_and_join] having
    made the [k - j] iterations that were left, if any; the child has been
    resumed [k] times in all; calls of [coroutine_switch] made after the
    child has returned have done nothing; and the release function, if the
    constructor has recorded one, has been called once. *)
Theorem cooperative_multitasking_ends
    (not_filled : ptr) (bound : nat) (functions : program) (target : abi)
    (c : creator) (entry arg : ptr) (heap : Z -> Z -> option ptr) (k j : nat) :
  entry <> NULL ->
  functions entry = Some (fun _ => switches k Return) ->
  can_create target c heap ->
  (k - j <= bound)%nat ->
  exists n sf,
    run not_filled (text_of not_filled bound functions) n
      (start (main_with not_filled bound target c entry arg
                (switches j (Close_and_join Return))) heap) = Exited sf
    /\ switches_by Parent (trace sf) = k
    /\ releases (trace sf) = hook_calls (hook_written target c heap).
Proof.
  intros Hentry Hchild Hcan Hb.
  destruct (main_creates not_filled bound (text_of not_filled bound functions)
              target c entry arg (switches j (Close_and_join Return)) heap Hcan)
    as (parent & channel & E1 & Hparent).
  apply Z.eqb_neq in Hentry.
  destruct (multitasking_runs not_filled bound functions entry Hentry k j
              parent channel arg heap _ Hb Hchild Hparent)
    as (n & sf & Hrun & Hs & Hr).
  exists (S n), sf. split; [| split; assumption].
  rewrite run_S, E1. exact Hrun.
Qed.

Lemma cooperative_multitasking_ends_witness :
  let functions : program :=
    fun f => if f =? 7000 then Some (fun _ => switches 6 Return) else None in
  (exists n sf,
      run 999 (text_of 999 3 functions) n
        (start (main_with 999 3 x86_64 (Allocating 555) 7000 0
                  (switches 3 (Close_and_join Return))) one_block) = Exited sf
      /\ switches_by Parent (trace sf) = 6%nat
      /\ releases (trace sf) = [(Parent, 555, 4096)])
  /\ (exists n sf,
         run 999 (text_of 999 3 functions) n
           (start (main_with 999 3 x86_64 (Allocating 555) 7000 0
                     (switches 9 (Close_and_join Return))) one_block) = Exited sf
         /\ switches_by Parent (trace sf) = 6%nat
         /\ releases (trace sf) = [(Parent, 555, 4096)]).
Proof.
  intros functions.
  assert (H1 : 7000 <> NULL) by discriminate.
  assert (H2 : functions 7000 = Some (fun _ => switches 6 Return)) by reflexivity.
  assert (H3 : can_create x86_64 (Allocating 555) one_block)
    by (simpl; discriminate).
  split.
  - assert (H4 : (6 - 3 <= 3)%nat) by (simpl; lia).
    exact (cooperative_multitasking_ends 999 3 functions x86_64 (Allocating 555)
             7000 0 one_block 6 3 H1 H2 H3 H4).
  - assert (H4 : (6 - 9 <= 3)%nat) by (simpl; lia).
    exact (cooperative_multitasking_ends 999 3 functions x86_64 (Allocating 555)
             7000 0 one_block 6 9 H1 H2 H3 H4).
Defined.

(** ** Both directions *)

Section Steps.

Variable not_filled : ptr.

Variable bound : nat.

Variable text : ptr -> option (ptr -> act unit).

Lemma step_from_take (K : ptr -> prog) (k : act unit) (s : store) :
  (func (chan s) =? NULL) = false -> (not_filled =? value (chan s)) = false ->
  step not_filled text (mkMachine (denote not_filled bound (From K) ;; k) s) =
  step not_filled text
    (mkMachine (denote not_filled bound (K (value (chan s))) ;; k)
       (record (Got (turn s) (value (chan s))) (written Value not_filled s))).
Proof.
  intros Hf Hv. unfold step. cbn [running mem].
  rewrite exec_from_take by assumption. reflexivity.
Qed.

Lemma step_waiting_take (K : ptr -> prog) (k : act unit) (s : store) :
  (func (chan s) =? NULL) = false ->
  step not_filled text
    (mkMachine
       (waiting_in_from not_filled
          (fun v => perform (SayGot v) ;; denote not_filled bound (K v)) ;; k) s) =
  step not_filled text
    (mkMachine (denote not_filled bound (K (value (chan s))) ;; k)
       (record (Got (turn s) (value (chan s))) (written Value not_filled s))).
Proof.
  intros Hf. unfold step. cbn [running mem].
  rewrite exec_waiting_take by assumption. reflexivity.
Qed.

Lemma step_goto (f a : ptr) (body : ptr -> act unit) (k : act unit) (s : store) :
  text f = Some body ->
  step not_filled text (mkMachine (denote not_filled bound (Goto f a) ;; k) s) =
  Continue (mkMachine (body a ;; k) (record (Called (turn s) f a) s)).
Proof.
  intros Hf. unfold step. simpl. rewrite Hf. reflexivity.
Qed.

Lemma step_close_yield_pos (n : nat) (K k : act unit) (s : store) :
  (0 < n)%nat -> (func (chan s) =? NULL) = false ->
  step not_filled text (mkMachine ((close_and_join n ;; K) ;; k) s) =
  Continue (mkMachine (context_inactive (chan s))
              (switched ((close_and_join (pred n) ;; K) ;; k)
                 (record (Switched (turn s)) (written Value NULL s)))).
Proof.
  intros Hn Hf. destruct n as [| n]; [lia |]. now apply step_close_yield.
Qed.

Lemma run_one (m : machine) :
  run not_filled text 1 m = step not_filled text m.
Proof. simpl. destruct (step not_filled text m); reflexivity. Qed.

Lemma run_same_step (n : nat) (m m' : machine) :
  step not_filled text m = step not_filled text m' ->
  run not_filled text (S n) m = run not_filled text (S n) m'.
Proof. intros H. rewrite !run_S, H. reflexivity. Qed.

Lemma run_exited_pos (n : nat) (m : machine) (s : store) :
  run not_filled text n m = Exited s -> exists n', n = S n'.
Proof. destruct n; [discriminate | eauto]. Qed.

End Steps.

Section Mirror.

Variable not_filled : ptr.

Variable bound : nat.

Variable functions : program.

Variable f : ptr -> ptr.

Variables entry a : ptr.

Hypothesis entry_not_null : (entry =? NULL) = false.

Hypothesis sentinel_not_null : (not_filled =? NULL) = false.

Hypothesis entry_code : functions entry = Some (mirror f entry).

Local Abbreviation text := (text_of not_filled bound functions).

Local Abbreviation reply :=
  (fun v : ptr => if v =? NULL then Return else Yield_to (f v) (Goto entry a)).

(** The child blocked in its first call of [from]. *)
Local Abbreviation first_wait :=
  (waiting_in_from not_filled
     (fun v => perform (SayGot v) ;; denote not_filled bound (reply v))
   ;; springboard_exit).

(** The child suspended in [yield_to], about to go round its loop. *)
Local Abbreviation next_round :=
  (denote not_filled bound (Goto entry a) ;; springboard_exit).

Lemma text_entry :
  text entry = Some (fun arg => denote not_filled bound (mirror f entry arg)).
Proof. unfold text_of. rewrite entry_code. reflexivity. Qed.

(** The child is resumed with a value in the slot: it takes it and yields
    the reply. *)
Lemma child_takes (ctx : act unit) (s : store) (w : ptr) :
  ctx = first_wait \/ ctx = next_round ->
  turn s = Child -> func (chan s) = entry -> value (chan s) = w ->
  w <> NULL -> w <> not_filled ->
  exists r s',
    run not_filled text r (mkMachine ctx s) =
      Continue (mkMachine (context_inactive (chan s)) s')
    /\ turn s' = Parent /\ func (chan s') = entry /\ value (chan s') = f w
    /\ context_inactive (chan s') = next_round
    /\ free_func (chan s') = free_func (chan s)
    /\ free_after (chan s') = free_after (chan s)
    /\ gots Child (trace s') = gots Child (trace s) ++ [w]
    /\ gots Parent (trace s') = gots Parent (trace s)
    /\ releases (trace s') = releases (trace s).
Proof.
  intros Hctx Ht Hf Hval Hw Hnf.
  assert (Hw' : (w =? NULL) = false) by now apply Z.eqb_neq.
  assert (Hnf' : (not_filled =? w) = false) by (apply Z.eqb_neq; congruence).
  assert (Hf' : (func (chan s) =? NULL) = false) by now rewrite Hf.
  destruct Hctx as [-> | ->].
  - exists 1%nat. eexists. split.
    + rewrite run_S, step_waiting_take by exact Hf'.
      rewrite Hval, Hw', step_yield. reflexivity.
    + simpl. rewrite Ht. simpl. rewrite !gots_app, !releases_app. simpl.
      rewrite !app_nil_r. repeat split; trivial.
  - exists 2%nat. eexists. split.
    + rewrite run_S, (step_goto _ _ _ _ _ _ _ _ text_entry).
      rewrite run_S. unfold mirror.
      rewrite step_from_take by (simpl; rewrite ?Hval; assumption).
      cbn [value chan record]. rewrite Hval, Hw', step_yield. reflexivity.
    + simpl. rewrite Ht. simpl. rewrite !gots_app, !releases_app. simpl.
      rewrite !app_nil_r. repeat split; trivial.
Qed.

(** The child is resumed with NULL in the slot: it returns. *)
Lemma child_ends (ctx : act unit) (s : store) :
  ctx = first_wait \/ ctx = next_round ->
  turn s = Child -> func (chan s) = entry -> value (chan s) = NULL ->
  exists r s',
    run not_filled text r (mkMachine ctx s) =
      Continue (mkMachine (context_inactive (chan s)) s')
    /\ turn s' = Parent /\ func (chan s') = NULL
    /\ free_func (chan s') = free_func (chan s)
    /\ free_after (chan s') = free_after (chan s)
    /\ gots Child (trace s') = gots Child (trace s) ++ [NULL]
    /\ gots Parent (trace s') = gots Parent (trace s)
    /\ releases (trace s') = releases (trace s).
Proof.
  intros Hctx Ht Hf Hval.
  assert (Hf' : (func (chan s) =? NULL) = false) by now rewrite Hf.
  destruct Hctx as [-> | ->].
  - exists 1%nat. eexists. split.
    + rewrite run_S, step_waiting_take by exact Hf'.
      rewrite Hval, Z.eqb_refl, step_exit. reflexivity.
    + simpl. rewrite Ht. simpl. rewrite !gots_app, !releases_app. simpl.
      rewrite !app_nil_r. repeat split; trivial.
  - exists 2%nat. eexists. split.
    + rewrite run_S, (step_goto _ _ _ _ _ _ _ _ text_entry).
      rewrite run_S. unfold mirror.
      rewrite step_from_take by (simpl; rewrite ?Hval; assumption).
      cbn [value chan record]. rewrite Hval, Z.eqb_refl, step_exit. reflexivity.
    + simpl. rewrite Ht. simpl. rewrite !gots_app, !releases_app. simpl.
      rewrite !app_nil_r. repeat split; trivial.
Qed.

(** The parent with the values [ws] still to send, the child suspended. *)
Lemma sends_rounds (ws : list ptr) :
  Forall (fun w => w <> NULL /\ w <> not_filled /\ f w <> not_filled) ws ->
  (1 <= bound)%nat ->
  forall (ctx : act unit) (s : store),
    ctx = first_wait \/ ctx = next_round ->
    turn s = Parent -> func (chan s) = entry -> context_inactive (chan s) = ctx ->
    exists n sf,
      run not_filled text n (mkMachine (denote not_filled bound (sends ws) ;; Ret tt) s)
      = Exited sf
      /\ gots Child (trace sf) = gots Child (trace s) ++ ws ++ [NULL]
      /\ gots Parent (trace sf) = gots Parent (trace s) ++ map f ws
      /\ releases (trace sf) =
         releases (trace s) ++ hook_call (free_func (chan s)) (free_after (chan s)).
Proof.
  intros Hws Hbound.
  assert (Hf' : forall s, func (chan s) = entry -> (func (chan s) =? NULL) = false)
    by (intros s ->; exact entry_not_null).
  induction Hws as [| w ws (Hw & Hnf & Hfw) _ IH]; intros ctx s Hctx Ht Hf Hc.
  - set (s1 := switched ((close_and_join (pred bound) ;; denote not_filled bound Return)
                          ;; Ret tt)
                 (record (Switched (turn s)) (written Value NULL s))).
    destruct (child_ends ctx s1 Hctx) as (r & s' & Hrun & Ht' & Hfn & Hff & Hfa
                                          & Hgc & Hgp & Hr).
    { cbn. now rewrite Ht. }
    { exact Hf. }
    { reflexivity. }
    exists (1 + (r + 1))%nat, (released s'). split; [| split; [| split]].
    + rewrite run_plus.
      rewrite run_one.
      change (denote not_filled bound (sends []))
        with (close_and_join bound ;; denote not_filled bound Return).
      rewrite step_close_yield_pos by (trivial; now apply Hf').
      rewrite Hc. fold s1. rewrite run_plus, Hrun.
      change (context_inactive (chan s1))
        with ((close_and_join (pred bound) ;; denote not_filled bound Return)
              ;; Ret tt).
      rewrite run_one. unfold step. cbn [running mem].
      rewrite exec_close_done by (rewrite Hfn; reflexivity). reflexivity.
    + rewrite gots_released, Hgc. unfold s1. simpl. rewrite !gots_app. simpl.
      now rewrite !app_nil_r.
    + rewrite gots_released, Hgp. unfold s1. simpl. rewrite !gots_app. simpl.
      now rewrite !app_nil_r.
    + rewrite releases_released by exact Ht'. rewrite Hr, Hff, Hfa.
      unfold s1. simpl. rewrite !releases_app. simpl. now rewrite !app_nil_r.
  - set (s1 := switched
                 (denote not_filled bound (From (fun _ => sends ws)) ;; Ret tt)
                 (record (Switched (turn s))
                    (written Value w (record (Yielded (turn s) w) s)))).
    destruct (child_takes ctx s1 w Hctx) as (r & s' & Hrun & Ht' & Hfe & Hv' & Hc'
                                             & Hff & Hfa & Hgc & Hgp & Hr);
      trivial.
    { cbn. now rewrite Ht. }
    set (s2 := record (Got (turn s') (value (chan s'))) (written Value not_filled s')).
    destruct (IH next_round s2) as (n & sf & Hrun2 & Hgc2 & Hgp2 & Hr2).
    { now right. }
    { exact Ht'. }
    { exact Hfe. }
    { exact Hc'. }
    destruct (run_exited_pos _ _ _ _ _ Hrun2) as [n' ->].
    exists (1 + (r + S n'))%nat, sf. split; [| split; [| split]].
    + rewrite run_plus.
      rewrite run_one. cbn [sends].
      rewrite step_yield, Hc. fold s1. rewrite run_plus, Hrun.
      change (context_inactive (chan s1))
        with (denote not_filled bound (From (fun _ => sends ws)) ;; Ret tt).
      rewrite <- Hrun2. apply run_same_step.
      apply step_from_take; [now apply Hf' |].
      rewrite Hv'. apply Z.eqb_neq. congruence.
    + rewrite Hgc2. unfold s2. simpl. rewrite !gots_app, Ht', Hgc. simpl.
      unfold s1. simpl. rewrite !gots_app, Ht. simpl.
      now rewrite !app_nil_r, <- !app_assoc.
    + rewrite Hgp2. unfold s2. simpl. rewrite !gots_app, Ht', Hgp, Hv'. simpl.
      unfold s1. simpl. rewrite !gots_app, Ht. simpl.
      now rewrite !app_nil_r, <- !app_assoc.
    + rewrite Hr2. unfold s2. simpl. rewrite !releases_app, Hr, Hff, Hfa. simpl.
      unfold s1. simpl. rewrite !releases_app. simpl. now rewrite !app_nil_r.
Qed.

Lemma mirror_runs (ws : list ptr) (parent : act unit) (channel : ptr)
    (heap : Z -> Z -> option ptr) (h : option (ptr * ptr)) :
  Forall (fun w => w <> NULL /\ w <> not_filled /\ f w <> not_filled) ws ->
  (1 <= bound)%nat ->
  (forall s,
      step not_filled text (mkMachine parent s) =
      step not_filled text
        (mkMachine (denote not_filled bound (sends ws) ;; Ret tt) (hooked h s))) ->
  exists n sf,
    run not_filled text n
      (mkMachine (springboard not_filled)
         (bootstrapped_store parent channel entry a heap)) = Exited sf
    /\ gots Child (trace sf) = ws ++ [NULL]
    /\ gots Parent (trace sf) = map f ws
    /\ releases (trace sf) = hook_calls h.
Proof.
  intros Hws Hbound Hparent.
  set (s2 := entered_store not_filled parent channel entry a heap).
  set (s3 := switched first_wait (record (Switched (turn s2)) s2)).
  destruct (sends_rounds ws Hws Hbound first_wait (hooked h s3))
    as (n & sf & Hrun & Hgc & Hgp & Hr).
  { now left. }
  { destruct h as [[block free] |]; reflexivity. }
  { destruct h as [[block free] |]; reflexivity. }
  { destruct h as [[block free] |]; reflexivity. }
  destruct (run_exited_pos _ _ _ _ _ Hrun) as [n' ->].
  exists (2 + S n')%nat, sf. split; [| split; [| split]].
  - rewrite run_plus.
    assert (E : run not_filled text 2
                  (mkMachine (springboard not_filled)
                     (bootstrapped_store parent channel entry a heap)) =
                Continue (mkMachine parent s3)).
    { rewrite run_S, creation_step_2, entry_code.
      rewrite run_S. unfold mirror.
      rewrite step_from_wait by (trivial; exact entry_not_null). reflexivity. }
    rewrite E, <- Hrun. apply run_same_step, Hparent.
  - rewrite Hgc. destruct h as [[block free] |]; reflexivity.
  - rewrite Hgp. destruct h as [[block free] |]; reflexivity.
  - rewrite Hr. destruct h as [[block free] |]; reflexivity.
Qed.

End Mirror.

(** The two-way pattern of the tests, for any data and any reply: the child
    answers every value it gets from [from] by yielding [f] of it, until it
    gets NULL; the parent sends the values of a list, calling [from] after
    each, and then calls [close_and_join].  None of the values is NULL or
    the sentinel and no reply is the sentinel.  The program exits; the
    child has received the values in their order and then the NULL of
    [close_and_join], whose loop has made one iteration; the parent has
    received the replies in their order; and the release function, if
    recorded, has been called once. *)
Theorem mirror_answers_every_value
    (not_filled : ptr) (bound : nat) (functions : program) (target : abi)
    (c : creator) (entry a : ptr) (heap : Z -> Z -> option ptr)
    (f : ptr -> ptr) (ws : list ptr) :
  entry <> NULL -> not_filled <> NULL ->
  functions entry = Some (mirror f entry) ->
  Forall (fun w => w <> NULL /\ w <> not_filled /\ f w <> not_filled) ws ->
  can_create target c heap ->
  (1 <= bound)%nat ->
  exists n sf,
    run not_filled (text_of not_filled bound functions) n
      (start (main_with not_filled bound target c entry a (sends ws)) heap)
    = Exited sf
    /\ gots Child (trace sf) = ws ++ [NULL]
    /\ gots Parent (trace sf) = map f ws
    /\ releases (trace sf) = hook_calls (hook_written target c heap).
Proof.
  intros Hentry Hsent Hcode Hws Hcan Hbound.
  destruct (main_creates not_filled bound (text_of not_filled bound functions)
              target c entry a (sends ws) heap Hcan)
    as (parent & channel & E1 & Hparent).
  apply Z.eqb_neq in Hentry. apply Z.eqb_neq in Hsent.
  destruct (mirror_runs not_filled bound functions f entry a Hentry Hsent Hcode
              ws parent channel heap _ Hws Hbound Hparent)
    as (n & sf & Hrun & H).
  exists (S n), sf. split; [| exact H].
  rewrite run_S, E1. exact Hrun.
Qed.

Lemma mirror_answers_every_value_witness :
  let f := fun w => w + 1000 in
  let functions : program :=
    fun p => if p =? 7000 then Some (mirror f 7000) else None in
  exists n sf,
    run 999 (text_of 999 5 functions) n
      (start (main_with 999 5 x86_64 (Given_memory 4096 8192) 7000 42
                (sends [11; 12; 13])) no_heap) = Exited sf
    /\ gots Child (trace sf) = [11; 12; 13; NULL]
    /\ gots Parent (trace sf) = [1011; 1012; 1013]
    /\ releases (trace sf) = [].
Proof.
  intros f functions.
  assert (H1 : 7000 <> NULL) by discriminate.
  assert (H2 : 999 <> NULL) by discriminate.
  assert (H3 : functions 7000 = Some (mirror f 7000)) by reflexivity.
  assert (H4 : Forall (fun w => w <> NULL /\ w <> 999 /\ f w <> 999) [11; 12; 13])
    by (repeat constructor; discriminate).
  assert (H5 : can_create x86_64 (Given_memory 4096 8192) no_heap) by exact I.
  assert (H6 : (1 <= 5)%nat) by lia.
  exact (mirror_answers_every_value 999 5 functions x86_64 (Given_memory 4096 8192)
           7000 42 no_heap f [11; 12; 13] H1 H2 H3 H4 H5 H6).
Defined.

(** * The assembly macros *)

(** ** Bytes in memory *)

Lemma bytes_store_outside (n : nat) :
  forall (a v : Z) (m : Bytes.memory) (x : Z),
    x < a \/ a + Z.of_nat n <= x -> Bytes.store n a v m x = m x.
Proof.
  induction n as [| n IH]; intros a v m x Hx; [reflexivity |].
  cbn [Bytes.store]. rewrite IH by lia.
  destruct (x =? a) eqn:E; [apply Z.eqb_eq in E; lia | reflexivity].
Qed.

Lemma bytes_load_ext (n : nat) :
  forall (a : Z) (m m' : Bytes.memory),
    (forall x, a <= x < a + Z.of_nat n -> m x = m' x) ->
    Bytes.load n a m = Bytes.load n a m'.
Proof.
  induction n as [| n IH]; intros a m m' H; [reflexivity |].
  cbn [Bytes.load]. rewrite (H a) by lia. f_equal. f_equal.
  apply IH. intros x Hx. apply H. lia.
Qed.

Lemma bytes_load_store_same (n : nat) :
  forall (a v : Z) (m : Bytes.memory),
    0 <= v < 256 ^ Z.of_nat n -> Bytes.load n a (Bytes.store n a v m) = v.
Proof.
  induction n as [| n IH]; intros a v m Hv.
  - simpl in *. lia.
  - cbn [Bytes.load Bytes.store].
    rewrite bytes_store_outside by lia. rewrite Z.eqb_refl.
    rewrite IH.
    + pose proof (Z.div_mod v 256 ltac:(lia)). lia.
    + rewrite Nat2Z.inj_succ, Z.pow_succ_r in Hv by lia.
      split; [apply Z.div_pos; lia |].
      apply Z.div_lt_upper_bound; lia.
Qed.

Lemma bytes_load_store_other (n n' : nat) (a b v : Z) (m : Bytes.memory) :
  b + Z.of_nat n' <= a \/ a + Z.of_nat n <= b ->
  Bytes.load n' b (Bytes.store n a v m) = Bytes.load n' b m.
Proof.
  intros H. apply bytes_load_ext. intros x Hx.
  apply bytes_store_outside. lia.
Qed.

(** ** x86_64 *)

Lemma x86_64_wrap_small (x : Z) : 0 <= x < 2 ^ 64 -> X86_64.wrap x = x.
Proof. intros H. unfold X86_64.wrap. now apply Z.mod_small. Qed.

Lemma x86_64_swap_context_run (label_1 : Z) (s : X86_64.state) :
  let buf := X86_64.regs s X86_64.RDI in
  0 <= buf -> buf + 24 <= 2 ^ 64 ->
  let m1 := Bytes.store 8 buf label_1 (X86_64.mem s) in
  let m2 := Bytes.store 8 (buf + 8) (X86_64.regs s X86_64.RSP) m1 in
  let m3 := Bytes.store 8 (buf + 16) (X86_64.regs s X86_64.RBP) m2 in
  let s' := X86_64.run (X86_64.SWAP_CONTEXT label_1) s in
  X86_64.rip s' = Bytes.load 8 buf (X86_64.mem s)
  /\ X86_64.regs s' X86_64.RSP = Bytes.load 8 (buf + 8) (X86_64.mem s)
  /\ X86_64.regs s' X86_64.RBP = Bytes.load 8 (buf + 16) (X86_64.mem s)
  /\ X86_64.regs s' X86_64.RDI = buf
  /\ X86_64.mem s' = m3.
Proof.
  intros buf H0 H1 m1 m2 m3 s'.
  assert (W0 : X86_64.wrap (buf + 0) = buf)
    by (rewrite Z.add_0_r; apply x86_64_wrap_small; lia).
  assert (W8 : X86_64.wrap (buf + 8) = buf + 8) by (apply x86_64_wrap_small; lia).
  assert (W16 : X86_64.wrap (buf + 16) = buf + 16)
    by (apply x86_64_wrap_small; lia).
  unfold s', X86_64.run, X86_64.SWAP_CONTEXT.
  cbn [fold_left X86_64.exec_instr X86_64.set_reg X86_64.set_mem X86_64.set_rip
       X86_64.regs X86_64.rip X86_64.mem X86_64.reg_eqb].
  fold buf. rewrite W0, W8, W16. repeat split; reflexivity.
Qed.

Lemma x86_64_saved (buf ip sp bp : Z) (m : Bytes.memory) :
  X86_64.word ip -> X86_64.word sp -> X86_64.word bp ->
  let m3 := Bytes.store 8 (buf + 16) bp
              (Bytes.store 8 (buf + 8) sp (Bytes.store 8 buf ip m)) in
  X86_64.holds m3 buf (X86_64.mkContext ip sp bp)
  /\ forall x, x < buf \/ buf + 24 <= x -> m3 x = m x.
Proof.
  intros Hip Hsp Hbp m3. unfold X86_64.word in *.
  split; [repeat split |];
    cbn [X86_64.saved_rip X86_64.saved_rsp X86_64.saved_rbp].
  - unfold m3. rewrite !bytes_load_store_other by (simpl; lia).
    apply bytes_load_store_same. simpl. lia.
  - unfold m3. rewrite bytes_load_store_other by (simpl; lia).
    apply bytes_load_store_same. simpl. lia.
  - unfold m3. apply bytes_load_store_same. simpl. lia.
  - intros x Hx. unfold m3. rewrite !bytes_store_outside by (simpl; lia).
    reflexivity.
Qed.

(** SWAP_CONTEXT on x86_64 exchanges the context of the machine (where to
    go on, stack pointer, frame pointer) with the one in the buffer: the
    machine goes on in the context the buffer held, the buffer holds the
    address of the end of the block with the stack and frame pointers of
    the caller, and no byte outside the 24 bytes of the buffer is written. *)
Theorem x86_64_swap_context_exchanges (label_1 : Z) (s : X86_64.state)
    (c : X86_64.context) :
  let buf := X86_64.regs s X86_64.RDI in
  0 <= buf -> buf + 24 <= 2 ^ 64 ->
  X86_64.word label_1 ->
  X86_64.word (X86_64.regs s X86_64.RSP) ->
  X86_64.word (X86_64.regs s X86_64.RBP) ->
  X86_64.holds (X86_64.mem s) buf c ->
  let s' := X86_64.run (X86_64.SWAP_CONTEXT label_1) s in
  X86_64.current s' = c
  /\ X86_64.holds (X86_64.mem s') buf
       (X86_64.mkContext label_1 (X86_64.regs s X86_64.RSP)
          (X86_64.regs s X86_64.RBP))
  /\ X86_64.regs s' X86_64.RDI = buf
  /\ forall x, x < buf \/ buf + 24 <= x -> X86_64.mem s' x = X86_64.mem s x.
Proof.
  intros buf H0 H1 Hl Hsp Hbp (Hc1 & Hc2 & Hc3) s'.
  destruct (x86_64_swap_context_run label_1 s H0 H1) as (E1 & E2 & E3 & E4 & E5).
  fold buf in E1, E2, E3, E4, E5. fold s' in E1, E2, E3, E4, E5.
  destruct (x86_64_saved buf label_1 _ _ (X86_64.mem s) Hl Hsp Hbp) as [Hh Hframe].
  split; [| split; [| split]].
  - unfold X86_64.current. rewrite E1, E2, E3, Hc1, Hc2, Hc3. now destruct c.
  - rewrite E5. exact Hh.
  - exact E4.
  - rewrite E5. exact Hframe.
Qed.

Lemma x86_64_swap_context_exchanges_witness :
  let m : Bytes.memory :=
    Bytes.store 8 4112 8000 (Bytes.store 8 4104 7000 (Bytes.store 8 4096 300 (fun _ => 0))) in
  let s := X86_64.mkState
             (fun r => match r with
                       | X86_64.RDI => 4096
                       | X86_64.RSP => 9000
                       | X86_64.RBP => 9100
                       | _ => 0
                       end) 100 m in
  X86_64.current (X86_64.run (X86_64.SWAP_CONTEXT 200) s) =
  X86_64.mkContext 300 7000 8000.
Proof.
  intros m s.
  assert (H0 : 0 <= X86_64.regs s X86_64.RDI) by (simpl; lia).
  assert (H1 : X86_64.regs s X86_64.RDI + 24 <= 2 ^ 64) by (simpl; lia).
  assert (H2 : X86_64.word 200) by (unfold X86_64.word; lia).
  assert (H3 : X86_64.word (X86_64.regs s X86_64.RSP))
    by (unfold X86_64.word; simpl; lia).
  assert (H4 : X86_64.word (X86_64.regs s X86_64.RBP))
    by (unfold X86_64.word; simpl; lia).
  assert (H5 : X86_64.holds (X86_64.mem s) (X86_64.regs s X86_64.RDI)
                 (X86_64.mkContext 300 7000 8000))
    by (repeat split; vm_compute; reflexivity).
  exact (proj1 (x86_64_swap_context_exchanges 200 s _ H0 H1 H2 H3 H4 H5)).
Defined.

(** A context saved by SWAP_CONTEXT is the one the next SWAP_CONTEXT on the
    same buffer goes on in: when a party switches away at the block ending
    at [label_a], and its peer, having left the buffer as it was, later
    executes SWAP_CONTEXT on that buffer, the machine is at [label_a] with
    the stack and frame pointers the party had. *)
Theorem x86_64_swap_context_there_and_back (label_a label_b : Z)
    (sa sb : X86_64.state) :
  let buf := X86_64.regs sa X86_64.RDI in
  let s1 := X86_64.run (X86_64.SWAP_CONTEXT label_a) sa in
  0 <= buf -> buf + 24 <= 2 ^ 64 ->
  X86_64.word label_a ->
  X86_64.word (X86_64.regs sa X86_64.RSP) ->
  X86_64.word (X86_64.regs sa X86_64.RBP) ->
  X86_64.regs sb X86_64.RDI = buf ->
  (forall x, buf <= x < buf + 24 -> X86_64.mem sb x = X86_64.mem s1 x) ->
  X86_64.current (X86_64.run (X86_64.SWAP_CONTEXT label_b) sb) =
  X86_64.mkContext label_a (X86_64.regs sa X86_64.RSP) (X86_64.regs sa X86_64.RBP).
Proof.
  intros buf s1 H0 H1 Hl Hsp Hbp Hb Hsame.
  destruct (x86_64_swap_context_run label_a sa H0 H1) as (_ & _ & _ & _ & E5).
  fold buf s1 in E5.
  destruct (x86_64_saved buf label_a _ _ (X86_64.mem sa) Hl Hsp Hbp)
    as [(Hh1 & Hh2 & Hh3) _].
  rewrite <- E5 in Hh1, Hh2, Hh3.
  destruct (x86_64_swap_context_run label_b sb) as (E1 & E2 & E3 & _);
    rewrite ?Hb; trivial.
  unfold X86_64.current. rewrite E1, E2, E3, Hb.
  rewrite (bytes_load_ext 8 buf _ (X86_64.mem s1))
    by (intros x Hx; apply Hsame; simpl in Hx; lia).
  rewrite (bytes_load_ext 8 (buf + 8) _ (X86_64.mem s1))
    by (intros x Hx; apply Hsame; simpl in Hx; lia).
  rewrite (bytes_load_ext 8 (buf + 16) _ (X86_64.mem s1))
    by (intros x Hx; apply Hsame; simpl in Hx; lia).
  rewrite Hh1, Hh2, Hh3. reflexivity.
Qed.

Lemma x86_64_swap_context_there_and_back_witness :
  let sa := X86_64.mkState
              (fun r => match r with
                        | X86_64.RDI => 4096
                        | X86_64.RSP => 9000
                        | X86_64.RBP => 9100
                        | _ => 0
                        end) 100 (fun _ => 0) in
  let s1 := X86_64.run (X86_64.SWAP_CONTEXT 200) sa in
  let sb := X86_64.mkState
              (fun r => match r with
                        | X86_64.RDI => 4096
                        | X86_64.RSP => 5000
                        | _ => 7
                        end) 300 (X86_64.mem s1) in
  X86_64.current (X86_64.run (X86_64.SWAP_CONTEXT 400) sb) =
  X86_64.mkContext 200 9000 9100.
Proof.
  intros sa s1 sb.
  assert (H0 : 0 <= X86_64.regs sa X86_64.RDI) by (simpl; lia).
  assert (H1 : X86_64.regs sa X86_64.RDI + 24 <= 2 ^ 64) by (simpl; lia).
  assert (H2 : X86_64.word 200) by (unfold X86_64.word; lia).
  assert (H3 : X86_64.word (X86_64.regs sa X86_64.RSP))
    by (unfold X86_64.word; simpl; lia).
  assert (H4 : X86_64.word (X86_64.regs sa X86_64.RBP))
    by (unfold X86_64.word; simpl; lia).
  assert (H5 : X86_64.regs sb X86_64.RDI = X86_64.regs sa X86_64.RDI)
    by reflexivity.
  assert (H6 : forall x,
             X86_64.regs sa X86_64.RDI <= x < X86_64.regs sa X86_64.RDI + 24 ->
             X86_64.mem sb x =
             X86_64.mem (X86_64.run (X86_64.SWAP_CONTEXT 200) sa) x)
    by (intros x _; vm_compute; reflexivity).
  exact (x86_64_swap_context_there_and_back 200 400 sa sb H0 H1 H2 H3 H4 H5 H6).
Defined.

Lemma x86_64_bootstrap_context_run (label_1 : Z) (s : X86_64.state) :
  let buf := X86_64.regs s X86_64.RDX in
  8 <= buf -> buf + 24 <= 2 ^ 64 ->
  let m1 := Bytes.store 8 buf label_1 (X86_64.mem s) in
  let m2 := Bytes.store 8 (buf + 8) (X86_64.regs s X86_64.RSP) m1 in
  let m3 := Bytes.store 8 (buf + 16) (X86_64.regs s X86_64.RBP) m2 in
  let s' := X86_64.run (X86_64.BOOTSTRAP_CONTEXT label_1) s in
  X86_64.rip s' = X86_64.regs s X86_64.RSI
  /\ X86_64.regs s' X86_64.RDI = buf
  /\ X86_64.regs s' X86_64.RSP = buf - 8
  /\ X86_64.mem s' = Bytes.store 8 (buf - 8) label_1 m3.
Proof.
  intros buf H0 H1 m1 m2 m3 s'.
  assert (W0 : X86_64.wrap (buf + 0) = buf)
    by (rewrite Z.add_0_r; apply x86_64_wrap_small; lia).
  assert (W8 : X86_64.wrap (buf + 8) = buf + 8) by (apply x86_64_wrap_small; lia).
  assert (W16 : X86_64.wrap (buf + 16) = buf + 16)
    by (apply x86_64_wrap_small; lia).
  assert (Wm : X86_64.wrap (buf - 8) = buf - 8) by (apply x86_64_wrap_small; lia).
  unfold s', X86_64.run, X86_64.BOOTSTRAP_CONTEXT.
  cbn [fold_left X86_64.exec_instr X86_64.set_reg X86_64.set_mem X86_64.set_rip
       X86_64.regs X86_64.rip X86_64.mem X86_64.reg_eqb].
  fold buf. rewrite W0, W8, W16, Wm. repeat split; reflexivity.
Qed.

(** BOOTSTRAP_CONTEXT on x86_64 saves the context of the caller in the
    buffer and calls the function on the stack that lies immediately below
    the buffer: the function is entered with the address of the buffer as
    its first argument (rdi), the stack pointer 8 below the buffer with a
    return address there, so that the stack is aligned as the ABI wants at
    a function entry when the buffer is; only the buffer and those 8 bytes
    are written; and the first SWAP_CONTEXT executed on the buffer by the
    new stack, the buffer being as it was left, goes on at the end of
    the block with the stack and frame pointers of the caller. *)
Theorem x86_64_bootstrap_context_enters (label_1 : Z) (s : X86_64.state) :
  let buf := X86_64.regs s X86_64.RDX in
  let caller := X86_64.mkContext label_1 (X86_64.regs s X86_64.RSP)
                  (X86_64.regs s X86_64.RBP) in
  8 <= buf -> buf + 24 <= 2 ^ 64 ->
  X86_64.word label_1 ->
  X86_64.word (X86_64.regs s X86_64.RSP) ->
  X86_64.word (X86_64.regs s X86_64.RBP) ->
  let s' := X86_64.run (X86_64.BOOTSTRAP_CONTEXT label_1) s in
  X86_64.rip s' = X86_64.regs s X86_64.RSI
  /\ X86_64.regs s' X86_64.RDI = buf
  /\ X86_64.regs s' X86_64.RSP = buf - 8
  /\ Bytes.load 8 (buf - 8) (X86_64.mem s') = label_1
  /\ (buf mod 16 = 0 -> (X86_64.regs s' X86_64.RSP + 8) mod 16 = 0)
  /\ X86_64.holds (X86_64.mem s') buf caller
  /\ (forall x, x < buf - 8 \/ buf + 24 <= x -> X86_64.mem s' x = X86_64.mem s x)
  /\ (forall label_c sc,
        X86_64.regs sc X86_64.RDI = buf ->
        (forall x, buf <= x < buf + 24 -> X86_64.mem sc x = X86_64.mem s' x) ->
        X86_64.current (X86_64.run (X86_64.SWAP_CONTEXT label_c) sc) = caller).
Proof.
  intros buf caller H0 H1 Hl Hsp Hbp s'.
  destruct (x86_64_bootstrap_context_run label_1 s H0 H1) as (E1 & E2 & E3 & E4).
  fold buf s' in E1, E2, E3, E4.
  destruct (x86_64_saved buf label_1 _ _ (X86_64.mem s) Hl Hsp Hbp)
    as [(Hh1 & Hh2 & Hh3) Hframe].
  assert (Hholds : X86_64.holds (X86_64.mem s') buf caller).
  { rewrite E4. repeat split;
      rewrite bytes_load_store_other by (simpl; lia); assumption. }
  split; [exact E1 |]. split; [exact E2 |]. split; [exact E3 |].
  split; [| split; [| split; [exact Hholds | split]]].
  - rewrite E4. apply bytes_load_store_same. unfold X86_64.word in Hl. simpl. lia.
  - intros Ha. rewrite E3. replace (buf - 8 + 8) with buf by lia. exact Ha.
  - intros x Hx. rewrite E4, bytes_store_outside by (simpl; lia).
    apply Hframe. lia.
  - intros label_c sc Hb Hsame.
    destruct (x86_64_swap_context_run label_c sc) as (F1 & F2 & F3 & _);
      rewrite ?Hb; try lia.
    destruct Hholds as (G1 & G2 & G3).
    unfold X86_64.current. rewrite F1, F2, F3, Hb.
    rewrite (bytes_load_ext 8 buf _ (X86_64.mem s'))
      by (intros x Hx; apply Hsame; simpl in Hx; lia).
    rewrite (bytes_load_ext 8 (buf + 8) _ (X86_64.mem s'))
      by (intros x Hx; apply Hsame; simpl in Hx; lia).
    rewrite (bytes_load_ext 8 (buf + 16) _ (X86_64.mem s'))
      by (intros x Hx; apply Hsame; simpl in Hx; lia).
    rewrite G1, G2, G3. reflexivity.
Qed.

Lemma x86_64_bootstrap_context_enters_witness :
  let s := X86_64.mkState
             (fun r => match r with
                       | X86_64.RDX => 4096
                       | X86_64.RSI => 700
                       | X86_64.RSP => 9000
                       | X86_64.RBP => 9100
                       | _ => 0
                       end) 100 (fun _ => 0) in
  let s' := X86_64.run (X86_64.BOOTSTRAP_CONTEXT 200) s in
  X86_64.rip s' = 700 /\ X86_64.regs s' X86_64.RDI = 4096
  /\ X86_64.regs s' X86_64.RSP = 4088.
Proof.
  intros s s'.
  assert (H0 : 8 <= X86_64.regs s X86_64.RDX) by (simpl; lia).
  assert (H1 : X86_64.regs s X86_64.RDX + 24 <= 2 ^ 64) by (simpl; lia).
  assert (H2 : X86_64.word 200) by (unfold X86_64.word; lia).
  assert (H3 : X86_64.word (X86_64.regs s X86_64.RSP))
    by (unfold X86_64.word; simpl; lia).
  assert (H4 : X86_64.word (X86_64.regs s X86_64.RBP))
    by (unfold X86_64.word; simpl; lia).
  destruct (x86_64_bootstrap_context_enters 200 s H0 H1 H2 H3 H4)
    as (E1 & E2 & E3 & _).
  split; [exact E1 | split; [exact E2 | exact E3]].
Defined.

(** ** aarch64 *)

Lemma aarch64_wrap_small (v : Z) : 0 <= v < 2 ^ 64 -> Aarch64.wrap v = v.
Proof. intros H. unfold Aarch64.wrap. now apply Z.mod_small. Qed.

Lemma aarch64_saved (buf ip sp fp extra : Z) (m : Bytes.memory) :
  Aarch64.word ip -> Aarch64.word sp -> Aarch64.word fp -> Aarch64.word extra ->
  let m4 := Bytes.store 8 (buf + 24) extra
              (Bytes.store 8 (buf + 16) fp
                 (Bytes.store 8 (buf + 8) sp (Bytes.store 8 buf ip m))) in
  Aarch64.holds m4 buf (Aarch64.mkContext ip sp fp extra)
  /\ forall a, a < buf \/ buf + 32 <= a -> m4 a = m a.
Proof.
  intros Hip Hsp Hfp Hex m4. unfold Aarch64.word in *.
  split; [repeat split |];
    cbn [Aarch64.saved_pc Aarch64.saved_sp Aarch64.saved_x29 Aarch64.saved_x18].
  - unfold m4. rewrite !bytes_load_store_other by (simpl; lia).
    apply bytes_load_store_same. simpl. lia.
  - unfold m4. rewrite !bytes_load_store_other by (simpl; lia).
    apply bytes_load_store_same. simpl. lia.
  - unfold m4. rewrite !bytes_load_store_other by (simpl; lia).
    apply bytes_load_store_same. simpl. lia.
  - unfold m4. apply bytes_load_store_same. simpl. lia.
  - intros a Ha. unfold m4. rewrite !bytes_store_outside by (simpl; lia).
    reflexivity.
Qed.

Lemma aarch64_swap_context_run (label : Z) (s : Aarch64.state) :
  let buf := Aarch64.regs s (Aarch64.X 0) in
  0 <= buf -> buf + 32 <= 2 ^ 64 ->
  let m4 := Bytes.store 8 (buf + 24) (Aarch64.regs s (Aarch64.X 18))
              (Bytes.store 8 (buf + 16) (Aarch64.regs s (Aarch64.X 29))
                 (Bytes.store 8 (buf + 8) (Aarch64.regs s (Aarch64.SP))
                    (Bytes.store 8 buf label (Aarch64.mem s)))) in
  let s' := Aarch64.run (Aarch64.SWAP_CONTEXT label) s in
  Aarch64.pc s' = Bytes.load 8 buf (Aarch64.mem s)
  /\ Aarch64.regs s' (Aarch64.SP) = Bytes.load 8 (buf + 8) (Aarch64.mem s)
  /\ Aarch64.regs s' (Aarch64.X 29) = Bytes.load 8 (buf + 16) (Aarch64.mem s)
  /\ Aarch64.regs s' (Aarch64.X 18) = Bytes.load 8 (buf + 24) (Aarch64.mem s)
  /\ Aarch64.regs s' (Aarch64.X 0) = buf
  /\ Aarch64.mem s' = m4.
Proof.
  intros buf H0 H1 m4 s'.
  assert (W0 : Aarch64.wrap (buf + 0) = buf)
    by (rewrite Z.add_0_r; apply aarch64_wrap_small; lia).
  assert (W8 : Aarch64.wrap (buf + 8) = buf + 8) by (apply aarch64_wrap_small; lia).
  assert (W16 : Aarch64.wrap (buf + 16) = buf + 16) by (apply aarch64_wrap_small; lia).
  assert (W24 : Aarch64.wrap (buf + 24) = buf + 24) by (apply aarch64_wrap_small; lia).
  unfold s', Aarch64.run, Aarch64.SWAP_CONTEXT.
  cbn [fold_left Aarch64.exec_instr Aarch64.set_reg Aarch64.set_mem Aarch64.set_pc
       Aarch64.regs Aarch64.pc Aarch64.mem Aarch64.reg_eqb Nat.eqb ].
  fold buf. rewrite ?W0, ?W8, ?W16, ?W24.
  replace (buf + 16 + 8) with (buf + 24) by lia.
  repeat split; reflexivity.
Qed.

(** SWAP_CONTEXT on aarch64 exchanges the context of the machine (where to go
    on, stack pointer, frame pointer, x18) with the one in the
    buffer: the machine goes on in the context the buffer held, the buffer
    holds the address of the end of the block with the three registers of
    the caller, and no byte outside the 32 bytes of the buffer is
    written. *)
Theorem aarch64_swap_context_exchanges (label : Z) (s : Aarch64.state)
    (c : Aarch64.context) :
  let buf := Aarch64.regs s (Aarch64.X 0) in
  0 <= buf -> buf + 32 <= 2 ^ 64 ->
  Aarch64.word label ->
  Aarch64.word (Aarch64.regs s (Aarch64.SP)) ->
  Aarch64.word (Aarch64.regs s (Aarch64.X 29)) ->
  Aarch64.word (Aarch64.regs s (Aarch64.X 18)) ->
  Aarch64.holds (Aarch64.mem s) buf c ->
  let s' := Aarch64.run (Aarch64.SWAP_CONTEXT label) s in
  Aarch64.current s' = c
  /\ Aarch64.holds (Aarch64.mem s') buf
       (Aarch64.mkContext label (Aarch64.regs s (Aarch64.SP)) (Aarch64.regs s (Aarch64.X 29))
          (Aarch64.regs s (Aarch64.X 18)))
  /\ Aarch64.regs s' (Aarch64.X 0) = buf
  /\ forall a, a < buf \/ buf + 32 <= a -> Aarch64.mem s' a = Aarch64.mem s a.
Proof.
  intros buf H0 H1 Hl Hsp Hfp Hex (Hc1 & Hc2 & Hc3 & Hc4) s'.
  destruct (aarch64_swap_context_run label s H0 H1)
    as (E1 & E2 & E3 & E4 & E5 & E6).
  fold buf in E1, E2, E3, E4, E5, E6. fold s' in E1, E2, E3, E4, E5, E6.
  destruct (aarch64_saved buf label _ _ _ (Aarch64.mem s) Hl Hsp Hfp Hex)
    as [Hh Hframe].
  split; [| split; [| split]].
  - unfold Aarch64.current. rewrite E1, E2, E3, E4, Hc1, Hc2, Hc3, Hc4.
    now destruct c.
  - rewrite E6. exact Hh.
  - exact E5.
  - rewrite E6. exact Hframe.
Qed.

Lemma aarch64_swap_context_exchanges_witness :
  let m : Bytes.memory :=
    Bytes.store 8 4120 8500
      (Bytes.store 8 4112 8000
         (Bytes.store 8 4104 7000 (Bytes.store 8 4096 300 (fun _ => 0)))) in
  let s := Aarch64.mkState
             (fun r => if Aarch64.reg_eqb r (Aarch64.X 0) then 4096
                       else if Aarch64.reg_eqb r (Aarch64.SP) then 9000
                       else if Aarch64.reg_eqb r (Aarch64.X 29) then 9100
                       else 0) 100 m in
  Aarch64.current (Aarch64.run (Aarch64.SWAP_CONTEXT 200) s) =
  Aarch64.mkContext 300 7000 8000 8500.
Proof.
  intros m s.
  assert (H0 : 0 <= Aarch64.regs s (Aarch64.X 0)) by (simpl; lia).
  assert (H1 : Aarch64.regs s (Aarch64.X 0) + 32 <= 2 ^ 64) by (simpl; lia).
  assert (H2 : Aarch64.word 200) by (unfold Aarch64.word; lia).
  assert (H3 : Aarch64.word (Aarch64.regs s (Aarch64.SP))) by (unfold Aarch64.word; simpl; lia).
  assert (H4 : Aarch64.word (Aarch64.regs s (Aarch64.X 29))) by (unfold Aarch64.word; simpl; lia).
  assert (H5 : Aarch64.word (Aarch64.regs s (Aarch64.X 18))) by (unfold Aarch64.word; simpl; lia).
  assert (H6 : Aarch64.holds (Aarch64.mem s) (Aarch64.regs s (Aarch64.X 0))
                 (Aarch64.mkContext 300 7000 8000 8500))
    by (repeat split; vm_compute; reflexivity).
  exact (proj1 (aarch64_swap_context_exchanges 200 s _ H0 H1 H2 H3 H4 H5 H6)).
Defined.

Lemma aarch64_resumes (label : Z) (s : Aarch64.state) (m : Bytes.memory)
    (c : Aarch64.context) :
  let buf := Aarch64.regs s (Aarch64.X 0) in
  0 <= buf -> buf + 32 <= 2 ^ 64 ->
  Aarch64.holds m buf c ->
  (forall a, buf <= a < buf + 32 -> Aarch64.mem s a = m a) ->
  Aarch64.current (Aarch64.run (Aarch64.SWAP_CONTEXT label) s) = c.
Proof.
  intros buf H0 H1 (G1 & G2 & G3 & G4) Hsame.
  destruct (aarch64_swap_context_run label s H0 H1) as (F1 & F2 & F3 & F4 & _).
  fold buf in F1, F2, F3, F4.
  unfold Aarch64.current. rewrite F1, F2, F3, F4.
  rewrite (bytes_load_ext 8 buf _ m)
    by (intros a Ha; apply Hsame; simpl in Ha; lia).
  rewrite (bytes_load_ext 8 (buf + 8) _ m)
    by (intros a Ha; apply Hsame; simpl in Ha; lia).
  rewrite (bytes_load_ext 8 (buf + 16) _ m)
    by (intros a Ha; apply Hsame; simpl in Ha; lia).
  rewrite (bytes_load_ext 8 (buf + 24) _ m)
    by (intros a Ha; apply Hsame; simpl in Ha; lia).
  rewrite G1, G2, G3, G4. now destruct c.
Qed.

(** A context saved by SWAP_CONTEXT on aarch64 is the one the next
    SWAP_CONTEXT on the same buffer goes on in: when a party switches away
    at the block ending at [label_a], and its peer, having left the buffer
    as it was, later executes SWAP_CONTEXT on that buffer, the machine is
    at [label_a] with the stack pointer, the frame pointer and
    x18 the party had. *)
Theorem aarch64_swap_context_there_and_back (label_a label_b : Z)
    (sa sb : Aarch64.state) :
  let buf := Aarch64.regs sa (Aarch64.X 0) in
  let s1 := Aarch64.run (Aarch64.SWAP_CONTEXT label_a) sa in
  0 <= buf -> buf + 32 <= 2 ^ 64 ->
  Aarch64.word label_a ->
  Aarch64.word (Aarch64.regs sa (Aarch64.SP)) ->
  Aarch64.word (Aarch64.regs sa (Aarch64.X 29)) ->
  Aarch64.word (Aarch64.regs sa (Aarch64.X 18)) ->
  Aarch64.regs sb (Aarch64.X 0) = buf ->
  (forall a, buf <= a < buf + 32 -> Aarch64.mem sb a = Aarch64.mem s1 a) ->
  Aarch64.current (Aarch64.run (Aarch64.SWAP_CONTEXT label_b) sb) =
  Aarch64.mkContext label_a (Aarch64.regs sa (Aarch64.SP)) (Aarch64.regs sa (Aarch64.X 29))
    (Aarch64.regs sa (Aarch64.X 18)).
Proof.
  intros buf s1 H0 H1 Hl Hsp Hfp Hex Hb Hsame.
  destruct (aarch64_swap_context_run label_a sa H0 H1) as (_ & _ & _ & _ & _ & E6).
  fold buf s1 in E6.
  destruct (aarch64_saved buf label_a _ _ _ (Aarch64.mem sa) Hl Hsp Hfp Hex) as [Hh _].
  rewrite <- E6 in Hh.
  apply (aarch64_resumes label_b sb (Aarch64.mem s1)); rewrite ?Hb; trivial.
Qed.

Lemma aarch64_swap_context_there_and_back_witness :
  let sa := Aarch64.mkState
              (fun r => if Aarch64.reg_eqb r (Aarch64.X 0) then 4096
                        else if Aarch64.reg_eqb r (Aarch64.SP) then 9000
                        else if Aarch64.reg_eqb r (Aarch64.X 29) then 9100
                        else 0) 100 (fun _ => 0) in
  let s1 := Aarch64.run (Aarch64.SWAP_CONTEXT 200) sa in
  let sb := Aarch64.mkState
              (fun r => if Aarch64.reg_eqb r (Aarch64.X 0) then 4096 else 7)
              300 (Aarch64.mem s1) in
  Aarch64.current (Aarch64.run (Aarch64.SWAP_CONTEXT 400) sb) =
  Aarch64.mkContext 200 9000 9100 0.
Proof.
  intros sa s1 sb.
  assert (H0 : 0 <= Aarch64.regs sa (Aarch64.X 0)) by (simpl; lia).
  assert (H1 : Aarch64.regs sa (Aarch64.X 0) + 32 <= 2 ^ 64) by (simpl; lia).
  assert (H2 : Aarch64.word 200) by (unfold Aarch64.word; lia).
  assert (H3 : Aarch64.word (Aarch64.regs sa (Aarch64.SP))) by (unfold Aarch64.word; simpl; lia).
  assert (H4 : Aarch64.word (Aarch64.regs sa (Aarch64.X 29))) by (unfold Aarch64.word; simpl; lia).
  assert (H5 : Aarch64.word (Aarch64.regs sa (Aarch64.X 18))) by (unfold Aarch64.word; simpl; lia).
  assert (H6 : Aarch64.regs sb (Aarch64.X 0) = Aarch64.regs sa (Aarch64.X 0)) by reflexivity.
  assert (H7 : forall a,
             Aarch64.regs sa (Aarch64.X 0) <= a < Aarch64.regs sa (Aarch64.X 0) + 32 ->
             Aarch64.mem sb a = Aarch64.mem (Aarch64.run (Aarch64.SWAP_CONTEXT 200) sa) a)
    by (intros a _; vm_compute; reflexivity).
  exact (aarch64_swap_context_there_and_back 200 400 sa sb H0 H1 H2 H3 H4 H5 H6 H7).
Defined.

Lemma aarch64_bootstrap_context_run (label : Z) (s : Aarch64.state) :
  let buf := Aarch64.regs s (Aarch64.X 0) in
  0 <= buf -> buf + 32 <= 2 ^ 64 ->
  let m4 := Bytes.store 8 (buf + 24) (Aarch64.regs s (Aarch64.X 18))
              (Bytes.store 8 (buf + 16) (Aarch64.regs s (Aarch64.X 29))
                 (Bytes.store 8 (buf + 8) (Aarch64.regs s (Aarch64.SP))
                    (Bytes.store 8 buf label (Aarch64.mem s)))) in
  let s' := Aarch64.run (Aarch64.BOOTSTRAP_CONTEXT label) s in
  Aarch64.pc s' = Aarch64.regs s (Aarch64.X 1)
  /\ Aarch64.regs s' (Aarch64.X 0) = buf
  /\ Aarch64.regs s' (Aarch64.SP) = buf
  /\ Aarch64.mem s' = m4.
Proof.
  intros buf H0 H1 m4 s'.
  assert (W0 : Aarch64.wrap (buf + 0) = buf)
    by (rewrite Z.add_0_r; apply aarch64_wrap_small; lia).
  assert (W8 : Aarch64.wrap (buf + 8) = buf + 8) by (apply aarch64_wrap_small; lia).
  assert (W16 : Aarch64.wrap (buf + 16) = buf + 16) by (apply aarch64_wrap_small; lia).
  assert (W24 : Aarch64.wrap (buf + 24) = buf + 24) by (apply aarch64_wrap_small; lia).
  unfold s', Aarch64.run, Aarch64.BOOTSTRAP_CONTEXT.
  cbn [fold_left Aarch64.exec_instr Aarch64.set_reg Aarch64.set_mem Aarch64.set_pc
       Aarch64.regs Aarch64.pc Aarch64.mem Aarch64.reg_eqb Nat.eqb ].
  fold buf. rewrite ?W0, ?W8, ?W16, ?W24.
  replace (buf + 16 + 8) with (buf + 24) by lia.
  repeat split; reflexivity.
Qed.

(** BOOTSTRAP_CONTEXT on aarch64 saves the context of the caller in the
    buffer and jumps to the function on the stack that lies immediately
    below the buffer: the function is entered with the address of the
    buffer as its first argument (x0) and as its stack pointer, which
    is aligned as the buffer is; only the 32 bytes of the buffer are
    written; and the first SWAP_CONTEXT executed on the buffer by the new
    stack, the buffer being as it was left, goes on at the end of the
    block with the stack pointer, the frame pointer and x18 of
    the caller. *)
Theorem aarch64_bootstrap_context_enters (label : Z) (s : Aarch64.state) :
  let buf := Aarch64.regs s (Aarch64.X 0) in
  let caller := Aarch64.mkContext label (Aarch64.regs s (Aarch64.SP)) (Aarch64.regs s (Aarch64.X 29))
                  (Aarch64.regs s (Aarch64.X 18)) in
  0 <= buf -> buf + 32 <= 2 ^ 64 ->
  Aarch64.word label ->
  Aarch64.word (Aarch64.regs s (Aarch64.SP)) ->
  Aarch64.word (Aarch64.regs s (Aarch64.X 29)) ->
  Aarch64.word (Aarch64.regs s (Aarch64.X 18)) ->
  let s' := Aarch64.run (Aarch64.BOOTSTRAP_CONTEXT label) s in
  Aarch64.pc s' = Aarch64.regs s (Aarch64.X 1)
  /\ Aarch64.regs s' (Aarch64.X 0) = buf
  /\ Aarch64.regs s' (Aarch64.SP) = buf
  /\ Aarch64.holds (Aarch64.mem s') buf caller
  /\ (forall a, a < buf \/ buf + 32 <= a -> Aarch64.mem s' a = Aarch64.mem s a)
  /\ (forall label_c sc,
        Aarch64.regs sc (Aarch64.X 0) = buf ->
        (forall a, buf <= a < buf + 32 -> Aarch64.mem sc a = Aarch64.mem s' a) ->
        Aarch64.current (Aarch64.run (Aarch64.SWAP_CONTEXT label_c) sc) = caller).
Proof.
  intros buf caller H0 H1 Hl Hsp Hfp Hex s'.
  destruct (aarch64_bootstrap_context_run label s H0 H1) as (E1 & E2 & E3 & E4).
  fold buf s' in E1, E2, E3, E4.
  destruct (aarch64_saved buf label _ _ _ (Aarch64.mem s) Hl Hsp Hfp Hex)
    as [Hh Hframe].
  rewrite <- E4 in Hh, Hframe.
  split; [exact E1 |]. split; [exact E2 |]. split; [exact E3 |].
  split; [exact Hh |]. split; [exact Hframe |].
  intros label_c sc Hb Hsame.
  apply (aarch64_resumes label_c sc (Aarch64.mem s')); rewrite ?Hb; trivial.
Qed.

Lemma aarch64_bootstrap_context_enters_witness :
  let s := Aarch64.mkState
             (fun r => if Aarch64.reg_eqb r (Aarch64.X 0) then 4096
                       else if Aarch64.reg_eqb r (Aarch64.X 1) then 700
                       else if Aarch64.reg_eqb r (Aarch64.SP) then 9000
                       else 0) 100 (fun _ => 0) in
  let s' := Aarch64.run (Aarch64.BOOTSTRAP_CONTEXT 200) s in
  Aarch64.pc s' = 700 /\ Aarch64.regs s' (Aarch64.X 0) = 4096 /\ Aarch64.regs s' (Aarch64.SP) = 4096.
Proof.
  intros s s'.
  assert (H0 : 0 <= Aarch64.regs s (Aarch64.X 0)) by (simpl; lia).
  assert (H1 : Aarch64.regs s (Aarch64.X 0) + 32 <= 2 ^ 64) by (simpl; lia).
  assert (H2 : Aarch64.word 200) by (unfold Aarch64.word; lia).
  assert (H3 : Aarch64.word (Aarch64.regs s (Aarch64.SP))) by (unfold Aarch64.word; simpl; lia).
  assert (H4 : Aarch64.word (Aarch64.regs s (Aarch64.X 29))) by (unfold Aarch64.word; simpl; lia).
  assert (H5 : Aarch64.word (Aarch64.regs s (Aarch64.X 18))) by (unfold Aarch64.word; simpl; lia).
  destruct (aarch64_bootstrap_context_enters 200 s H0 H1 H2 H3 H4 H5)
    as (E1 & E2 & E3 & _).
  split; [exact E1 | split; [exact E2 | exact E3]].
Defined.

(** ** riscv, 64 bits *)

Lemma riscv64_wrap_small (v : Z) : 0 <= v < 2 ^ 64 -> Riscv64.wrap v = v.
Proof. intros H. unfold Riscv64.wrap. now apply Z.mod_small. Qed.

Lemma riscv64_saved (buf ip sp fp extra : Z) (m : Bytes.memory) :
  Riscv64.word ip -> Riscv64.word sp -> Riscv64.word fp -> Riscv64.word extra ->
  let m4 := Bytes.store 8 (buf + 24) extra
              (Bytes.store 8 (buf + 16) fp
                 (Bytes.store 8 (buf + 8) sp (Bytes.store 8 buf ip m))) in
  Riscv64.holds m4 buf (Riscv64.mkContext ip sp fp extra)
  /\ forall a, a < buf \/ buf + 32 <= a -> m4 a = m a.
Proof.
  intros Hip Hsp Hfp Hex m4. unfold Riscv64.word in *.
  split; [repeat split |];
    cbn [Riscv64.saved_pc Riscv64.saved_x2 Riscv64.saved_x8 Riscv64.saved_x1].
  - unfold m4. rewrite !bytes_load_store_other by (simpl; lia).
    apply bytes_load_store_same. simpl. lia.
  - unfold m4. rewrite !bytes_load_store_other by (simpl; lia).
    apply bytes_load_store_same. simpl. lia.
  - unfold m4. rewrite !bytes_load_store_other by (simpl; lia).
    apply bytes_load_store_same. simpl. lia.
  - unfold m4. apply bytes_load_store_same. simpl. lia.
  - intros a Ha. unfold m4. rewrite !bytes_store_outside by (simpl; lia).
    reflexivity.
Qed.

Lemma riscv64_swap_context_run (label : Z) (s : Riscv64.state) :
  let buf := Riscv64.regs s (Riscv64.x 10) in
  0 <= buf -> buf + 32 <= 2 ^ 64 ->
  let m4 := Bytes.store 8 (buf + 24) (Riscv64.regs s (Riscv64.x 1))
              (Bytes.store 8 (buf + 16) (Riscv64.regs s (Riscv64.x 8))
                 (Bytes.store 8 (buf + 8) (Riscv64.regs s (Riscv64.x 2))
                    (Bytes.store 8 buf label (Riscv64.mem s)))) in
  let s' := Riscv64.run (Riscv64.SWAP_CONTEXT label) s in
  Riscv64.pc s' = Bytes.load 8 buf (Riscv64.mem s)
  /\ Riscv64.regs s' (Riscv64.x 2) = Bytes.load 8 (buf + 8) (Riscv64.mem s)
  /\ Riscv64.regs s' (Riscv64.x 8) = Bytes.load 8 (buf + 16) (Riscv64.mem s)
  /\ Riscv64.regs s' (Riscv64.x 1) = Bytes.load 8 (buf + 24) (Riscv64.mem s)
  /\ Riscv64.regs s' (Riscv64.x 10) = buf
  /\ Riscv64.mem s' = m4.
Proof.
  intros buf H0 H1 m4 s'.
  assert (W0 : Riscv64.wrap (buf + 0) = buf)
    by (rewrite Z.add_0_r; apply riscv64_wrap_small; lia).
  assert (W8 : Riscv64.wrap (buf + 8) = buf + 8) by (apply riscv64_wrap_small; lia).
  assert (W16 : Riscv64.wrap (buf + 16) = buf + 16) by (apply riscv64_wrap_small; lia).
  assert (W24 : Riscv64.wrap (buf + 24) = buf + 24) by (apply riscv64_wrap_small; lia).
  unfold s', Riscv64.run, Riscv64.SWAP_CONTEXT.
  cbn [fold_left Riscv64.exec_instr Riscv64.set_reg Riscv64.set_mem Riscv64.set_pc
       Riscv64.regs Riscv64.pc Riscv64.mem Riscv64.reg_eqb Nat.eqb Riscv64.get_reg].
  fold buf. rewrite ?W0, ?W8, ?W16, ?W24.
  replace (buf + 16 + 8) with (buf + 24) by lia.
  repeat split; reflexivity.
Qed.

(** SWAP_CONTEXT on riscv exchanges the context of the machine (where to go
    on, stack pointer, frame pointer, the return address x1) with the one in the
    buffer: the machine goes on in the context the buffer held, the buffer
    holds the address of the end of the block with the three registers of
    the caller, and no byte outside the 32 bytes of the buffer is
    written. *)
Theorem riscv64_swap_context_exchanges (label : Z) (s : Riscv64.state)
    (c : Riscv64.context) :
  let buf := Riscv64.regs s (Riscv64.x 10) in
  0 <= buf -> buf + 32 <= 2 ^ 64 ->
  Riscv64.word label ->
  Riscv64.word (Riscv64.regs s (Riscv64.x 2)) ->
  Riscv64.word (Riscv64.regs s (Riscv64.x 8)) ->
  Riscv64.word (Riscv64.regs s (Riscv64.x 1)) ->
  Riscv64.holds (Riscv64.mem s) buf c ->
  let s' := Riscv64.run (Riscv64.SWAP_CONTEXT label) s in
  Riscv64.current s' = c
  /\ Riscv64.holds (Riscv64.mem s') buf
       (Riscv64.mkContext label (Riscv64.regs s (Riscv64.x 2)) (Riscv64.regs s (Riscv64.x 8))
          (Riscv64.regs s (Riscv64.x 1)))
  /\ Riscv64.regs s' (Riscv64.x 10) = buf
  /\ forall a, a < buf \/ buf + 32 <= a -> Riscv64.mem s' a = Riscv64.mem s a.
Proof.
  intros buf H0 H1 Hl Hsp Hfp Hex (Hc1 & Hc2 & Hc3 & Hc4) s'.
  destruct (riscv64_swap_context_run label s H0 H1)
    as (E1 & E2 & E3 & E4 & E5 & E6).
  fold buf in E1, E2, E3, E4, E5, E6. fold s' in E1, E2, E3, E4, E5, E6.
  destruct (riscv64_saved buf label _ _ _ (Riscv64.mem s) Hl Hsp Hfp Hex)
    as [Hh Hframe].
  split; [| split; [| split]].
  - unfold Riscv64.current. rewrite E1, E2, E3, E4, Hc1, Hc2, Hc3, Hc4.
    now destruct c.
  - rewrite E6. exact Hh.
  - exact E5.
  - rewrite E6. exact Hframe.
Qed.

Lemma riscv64_swap_context_exchanges_witness :
  let m : Bytes.memory :=
    Bytes.store 8 4120 8500
      (Bytes.store 8 4112 8000
         (Bytes.store 8 4104 7000 (Bytes.store 8 4096 300 (fun _ => 0)))) in
  let s := Riscv64.mkState
             (fun r => if Riscv64.reg_eqb r (Riscv64.x 10) then 4096
                       else if Riscv64.reg_eqb r (Riscv64.x 2) then 9000
                       else if Riscv64.reg_eqb r (Riscv64.x 8) then 9100
                       else 0) 100 m in
  Riscv64.current (Riscv64.run (Riscv64.SWAP_CONTEXT 200) s) =
  Riscv64.mkContext 300 7000 8000 8500.
Proof.
  intros m s.
  assert (H0 : 0 <= Riscv64.regs s (Riscv64.x 10)) by (simpl; lia).
  assert (H1 : Riscv64.regs s (Riscv64.x 10) + 32 <= 2 ^ 64) by (simpl; lia).
  assert (H2 : Riscv64.word 200) by (unfold Riscv64.word; lia).
  assert (H3 : Riscv64.word (Riscv64.regs s (Riscv64.x 2))) by (unfold Riscv64.word; simpl; lia).
  assert (H4 : Riscv64.word (Riscv64.regs s (Riscv64.x 8))) by (unfold Riscv64.word; simpl; lia).
  assert (H5 : Riscv64.word (Riscv64.regs s (Riscv64.x 1))) by (unfold Riscv64.word; simpl; lia).
  assert (H6 : Riscv64.holds (Riscv64.mem s) (Riscv64.regs s (Riscv64.x 10))
                 (Riscv64.mkContext 300 7000 8000 8500))
    by (repeat split; vm_compute; reflexivity).
  exact (proj1 (riscv64_swap_context_exchanges 200 s _ H0 H1 H2 H3 H4 H5 H6)).
Defined.

Lemma riscv64_resumes (label : Z) (s : Riscv64.state) (m : Bytes.memory)
    (c : Riscv64.context) :
  let buf := Riscv64.regs s (Riscv64.x 10) in
  0 <= buf -> buf + 32 <= 2 ^ 64 ->
  Riscv64.holds m buf c ->
  (forall a, buf <= a < buf + 32 -> Riscv64.mem s a = m a) ->
  Riscv64.current (Riscv64.run (Riscv64.SWAP_CONTEXT label) s) = c.
Proof.
  intros buf H0 H1 (G1 & G2 & G3 & G4) Hsame.
  destruct (riscv64_swap_context_run label s H0 H1) as (F1 & F2 & F3 & F4 & _).
  fold buf in F1, F2, F3, F4.
  unfold Riscv64.current. rewrite F1, F2, F3, F4.
  rewrite (bytes_load_ext 8 buf _ m)
    by (intros a Ha; apply Hsame; simpl in Ha; lia).
  rewrite (bytes_load_ext 8 (buf + 8) _ m)
    by (intros a Ha; apply Hsame; simpl in Ha; lia).
  rewrite (bytes_load_ext 8 (buf + 16) _ m)
    by (intros a Ha; apply Hsame; simpl in Ha; lia).
  rewrite (bytes_load_ext 8 (buf + 24) _ m)
    by (intros a Ha; apply Hsame; simpl in Ha; lia).
  rewrite G1, G2, G3, G4. now destruct c.
Qed.

(** A context saved by SWAP_CONTEXT on riscv is the one the next
    SWAP_CONTEXT on the same buffer goes on in: when a party switches away
    at the block ending at [label_a], and its peer, having left the buffer
    as it was, later executes SWAP_CONTEXT on that buffer, the machine is
    at [label_a] with the stack pointer, the frame pointer and
    the return address x1 the party had. *)
Theorem riscv64_swap_context_there_and_back (label_a label_b : Z)
    (sa sb : Riscv64.state) :
  let buf := Riscv64.regs sa (Riscv64.x 10) in
  let s1 := Riscv64.run (Riscv64.SWAP_CONTEXT label_a) sa in
  0 <= buf -> buf + 32 <= 2 ^ 64 ->
  Riscv64.word label_a ->
  Riscv64.word (Riscv64.regs sa (Riscv64.x 2)) ->
  Riscv64.word (Riscv64.regs sa (Riscv64.x 8)) ->
  Riscv64.word (Riscv64.regs sa (Riscv64.x 1)) ->
  Riscv64.regs sb (Riscv64.x 10) = buf ->
  (forall a, buf <= a < buf + 32 -> Riscv64.mem sb a = Riscv64.mem s1 a) ->
  Riscv64.current (Riscv64.run (Riscv64.SWAP_CONTEXT label_b) sb) =
  Riscv64.mkContext label_a (Riscv64.regs sa (Riscv64.x 2)) (Riscv64.regs sa (Riscv64.x 8))
    (Riscv64.regs sa (Riscv64.x 1)).
Proof.
  intros buf s1 H0 H1 Hl Hsp Hfp Hex Hb Hsame.
  destruct (riscv64_swap_context_run label_a sa H0 H1) as (_ & _ & _ & _ & _ & E6).
  fold buf s1 in E6.
  destruct (riscv64_saved buf label_a _ _ _ (Riscv64.mem sa) Hl Hsp Hfp Hex) as [Hh _].
  rewrite <- E6 in Hh.
  apply (riscv64_resumes label_b sb (Riscv64.mem s1)); rewrite ?Hb; trivial.
Qed.

Lemma riscv64_swap_context_there_and_back_witness :
  let sa := Riscv64.mkState
              (fun r => if Riscv64.reg_eqb r (Riscv64.x 10) then 4096
                        else if Riscv64.reg_eqb r (Riscv64.x 2) then 9000
                        else if Riscv64.reg_eqb r (Riscv64.x 8) then 9100
                        else 0) 100 (fun _ => 0) in
  let s1 := Riscv64.run (Riscv64.SWAP_CONTEXT 200) sa in
  let sb := Riscv64.mkState
              (fun r => if Riscv64.reg_eqb r (Riscv64.x 10) then 4096 else 7)
              300 (Riscv64.mem s1) in
  Riscv64.current (Riscv64.run (Riscv64.SWAP_CONTEXT 400) sb) =
  Riscv64.mkContext 200 9000 9100 0.
Proof.
  intros sa s1 sb.
  assert (H0 : 0 <= Riscv64.regs sa (Riscv64.x 10)) by (simpl; lia).
  assert (H1 : Riscv64.regs sa (Riscv64.x 10) + 32 <= 2 ^ 64) by (simpl; lia).
  assert (H2 : Riscv64.word 200) by (unfold Riscv64.word; lia).
  assert (H3 : Riscv64.word (Riscv64.regs sa (Riscv64.x 2))) by (unfold Riscv64.word; simpl; lia).
  assert (H4 : Riscv64.word (Riscv64.regs sa (Riscv64.x 8))) by (unfold Riscv64.word; simpl; lia).
  assert (H5 : Riscv64.word (Riscv64.regs sa (Riscv64.x 1))) by (unfold Riscv64.word; simpl; lia).
  assert (H6 : Riscv64.regs sb (Riscv64.x 10) = Riscv64.regs sa (Riscv64.x 10)) by reflexivity.
  assert (H7 : forall a,
             Riscv64.regs sa (Riscv64.x 10) <= a < Riscv64.regs sa (Riscv64.x 10) + 32 ->
             Riscv64.mem sb a = Riscv64.mem (Riscv64.run (Riscv64.SWAP_CONTEXT 200) sa) a)
    by (intros a _; vm_compute; reflexivity).
  exact (riscv64_swap_context_there_and_back 200 400 sa sb H0 H1 H2 H3 H4 H5 H6 H7).
Defined.

Lemma riscv64_bootstrap_context_run (label : Z) (s : Riscv64.state) :
  let buf := Riscv64.regs s (Riscv64.x 10) in
  0 <= buf -> buf + 32 <= 2 ^ 64 ->
  let m4 := Bytes.store 8 (buf + 24) (Riscv64.regs s (Riscv64.x 1))
              (Bytes.store 8 (buf + 16) (Riscv64.regs s (Riscv64.x 8))
                 (Bytes.store 8 (buf + 8) (Riscv64.regs s (Riscv64.x 2))
                    (Bytes.store 8 buf label (Riscv64.mem s)))) in
  let s' := Riscv64.run (Riscv64.BOOTSTRAP_CONTEXT label) s in
  Riscv64.pc s' = Riscv64.regs s (Riscv64.x 11)
  /\ Riscv64.regs s' (Riscv64.x 10) = buf
  /\ Riscv64.regs s' (Riscv64.x 2) = buf
  /\ Riscv64.mem s' = m4.
Proof.
  intros buf H0 H1 m4 s'.
  assert (W0 : Riscv64.wrap (buf + 0) = buf)
    by (rewrite Z.add_0_r; apply riscv64_wrap_small; lia).
  assert (W8 : Riscv64.wrap (buf + 8) = buf + 8) by (apply riscv64_wrap_small; lia).
  assert (W16 : Riscv64.wrap (buf + 16) = buf + 16) by (apply riscv64_wrap_small; lia).
  assert (W24 : Riscv64.wrap (buf + 24) = buf + 24) by (apply riscv64_wrap_small; lia).
  unfold s', Riscv64.run, Riscv64.BOOTSTRAP_CONTEXT.
  cbn [fold_left Riscv64.exec_instr Riscv64.set_reg Riscv64.set_mem Riscv64.set_pc
       Riscv64.regs Riscv64.pc Riscv64.mem Riscv64.reg_eqb Nat.eqb Riscv64.get_reg].
  fold buf. rewrite ?W0, ?W8, ?W16, ?W24.
  replace (buf + 16 + 8) with (buf + 24) by lia.
  repeat split; reflexivity.
Qed.

(** BOOTSTRAP_CONTEXT on riscv saves the context of the caller in the
    buffer and jumps to the function on the stack that lies immediately
    below the buffer: the function is entered with the address of the
    buffer as its first argument (x10) and as its stack pointer, which
    is aligned as the buffer is; only the 32 bytes of the buffer are
    written; and the first SWAP_CONTEXT executed on the buffer by the new
    stack, the buffer being as it was left, goes on at the end of the
    block with the stack pointer, the frame pointer and the return address x1 of
    the caller. *)
Theorem riscv64_bootstrap_context_enters (label : Z) (s : Riscv64.state) :
  let buf := Riscv64.regs s (Riscv64.x 10) in
  let caller := Riscv64.mkContext label (Riscv64.regs s (Riscv64.x 2)) (Riscv64.regs s (Riscv64.x 8))
                  (Riscv64.regs s (Riscv64.x 1)) in
  0 <= buf -> buf + 32 <= 2 ^ 64 ->
  Riscv64.word label ->
  Riscv64.word (Riscv64.regs s (Riscv64.x 2)) ->
  Riscv64.word (Riscv64.regs s (Riscv64.x 8)) ->
  Riscv64.word (Riscv64.regs s (Riscv64.x 1)) ->
  let s' := Riscv64.run (Riscv64.BOOTSTRAP_CONTEXT label) s in
  Riscv64.pc s' = Riscv64.regs s (Riscv64.x 11)
  /\ Riscv64.regs s' (Riscv64.x 10) = buf
  /\ Riscv64.regs s' (Riscv64.x 2) = buf
  /\ Riscv64.holds (Riscv64.mem s') buf caller
  /\ (forall a, a < buf \/ buf + 32 <= a -> Riscv64.mem s' a = Riscv64.mem s a)
  /\ (forall label_c sc,
        Riscv64.regs sc (Riscv64.x 10) = buf ->
        (forall a, buf <= a < buf + 32 -> Riscv64.mem sc a = Riscv64.mem s' a) ->
        Riscv64.current (Riscv64.run (Riscv64.SWAP_CONTEXT label_c) sc) = caller).
Proof.
  intros buf caller H0 H1 Hl Hsp Hfp Hex s'.
  destruct (riscv64_bootstrap_context_run label s H0 H1) as (E1 & E2 & E3 & E4).
  fold buf s' in E1, E2, E3, E4.
  destruct (riscv64_saved buf label _ _ _ (Riscv64.mem s) Hl Hsp Hfp Hex)
    as [Hh Hframe].
  rewrite <- E4 in Hh, Hframe.
  split; [exact E1 |]. split; [exact E2 |]. split; [exact E3 |].
  split; [exact Hh |]. split; [exact Hframe |].
  intros label_c sc Hb Hsame.
  apply (riscv64_resumes label_c sc (Riscv64.mem s')); rewrite ?Hb; trivial.
Qed.

Lemma riscv64_bootstrap_context_enters_witness :
  let s := Riscv64.mkState
             (fun r => if Riscv64.reg_eqb r (Riscv64.x 10) then 4096
                       else if Riscv64.reg_eqb r (Riscv64.x 11) then 700
                       else if Riscv64.reg_eqb r (Riscv64.x 2) then 9000
                       else 0) 100 (fun _ => 0) in
  let s' := Riscv64.run (Riscv64.BOOTSTRAP_CONTEXT 200) s in
  Riscv64.pc s' = 700 /\ Riscv64.regs s' (Riscv64.x 10) = 4096 /\ Riscv64.regs s' (Riscv64.x 2) = 4096.
Proof.
  intros s s'.
  assert (H0 : 0 <= Riscv64.regs s (Riscv64.x 10)) by (simpl; lia).
  assert (H1 : Riscv64.regs s (Riscv64.x 10) + 32 <= 2 ^ 64) by (simpl; lia).
  assert (H2 : Riscv64.word 200) by (unfold Riscv64.word; lia).
  assert (H3 : Riscv64.word (Riscv64.regs s (Riscv64.x 2))) by (unfold Riscv64.word; simpl; lia).
  assert (H4 : Riscv64.word (Riscv64.regs s (Riscv64.x 8))) by (unfold Riscv64.word; simpl; lia).
  assert (H5 : Riscv64.word (Riscv64.regs s (Riscv64.x 1))) by (unfold Riscv64.word; simpl; lia).
  destruct (riscv64_bootstrap_context_enters 200 s H0 H1 H2 H3 H4 H5)
    as (E1 & E2 & E3 & _).
  split; [exact E1 | split; [exact E2 | exact E3]].
Defined.

(** ** i386 *)

Lemma i386_wrap_small (v : Z) : 0 <= v < 2 ^ 32 -> I386.wrap v = v.
Proof. intros H. unfold I386.wrap. now apply Z.mod_small. Qed.

Lemma i386_saved (buf ip sp bp : Z) (m : Bytes.memory) :
  I386.word ip -> I386.word sp -> I386.word bp ->
  let m3 := Bytes.store 4 (buf + 8) bp
              (Bytes.store 4 (buf + 4) sp (Bytes.store 4 buf ip m)) in
  I386.holds m3 buf (I386.mkContext ip sp bp)
  /\ forall a, a < buf \/ buf + 12 <= a -> m3 a = m a.
Proof.
  intros Hip Hsp Hbp m3. unfold I386.word in *.
  split; [repeat split |];
    cbn [I386.saved_eip I386.saved_esp I386.saved_ebp].
  - unfold m3. rewrite !bytes_load_store_other by (simpl; lia).
    apply bytes_load_store_same. simpl. lia.
  - unfold m3. rewrite bytes_load_store_other by (simpl; lia).
    apply bytes_load_store_same. simpl. lia.
  - unfold m3. apply bytes_load_store_same. simpl. lia.
  - intros a Ha. unfold m3. rewrite !bytes_store_outside by (simpl; lia).
    reflexivity.
Qed.

Lemma i386_swap_context_run (label_0 label_1 : Z) (s : I386.state) :
  let buf := I386.regs s I386.EDX in
  let sp := I386.regs s I386.ESP in
  0 <= buf -> buf + 12 <= 2 ^ 32 -> 4 <= sp < 2 ^ 32 ->
  I386.word label_0 -> I386.word label_1 ->
  let m0 := Bytes.store 4 (sp - 4) label_0 (I386.mem s) in
  let m3 := Bytes.store 4 (buf + 8) (I386.regs s I386.EBP)
              (Bytes.store 4 (buf + 4) sp (Bytes.store 4 buf label_1 m0)) in
  let s' := I386.run (I386.SWAP_CONTEXT label_0 label_1) s in
  I386.eip s' = Bytes.load 4 buf (I386.mem s)
  /\ I386.regs s' I386.ESP = Bytes.load 4 (buf + 4) (I386.mem s)
  /\ I386.regs s' I386.EBP = Bytes.load 4 (buf + 8) (I386.mem s)
  /\ I386.regs s' I386.EDX = buf
  /\ I386.mem s' = m3.
Proof.
  intros buf sp H0 H1 Hsp Hl0 Hl1 m0 m3 s'. unfold I386.word in *.
  assert (W0 : I386.wrap (buf + 0) = buf)
    by (rewrite Z.add_0_r; apply i386_wrap_small; lia).
  assert (W4 : I386.wrap (buf + 4) = buf + 4) by (apply i386_wrap_small; lia).
  assert (W8 : I386.wrap (buf + 8) = buf + 8) by (apply i386_wrap_small; lia).
  assert (Wd : I386.wrap (sp - 4) = sp - 4) by (apply i386_wrap_small; lia).
  assert (Wu : I386.wrap (sp - 4 + 4) = sp)
    by (replace (sp - 4 + 4) with sp by lia; apply i386_wrap_small; lia).
  assert (Wl : I386.wrap (label_0 + (label_1 - label_0)) = label_1)
    by (replace (label_0 + (label_1 - label_0)) with label_1 by lia;
        apply i386_wrap_small; lia).
  unfold s', I386.run, I386.SWAP_CONTEXT.
  cbn [fold_left I386.exec_instr I386.pushed I386.set_reg I386.set_mem
       I386.set_eip I386.regs I386.eip I386.mem I386.reg_eqb].
  fold buf sp. rewrite W0, W4, W8, Wd, Wu.
  rewrite (bytes_load_store_same 4 (sp - 4) label_0) by (simpl; lia).
  rewrite Wl. repeat split; reflexivity.
Qed.

(** SWAP_CONTEXT on i386 exchanges the context of the machine (where to go
    on, stack pointer, frame pointer) with the one in the buffer.  The
    address of the end of the block is computed with a [call] to the next
    instruction, which writes the 4 bytes below the stack pointer: besides
    those and the 12 bytes of the buffer, no byte is written. *)
Theorem i386_swap_context_exchanges (label_0 label_1 : Z) (s : I386.state)
    (c : I386.context) :
  let buf := I386.regs s I386.EDX in
  let sp := I386.regs s I386.ESP in
  0 <= buf -> buf + 12 <= 2 ^ 32 -> 4 <= sp < 2 ^ 32 ->
  I386.word label_0 -> I386.word label_1 ->
  I386.word (I386.regs s I386.EBP) ->
  I386.holds (I386.mem s) buf c ->
  let s' := I386.run (I386.SWAP_CONTEXT label_0 label_1) s in
  I386.current s' = c
  /\ I386.holds (I386.mem s') buf
       (I386.mkContext label_1 sp (I386.regs s I386.EBP))
  /\ I386.regs s' I386.EDX = buf
  /\ forall a,
       a < buf \/ buf + 12 <= a -> a < sp - 4 \/ sp <= a ->
       I386.mem s' a = I386.mem s a.
Proof.
  intros buf sp H0 H1 Hsp Hl0 Hl1 Hbp (Hc1 & Hc2 & Hc3) s'.
  destruct (i386_swap_context_run label_0 label_1 s H0 H1 Hsp Hl0 Hl1)
    as (E1 & E2 & E3 & E4 & E5).
  fold buf sp in E1, E2, E3, E4, E5. fold s' in E1, E2, E3, E4, E5.
  assert (Hw : I386.word sp) by (unfold I386.word; lia).
  destruct (i386_saved buf label_1 sp _
              (Bytes.store 4 (sp - 4) label_0 (I386.mem s)) Hl1 Hw Hbp)
    as [Hh Hframe].
  split; [| split; [| split]].
  - unfold I386.current. rewrite E1, E2, E3, Hc1, Hc2, Hc3. now destruct c.
  - rewrite E5. exact Hh.
  - exact E4.
  - intros a Ha Hb. rewrite E5, Hframe by exact Ha.
    apply bytes_store_outside. simpl. lia.
Qed.

Lemma i386_swap_context_exchanges_witness :
  let m : Bytes.memory :=
    Bytes.store 4 4104 8000 (Bytes.store 4 4100 7000 (Bytes.store 4 4096 300 (fun _ => 0))) in
  let s := I386.mkState
             (fun r => match r with
                       | I386.EDX => 4096
                       | I386.ESP => 9000
                       | I386.EBP => 9100
                       | _ => 0
                       end) 100 m in
  I386.current (I386.run (I386.SWAP_CONTEXT 180 200) s) =
  I386.mkContext 300 7000 8000.
Proof.
  intros m s.
  assert (H0 : 0 <= I386.regs s I386.EDX) by (simpl; lia).
  assert (H1 : I386.regs s I386.EDX + 12 <= 2 ^ 32) by (simpl; lia).
  assert (H2 : 4 <= I386.regs s I386.ESP < 2 ^ 32) by (simpl; lia).
  assert (H3 : I386.word 180) by (unfold I386.word; lia).
  assert (H4 : I386.word 200) by (unfold I386.word; lia).
  assert (H5 : I386.word (I386.regs s I386.EBP)) by (unfold I386.word; simpl; lia).
  assert (H6 : I386.holds (I386.mem s) (I386.regs s I386.EDX)
                 (I386.mkContext 300 7000 8000))
    by (repeat split; vm_compute; reflexivity).
  exact (proj1 (i386_swap_context_exchanges 180 200 s _ H0 H1 H2 H3 H4 H5 H6)).
Defined.

Lemma i386_resumes (label_0 label_1 : Z) (s : I386.state) (m : Bytes.memory)
    (c : I386.context) :
  let buf := I386.regs s I386.EDX in
  0 <= buf -> buf + 12 <= 2 ^ 32 -> 4 <= I386.regs s I386.ESP < 2 ^ 32 ->
  I386.word label_0 -> I386.word label_1 ->
  I386.holds m buf c ->
  (forall a, buf <= a < buf + 12 -> I386.mem s a = m a) ->
  I386.current (I386.run (I386.SWAP_CONTEXT label_0 label_1) s) = c.
Proof.
  intros buf H0 H1 Hsp Hl0 Hl1 (G1 & G2 & G3) Hsame.
  destruct (i386_swap_context_run label_0 label_1 s H0 H1 Hsp Hl0 Hl1)
    as (F1 & F2 & F3 & _).
  fold buf in F1, F2, F3.
  unfold I386.current. rewrite F1, F2, F3.
  rewrite (bytes_load_ext 4 buf _ m)
    by (intros a Ha; apply Hsame; simpl in Ha; lia).
  rewrite (bytes_load_ext 4 (buf + 4) _ m)
    by (intros a Ha; apply Hsame; simpl in Ha; lia).
  rewrite (bytes_load_ext 4 (buf + 8) _ m)
    by (intros a Ha; apply Hsame; simpl in Ha; lia).
  rewrite G1, G2, G3. now destruct c.
Qed.

(** A context saved by SWAP_CONTEXT on i386 is the one the next
    SWAP_CONTEXT on the same buffer goes on in: when a party switches away
    at the block ending at [label_1], and its peer, having left the buffer
    as it was, later executes SWAP_CONTEXT on that buffer, the machine is
    at [label_1] with the stack and frame pointers the party had. *)
Theorem i386_swap_context_there_and_back (label_0 label_1 label_0' label_1' : Z)
    (sa sb : I386.state) :
  let buf := I386.regs sa I386.EDX in
  let sp := I386.regs sa I386.ESP in
  let s1 := I386.run (I386.SWAP_CONTEXT label_0 label_1) sa in
  0 <= buf -> buf + 12 <= 2 ^ 32 -> 4 <= sp < 2 ^ 32 ->
  I386.word label_0 -> I386.word label_1 ->
  I386.word (I386.regs sa I386.EBP) ->
  I386.regs sb I386.EDX = buf ->
  4 <= I386.regs sb I386.ESP < 2 ^ 32 ->
  I386.word label_0' -> I386.word label_1' ->
  (forall a, buf <= a < buf + 12 -> I386.mem sb a = I386.mem s1 a) ->
  I386.current (I386.run (I386.SWAP_CONTEXT label_0' label_1') sb) =
  I386.mkContext label_1 sp (I386.regs sa I386.EBP).
Proof.
  intros buf sp s1 H0 H1 Hsp Hl0 Hl1 Hbp Hb Hspb Hl0' Hl1' Hsame.
  destruct (i386_swap_context_run label_0 label_1 sa H0 H1 Hsp Hl0 Hl1)
    as (_ & _ & _ & _ & E5).
  fold buf sp s1 in E5.
  assert (Hw : I386.word sp) by (unfold I386.word; lia).
  destruct (i386_saved buf label_1 sp _
              (Bytes.store 4 (sp - 4) label_0 (I386.mem sa)) Hl1 Hw Hbp)
    as [Hh _].
  rewrite <- E5 in Hh.
  apply (i386_resumes label_0' label_1' sb (I386.mem s1)); rewrite ?Hb; trivial.
Qed.

Lemma i386_swap_context_there_and_back_witness :
  let sa := I386.mkState
              (fun r => match r with
                        | I386.EDX => 4096
                        | I386.ESP => 9000
                        | I386.EBP => 9100
                        | _ => 0
                        end) 100 (fun _ => 0) in
  let s1 := I386.run (I386.SWAP_CONTEXT 180 200) sa in
  let sb := I386.mkState
              (fun r => match r with
                        | I386.EDX => 4096
                        | I386.ESP => 5000
                        | _ => 7
                        end) 300 (I386.mem s1) in
  I386.current (I386.run (I386.SWAP_CONTEXT 380 400) sb) =
  I386.mkContext 200 9000 9100.
Proof.
  intros sa s1 sb.
  assert (H0 : 0 <= I386.regs sa I386.EDX) by (simpl; lia).
  assert (H1 : I386.regs sa I386.EDX + 12 <= 2 ^ 32) by (simpl; lia).
  assert (H2 : 4 <= I386.regs sa I386.ESP < 2 ^ 32) by (simpl; lia).
  assert (H3 : I386.word 180) by (unfold I386.word; lia).
  assert (H4 : I386.word 200) by (unfold I386.word; lia).
  assert (H5 : I386.word (I386.regs sa I386.EBP))
    by (unfold I386.word; simpl; lia).
  assert (H6 : I386.regs sb I386.EDX = I386.regs sa I386.EDX) by reflexivity.
  assert (H7 : 4 <= I386.regs sb I386.ESP < 2 ^ 32) by (simpl; lia).
  assert (H8 : I386.word 380) by (unfold I386.word; lia).
  assert (H9 : I386.word 400) by (unfold I386.word; lia).
  assert (H10 : forall a,
             I386.regs sa I386.EDX <= a < I386.regs sa I386.EDX + 12 ->
             I386.mem sb a = I386.mem (I386.run (I386.SWAP_CONTEXT 180 200) sa) a)
    by (intros a _; vm_compute; reflexivity).
  exact (i386_swap_context_there_and_back 180 200 380 400 sa sb
           H0 H1 H2 H3 H4 H5 H6 H7 H8 H9 H10).
Defined.

Lemma i386_bootstrap_context_run (label_0 label_1 : Z) (s : I386.state) :
  let buf := I386.regs s I386.EDX in
  let sp := I386.regs s I386.ESP in
  20 <= buf -> buf + 12 <= 2 ^ 32 -> 4 <= sp < 2 ^ 32 ->
  I386.word label_0 -> I386.word label_1 ->
  let m0 := Bytes.store 4 (sp - 4) label_0 (I386.mem s) in
  let m3 := Bytes.store 4 (buf + 8) (I386.regs s I386.EBP)
              (Bytes.store 4 (buf + 4) sp (Bytes.store 4 buf label_1 m0)) in
  let s' := I386.run (I386.BOOTSTRAP_CONTEXT label_0 label_1) s in
  I386.eip s' = I386.regs s I386.ESI
  /\ I386.regs s' I386.EDI = buf
  /\ I386.regs s' I386.ESP = buf - 20
  /\ I386.mem s' =
     Bytes.store 4 (buf - 20) label_1 (Bytes.store 4 (buf - 16) buf m3).
Proof.
  intros buf sp H0 H1 Hsp Hl0 Hl1 m0 m3 s'. unfold I386.word in *.
  assert (W0 : I386.wrap (buf + 0) = buf)
    by (rewrite Z.add_0_r; apply i386_wrap_small; lia).
  assert (W4 : I386.wrap (buf + 4) = buf + 4) by (apply i386_wrap_small; lia).
  assert (W8 : I386.wrap (buf + 8) = buf + 8) by (apply i386_wrap_small; lia).
  assert (Wd : I386.wrap (sp - 4) = sp - 4) by (apply i386_wrap_small; lia).
  assert (Wu : I386.wrap (sp - 4 + 4) = sp)
    by (replace (sp - 4 + 4) with sp by lia; apply i386_wrap_small; lia).
  assert (Wl : I386.wrap (label_0 + (label_1 - label_0)) = label_1)
    by (replace (label_0 + (label_1 - label_0)) with label_1 by lia;
        apply i386_wrap_small; lia).
  assert (W12 : I386.wrap (buf - 12) = buf - 12) by (apply i386_wrap_small; lia).
  assert (W16 : I386.wrap (buf - 12 - 4) = buf - 16)
    by (replace (buf - 12 - 4) with (buf - 16) by lia; apply i386_wrap_small; lia).
  assert (W20 : I386.wrap (buf - 16 - 4) = buf - 20)
    by (replace (buf - 16 - 4) with (buf - 20) by lia; apply i386_wrap_small; lia).
  unfold s', I386.run, I386.BOOTSTRAP_CONTEXT.
  cbn [fold_left I386.exec_instr I386.pushed I386.set_reg I386.set_mem
       I386.set_eip I386.regs I386.eip I386.mem I386.reg_eqb].
  fold buf sp. rewrite W0, W4, W8, Wd, Wu.
  rewrite (bytes_load_store_same 4 (sp - 4) label_0) by (simpl; lia).
  rewrite Wl, W12, W16, W20. repeat split; reflexivity.
Qed.

(** BOOTSTRAP_CONTEXT on i386 saves the context of the caller in the buffer
    and calls the function on the stack that lies immediately below the
    buffer: the function is entered with the address of the buffer both in
    edi and on the stack where a cdecl function looks for its first
    argument (4 above the stack pointer), the return address at the stack
    pointer, 20 below the buffer, so that the stack was aligned to 16 bytes
    at the call when the buffer is; besides the buffer, those 8 bytes and
    the 4 bytes below the caller's stack pointer nothing is written; and
    the first SWAP_CONTEXT executed on the buffer by the new stack, the
    buffer being as it was left, goes on at the end of the block with
    the stack and frame pointers of the caller. *)
Theorem i386_bootstrap_context_enters (label_0 label_1 : Z) (s : I386.state) :
  let buf := I386.regs s I386.EDX in
  let sp := I386.regs s I386.ESP in
  let caller := I386.mkContext label_1 sp (I386.regs s I386.EBP) in
  20 <= buf -> buf + 12 <= 2 ^ 32 -> 4 <= sp < 2 ^ 32 ->
  I386.word label_0 -> I386.word label_1 ->
  I386.word (I386.regs s I386.EBP) ->
  let s' := I386.run (I386.BOOTSTRAP_CONTEXT label_0 label_1) s in
  I386.eip s' = I386.regs s I386.ESI
  /\ I386.regs s' I386.EDI = buf
  /\ I386.regs s' I386.ESP = buf - 20
  /\ Bytes.load 4 (I386.regs s' I386.ESP) (I386.mem s') = label_1
  /\ Bytes.load 4 (I386.regs s' I386.ESP + 4) (I386.mem s') = buf
  /\ (buf mod 16 = 0 -> (I386.regs s' I386.ESP + 4) mod 16 = 0)
  /\ I386.holds (I386.mem s') buf caller
  /\ (forall a,
        a < buf - 20 \/ buf - 12 <= a -> a < buf \/ buf + 12 <= a ->
        a < sp - 4 \/ sp <= a ->
        I386.mem s' a = I386.mem s a)
  /\ (forall label_0' label_1' sc,
        I386.regs sc I386.EDX = buf ->
        4 <= I386.regs sc I386.ESP < 2 ^ 32 ->
        I386.word label_0' -> I386.word label_1' ->
        (forall a, buf <= a < buf + 12 -> I386.mem sc a = I386.mem s' a) ->
        I386.current (I386.run (I386.SWAP_CONTEXT label_0' label_1') sc) = caller).
Proof.
  intros buf sp caller H0 H1 Hsp Hl0 Hl1 Hbp s'.
  destruct (i386_bootstrap_context_run label_0 label_1 s H0 H1 Hsp Hl0 Hl1)
    as (E1 & E2 & E3 & E4).
  fold buf sp s' in E1, E2, E3, E4.
  assert (Hw : I386.word sp) by (unfold I386.word; lia).
  destruct (i386_saved buf label_1 sp _
              (Bytes.store 4 (sp - 4) label_0 (I386.mem s)) Hl1 Hw Hbp)
    as [(Hh1 & Hh2 & Hh3) Hframe].
  assert (Hholds : I386.holds (I386.mem s') buf caller).
  { rewrite E4. repeat split;
      do 2 (rewrite bytes_load_store_other by (simpl; lia)); assumption. }
  unfold I386.word in *.
  split; [exact E1 |]. split; [exact E2 |]. split; [exact E3 |].
  split; [| split; [| split; [| split; [exact Hholds | split]]]].
  - rewrite E3, E4. apply bytes_load_store_same. simpl. lia.
  - rewrite E3, E4. replace (buf - 20 + 4) with (buf - 16) by lia.
    rewrite bytes_load_store_other by (simpl; lia).
    apply bytes_load_store_same. simpl. lia.
  - intros Ha. rewrite E3. replace (buf - 20 + 4) with (buf - 16) by lia.
    rewrite <- (Z.mod_add _ 1 16) by lia. replace (buf - 16 + 1 * 16) with buf by lia.
    exact Ha.
  - intros a Ha Hb Hc. rewrite E4, !bytes_store_outside by (simpl; lia).
    reflexivity.
  - intros label_0' label_1' sc Hb Hspc Hl0' Hl1' Hsame.
    apply (i386_resumes label_0' label_1' sc (I386.mem s')); rewrite ?Hb; trivial;
      lia.
Qed.

Lemma i386_bootstrap_context_enters_witness :
  let s := I386.mkState
             (fun r => match r with
                       | I386.EDX => 4096
                       | I386.ESI => 700
                       | I386.ESP => 9000
                       | I386.EBP => 9100
                       | _ => 0
                       end) 100 (fun _ => 0) in
  let s' := I386.run (I386.BOOTSTRAP_CONTEXT 180 200) s in
  I386.eip s' = 700 /\ I386.regs s' I386.EDI = 4096
  /\ I386.regs s' I386.ESP = 4076
  /\ Bytes.load 4 4080 (I386.mem s') = 4096.
Proof.
  intros s s'.
  assert (H0 : 20 <= I386.regs s I386.EDX) by (simpl; lia).
  assert (H1 : I386.regs s I386.EDX + 12 <= 2 ^ 32) by (simpl; lia).
  assert (H2 : 4 <= I386.regs s I386.ESP < 2 ^ 32) by (simpl; lia).
  assert (H3 : I386.word 180) by (unfold I386.word; lia).
  assert (H4 : I386.word 200) by (unfold I386.word; lia).
  assert (H5 : I386.word (I386.regs s I386.EBP)) by (unfold I386.word; simpl; lia).
  destruct (i386_bootstrap_context_enters 180 200 s H0 H1 H2 H3 H4 H5)
    as (E1 & E2 & E3 & _ & E5 & _).
  fold s' in E1, E2, E3, E5.
  split; [exact E1 | split; [exact E2 | split; [exact E3 |]]].
  rewrite E3 in E5. exact E5.
Defined.

(** ** arm *)

Lemma arm_wrap_small (v : Z) : 0 <= v < 2 ^ 32 -> Arm.wrap v = v.
Proof. intros H. unfold Arm.wrap. now apply Z.mod_small. Qed.

Lemma arm_return_value (t : bool) (label : Z) :
  0 <= label -> label mod 2 = 0 ->
  2 * (Arm.return_value t label / 2) = label
  /\ Z.odd (Arm.return_value t label) = t
  /\ (label < 2 ^ 32 -> Arm.word (Arm.return_value t label)).
Proof.
  intros H0 He. unfold Arm.return_value, Arm.word.
  assert (El : label = 2 * (label / 2))
    by (pose proof (Z.div_mod label 2 ltac:(lia)); lia).
  assert (Hodd : Z.odd label = false).
  { rewrite El, Z.odd_mul. reflexivity. }
  destruct t.
  - assert (E : Z.lor label 1 = label + 1).
    { assert (Hland : Z.land label 1 = 0).
      { change 1 with (Z.ones 1). rewrite Z.land_ones by lia. exact He. }
      rewrite <- (Z.lxor_lor _ _ Hland). symmetry.
      now apply Z.add_nocarry_lxor. }
    rewrite E.
    assert (Hm : (label + 1) mod 2 = 1).
    { rewrite El, Z.add_comm, Z.mul_comm, Z.mod_add by lia. reflexivity. }
    split; [| split].
    + pose proof (Z.div_mod (label + 1) 2 ltac:(lia)). lia.
    + rewrite Z.add_1_r, Z.odd_succ, <- Z.negb_odd, Hodd. reflexivity.
    + intros Hl.
      assert (label <> 2 ^ 32 - 1) by (intros ->; discriminate He). lia.
  - split; [lia | split; [exact Hodd | lia]].
Qed.

Lemma arm_swap_context_run (t : bool) (label_0 : Z) (s : Arm.state) :
  let buf := Arm.regs s (Arm.R 0) in
  let sp := Arm.regs s Arm.SP in
  8 <= sp < 2 ^ 32 ->
  let m1 := Bytes.store 4 (sp - 8 + 4) (Arm.return_value t label_0)
              (Bytes.store 4 (sp - 8) (Arm.regs s (Arm.R 11)) (Arm.mem s)) in
  let sp' := Bytes.load 4 buf m1 in
  let m2 := Bytes.store 4 buf (sp - 8) m1 in
  let s' := Arm.run (Arm.SWAP_CONTEXT t label_0) s in
  Arm.pc s' = 2 * (Bytes.load 4 (sp' + 4) m2 / 2)
  /\ Arm.thumb s' = Z.odd (Bytes.load 4 (sp' + 4) m2)
  /\ Arm.regs s' (Arm.R 11) = Bytes.load 4 sp' m2
  /\ Arm.regs s' Arm.SP = Arm.wrap (sp' + 8)
  /\ Arm.regs s' (Arm.R 0) = buf
  /\ Arm.mem s' = m2.
Proof.
  intros buf sp Hsp m1 sp' m2 s'.
  assert (Wd : Arm.wrap (sp - 8) = sp - 8) by (apply arm_wrap_small; lia).
  unfold s', Arm.run, Arm.SWAP_CONTEXT, Arm.SET_LSB_IN_LR_IF_THUMB.
  destruct t;
    cbn [app fold_left Arm.exec_instr Arm.branch Arm.set_reg Arm.set_mem
         Arm.regs Arm.pc Arm.thumb Arm.mem Arm.reg_eqb Nat.eqb];
    fold buf sp; rewrite Wd; repeat split; reflexivity.
Qed.

Lemma arm_pushed (buf sp fp ret : Z) (m : Bytes.memory) :
  Arm.word fp -> Arm.word ret -> 8 <= sp < 2 ^ 32 ->
  Arm.apart (sp - 8) 8 buf 4 ->
  let m2 := Bytes.store 4 buf (sp - 8)
              (Bytes.store 4 (sp - 8 + 4) ret (Bytes.store 4 (sp - 8) fp m)) in
  Bytes.load 4 buf m2 = sp - 8
  /\ Bytes.load 4 (sp - 8) m2 = fp
  /\ Bytes.load 4 (sp - 8 + 4) m2 = ret
  /\ forall a, a < buf \/ buf + 4 <= a -> a < sp - 8 \/ sp <= a -> m2 a = m a.
Proof.
  intros Hfp Hret Hsp Ha m2. unfold Arm.word, Arm.apart in *.
  split; [| split; [| split]].
  - unfold m2. apply bytes_load_store_same. simpl. lia.
  - unfold m2. rewrite !bytes_load_store_other by (simpl; lia).
    apply bytes_load_store_same. simpl. lia.
  - unfold m2. rewrite bytes_load_store_other by (simpl; lia).
    apply bytes_load_store_same. simpl. lia.
  - intros a H1 H2. unfold m2. rewrite !bytes_store_outside by (simpl; lia).
    reflexivity.
Qed.

Lemma arm_resumes (t : bool) (label_0 : Z) (s : Arm.state) (m : Bytes.memory)
    (c : Arm.context) (ret : Z) :
  let buf := Arm.regs s (Arm.R 0) in
  let sp := Arm.regs s Arm.SP in
  let sp' := Bytes.load 4 buf m in
  8 <= sp < 2 ^ 32 -> 0 <= sp' -> sp' + 8 < 2 ^ 32 ->
  Arm.apart (sp - 8) 8 buf 4 ->
  Arm.apart (sp - 8) 8 sp' 8 ->
  Arm.apart buf 4 sp' 8 ->
  Arm.suspended m buf c ret ->
  (forall a, buf <= a < buf + 4 -> Arm.mem s a = m a) ->
  (forall a, sp' <= a < sp' + 8 -> Arm.mem s a = m a) ->
  Arm.current (Arm.run (Arm.SWAP_CONTEXT t label_0) s) = c.
Proof.
  intros buf sp sp' Hsp H0 H1 A1 A2 A3 (G1 & G2 & G3 & G4 & G5) Hbuf Hframe.
  destruct (arm_swap_context_run t label_0 s Hsp) as (E1 & E2 & E3 & E4 & _).
  fold buf sp in E1, E2, E3, E4. fold sp' in G1, G2, G3.
  unfold Arm.apart in *.
  assert (Esp : Bytes.load 4 buf
                  (Bytes.store 4 (sp - 8 + 4) (Arm.return_value t label_0)
                     (Bytes.store 4 (sp - 8) (Arm.regs s (Arm.R 11)) (Arm.mem s)))
                = sp').
  { rewrite !bytes_load_store_other by (simpl; lia).
    apply bytes_load_ext. intros a Ha. apply Hbuf. simpl in Ha. lia. }
  rewrite Esp in E1, E2, E3, E4.
  rewrite !bytes_load_store_other in E1, E2, E3 by (simpl; lia).
  rewrite (bytes_load_ext 4 (sp' + 4) _ m) in E1, E2
    by (intros a Ha; apply Hframe; simpl in Ha; lia).
  rewrite (bytes_load_ext 4 sp' _ m) in E3
    by (intros a Ha; apply Hframe; simpl in Ha; lia).
  rewrite arm_wrap_small in E4 by lia.
  unfold Arm.current. rewrite E1, E2, E3, E4, G2, G3, <- G1, <- G4, <- G5.
  now destruct c.
Qed.

(** SWAP_CONTEXT on arm, compiled to ARM or to Thumb code: the caller
    pushes its frame pointer and the address of the end of the block (with
    bit 0 set in Thumb code) on its own stack and leaves its stack pointer
    in the buffer; the machine goes on in the context that was suspended in
    the same way, its stack pointer above the two words popped, in the
    instruction set bit 0 of the popped address names.  Only the buffer
    and the 8 bytes below the caller's stack pointer are written. *)
Theorem arm_swap_context_exchanges (t : bool) (label_0 : Z) (s : Arm.state)
    (c : Arm.context) (ret : Z) :
  let buf := Arm.regs s (Arm.R 0) in
  let sp := Arm.regs s Arm.SP in
  let sp' := Bytes.load 4 buf (Arm.mem s) in
  8 <= sp < 2 ^ 32 -> 0 <= sp' -> sp' + 8 < 2 ^ 32 ->
  0 <= label_0 < 2 ^ 32 -> label_0 mod 2 = 0 ->
  Arm.word (Arm.regs s (Arm.R 11)) ->
  Arm.apart (sp - 8) 8 buf 4 ->
  Arm.apart (sp - 8) 8 sp' 8 ->
  Arm.apart buf 4 sp' 8 ->
  Arm.suspended (Arm.mem s) buf c ret ->
  let s' := Arm.run (Arm.SWAP_CONTEXT t label_0) s in
  Arm.current s' = c
  /\ Arm.suspended (Arm.mem s') buf
       (Arm.mkContext label_0 t sp (Arm.regs s (Arm.R 11)))
       (Arm.return_value t label_0)
  /\ Arm.regs s' (Arm.R 0) = buf
  /\ forall a,
       a < buf \/ buf + 4 <= a -> a < sp - 8 \/ sp <= a ->
       Arm.mem s' a = Arm.mem s a.
Proof.
  intros buf sp sp' Hsp H0 H1 Hl He Hfp A1 A2 A3 Hc s'.
  destruct (arm_return_value t label_0 (proj1 Hl) He) as (R1 & R2 & R3).
  specialize (R3 (proj2 Hl)).
  destruct (arm_swap_context_run t label_0 s Hsp) as (_ & _ & _ & _ & E5 & E6).
  fold buf sp s' in E5, E6.
  destruct (arm_pushed buf sp _ _ (Arm.mem s) Hfp R3 Hsp A1)
    as (P1 & P2 & P3 & Pframe).
  split; [| split; [| split]].
  - apply (arm_resumes t label_0 s (Arm.mem s) c ret); trivial.
  - rewrite E6. unfold Arm.suspended. rewrite P1, P2, P3.
    cbn [Arm.saved_sp Arm.saved_r11 Arm.saved_pc Arm.saved_thumb].
    split; [lia |]. split; [reflexivity |]. split; [reflexivity |].
    split; [now rewrite R1 | now rewrite R2].
  - exact E5.
  - intros a Ha Hb. rewrite E6. now apply Pframe.
Qed.

Lemma arm_swap_context_exchanges_witness :
  let m : Bytes.memory :=
    Bytes.store 4 7004 301 (Bytes.store 4 7000 8000 (Bytes.store 4 4096 7000 (fun _ => 0))) in
  let s := Arm.mkState
             (fun r => if Arm.reg_eqb r (Arm.R 0) then 4096
                       else if Arm.reg_eqb r Arm.SP then 9000
                       else if Arm.reg_eqb r (Arm.R 11) then 9100
                       else 0) 100 true m in
  Arm.current (Arm.run (Arm.SWAP_CONTEXT true 200) s) =
  Arm.mkContext 300 true 7008 8000.
Proof.
  intros m s.
  assert (H0 : 8 <= Arm.regs s Arm.SP < 2 ^ 32) by (simpl; lia).
  assert (E : Bytes.load 4 (Arm.regs s (Arm.R 0)) (Arm.mem s) = 7000)
    by (vm_compute; reflexivity).
  assert (H1 : 0 <= Bytes.load 4 (Arm.regs s (Arm.R 0)) (Arm.mem s))
    by (rewrite E; lia).
  assert (H2 : Bytes.load 4 (Arm.regs s (Arm.R 0)) (Arm.mem s) + 8 < 2 ^ 32)
    by (rewrite E; lia).
  assert (H3 : 0 <= 200 < 2 ^ 32) by lia.
  assert (H4 : 200 mod 2 = 0) by reflexivity.
  assert (H5 : Arm.word (Arm.regs s (Arm.R 11))) by (unfold Arm.word; simpl; lia).
  assert (H6 : Arm.apart (Arm.regs s Arm.SP - 8) 8 (Arm.regs s (Arm.R 0)) 4)
    by (unfold Arm.apart; simpl; lia).
  assert (H7 : Arm.apart (Arm.regs s Arm.SP - 8) 8
                 (Bytes.load 4 (Arm.regs s (Arm.R 0)) (Arm.mem s)) 8)
    by (rewrite E; unfold Arm.apart; simpl; lia).
  assert (H8 : Arm.apart (Arm.regs s (Arm.R 0)) 4
                 (Bytes.load 4 (Arm.regs s (Arm.R 0)) (Arm.mem s)) 8)
    by (rewrite E; unfold Arm.apart; simpl; lia).
  assert (H9 : Arm.suspended (Arm.mem s) (Arm.regs s (Arm.R 0))
                 (Arm.mkContext 300 true 7008 8000) 301)
    by (unfold Arm.suspended; rewrite E; repeat split; vm_compute; reflexivity).
  exact (proj1 (arm_swap_context_exchanges true 200 s _ 301
                  H0 H1 H2 H3 H4 H5 H6 H7 H8 H9)).
Defined.

(** A context suspended by SWAP_CONTEXT on arm is the one the next
    SWAP_CONTEXT on the same buffer goes on in: when a party switches away
    at the block ending at [label_a], and its peer, having left the buffer
    and the two words the party pushed as they were, later executes
    SWAP_CONTEXT on that buffer, the machine is at [label_a], in the
    instruction set the party's code is compiled to, with the stack
    pointer and the frame pointer the party had. *)
Theorem arm_swap_context_there_and_back (ta tb : bool) (label_a label_b : Z)
    (sa sb : Arm.state) :
  let buf := Arm.regs sa (Arm.R 0) in
  let sp := Arm.regs sa Arm.SP in
  let s1 := Arm.run (Arm.SWAP_CONTEXT ta label_a) sa in
  8 <= sp < 2 ^ 32 ->
  0 <= label_a < 2 ^ 32 -> label_a mod 2 = 0 ->
  Arm.word (Arm.regs sa (Arm.R 11)) ->
  Arm.apart (sp - 8) 8 buf 4 ->
  Arm.regs sb (Arm.R 0) = buf ->
  8 <= Arm.regs sb Arm.SP < 2 ^ 32 ->
  Arm.apart (Arm.regs sb Arm.SP - 8) 8 buf 4 ->
  Arm.apart (Arm.regs sb Arm.SP - 8) 8 (sp - 8) 8 ->
  (forall a, buf <= a < buf + 4 -> Arm.mem sb a = Arm.mem s1 a) ->
  (forall a, sp - 8 <= a < sp -> Arm.mem sb a = Arm.mem s1 a) ->
  Arm.current (Arm.run (Arm.SWAP_CONTEXT tb label_b) sb) =
  Arm.mkContext label_a ta sp (Arm.regs sa (Arm.R 11)).
Proof.
  intros buf sp s1 Hsp Hl He Hfp A1 Hb Hspb B1 B2 Hbuf Hframe.
  destruct (arm_return_value ta label_a (proj1 Hl) He) as (R1 & R2 & R3).
  specialize (R3 (proj2 Hl)).
  destruct (arm_swap_context_run ta label_a sa Hsp) as (_ & _ & _ & _ & _ & E6).
  fold buf sp s1 in E6.
  destruct (arm_pushed buf sp _ _ (Arm.mem sa) Hfp R3 Hsp A1)
    as (P1 & P2 & P3 & _).
  rewrite <- E6 in P1, P2, P3.
  pose proof (arm_resumes tb label_b sb (Arm.mem s1)
                (Arm.mkContext label_a ta sp (Arm.regs sa (Arm.R 11)))
                (Arm.return_value ta label_a)) as H.
  cbv zeta in H. rewrite Hb, P1 in H. unfold Arm.apart in *.
  apply H; trivial; try lia.
  - unfold Arm.suspended. rewrite P1, P2, P3.
    cbn [Arm.saved_sp Arm.saved_r11 Arm.saved_pc Arm.saved_thumb].
    split; [lia |]. split; [reflexivity |]. split; [reflexivity |].
    split; [now rewrite R1 | now rewrite R2].
  - intros a Ha. apply Hframe. lia.
Qed.

Lemma arm_swap_context_there_and_back_witness :
  let sa := Arm.mkState
              (fun r => if Arm.reg_eqb r (Arm.R 0) then 4096
                        else if Arm.reg_eqb r Arm.SP then 9000
                        else if Arm.reg_eqb r (Arm.R 11) then 9100
                        else 0) 100 false (fun _ => 0) in
  let s1 := Arm.run (Arm.SWAP_CONTEXT false 200) sa in
  let sb := Arm.mkState
              (fun r => if Arm.reg_eqb r (Arm.R 0) then 4096
                        else if Arm.reg_eqb r Arm.SP then 5000
                        else 7) 300 true (Arm.mem s1) in
  Arm.current (Arm.run (Arm.SWAP_CONTEXT true 400) sb) =
  Arm.mkContext 200 false 9000 9100.
Proof.
  intros sa s1 sb.
  assert (H0 : 8 <= Arm.regs sa Arm.SP < 2 ^ 32) by (simpl; lia).
  assert (H1 : 0 <= 200 < 2 ^ 32) by lia.
  assert (H2 : 200 mod 2 = 0) by reflexivity.
  assert (H3 : Arm.word (Arm.regs sa (Arm.R 11))) by (unfold Arm.word; simpl; lia).
  assert (H4 : Arm.apart (Arm.regs sa Arm.SP - 8) 8 (Arm.regs sa (Arm.R 0)) 4)
    by (unfold Arm.apart; simpl; lia).
  assert (H5 : Arm.regs sb (Arm.R 0) = Arm.regs sa (Arm.R 0)) by reflexivity.
  assert (H6 : 8 <= Arm.regs sb Arm.SP < 2 ^ 32) by (simpl; lia).
  assert (H7 : Arm.apart (Arm.regs sb Arm.SP - 8) 8 (Arm.regs sa (Arm.R 0)) 4)
    by (unfold Arm.apart; simpl; lia).
  assert (H8 : Arm.apart (Arm.regs sb Arm.SP - 8) 8 (Arm.regs sa Arm.SP - 8) 8)
    by (unfold Arm.apart; simpl; lia).
  assert (H9 : forall a,
             Arm.regs sa (Arm.R 0) <= a < Arm.regs sa (Arm.R 0) + 4 ->
             Arm.mem sb a = Arm.mem (Arm.run (Arm.SWAP_CONTEXT false 200) sa) a)
    by (intros a _; vm_compute; reflexivity).
  assert (H10 : forall a,
             Arm.regs sa Arm.SP - 8 <= a < Arm.regs sa Arm.SP ->
             Arm.mem sb a = Arm.mem (Arm.run (Arm.SWAP_CONTEXT false 200) sa) a)
    by (intros a _; vm_compute; reflexivity).
  exact (arm_swap_context_there_and_back false true 200 400 sa sb
           H0 H1 H2 H3 H4 H5 H6 H7 H8 H9 H10).
Defined.

Lemma arm_bootstrap_context_run (t : bool) (label_0 : Z) (s : Arm.state) :
  let buf := Arm.regs s (Arm.R 0) in
  let sp := Arm.regs s Arm.SP in
  8 <= sp < 2 ^ 32 ->
  let m2 := Bytes.store 4 buf (sp - 8)
              (Bytes.store 4 (sp - 8 + 4) (Arm.return_value t label_0)
                 (Bytes.store 4 (sp - 8) (Arm.regs s (Arm.R 11)) (Arm.mem s))) in
  let s' := Arm.run (Arm.BOOTSTRAP_CONTEXT t label_0) s in
  Arm.pc s' = 2 * (Arm.regs s (Arm.R 1) / 2)
  /\ Arm.thumb s' = Z.odd (Arm.regs s (Arm.R 1))
  /\ Arm.regs s' (Arm.R 0) = buf
  /\ Arm.regs s' Arm.SP = buf
  /\ Arm.mem s' = m2.
Proof.
  intros buf sp Hsp m2 s'.
  assert (Wd : Arm.wrap (sp - 8) = sp - 8) by (apply arm_wrap_small; lia).
  unfold s', Arm.run, Arm.BOOTSTRAP_CONTEXT, Arm.SET_LSB_IN_LR_IF_THUMB.
  destruct t;
    cbn [app fold_left Arm.exec_instr Arm.branch Arm.set_reg Arm.set_mem
         Arm.regs Arm.pc Arm.thumb Arm.mem Arm.reg_eqb Nat.eqb];
    fold buf sp; rewrite Wd; repeat split; reflexivity.
Qed.

(** BOOTSTRAP_CONTEXT on arm suspends the caller as SWAP_CONTEXT does (frame
    pointer and return value pushed on its stack, stack pointer left in
    the buffer) and branches to the function with the address of the
    buffer as its first argument (r0) and as its stack pointer, in the
    instruction set bit 0 of the function pointer names.  Only the buffer
    and the 8 bytes below the caller's stack pointer are written; and the
    first SWAP_CONTEXT executed on the buffer by the new stack, the buffer
    and the two pushed words being as they were left, goes on at the end
    of the block with the stack and frame pointers of the caller. *)
Theorem arm_bootstrap_context_enters (t : bool) (label_0 : Z) (s : Arm.state) :
  let buf := Arm.regs s (Arm.R 0) in
  let sp := Arm.regs s Arm.SP in
  let func := Arm.regs s (Arm.R 1) in
  let caller := Arm.mkContext label_0 t sp (Arm.regs s (Arm.R 11)) in
  8 <= sp < 2 ^ 32 ->
  0 <= label_0 < 2 ^ 32 -> label_0 mod 2 = 0 ->
  Arm.word (Arm.regs s (Arm.R 11)) ->
  Arm.apart (sp - 8) 8 buf 4 ->
  let s' := Arm.run (Arm.BOOTSTRAP_CONTEXT t label_0) s in
  Arm.pc s' = 2 * (func / 2)
  /\ Arm.thumb s' = Z.odd func
  /\ Arm.regs s' (Arm.R 0) = buf
  /\ Arm.regs s' Arm.SP = buf
  /\ Arm.suspended (Arm.mem s') buf caller (Arm.return_value t label_0)
  /\ (forall a,
        a < buf \/ buf + 4 <= a -> a < sp - 8 \/ sp <= a ->
        Arm.mem s' a = Arm.mem s a)
  /\ (forall t' label' sc,
        Arm.regs sc (Arm.R 0) = buf ->
        8 <= Arm.regs sc Arm.SP < 2 ^ 32 ->
        Arm.apart (Arm.regs sc Arm.SP - 8) 8 buf 4 ->
        Arm.apart (Arm.regs sc Arm.SP - 8) 8 (sp - 8) 8 ->
        (forall a, buf <= a < buf + 4 -> Arm.mem sc a = Arm.mem s' a) ->
        (forall a, sp - 8 <= a < sp -> Arm.mem sc a = Arm.mem s' a) ->
        Arm.current (Arm.run (Arm.SWAP_CONTEXT t' label') sc) = caller).
Proof.
  intros buf sp func caller Hsp Hl He Hfp A1 s'.
  destruct (arm_return_value t label_0 (proj1 Hl) He) as (R1 & R2 & R3).
  specialize (R3 (proj2 Hl)).
  destruct (arm_bootstrap_context_run t label_0 s Hsp) as (E1 & E2 & E3 & E4 & E5).
  fold buf sp func s' in E1, E2, E3, E4, E5.
  destruct (arm_pushed buf sp _ _ (Arm.mem s) Hfp R3 Hsp A1)
    as (P1 & P2 & P3 & Pframe).
  rewrite <- E5 in P1, P2, P3, Pframe.
  assert (Hsus : Arm.suspended (Arm.mem s') buf caller (Arm.return_value t label_0)).
  { unfold Arm.suspended. rewrite P1, P2, P3.
    cbn [caller Arm.saved_sp Arm.saved_r11 Arm.saved_pc Arm.saved_thumb].
    split; [lia |]. split; [reflexivity |]. split; [reflexivity |].
    split; [now rewrite R1 | now rewrite R2]. }
  split; [exact E1 |]. split; [exact E2 |]. split; [exact E3 |].
  split; [exact E4 |]. split; [exact Hsus |]. split; [exact Pframe |].
  intros t' label' sc Hb Hspc B1 B2 Hbuf Hframe.
  pose proof (arm_resumes t' label' sc (Arm.mem s') caller
                (Arm.return_value t label_0)) as H.
  cbv zeta in H. rewrite Hb, P1 in H. unfold Arm.apart in *.
  apply H; trivial; try lia.
  intros a Ha. apply Hframe. lia.
Qed.

Lemma arm_bootstrap_context_enters_witness :
  let s := Arm.mkState
             (fun r => if Arm.reg_eqb r (Arm.R 0) then 4096
                       else if Arm.reg_eqb r (Arm.R 1) then 701
                       else if Arm.reg_eqb r Arm.SP then 9000
                       else 0) 100 true (fun _ => 0) in
  let s' := Arm.run (Arm.BOOTSTRAP_CONTEXT true 200) s in
  Arm.pc s' = 700 /\ Arm.thumb s' = true
  /\ Arm.regs s' (Arm.R 0) = 4096 /\ Arm.regs s' Arm.SP = 4096.
Proof.
  intros s s'.
  assert (H0 : 8 <= Arm.regs s Arm.SP < 2 ^ 32) by (simpl; lia).
  assert (H1 : 0 <= 200 < 2 ^ 32) by lia.
  assert (H2 : 200 mod 2 = 0) by reflexivity.
  assert (H3 : Arm.word (Arm.regs s (Arm.R 11))) by (unfold Arm.word; simpl; lia).
  assert (H4 : Arm.apart (Arm.regs s Arm.SP - 8) 8 (Arm.regs s (Arm.R 0)) 4)
    by (unfold Arm.apart; simpl; lia).
  destruct (arm_bootstrap_context_enters true 200 s H0 H1 H2 H3 H4)
    as (E1 & E2 & E3 & E4 & _).
  split; [exact E1 | split; [exact E2 | split; [exact E3 | exact E4]]].
Defined.

(** * The ucontext backend: proofs *)

Lemma ucontext_exec_bind {A B : Type} (m : Ucontext.act A)
    (k : A -> Ucontext.act B) (s : Ucontext.store) :
  Ucontext.exec (Ucontext.bind m k) s =
  match Ucontext.exec m s with
  | Ucontext.Finished a s' => Ucontext.exec (k a) s'
  | Ucontext.AtGet r m' s' => Ucontext.AtGet r (Ucontext.bind m' k) s'
  | Ucontext.AtSwap b t m' s' => Ucontext.AtSwap b t (Ucontext.bind m' k) s'
  | Ucontext.AtSet t s' => Ucontext.AtSet t s'
  | Ucontext.AtCall f arg m' s' => Ucontext.AtCall f arg (Ucontext.bind m' k) s'
  | Ucontext.Stopped r s' => Ucontext.Stopped r s'
  end.
Proof.
  revert s. induction m as [a | X o h IH]; intros s; simpl.
  - reflexivity.
  - destruct (Ucontext.handle o s); auto.
Qed.

Lemma ucontext_release_exec (s : Ucontext.store) :
  Ucontext.exec Ucontext.release s = Ucontext.Finished tt (Ucontext.released s).
Proof.
  unfold Ucontext.release, Ucontext.released. crunch.
Qed.

Lemma ucontext_swap_exec (s : Ucontext.store) :
  Ucontext.exec Ucontext.swap_context_symmetric s =
  Ucontext.AtSwap (Ucontext.next s) (Ucontext.inactive (Ucontext.chan s))
    (Ucontext.perform (Ucontext.Leave (Ucontext.next s)))
    (Ucontext.swapping s).
Proof. reflexivity. Qed.

Lemma ucontext_coroutine_switch_exec (s : Ucontext.store) :
  Ucontext.exec Ucontext.coroutine_switch s =
  if Ucontext.func (Ucontext.chan s) =? NULL then Ucontext.Finished tt s
  else Ucontext.AtSwap (Ucontext.next s) (Ucontext.inactive (Ucontext.chan s))
         (Ucontext.perform (Ucontext.Leave (Ucontext.next s)))
         (Ucontext.swapping s).
Proof. unfold Ucontext.coroutine_switch. crunch. Qed.

Lemma ucontext_from_rest_exec (nf : ptr) (s : Ucontext.store) :
  Ucontext.exec (Ucontext.from_rest nf) s =
  if Ucontext.func (Ucontext.chan s) =? NULL
  then Ucontext.Finished NULL (Ucontext.released s)
  else Ucontext.Finished (Ucontext.value (Ucontext.chan s))
         (Ucontext.written Value nf s).
Proof.
  unfold Ucontext.from_rest, Ucontext.released, Ucontext.written. crunch.
Qed.

Lemma ucontext_from_exec (nf : ptr) (s : Ucontext.store) :
  Ucontext.exec (Ucontext.from nf) s =
  if negb (Ucontext.func (Ucontext.chan s) =? NULL)
     && (nf =? Ucontext.value (Ucontext.chan s))
  then Ucontext.AtSwap (Ucontext.next s) (Ucontext.inactive (Ucontext.chan s))
         (Ucontext.bind (Ucontext.perform (Ucontext.Leave (Ucontext.next s)))
            (fun _ => Ucontext.from_rest nf))
         (Ucontext.swapping s)
  else Ucontext.exec (Ucontext.from_rest nf) s.
Proof.
  unfold Ucontext.from. cbn -[Ucontext.from_rest].
  destruct (Ucontext.func (Ucontext.chan s) =? NULL) eqn:Hf;
    cbn -[Ucontext.from_rest].
  - reflexivity.
  - destruct (nf =? Ucontext.value (Ucontext.chan s)); reflexivity.
Qed.

(** ** Stores that agree *)

Lemma visibly_app (a b : list event) : visibly (a ++ b) = visibly a ++ visibly b.
Proof. apply filter_app. Qed.

(** Only the fields, the party that runs and the trace count. *)
Lemma uagree_same sn su su' :
  Ucontext.func (Ucontext.chan su') = Ucontext.func (Ucontext.chan su) ->
  Ucontext.value (Ucontext.chan su') = Ucontext.value (Ucontext.chan su) ->
  Ucontext.free_after (Ucontext.chan su') = Ucontext.free_after (Ucontext.chan su) ->
  Ucontext.free_func (Ucontext.chan su') = Ucontext.free_func (Ucontext.chan su) ->
  Ucontext.turn su' = Ucontext.turn su ->
  Ucontext.trace su' = Ucontext.trace su ->
  uagree sn su -> uagree sn su'.
Proof.
  intros E1 E2 E3 E4 E5 E6 [Hf Hv Ha Hff Ht Htr].
  constructor; congruence.
Qed.

Lemma uagree_record sn su (e : party -> event) :
  uagree sn su ->
  uagree (record (e (turn sn)) sn) (Ucontext.record (e (Ucontext.turn su)) su).
Proof.
  intros [Hf Hv Ha Hff Ht Htr]. constructor; simpl; trivial.
  rewrite !visibly_app, Htr, Ht. reflexivity.
Qed.

Lemma uagree_written sn su (f : field) (v : ptr) :
  uagree sn su -> uagree (written f v sn) (Ucontext.written f v su).
Proof.
  intros [Hf Hv Ha Hff Ht Htr].
  destruct f; constructor; simpl; trivial;
    rewrite !visibly_app, Htr, Ht; reflexivity.
Qed.

Lemma uagree_released sn su :
  uagree sn su -> uagree (released sn) (Ucontext.released su).
Proof.
  intros H. unfold released, Ucontext.released.
  rewrite <- (ua_free_func _ _ H).
  destruct (free_func (chan sn) =? NULL); [exact H |].
  rewrite <- (ua_free_after _ _ H).
  exact (uagree_record sn su
           (fun who => Freed who (free_func (chan sn)) (free_after (chan sn))) H).
Qed.

(** The context switch: the assembly backend logs the switch, the ucontext
    backend declares [buf], points the record to it and logs the switch. *)
Lemma uagree_swapping sn su :
  uagree sn su ->
  uagree (record (Switched (turn sn)) sn) (Ucontext.swapping su).
Proof.
  intros [Hf Hv Ha Hff Ht Htr]. constructor; simpl; trivial.
  rewrite !visibly_app, Htr. reflexivity.
Qed.

Lemma kept_refl su : kept su su.
Proof. repeat split. Qed.

Lemma kept_trans su su1 su2 : kept su su1 -> kept su1 su2 -> kept su su2.
Proof.
  intros (A1 & A2 & A3) (B1 & B2 & B3). repeat split; congruence.
Qed.

Lemma handed_swapping su : handed su (Ucontext.swapping su).
Proof. repeat split. Qed.

Lemma handed_kept su su1 su' : kept su su1 -> handed su1 su' -> handed su su'.
Proof.
  intros (A1 & A2 & A3) (B1 & B2 & B3). unfold handed.
  rewrite B1, B2, B3, A2. repeat split.
  unfold Ucontext.entered. simpl. rewrite A1, A2. reflexivity.
Qed.

Lemma umatched_kept nf bound su su1 on ou :
  kept su su1 -> umatched nf bound su1 on ou -> umatched nf bound su on ou.
Proof.
  intros K H. destruct on, ou; simpl in *; trivial.
  - destruct H as [H1 H2]. split; [exact H1 | exact (kept_trans _ _ _ K H2)].
  - destruct H as (uu & H1 & H2 & H3 & H4 & H5 & H6).
    exists uu. split; [exact H1 |]. split; [exact H2 |].
    split; [destruct K as (K1 & K2 & K3); congruence |].
    split; [destruct K as (K1 & K2 & K3); congruence |].
    split; [exact H5 | exact (handed_kept _ _ _ K H6)].
  - destruct H as (H1 & H2 & H3 & H4 & H5 & H6).
    do 5 (split; trivial). exact (kept_trans _ _ _ K H6).
Qed.

Lemma kept_record su e : kept su (Ucontext.record e su).
Proof. repeat split. Qed.

Lemma kept_written su f v : kept su (Ucontext.written f v su).
Proof. destruct f; repeat split. Qed.

Lemma kept_released su : kept su (Ucontext.released su).
Proof.
  unfold Ucontext.released.
  destruct (Ucontext.free_func (Ucontext.chan su) =? NULL); repeat split.
Qed.
(** ** The code of the two backends, call by call *)

Section ULockstep.

Variable not_filled : ptr.

Variable bound : nat.

Local Abbreviation ndenote := (denote not_filled bound).

Local Abbreviation udenote := (Ucontext.denote not_filled bound).

Local Abbreviation matched := (umatched not_filled bound).

Lemma ulockstep_from_rest (k : ptr -> prog) :
  (forall v sn su, uagree sn su ->
     matched su (exec (ndenote (k v)) sn) (Ucontext.exec (udenote (k v)) su)) ->
  forall sn su,
    uagree sn su ->
    matched su
      (exec (waiting_in_from not_filled
               (fun v => perform (SayGot v) ;; ndenote (k v))) sn)
      (Ucontext.exec
         (Ucontext.bind (Ucontext.from_rest not_filled)
            (fun v =>
               Ucontext.bind (Ucontext.perform (Ucontext.SayGot v))
                 (fun _ => udenote (k v)))) su).
Proof.
  intros IH sn su H. unfold waiting_in_from.
  rewrite exec_bind, from_rest_exec, ucontext_exec_bind, ucontext_from_rest_exec.
  rewrite <- (ua_func _ _ H), <- (ua_value _ _ H).
  destruct (func (chan sn) =? NULL) eqn:Hf.
  - cbn -[denote Ucontext.denote].
    apply (umatched_kept _ _ su
             (Ucontext.record (Got (Ucontext.turn (Ucontext.released su)) NULL)
                (Ucontext.released su))).
    + apply (kept_trans _ (Ucontext.released su));
        [apply kept_released | apply kept_record].
    + apply IH.
      exact (uagree_record _ _ (fun who => Got who NULL)
               (uagree_released _ _ H)).
  - cbn -[denote Ucontext.denote].
    apply (umatched_kept _ _ su
             (Ucontext.record
                (Got (Ucontext.turn (Ucontext.written Value not_filled su))
                   (value (chan sn)))
                (Ucontext.written Value not_filled su))).
    + apply (kept_trans _ (Ucontext.written Value not_filled su));
        [apply kept_written | apply kept_record].
    + apply IH.
      exact (uagree_record _ _ (fun who => Got who (value (chan sn)))
               (uagree_written _ _ Value not_filled H)).
Qed.

Lemma ulockstep_close (k : prog) :
  (forall sn su, uagree sn su ->
     matched su (exec (ndenote k) sn) (Ucontext.exec (udenote k) su)) ->
  forall n sn su,
    uagree sn su ->
    matched su
      (exec (close_and_join n ;; ndenote k) sn)
      (Ucontext.exec
         (Ucontext.bind (Ucontext.close_and_join n) (fun _ => udenote k)) su).
Proof.
  intros IH n sn su H.
  assert (Hfn := ua_func _ _ H).
  destruct n as [| n];
    cbn -[denote release yield_to Ucontext.denote Ucontext.release
          Ucontext.yield_to];
    rewrite <- Hfn; destruct (func (chan sn) =? NULL) eqn:Hf.
  - rewrite exec_bind, release_exec, ucontext_exec_bind, ucontext_release_exec.
    apply (umatched_kept _ _ su (Ucontext.released su)); [apply kept_released |].
    apply IH. now apply uagree_released.
  - simpl. split; [reflexivity | exact H].
  - rewrite exec_bind, release_exec, ucontext_exec_bind, ucontext_release_exec.
    apply (umatched_kept _ _ su (Ucontext.released su)); [apply kept_released |].
    apply IH. now apply uagree_released.
  - simpl.
    exists (Ucontext.bind (Ucontext.close_and_join n) (fun _ => udenote k)).
    split; [apply same_uclose |]. do 3 (split; [reflexivity |]).
    split; [| repeat split].
    exact (uagree_swapping _ _ (uagree_written _ _ Value NULL H)).
Qed.

Lemma ulockstep_denote (p : prog) :
  forall sn su,
    uagree sn su ->
    matched su (exec (ndenote p) sn) (Ucontext.exec (udenote p) su).
Proof.
  induction p as [| v k IH | k IH | k IH | k IH | f arg]; intros sn su H.
  - simpl. split; [exact H | apply kept_refl].
  - simpl. exists (udenote k).
    split; [apply same_udenote |]. do 3 (split; [reflexivity |]).
    split; [| repeat split].
    exact (uagree_swapping _ _
             (uagree_written _ _ Value v
                (uagree_record _ _ (fun who => Yielded who v) H))).
  - change (ndenote (From k))
      with (v <- from not_filled ;; perform (SayGot v) ;; ndenote (k v)).
    change (udenote (From k))
      with (Ucontext.bind (Ucontext.from not_filled)
              (fun v => Ucontext.bind (Ucontext.perform (Ucontext.SayGot v))
                          (fun _ => udenote (k v)))).
    rewrite exec_bind, from_exec, ucontext_exec_bind, ucontext_from_exec.
    rewrite <- (ua_func _ _ H), <- (ua_value _ _ H).
    destruct (negb (func (chan sn) =? NULL) && (not_filled =? value (chan sn))).
    + cbn -[denote Ucontext.denote from_rest Ucontext.from_rest].
      exists (Ucontext.bind (Ucontext.from_rest not_filled)
                (fun v => Ucontext.bind (Ucontext.perform (Ucontext.SayGot v))
                            (fun _ => udenote (k v)))).
      split; [apply same_ufrom |]. do 3 (split; [reflexivity |]).
      split; [| repeat split].
      exact (uagree_swapping _ _ H).
    + rewrite <- exec_bind, <- ucontext_exec_bind.
      apply (ulockstep_from_rest k IH sn su H).
  - change (ndenote (Coroutine_switch k))
      with (coroutine_switch ;; ndenote k).
    change (udenote (Coroutine_switch k))
      with (Ucontext.bind Ucontext.coroutine_switch (fun _ => udenote k)).
    rewrite exec_bind, coroutine_switch_exec, ucontext_exec_bind,
      ucontext_coroutine_switch_exec.
    rewrite <- (ua_func _ _ H).
    destruct (func (chan sn) =? NULL).
    + apply IH, H.
    + cbn -[denote Ucontext.denote]. exists (udenote k).
      split; [apply same_udenote |]. do 3 (split; [reflexivity |]).
      split; [| repeat split].
      exact (uagree_swapping _ _ H).
  - apply (ulockstep_close k IH bound sn su H).
  - simpl. do 4 (split; [reflexivity |]).
    split; [| repeat split].
    exact (uagree_record _ _ (fun who => Called who f arg) H).
Qed.

(** From stores that agree, the code of the two backends runs to the same
    place, through the same visible events. *)
Lemma ulockstep (un : act unit) (uu : Ucontext.act unit) :
  same_ucode not_filled bound un uu ->
  forall sn su,
    uagree sn su ->
    matched su (exec un sn) (Ucontext.exec uu su).
Proof.
  intros [p | k | n k | block free p |] sn su H.
  - now apply ulockstep_denote.
  - apply ulockstep_from_rest; trivial. intros v. apply ulockstep_denote.
  - apply ulockstep_close; trivial. apply ulockstep_denote.
  - change (exec (setting_hooks not_filled bound block free p) sn)
      with (exec (ndenote p)
              (written Free_func free (written Free_after block sn))).
    change (Ucontext.exec
              (Ucontext.setting_hooks not_filled bound block free p) su)
      with (Ucontext.exec (udenote p)
              (Ucontext.written Free_func free
                 (Ucontext.written Free_after block su))).
    apply (umatched_kept _ _ su
             (Ucontext.written Free_func free
                (Ucontext.written Free_after block su))).
    + apply (kept_trans _ (Ucontext.written Free_after block su));
        apply kept_written.
    + apply ulockstep_denote. now do 2 apply uagree_written.
  - simpl. split; [exact (ua_func _ _ H) |]. split; [exact (ua_value _ _ H) |].
    do 2 (split; [reflexivity |]). split; [| repeat split].
    destruct H as [Hf Hv Ha Hff Ht Htr]. constructor; simpl; trivial.
    rewrite !visibly_app, Htr, Ht, Hf, Hv. reflexivity.
Qed.

End ULockstep.
(** ** Leaving the scope of the saved contexts *)

Lemma ucontext_exec_leaving (l : list Ucontext.ref) (k : Ucontext.act unit)
    (s : Ucontext.store) :
  Ucontext.exec (Ucontext.leaving l k) s = Ucontext.exec k (Ucontext.left l s).
Proof.
  revert s. induction l as [| r l IH]; intros s; [reflexivity |].
  simpl. apply IH.
Qed.

Lemma left_chan l s : Ucontext.chan (Ucontext.left l s) = Ucontext.chan s.
Proof. revert s. induction l as [| r l IH]; intros s; [| simpl; rewrite IH]; reflexivity. Qed.

Lemma left_next l s : Ucontext.next (Ucontext.left l s) = Ucontext.next s.
Proof. revert s. induction l as [| r l IH]; intros s; [| simpl; rewrite IH]; reflexivity. Qed.

Lemma left_turn l s : Ucontext.turn (Ucontext.left l s) = Ucontext.turn s.
Proof. revert s. induction l as [| r l IH]; intros s; [| simpl; rewrite IH]; reflexivity. Qed.

Lemma left_trace l s : Ucontext.trace (Ucontext.left l s) = Ucontext.trace s.
Proof. revert s. induction l as [| r l IH]; intros s; [| simpl; rewrite IH]; reflexivity. Qed.

(** A variable that is not left keeps what it holds. *)
Lemma left_other l s r :
  ~ In r l -> Ucontext.objects (Ucontext.left l s) r = Ucontext.objects s r.
Proof.
  revert s. induction l as [| x l IH]; intros s Hn; [reflexivity |].
  simpl. rewrite IH by (intros Hin; apply Hn; now right).
  simpl. destruct (Nat.eqb r x) eqn:E; [| reflexivity].
  apply Nat.eqb_eq in E. exfalso. apply Hn. now left.
Qed.

(** A variable out of scope stays so, and a variable that is left is out
    of scope. *)
Lemma left_out l s r :
  In r l \/ Ucontext.objects s r = Ucontext.Out_of_scope ->
  Ucontext.objects (Ucontext.left l s) r = Ucontext.Out_of_scope.
Proof.
  revert s. induction l as [| x l IH]; intros s H.
  - destruct H as [[] | H]. exact H.
  - simpl. apply IH. destruct H as [[-> | H] | H].
    + right. simpl. now rewrite Nat.eqb_refl.
    + now left.
    + right. simpl. destruct (Nat.eqb r x); trivial.
Qed.

Lemma below_not_in (r : nat) (l : list nat) :
  Forall (fun x => (x < r)%nat) l -> ~ In r l.
Proof.
  intros H Hin. rewrite Forall_forall in H. specialize (H r Hin). lia.
Qed.

Lemma uagree_left sn su l : uagree sn su -> uagree sn (Ucontext.left l su).
Proof.
  apply uagree_same; now rewrite ?left_chan, ?left_turn, ?left_trace.
Qed.

(** ** User code leaves the saved context of the assembly backend alone *)

Lemma same_ucode_keeps nf bound (un : act unit) (uu : Ucontext.act unit)
    (sn : store) :
  same_ucode nf bound un uu ->
  context_inactive (chan (outcome_store (exec un sn))) =
  context_inactive (chan sn).
Proof.
  assert (U : forall u s, user_code nf bound u ->
              context_inactive (chan (outcome_store (exec u s))) =
              context_inactive (chan s)).
  { intros u s Hu.
    pose proof (reach_frame _ _ _
                  (lands_reach _ _ _ _ (user_code_lands nf bound u s Hu))) as F.
    apply (fr_context _ _ F). }
  intros [p | k | n k | block free p |].
  - apply U, uc_denote.
  - apply U, uc_from.
  - apply U, uc_close.
  - change (exec (setting_hooks nf bound block free p) sn)
      with (exec (denote nf bound p)
              (written Free_func free (written Free_after block sn))).
    rewrite (U _ (written Free_func free (written Free_after block sn))
               (uc_denote nf bound p)).
    reflexivity.
  - reflexivity.
Qed.

Lemma peer_peer (t : party) : peer (peer t) = t.
Proof. destruct t; reflexivity. Qed.
(** ** One step of each backend *)

Ltac uagree_after Ha :=
  let Hf := fresh in let Hv := fresh in let Hfa := fresh in
  let Hff := fresh in let Ht := fresh in let Htr := fresh in
  destruct Ha as [Hf Hv Hfa Hff Ht Htr]; constructor; simpl; trivial;
  try (now rewrite Ht); try (rewrite ?visibly_app, ?Htr, ?Ht; reflexivity).

Section USimulation.

Variable not_filled : ptr.

Variable bound : nat.

Variable functions : program.

Local Abbreviation ntext := (text_of not_filled bound functions).

Local Abbreviation utext := (Ucontext.text_of not_filled bound functions).

Local Abbreviation usim' := (usim not_filled bound).

(** While the child has not returned. *)
Lemma usim_alive_step mu m t un uu vn vu r lr ls :
  running m = (un ;; tail t) ->
  Ucontext.running mu =
    Ucontext.leaving lr (Ucontext.bind uu (fun _ => Ucontext.tail t)) ->
  same_ucode not_filled bound un uu ->
  context_inactive (chan (mem m)) = (vn ;; tail (peer t)) ->
  Ucontext.inactive (Ucontext.chan (Ucontext.mem mu)) = Some r ->
  Ucontext.objects (Ucontext.mem mu) r =
    Ucontext.Saved
      (Ucontext.leaving (r :: ls)
         (Ucontext.bind vu (fun _ => Ucontext.tail (peer t)))) ->
  same_ucode not_filled bound vn vu ->
  Forall (fun x => (x < r)%nat) lr ->
  Forall (fun x => (x < r)%nat) ls ->
  (r < Ucontext.next (Ucontext.mem mu))%nat ->
  uagree (mem m) (Ucontext.mem mu) ->
  usim' (Ucontext.step not_filled utext mu) (step not_filled ntext m).
Proof.
  intros Hrun Hrunu Hu Hctx Hin Hobj Hv Hlr Hls Hnext Hag.
  unfold step, Ucontext.step.
  rewrite Hrun, Hrunu, exec_bind, ucontext_exec_leaving, ucontext_exec_bind.
  pose proof (ulockstep not_filled bound un uu Hu (mem m)
                (Ucontext.left lr (Ucontext.mem mu))
                (uagree_left _ _ lr Hag)) as M.
  pose proof (same_ucode_keeps not_filled bound un uu (mem m) Hu) as K.
  assert (Hobj1 : Ucontext.objects (Ucontext.left lr (Ucontext.mem mu)) r =
                  Ucontext.objects (Ucontext.mem mu) r)
    by (apply left_other, below_not_in, Hlr).
  destruct (exec un (mem m)) as [a s | k s | k s | f a k s | rs s];
    destruct (Ucontext.exec uu (Ucontext.left lr (Ucontext.mem mu)))
      as [a0 s0 | r0 k0 s0 | b tmp k0 s0 | tmp s0 | f0 a0 k0 s0 | rs0 s0];
    simpl in M; try contradiction; simpl in K.
  - (* the user code of the running party has returned *)
    destruct M as [Ha (K1 & K2 & K3)].
    destruct t.
    + simpl. apply usim_exited, (ua_trace _ _ Ha).
    + cbn -[Nat.eqb]. rewrite K3, left_chan, Hin. cbn -[Nat.eqb].
      rewrite K1, Hobj1, Hobj.
      apply (usim_done not_filled bound _ _ vn vu r (r :: ls)); simpl; trivial.
      * rewrite K. exact Hctx.
      * left. now left.
      * rewrite K2, left_next. exact Hnext.
      * uagree_after Ha.
  - (* a context switch *)
    destruct M as (uu' & Hk & -> & -> & -> & Ha & (S1 & S2 & S3)).
    cbn -[Nat.eqb]. rewrite S1. cbn -[Nat.eqb].
    rewrite left_next, Nat.eqb_refl, left_chan, Hin. cbn -[Nat.eqb].
    rewrite S1. cbn -[Nat.eqb]. rewrite left_next.
    assert (Hne : Nat.eqb r (Ucontext.next (Ucontext.mem mu)) = false)
      by (apply Nat.eqb_neq; lia).
    rewrite Hne, Hobj1, Hobj.
    apply (usim_alive not_filled bound _ _ (peer t) vn vu k uu'
             (Ucontext.next (Ucontext.mem mu)) (r :: ls) []);
      simpl; trivial.
    + rewrite K. exact Hctx.
    + rewrite peer_peer. reflexivity.
    + rewrite S3, left_next. reflexivity.
    + rewrite Nat.eqb_refl, peer_peer. reflexivity.
    + constructor; [exact Hnext |].
      eapply Forall_impl; [| exact Hls]. simpl. intros x Hx. lia.
    + rewrite S2, left_next. lia.
    + uagree_after Ha.
  - (* a call through a function pointer *)
    destruct M as (<- & <- & -> & -> & Ha & (K1 & K2 & K3)).
    unfold text_of, Ucontext.text_of.
    destruct (functions f) as [body |].
    + apply (usim_alive not_filled bound _ _ t
               (denote not_filled bound (body a))
               (Ucontext.denote not_filled bound (body a)) vn vu r [] ls);
        simpl; trivial.
      * apply same_udenote.
      * rewrite K. exact Hctx.
      * rewrite K3, left_chan. exact Hin.
      * rewrite K1, Hobj1. exact Hobj.
      * rewrite K2, left_next. exact Hnext.
    + apply usim_halted, (ua_trace _ _ Ha).
  - destruct M as [<- Ha]. apply usim_halted, (ua_trace _ _ Ha).
Qed.

(** Once the child has returned. *)
Lemma usim_done_step mu m vn vu r lr :
  running m = (vn ;; Ret tt) ->
  Ucontext.running mu =
    Ucontext.leaving lr (Ucontext.bind vu (fun _ => Ucontext.Ret tt)) ->
  same_ucode not_filled bound vn vu ->
  context_inactive (chan (mem m)) = never Unreachable ->
  Ucontext.inactive (Ucontext.chan (Ucontext.mem mu)) = Some r ->
  In r lr \/ Ucontext.objects (Ucontext.mem mu) r = Ucontext.Out_of_scope ->
  (r < Ucontext.next (Ucontext.mem mu))%nat ->
  uagree (mem m) (Ucontext.mem mu) ->
  usim' (Ucontext.step not_filled utext mu) (step not_filled ntext m).
Proof.
  intros Hrun Hrunu Hv Hctx Hin Hout Hnext Hag.
  unfold step, Ucontext.step.
  rewrite Hrun, Hrunu, exec_bind, ucontext_exec_leaving, ucontext_exec_bind.
  pose proof (ulockstep not_filled bound vn vu Hv (mem m)
                (Ucontext.left lr (Ucontext.mem mu))
                (uagree_left _ _ lr Hag)) as M.
  pose proof (same_ucode_keeps not_filled bound vn vu (mem m) Hv) as K.
  pose proof (left_out lr (Ucontext.mem mu) r Hout) as Hobj1.
  destruct (exec vn (mem m)) as [a s | k s | k s | f a k s | rs s];
    destruct (Ucontext.exec vu (Ucontext.left lr (Ucontext.mem mu)))
      as [a0 s0 | r0 k0 s0 | b tmp k0 s0 | tmp s0 | f0 a0 k0 s0 | rs0 s0];
    simpl in M; try contradiction; simpl in K.
  - destruct M as [Ha _]. simpl. apply usim_exited, (ua_trace _ _ Ha).
  - (* a switch into the context the child left *)
    destruct M as (uu' & Hk & -> & -> & -> & Ha & (S1 & S2 & S3)).
    cbn -[Nat.eqb]. rewrite S1. cbn -[Nat.eqb].
    rewrite left_next, Nat.eqb_refl, left_chan, Hin. cbn -[Nat.eqb].
    rewrite S1. cbn -[Nat.eqb]. rewrite left_next.
    assert (Hne : Nat.eqb r (Ucontext.next (Ucontext.mem mu)) = false)
      by (apply Nat.eqb_neq; lia).
    rewrite Hne, Hobj1.
    apply usim_lost; simpl.
    + rewrite K. exact Hctx.
    + apply (ua_trace _ _ Ha).
  - destruct M as (<- & <- & -> & -> & Ha & (K1 & K2 & K3)).
    unfold text_of, Ucontext.text_of.
    destruct (functions f) as [body |].
    + apply (usim_done not_filled bound _ _
               (denote not_filled bound (body a))
               (Ucontext.denote not_filled bound (body a)) r []);
        simpl; trivial.
      * apply same_udenote.
      * rewrite K. exact Hctx.
      * rewrite K3, left_chan. exact Hin.
      * right. rewrite K1. exact Hobj1.
      * rewrite K2, left_next. exact Hnext.
    + apply usim_halted, (ua_trace _ _ Ha).
  - destruct M as [<- Ha]. apply usim_halted, (ua_trace _ _ Ha).
Qed.

(** The two backends stay side by side. *)
Lemma usim_step ust st :
  usim' ust st ->
  usim' (unext not_filled utext ust) (next not_filled ntext st).
Proof.
  intros H. destruct H.
  - eapply usim_alive_step; eassumption.
  - eapply usim_done_step; eassumption.
  - simpl. unfold step. rewrite H. simpl. now apply usim_halted.
  - simpl. now apply usim_exited.
  - simpl. now apply usim_halted.
Qed.

Lemma native_run_next (text : ptr -> option (ptr -> act unit)) (n : nat)
    (m : machine) :
  run not_filled text (S n) m = next not_filled text (run not_filled text n m).
Proof.
  revert m. induction n as [| n IH]; intros m.
  - simpl. destruct (step not_filled text m); reflexivity.
  - change (run not_filled text (S (S n)) m)
      with (match step not_filled text m with
            | Continue m' => run not_filled text (S n) m'
            | st => st
            end).
    change (run not_filled text (S n) m)
      with (match step not_filled text m with
            | Continue m' => run not_filled text n m'
            | st => st
            end).
    destruct (step not_filled text m); [apply IH | reflexivity | reflexivity].
Qed.

Lemma ucontext_run_next (text : ptr -> option (ptr -> Ucontext.act unit))
    (n : nat) (m : Ucontext.machine) :
  Ucontext.run not_filled text (S n) m =
  unext not_filled text (Ucontext.run not_filled text n m).
Proof.
  revert m. induction n as [| n IH]; intros m.
  - simpl. destruct (Ucontext.step not_filled text m); reflexivity.
  - change (Ucontext.run not_filled text (S (S n)) m)
      with (match Ucontext.step not_filled text m with
            | Ucontext.Continue m' => Ucontext.run not_filled text (S n) m'
            | st => st
            end).
    change (Ucontext.run not_filled text (S n) m)
      with (match Ucontext.step not_filled text m with
            | Ucontext.Continue m' => Ucontext.run not_filled text n m'
            | st => st
            end).
    destruct (Ucontext.step not_filled text m);
      [apply IH | reflexivity | reflexivity].
Qed.

(** What the relation says of two states. *)
Lemma usim_trace ust st :
  usim' ust st ->
  visibly (trace (store_of st)) =
  visibly (Ucontext.trace (Ucontext.store_of ust)).
Proof.
  intros H. destruct H; simpl; trivial;
    match goal with
    | Ha : uagree _ _ |- _ => apply (ua_trace _ _ Ha)
    end.
Qed.

Lemma usim_exit ust st :
  usim' ust st -> (Ucontext.has_exited ust <-> has_exited st).
Proof. intros H. destruct H; simpl; tauto. Qed.

Lemma usim_halt ust st r :
  usim' ust st ->
  (has_halted r st -> Ucontext.has_halted r ust)
  /\ (Ucontext.has_halted r ust -> has_halted r (next not_filled ntext st)).
Proof.
  intros H. destruct H; simpl; try tauto.
  split; [tauto |]. intros <-. unfold step. rewrite H. reflexivity.
Qed.

End USimulation.
(** ** From the start of the program *)

Section UStart.

Variable not_filled : ptr.

Variable bound : nat.

Variable functions : program.

Variable target : abi.

Variables pointer_bytes size_width : Z.

Variables (c : creator) (entry arg : ptr) (rest : prog).

Variable heap : Z -> Z -> option ptr.

Local Abbreviation native :=
  (fun n => run not_filled (text_of not_filled bound functions) n
              (start (main_with not_filled bound target c entry arg rest) heap)).

Local Abbreviation ucontext :=
  (fun n =>
     Ucontext.run not_filled (Ucontext.text_of not_filled bound functions) n
       (Ucontext.start
          (Ucontext.main_with not_filled pointer_bytes size_width bound c
             entry arg rest) heap)).

(** After the first step the ucontext backend has returned from getcontext,
    or the program has aborted on both. *)
Lemma ucontext_first_step :
  same_block target c heap ->
  visibly (Ucontext.trace (Ucontext.store_of (ucontext 1%nat))) = []
  /\ ~ Ucontext.has_exited (ucontext 1%nat)
  /\ forall r, Ucontext.has_halted r (ucontext 1%nat) ->
               has_halted r (native 1%nat).
Proof.
  intros Hb. destruct c as [block blocksize | free]; simpl in Hb.
  - unfold Ucontext.run, Ucontext.step, run, step. simpl.
    repeat split; tauto.
  - unfold Ucontext.run, Ucontext.step, run, step.
    destruct (heap Ucontext.STACK_ALIGNMENT 524288) as [block |] eqn:Eu;
      simpl; rewrite ?Hb, ?Eu; simpl; repeat split; tauto.
Qed.

(** When the child enters [springboard] the two backends are side by
    side. *)
Lemma usim_start :
  same_block target c heap ->
  usim not_filled bound (ucontext 2%nat) (native 1%nat).
Proof.
  intros Hb. destruct c as [block blocksize | free]; simpl in Hb.
  - unfold Ucontext.run, Ucontext.step, run, step. simpl.
    apply (usim_alive not_filled bound _ _ Child
             (springboard_entry not_filled)
             (Ucontext.springboard_entry not_filled)
             (denote not_filled bound rest)
             (Ucontext.denote not_filled bound rest) 1%nat [] [0%nat]);
      try reflexivity.
    + apply same_uentry.
    + apply same_udenote.
    + constructor.
    + repeat constructor.
    + simpl. lia.
    + constructor; reflexivity.
  - unfold Ucontext.run, Ucontext.step, run, step.
    destruct (heap Ucontext.STACK_ALIGNMENT 524288) as [block |] eqn:Eu;
      simpl; rewrite ?Hb, ?Eu; simpl.
    + apply (usim_alive not_filled bound _ _ Child
               (springboard_entry not_filled)
               (Ucontext.springboard_entry not_filled)
               (setting_hooks not_filled bound block free rest)
               (Ucontext.setting_hooks not_filled bound block free rest)
               1%nat [] [0%nat]);
        try reflexivity.
      * apply same_uentry.
      * apply same_uhooks.
      * constructor.
      * repeat constructor.
      * simpl. lia.
      * constructor; reflexivity.
    + apply usim_halted. reflexivity.
Qed.

Lemma usim_run (n : nat) :
  same_block target c heap ->
  usim not_filled bound (ucontext (S (S n))) (native (S n)).
Proof.
  intros Hb. induction n as [| n IH]; [now apply usim_start |].
  rewrite (ucontext_run_next not_filled _ (S (S n))).
  rewrite (native_run_next not_filled _ (S n)).
  apply usim_step, IH.
Qed.

End UStart.
Lemma exited_stays nf text (st : status) :
  has_exited st -> has_exited (next nf text st).
Proof. destruct st; simpl; tauto. Qed.

(** ** The ucontext backend cannot be told from the assembly backend *)

(** For every program of two parties that call [yield_to], [from],
    [coroutine_switch] and [close_and_join] on their channel, created by
    either constructor, [posix_memalign] answering both backends alike:
    the run on the ucontext backend, which is one step ahead because its
    getcontext returns, has at every step written the same values to the
    fields of the record, called the same functions with the same
    arguments, the release function included, and passed and returned the
    same values as the run on the assembly backend; one has exited when the
    other has, and one has stopped (undefined behaviour, abort, or the
    bound of a loop) when the other has, for the same reason.  In
    particular [inactive] never points to a [ucontext_t] that is out of
    scope when a context switch of a program that is defined on the
    assembly backend uses it. *)
Theorem ucontext_backend_indistinguishable
    (not_filled : ptr) (bound : nat) (functions : program) (target : abi)
    (pointer_bytes size_width : Z) (c : creator) (entry arg : ptr)
    (rest : prog) (heap : Z -> Z -> option ptr) :
  same_block target c heap ->
  let native := fun n =>
    run not_filled (text_of not_filled bound functions) n
      (start (main_with not_filled bound target c entry arg rest) heap) in
  let ucontext := fun n =>
    Ucontext.run not_filled (Ucontext.text_of not_filled bound functions) n
      (Ucontext.start
         (Ucontext.main_with not_filled pointer_bytes size_width bound c
            entry arg rest) heap) in
  forall n,
    visibly (trace (store_of (native n))) =
    visibly (Ucontext.trace (Ucontext.store_of (ucontext (S n))))
    /\ (has_exited (native n) -> Ucontext.has_exited (ucontext (S n)))
    /\ (Ucontext.has_exited (ucontext n) -> has_exited (native n))
    /\ (forall r, has_halted r (native n) ->
                  Ucontext.has_halted r (ucontext (S n)))
    /\ (forall r, Ucontext.has_halted r (ucontext n) ->
                  has_halted r (native n)).
Proof.
  intros Hb native ucontext n.
  destruct (ucontext_first_step not_filled bound functions target pointer_bytes
              size_width c entry arg rest heap Hb) as (F1 & F2 & F3).
  destruct n as [| n].
  - split; [symmetry; exact F1 |]. repeat split; simpl; tauto.
  - pose proof (usim_run not_filled bound functions target pointer_bytes
                  size_width c entry arg rest heap n Hb) as H.
    split; [apply (usim_trace _ _ _ _ H) |].
    split; [apply (usim_exit _ _ _ _ H) |].
    split; [| split].
    + destruct n as [| n]; [intros He; destruct (F2 He) |].
      pose proof (usim_run not_filled bound functions target pointer_bytes
                    size_width c entry arg rest heap n Hb) as H'.
      intros He. unfold native.
      rewrite (native_run_next not_filled _ (S n)).
      apply exited_stays, (usim_exit _ _ _ _ H'), He.
    + intros r. apply (usim_halt not_filled bound functions _ _ r H).
    + destruct n as [| n]; [exact F3 |].
      pose proof (usim_run not_filled bound functions target pointer_bytes
                    size_width c entry arg rest heap n Hb) as H'.
      intros r Hr. unfold native.
      rewrite (native_run_next not_filled _ (S n)).
      apply (usim_halt not_filled bound functions _ _ r H'), Hr.
Qed.

Lemma ucontext_backend_indistinguishable_witness :
  same_block x86_64 (Allocating 99) one_block
  /\ let native :=
       run 1 (text_of 1 5 test_functions) 40
         (start (main_with 1 5 x86_64 (Allocating 99) 7000 0 (Goto 7001 0))
            one_block) in
     let ucontext := fun n =>
       Ucontext.run 1 (Ucontext.text_of 1 5 test_functions) n
         (Ucontext.start
            (Ucontext.main_with 1 8 64 5 (Allocating 99) 7000 0 (Goto 7001 0))
            one_block) in
     visibly (trace (store_of native)) =
     visibly (Ucontext.trace (Ucontext.store_of (ucontext 41%nat)))
     /\ (has_exited native -> Ucontext.has_exited (ucontext 41%nat))
     /\ (Ucontext.has_exited (ucontext 40%nat) -> has_exited native)
     /\ (forall r, has_halted r native ->
                   Ucontext.has_halted r (ucontext 41%nat))
     /\ (forall r, Ucontext.has_halted r (ucontext 40%nat) ->
                   has_halted r native).
Proof.
  split; [reflexivity |].
  exact (ucontext_backend_indistinguishable 1 5 test_functions x86_64 8 64
           (Allocating 99) 7000 0 (Goto 7001 0) one_block eq_refl 40%nat).
Defined.

(** * The backend on semaphores: proofs *)

Lemma semaphores_exec_bind {A B : Type} (m : Semaphores.act A)
    (k : A -> Semaphores.act B) (s : Semaphores.store) :
  Semaphores.exec (Semaphores.bind m k) s =
  match Semaphores.exec m s with
  | Semaphores.Finished a s' => Semaphores.exec (k a) s'
  | Semaphores.AtWait i m' s' => Semaphores.AtWait i (Semaphores.bind m' k) s'
  | Semaphores.AtJoin m' s' => Semaphores.AtJoin (Semaphores.bind m' k) s'
  | Semaphores.AtCreate m' s' => Semaphores.AtCreate (Semaphores.bind m' k) s'
  | Semaphores.AtCall f arg m' s' =>
      Semaphores.AtCall f arg (Semaphores.bind m' k) s'
  | Semaphores.Stopped r s' => Semaphores.Stopped r s'
  end.
Proof.
  revert s. induction m as [a | X o h IH]; intros s; simpl.
  - reflexivity.
  - destruct (Semaphores.handle o s); auto.
Qed.

(** [context_switch] posts the semaphore of the peer and blocks on its
    own, which is zero. *)
Lemma semaphores_context_switch_exec (s : Semaphores.store) :
  Semaphores.in_child (Semaphores.chan s) = 0
  \/ Semaphores.in_child (Semaphores.chan s) = 1 ->
  Semaphores.sem s (Semaphores.in_child (Semaphores.chan s)) = 0 ->
  Semaphores.exec Semaphores.context_switch s =
  Semaphores.AtWait (Semaphores.in_child (Semaphores.chan s)) (Semaphores.Ret tt)
    (shanded_off s).
Proof.
  intros He Hs. unfold Semaphores.context_switch, shanded_off.
  destruct He as [E | E]; simpl; rewrite E in *; simpl; rewrite Hs; reflexivity.
Qed.

Lemma semaphores_cleanup_exec (s : Semaphores.store) :
  Semaphores.child_thread s = Semaphores.Returned ->
  Semaphores.exec Semaphores.channel_join_and_cleanup s =
  Semaphores.Finished tt s.
Proof.
  intros H. unfold Semaphores.channel_join_and_cleanup. simpl.
  rewrite H. reflexivity.
Qed.

Lemma semaphores_from_rest_exec (nf : ptr) (s : Semaphores.store) :
  (Semaphores.func (Semaphores.chan s) = NULL ->
   Semaphores.child_thread s = Semaphores.Returned) ->
  Semaphores.exec (Semaphores.from_rest nf) s =
  if Semaphores.func (Semaphores.chan s) =? NULL
  then Semaphores.Finished NULL s
  else Semaphores.Finished (Semaphores.value (Semaphores.chan s))
         (Semaphores.with_chan
            (Semaphores.set Semaphores.Value nf (Semaphores.chan s)) s).
Proof.
  intros H. unfold Semaphores.from_rest.
  cbn -[Semaphores.channel_join_and_cleanup].
  destruct (Semaphores.func (Semaphores.chan s) =? NULL) eqn:Hf.
  - apply Z.eqb_eq in Hf.
    rewrite semaphores_exec_bind, semaphores_cleanup_exec by auto.
    reflexivity.
  - reflexivity.
Qed.

Lemma semaphores_from_exec (nf : ptr) (s : Semaphores.store) :
  Semaphores.in_child (Semaphores.chan s) = 0
  \/ Semaphores.in_child (Semaphores.chan s) = 1 ->
  Semaphores.sem s (Semaphores.in_child (Semaphores.chan s)) = 0 ->
  Semaphores.exec (Semaphores.from nf) s =
  if negb (Semaphores.func (Semaphores.chan s) =? NULL)
     && (nf =? Semaphores.value (Semaphores.chan s))
  then Semaphores.AtWait (Semaphores.in_child (Semaphores.chan s))
         (Semaphores.from_rest nf) (shanded_off s)
  else Semaphores.exec (Semaphores.from_rest nf) s.
Proof.
  intros He Hs. unfold Semaphores.from.
  cbn -[Semaphores.from_rest Semaphores.context_switch].
  destruct (Semaphores.func (Semaphores.chan s) =? NULL);
    cbn -[Semaphores.from_rest Semaphores.context_switch].
  - reflexivity.
  - destruct (nf =? Semaphores.value (Semaphores.chan s)).
    + rewrite semaphores_exec_bind, semaphores_context_switch_exec by assumption.
      reflexivity.
    + reflexivity.
Qed.

Lemma semaphores_coroutine_switch_exec (s : Semaphores.store) :
  Semaphores.in_child (Semaphores.chan s) = 0
  \/ Semaphores.in_child (Semaphores.chan s) = 1 ->
  Semaphores.sem s (Semaphores.in_child (Semaphores.chan s)) = 0 ->
  Semaphores.exec Semaphores.coroutine_switch s =
  if Semaphores.func (Semaphores.chan s) =? NULL then Semaphores.Finished tt s
  else Semaphores.AtWait (Semaphores.in_child (Semaphores.chan s))
         (Semaphores.Ret tt) (shanded_off s).
Proof.
  intros He Hs. unfold Semaphores.coroutine_switch.
  cbn -[Semaphores.context_switch].
  destruct (Semaphores.func (Semaphores.chan s) =? NULL);
    [reflexivity | now apply semaphores_context_switch_exec].
Qed.

(** ** Stores that agree *)

(** The two backends log the same observable event. *)
Lemma sagree_record t e parked sn sp (ev : party -> event) :
  observable (ev t) = true ->
  sagree t e parked sn sp ->
  sagree t e parked (record (ev (turn sn)) sn)
    (Semaphores.record (ev (Semaphores.self sp)) sp).
Proof.
  intros He [[Hf Hv Ht Hturn Hfl Hd] Hs Hb Hs0 Hs1 Hp].
  constructor; [constructor |..]; simpl; trivial.
  rewrite !observe_app, Ht, Hturn, Hs. reflexivity.
Qed.

(** An event of the assembly backend that user code does not observe. *)
Lemma sagree_silent t e parked sn sp (ev : event) :
  observable ev = false ->
  sagree t e parked sn sp -> sagree t e parked (record ev sn) sp.
Proof.
  intros He [[Hf Hv Ht Hturn Hfl Hd] Hs Hb Hs0 Hs1 Hp].
  constructor; [constructor |..]; simpl; trivial.
  rewrite observe_app. simpl. rewrite He, app_nil_r. exact Ht.
Qed.

Lemma sagree_value t e parked sn sp (v : ptr) :
  sagree t e parked sn sp ->
  sagree t e parked (written Value v sn)
    (Semaphores.with_chan
       (Semaphores.set Semaphores.Value v (Semaphores.chan sp)) sp).
Proof.
  intros [[Hf Hv Ht Hturn Hfl Hd] Hs Hb Hs0 Hs1 Hp].
  constructor; [constructor |..]; simpl; trivial.
  rewrite observe_app. simpl. rewrite app_nil_r. exact Ht.
Qed.

Lemma sagree_hook t e parked sn sp (f : field) (v : ptr) :
  f = Free_after \/ f = Free_func ->
  sagree t e parked sn sp -> sagree t e parked (written f v sn) sp.
Proof.
  intros Hfield [[Hf Hv Ht Hturn Hfl Hd] Hs Hb Hs0 Hs1 Hp].
  destruct Hfield as [-> | ->]; (constructor; [constructor |..]); simpl; trivial;
    rewrite observe_app; simpl; rewrite app_nil_r; exact Ht.
Qed.

(** The release hook of the assembly backend is not observable. *)
Lemma sagree_released t e parked sn sp :
  sagree t e parked sn sp -> sagree t e parked (released sn) sp.
Proof.
  intros H. unfold released.
  destruct (free_func (chan sn) =? NULL); [exact H |].
  now apply sagree_silent.
Qed.

Lemma sagree_switch t e parked sn sp :
  sagree t e parked sn sp ->
  Semaphores.in_child (Semaphores.chan sp) = 0
  \/ Semaphores.in_child (Semaphores.chan sp) = 1.
Proof.
  intros H. rewrite (sl_flag _ _ _ _ (sa_linked _ _ _ _ _ H)).
  apply (sa_bit _ _ _ _ _ H).
Qed.

Lemma sagree_zero t e parked sn sp :
  sagree t e parked sn sp ->
  Semaphores.sem sp (Semaphores.in_child (Semaphores.chan sp)) = 0.
Proof.
  intros H. rewrite (sl_flag _ _ _ _ (sa_linked _ _ _ _ _ H)).
  destruct (sa_bit _ _ _ _ _ H) as [-> | ->];
    [apply (sa_sem0 _ _ _ _ _ H) | apply (sa_sem1 _ _ _ _ _ H)].
Qed.

Section SLockstep.

Variable not_filled : ptr.

Variable bound : nat.

Local Abbreviation ndenote := (denote not_filled bound).

Local Abbreviation sdenote := (Semaphores.denote not_filled bound).

Local Abbreviation matched := (smatched not_filled bound).

Lemma slockstep_from_rest t e parked (k : ptr -> prog) :
  (forall v sn sp, sagree t e parked sn sp ->
     matched t e parked
       (exec (ndenote (k v)) sn) (Semaphores.exec (sdenote (k v)) sp)) ->
  forall sn sp,
    sagree t e parked sn sp ->
    matched t e parked
      (exec (waiting_in_from not_filled
               (fun v => perform (SayGot v) ;; ndenote (k v))) sn)
      (Semaphores.exec
         (Semaphores.bind (Semaphores.from_rest not_filled)
            (fun v =>
               Semaphores.bind (Semaphores.perform (Semaphores.SayGot v))
                 (fun _ => sdenote (k v)))) sp).
Proof.
  intros IH sn sp H. unfold waiting_in_from.
  pose proof (sa_linked _ _ _ _ _ H) as L.
  rewrite exec_bind, from_rest_exec, semaphores_exec_bind,
    semaphores_from_rest_exec by apply (sl_done _ _ _ _ L).
  rewrite <- (sl_func _ _ _ _ L), <- (sl_value _ _ _ _ L).
  destruct (func (chan sn) =? NULL) eqn:Hf.
  - cbn -[denote Semaphores.denote]. apply IH.
    exact (sagree_record t e parked _ _ (fun who => Got who NULL) eq_refl
             (sagree_released _ _ _ _ _ H)).
  - cbn -[denote Semaphores.denote]. apply IH.
    exact (sagree_record t e parked _ _ (fun who => Got who (value (chan sn)))
             eq_refl (sagree_value _ _ _ _ _ not_filled H)).
Qed.

Lemma slockstep_close t e parked (k : prog) :
  (forall sn sp, sagree t e parked sn sp ->
     matched t e parked (exec (ndenote k) sn) (Semaphores.exec (sdenote k) sp)) ->
  forall n sn sp,
    sagree t e parked sn sp ->
    matched t e parked
      (exec (close_and_join n ;; ndenote k) sn)
      (Semaphores.exec
         (Semaphores.bind (Semaphores.close_and_join n) (fun _ => sdenote k)) sp).
Proof.
  intros IH n sn sp H.
  pose proof (sa_linked _ _ _ _ _ H) as L.
  assert (Hd := sl_done _ _ _ _ L).
  assert (Hfn := sl_func _ _ _ _ L).
  destruct n as [| n];
    cbn -[denote release yield_to Semaphores.denote
          Semaphores.channel_join_and_cleanup Semaphores.yield_to];
    rewrite <- Hfn; destruct (func (chan sn) =? NULL) eqn:Hf.
  - assert (Hret : Semaphores.child_thread sp = Semaphores.Returned)
      by (apply Hd; rewrite <- Hfn; now apply Z.eqb_eq).
    rewrite exec_bind, release_exec, semaphores_exec_bind,
      semaphores_cleanup_exec by exact Hret.
    apply IH. now apply sagree_released.
  - simpl. split; [reflexivity | exact H].
  - assert (Hret : Semaphores.child_thread sp = Semaphores.Returned)
      by (apply Hd; rewrite <- Hfn; now apply Z.eqb_eq).
    rewrite exec_bind, release_exec, semaphores_exec_bind,
      semaphores_cleanup_exec by exact Hret.
    apply IH. now apply sagree_released.
  - pose proof (sagree_value _ _ _ _ _ NULL H) as H1.
    unfold Semaphores.yield_to.
    cbn -[denote Semaphores.denote Semaphores.context_switch
          Semaphores.close_and_join close_and_join].
    rewrite !semaphores_exec_bind.
    rewrite semaphores_context_switch_exec
      by (first [exact (sagree_switch _ _ _ _ _ H1)
                | exact (sagree_zero _ _ _ _ _ H1)]).
    cbn -[denote Semaphores.denote Semaphores.close_and_join close_and_join].
    split; [apply same_sclose |].
    split; [apply (sl_flag _ _ _ _ L) |].
    eexists. split; [| reflexivity].
    apply sagree_silent; [reflexivity | exact H1].
Qed.

Lemma slockstep_denote t e parked (p : prog) :
  forall sn sp,
    sagree t e parked sn sp ->
    matched t e parked (exec (ndenote p) sn) (Semaphores.exec (sdenote p) sp).
Proof.
  induction p as [| v k IH | k IH | k IH | k IH | f arg]; intros sn sp H.
  - simpl. exact H.
  - pose proof (sagree_value t e parked _ _ v
             (sagree_record t e parked _ _ (fun who => Yielded who v) eq_refl H))
      as H1.
    change (sdenote (Yield_to v k))
      with (Semaphores.bind (Semaphores.perform (Semaphores.SayYielded v))
              (fun _ =>
                 Semaphores.bind (Semaphores.yield_to v) (fun _ => sdenote k))).
    unfold Semaphores.yield_to.
    cbn -[denote Semaphores.denote Semaphores.context_switch].
    rewrite !semaphores_exec_bind.
    rewrite semaphores_context_switch_exec
      by (first [exact (sagree_switch _ _ _ _ _ H1)
                | exact (sagree_zero _ _ _ _ _ H1)]).
    cbn -[denote Semaphores.denote].
    split; [apply same_sdenote |].
    split; [apply (sl_flag _ _ _ _ (sa_linked _ _ _ _ _ H)) |].
    eexists. split; [| reflexivity].
    apply sagree_silent; [reflexivity | exact H1].
  - change (ndenote (From k))
      with (v <- from not_filled ;; perform (SayGot v) ;; ndenote (k v)).
    change (sdenote (From k))
      with (Semaphores.bind (Semaphores.from not_filled)
              (fun v => Semaphores.bind (Semaphores.perform (Semaphores.SayGot v))
                          (fun _ => sdenote (k v)))).
    pose proof (sa_linked _ _ _ _ _ H) as L.
    rewrite exec_bind, from_exec, semaphores_exec_bind, semaphores_from_exec
      by (first [exact (sagree_switch _ _ _ _ _ H)
                | exact (sagree_zero _ _ _ _ _ H)]).
    rewrite <- (sl_func _ _ _ _ L), <- (sl_value _ _ _ _ L).
    destruct (negb (func (chan sn) =? NULL) && (not_filled =? value (chan sn))).
    + split; [apply same_sfrom | split; [apply (sl_flag _ _ _ _ L) |]].
      exists sp. split; [| reflexivity].
      apply sagree_silent; [reflexivity | exact H].
    + rewrite <- exec_bind, <- semaphores_exec_bind.
      apply (slockstep_from_rest t e parked k IH sn sp H).
  - change (ndenote (Coroutine_switch k))
      with (coroutine_switch ;; ndenote k).
    change (sdenote (Coroutine_switch k))
      with (Semaphores.bind Semaphores.coroutine_switch (fun _ => sdenote k)).
    pose proof (sa_linked _ _ _ _ _ H) as L.
    rewrite exec_bind, coroutine_switch_exec, semaphores_exec_bind,
      semaphores_coroutine_switch_exec
      by (first [exact (sagree_switch _ _ _ _ _ H)
                | exact (sagree_zero _ _ _ _ _ H)]).
    rewrite <- (sl_func _ _ _ _ L).
    destruct (func (chan sn) =? NULL).
    + apply IH, H.
    + split; [apply same_sdenote | split; [apply (sl_flag _ _ _ _ L) |]].
      exists sp. split; [| reflexivity].
      apply sagree_silent; [reflexivity | exact H].
  - apply (slockstep_close t e parked k IH bound sn sp H).
  - simpl. split; [reflexivity | split; [reflexivity |]].
    split; [reflexivity | split; [reflexivity |]].
    exact (sagree_record t e parked _ _ (fun who => Called who f arg) eq_refl H).
Qed.

(** From stores that agree, the code of the two backends runs to the same
    place, through the same observable events. *)
Lemma slockstep t e parked (un : act unit) (us : Semaphores.act unit) :
  same_scode not_filled bound un us ->
  forall sn sp,
    sagree t e parked sn sp ->
    matched t e parked (exec un sn) (Semaphores.exec us sp).
Proof.
  intros [p | k | n k | block free p] sn sp H.
  - now apply slockstep_denote.
  - apply slockstep_from_rest; trivial. intros v. apply slockstep_denote.
  - apply slockstep_close; trivial. apply slockstep_denote.
  - change (exec (setting_hooks not_filled bound block free p) sn)
      with (exec (ndenote p)
              (written Free_func free (written Free_after block sn))).
    apply slockstep_denote.
    apply sagree_hook; [now right |]. apply sagree_hook; [now left | exact H].
Qed.

End SLockstep.
(** ** The threads follow the two stacks *)

(** User code leaves the entry and the saved context as they are. *)
Lemma same_scode_keeps nf bound (un : act unit) (us : Semaphores.act unit)
    (sn : store) :
  same_scode nf bound un us ->
  func (chan (outcome_store (exec un sn))) = func (chan sn)
  /\ context_inactive (chan (outcome_store (exec un sn))) =
     context_inactive (chan sn).
Proof.
  assert (U : forall u s, user_code nf bound u ->
              func (chan (outcome_store (exec u s))) = func (chan s)
              /\ context_inactive (chan (outcome_store (exec u s))) =
                 context_inactive (chan s)).
  { intros u s Hu.
    pose proof (reach_frame _ _ _
                  (lands_reach _ _ _ _ (user_code_lands nf bound u s Hu))) as F.
    split; [apply (fr_func _ _ F) | apply (fr_context _ _ F)]. }
  intros [p | k | n k | block free p].
  - apply U, uc_denote.
  - apply U, uc_from.
  - apply U, uc_close.
  - change (exec (setting_hooks nf bound block free p) sn)
      with (exec (denote nf bound p)
              (written Free_func free (written Free_after block sn))).
    destruct (U _ (written Free_func free (written Free_after block sn))
                (uc_denote nf bound p)) as [-> ->].
    split; reflexivity.
Qed.

Lemma sflag_bit t : sflag t = 0 \/ sflag t = 1.
Proof. destruct t; [left | right]; reflexivity. Qed.

Lemma sflag_peer t : Semaphores.logical_not (sflag t) = sflag (peer t).
Proof. destruct t; reflexivity. Qed.

(** The thread of [t] is about to run user code: from what links the
    stores, with both semaphores zero. *)
Lemma sagree_intro t e sn sp sp' :
  slinked t e sn sp ->
  e = 0 \/ e = 1 ->
  Semaphores.chan sp' = Semaphores.chan sp ->
  Semaphores.trace sp' = Semaphores.trace sp ->
  Semaphores.child_thread sp' = Semaphores.child_thread sp
  \/ func (chan sn) <> NULL ->
  Semaphores.sem sp' 0 = 0 ->
  Semaphores.sem sp' 1 = 0 ->
  sagree t e (Semaphores.thread_of (peer t) sp') sn (Semaphores.with_self t sp').
Proof.
  intros [Hf Hv Ht Hturn Hfl Hd] Hb Hc Htr Hch H0 H1.
  constructor; [constructor |..]; simpl; rewrite ?Hc, ?Htr; trivial;
    try (destruct t; reflexivity).
  intros E. destruct Hch as [-> | Hn]; [now apply Hd |].
  exfalso. apply Hn. congruence.
Qed.

(** Moves of the threads that touch neither the record nor the trace. *)
Lemma slinked_move t e sn sp sp' :
  slinked t e sn sp ->
  Semaphores.chan sp' = Semaphores.chan sp ->
  Semaphores.trace sp' = Semaphores.trace sp ->
  Semaphores.child_thread sp' = Semaphores.child_thread sp
  \/ func (chan sn) <> NULL ->
  slinked t e sn sp'.
Proof.
  intros [Hf Hv Ht Hturn Hfl Hd] Hc Htr Hch.
  constructor; rewrite ?Hc, ?Htr; trivial.
  intros E. destruct Hch as [-> | Hn]; [now apply Hd |].
  exfalso. apply Hn. congruence.
Qed.

Section SSimulation.

Variable not_filled : ptr.

Variable bound : nat.

Variable functions : program.

Local Abbreviation ntext := (text_of not_filled bound functions).

Local Abbreviation stext := (Semaphores.text_of not_filled bound functions).

Local Abbreviation ssim' := (ssim not_filled bound).

(** The thread of [t] runs user code while the other waits. *)
Lemma alive_runs sp m t un us vn vs :
  running m = (un ;; tail t) ->
  same_scode not_filled bound un us ->
  context_inactive (chan (mem m)) = (vn ;; tail (peer t)) ->
  same_scode not_filled bound vn vs ->
  func (chan (mem m)) <> NULL ->
  sagree t (sflag t) (Semaphores.thread_of (peer t) sp) (mem m)
    (Semaphores.with_self t sp) ->
  Semaphores.thread_of (peer t) sp =
    Semaphores.Waiting (sflag (peer t))
      (Semaphores.bind vs (fun _ => stail (peer t)))
  \/ Semaphores.thread_of (peer t) sp =
     Semaphores.Ready
       (Semaphores.bind
          (Semaphores.perform (Semaphores.SemWait (sflag (peer t))))
          (fun _ => Semaphores.bind vs (fun _ => stail (peer t)))) ->
  ssim' (Semaphores.after not_filled stext t
           (Semaphores.exec (Semaphores.bind us (fun _ => stail t))
              (Semaphores.with_self t sp)))
        (step not_filled ntext m).
Proof.
  intros Hr Hu Hc Hv Hn Ha Hw. unfold step.
  rewrite Hr, exec_bind, semaphores_exec_bind.
  pose proof (slockstep not_filled bound t _ _ un us Hu _ _ Ha) as L.
  destruct (same_scode_keeps not_filled bound un us (mem m) Hu) as [Kf Kc].
  destruct (exec un (mem m)) as [[] sn | un' sn | un' sn | f arg kn sn | r sn];
    destruct (Semaphores.exec us (Semaphores.with_self t sp))
      as [[] sq | i us' sq | k' sq | k' sq | f' arg' ks sq | r' sq];
    simpl in L; try contradiction; simpl in Kf, Kc.
  - (* the user code of the thread returns *)
    destruct L as [[Hf Hv' Ht Hturn Hfl Hd] Hs Hb Hs0 Hs1 Hp].
    destruct t.
    + simpl. apply ssim_exited. exact Ht.
    + change (exec (tail Child) sn)
        with (AtSwap (never Unreachable : act unit)
                (record (Switched (turn sn)) (written Func NULL sn))).
      cbv iota.
      change (Semaphores.exec (stail Child) sq)
        with (Semaphores.Finished tt (sleft_by_child sq)).
      cbn [Semaphores.after].
      apply ssim_done with (vn := vn) (vp := vs).
      * simpl. rewrite Kc. exact Hc.
      * exact Hv.
      * reflexivity.
      * reflexivity.
      * constructor; simpl; trivial.
        -- rewrite !observe_app. simpl. rewrite !app_nil_r. exact Ht.
        -- now rewrite Hturn.
      * reflexivity.
      * simpl. exact Hs1.
      * right. simpl. rewrite Hs0. split; [| reflexivity].
        simpl in Hp, Hw. rewrite Hp. exact Hw.
  - (* context switch *)
    destruct L as (Hs' & -> & sp0 & Ha0 & ->).
    cbn [Semaphores.after]. rewrite Kc, Hc.
    assert (Hn' : func (chan sn) <> NULL) by congruence.
    destruct Ha0 as [[Hf Hv' Ht Hturn Hfl Hd] Hs Hb Hs0 Hs1 Hp].
    apply ssim_alive with (t := peer t) (un := vn) (up := vs) (vn := un')
                          (vp := us').
    + reflexivity.
    + exact Hv.
    + rewrite peer_peer. reflexivity.
    + exact Hs'.
    + exact Hn'.
    + unfold shanded_off. rewrite Hfl, sflag_peer.
      destruct t; constructor; simpl; trivial;
        try (now rewrite Hturn);
        intros E; exfalso; apply Hn'; congruence.
    + rewrite peer_peer. unfold shanded_off. rewrite Hfl, sflag_peer.
      split; [left; destruct t; reflexivity |].
      destruct t; simpl; assumption.
    + right. unfold shanded_off. rewrite Hfl, sflag_peer.
      split.
      * destruct t; simpl in *; rewrite Hp; exact Hw.
      * destruct t; simpl; [rewrite Hs1 | rewrite Hs0]; reflexivity.
  - (* call through a function pointer *)
    destruct L as (<- & <- & -> & -> & Ha0).
    cbn [Semaphores.after]. unfold text_of, Semaphores.text_of.
    destruct Ha0 as [[Hf Hv' Ht Hturn Hfl Hd] Hs Hb Hs0 Hs1 Hp].
    destruct (functions f) as [body |].
    + assert (Hn' : func (chan sn) <> NULL) by congruence.
      apply ssim_alive with (t := t) (vn := vn) (vp := vs)
        (un := denote not_filled bound (body arg))
        (up := Semaphores.denote not_filled bound (body arg)).
      * reflexivity.
      * apply same_sdenote.
      * simpl. congruence.
      * exact Hv.
      * exact Hn'.
      * destruct t; constructor; simpl; trivial;
          intros E; exfalso; apply Hn'; congruence.
      * split.
        -- destruct t; simpl in *; rewrite Hp; exact Hw.
        -- destruct t; simpl; assumption.
      * left. split; [destruct t; reflexivity |].
        destruct t; simpl; assumption.
    + apply ssim_halted. exact Ht.
  - (* the loop of close_and_join is out of fuel *)
    destruct L as [<- Ha0]. simpl. apply ssim_halted.
    apply (sl_trace _ _ _ _ (sa_linked _ _ _ _ _ Ha0)).
Qed.

(** The parent runs user code after the child has returned. *)
Lemma sdone_runs sp m vn vs :
  running m = (vn ;; Ret tt) ->
  same_scode not_filled bound vn vs ->
  context_inactive (chan (mem m)) = never Unreachable ->
  func (chan (mem m)) = NULL ->
  sagree Parent 1 Semaphores.Returned (mem m) (Semaphores.with_self Parent sp) ->
  ssim' (Semaphores.after not_filled stext Parent
           (Semaphores.exec (Semaphores.bind vs (fun _ => Semaphores.Ret tt))
              (Semaphores.with_self Parent sp)))
        (step not_filled ntext m).
Proof.
  intros Hr Hv Hc Hn Ha. unfold step.
  rewrite Hr, exec_bind, semaphores_exec_bind.
  pose proof (slockstep not_filled bound Parent _ _ vn vs Hv _ _ Ha) as L.
  destruct (same_scode_keeps not_filled bound vn vs (mem m) Hv) as [Kf Kc].
  destruct (exec vn (mem m)) as [[] sn | vn' sn | vn' sn | f arg kn sn | r sn];
    destruct (Semaphores.exec vs (Semaphores.with_self Parent sp))
      as [[] sq | i vs' sq | k' sq | k' sq | f' arg' ks sq | r' sq];
    simpl in L; try contradiction; simpl in Kf, Kc.
  - simpl. apply ssim_exited.
    apply (sl_trace _ _ _ _ (sa_linked _ _ _ _ _ L)).
  - (* a context switch to the child that has returned *)
    destruct L as (Hs' & -> & sp0 & Ha0 & ->).
    cbn [Semaphores.after]. rewrite Kc, Hc.
    destruct Ha0 as [[Hf Hv' Ht Hturn Hfl Hd] Hs Hb Hs0 Hs1 Hp].
    apply ssim_lost with (k := Semaphores.bind vs' (fun _ => Semaphores.Ret tt)).
    + reflexivity.
    + simpl. exact Ht.
    + unfold shanded_off. simpl. simpl in Hp. exact Hp.
    + reflexivity.
    + unfold shanded_off. rewrite Hfl. simpl. exact Hs1.
  - destruct L as (<- & <- & -> & -> & Ha0).
    cbn [Semaphores.after]. unfold text_of, Semaphores.text_of.
    destruct Ha0 as [[Hf Hv' Ht Hturn Hfl Hd] Hs Hb Hs0 Hs1 Hp].
    destruct (functions f) as [body |].
    + apply ssim_done with
        (vn := denote not_filled bound (body arg))
        (vp := Semaphores.denote not_filled bound (body arg)).
      * reflexivity.
      * apply same_sdenote.
      * simpl. congruence.
      * simpl. congruence.
      * constructor; simpl; trivial.
      * simpl. simpl in Hp. exact Hp.
      * simpl. exact Hs1.
      * left. split; [reflexivity | simpl; exact Hs0].
    + apply ssim_halted. exact Ht.
  - destruct L as [<- Ha0]. simpl. apply ssim_halted.
    apply (sl_trace _ _ _ _ (sa_linked _ _ _ _ _ Ha0)).
Qed.

(** No function has the address NULL. *)
Hypothesis no_code_at_null : functions NULL = None.

(** The child thread calls the entry function. *)
Lemma schild_enters sp m un us :
  running m = springboard not_filled ->
  turn (mem m) = Child ->
  context_inactive (chan (mem m)) = (un ;; Ret tt) ->
  same_scode not_filled bound un us ->
  func (chan (mem m)) = Semaphores.func (Semaphores.chan sp) ->
  value (chan (mem m)) = Semaphores.value (Semaphores.chan sp) ->
  observe (trace (mem m)) = observe (Semaphores.trace sp) ->
  Semaphores.in_child (Semaphores.chan sp) = 1 ->
  Semaphores.sem sp 1 = 0 ->
  swaits Parent sp (Semaphores.bind us (fun _ => Semaphores.Ret tt)) ->
  ssim' (Semaphores.after not_filled stext Child
           (Semaphores.exec (Semaphores.springboard not_filled)
              (Semaphores.with_self Child sp)))
        (step not_filled ntext m).
Proof.
  intros Hr Ht Hc Hu Hf Hv Ho Hi Hs1 Hw. unfold step. rewrite Hr.
  simpl. rewrite Ht.
  unfold text_of, Semaphores.text_of.
  rewrite <- Hf, <- Hv.
  destruct (functions (func (chan (mem m)))) as [body |] eqn:Hb.
  - assert (Hn : func (chan (mem m)) <> NULL)
      by (intros E; rewrite E, no_code_at_null in Hb; discriminate).
    apply ssim_alive with (t := Child) (vn := un) (vp := us)
      (un := denote not_filled bound (body (value (chan (mem m)))))
      (up := Semaphores.denote not_filled bound (body (value (chan (mem m))))).
    + reflexivity.
    + apply same_sdenote.
    + exact Hc.
    + exact Hu.
    + exact Hn.
    + constructor; simpl; trivial.
      * rewrite !observe_app, Ho. simpl. rewrite app_nil_r. reflexivity.
      * intros E. exfalso. apply Hn. congruence.
    + exact Hw.
    + left. split; [reflexivity | exact Hs1].
  - apply ssim_halted. simpl. rewrite !observe_app, Ho. simpl.
    rewrite app_nil_r. reflexivity.
Qed.

(** *** Every move of a thread is a step of the two stacks, or none *)

(** [sem_wait] on a positive semaphore takes one and goes on. *)
Lemma semaphores_wait_pass (t : party) (k : Semaphores.act unit)
    (s : Semaphores.store) :
  0 < Semaphores.sem s (sflag t) ->
  Semaphores.exec
    (Semaphores.Do (Semaphores.SemWait (sflag t)) (fun _ => k)) s =
  Semaphores.exec k
    (Semaphores.with_sem (sflag t) (Semaphores.sem s (sflag t) - 1) s).
Proof.
  intros H. apply Z.ltb_lt in H. destruct t; simpl in *; rewrite H; reflexivity.
Qed.

(** [sem_wait] on a semaphore that is zero blocks. *)
Lemma semaphores_wait_blocks (t : party) (k : Semaphores.act unit)
    (s : Semaphores.store) :
  Semaphores.sem s (sflag t) = 0 ->
  Semaphores.exec
    (Semaphores.Do (Semaphores.SemWait (sflag t)) (fun _ => k)) s =
  Semaphores.AtWait (sflag t) k s.
Proof.
  intros H. destruct t; simpl in *; rewrite H; reflexivity.
Qed.

Lemma sems_zero t sp :
  Semaphores.sem sp (sflag t) = 0 ->
  Semaphores.sem sp (sflag (peer t)) = 0 ->
  Semaphores.sem sp 0 = 0 /\ Semaphores.sem sp 1 = 0.
Proof. destruct t; simpl; auto. Qed.

Lemma salive_phase_step sp m t un us vn vs pst :
  running m = (un ;; tail t) ->
  same_scode not_filled bound un us ->
  context_inactive (chan (mem m)) = (vn ;; tail (peer t)) ->
  same_scode not_filled bound vn vs ->
  func (chan (mem m)) <> NULL ->
  slinked t (sflag t) (mem m) sp ->
  swaits (peer t) sp (Semaphores.bind vs (fun _ => stail (peer t))) ->
  sruns t sp (Semaphores.bind us (fun _ => stail t)) ->
  Semaphores.step not_filled stext sp pst ->
  ssim' pst (Continue m) \/ ssim' pst (step not_filled ntext m).
Proof.
  intros Hr Hu Hc Hv Hn Hl [Hw Hw0] Hx Hstep.
  destruct Hstep as [t0 k Ht0 | t0 i k Ht0 Hpos | t0 k Ht0 Hret].
  - (* a thread that is able to run *)
    assert (E : t0 = t \/ t0 = peer t) by (destruct t, t0; auto).
    destruct E as [-> | ->].
    + destruct Hx as [[Hx Hx0] | [[Hx | Hx] Hx1]]; rewrite Ht0 in Hx;
        [| discriminate |]; injection Hx as ->.
      * right. destruct (sems_zero t sp Hx0 Hw0) as [H0 H1].
        apply alive_runs with (un := un) (vn := vn) (vs := vs); trivial.
        apply (sagree_intro t (sflag t) _ sp sp Hl (sflag_bit t)); auto.
      * right. cbn [Semaphores.bind Semaphores.perform].
        rewrite semaphores_wait_pass by (simpl; lia).
        change (Semaphores.with_sem (sflag t)
                  (Semaphores.sem (Semaphores.with_self t sp) (sflag t) - 1)
                  (Semaphores.with_self t sp))
          with (Semaphores.with_self t
                  (Semaphores.with_sem (sflag t)
                     (Semaphores.sem sp (sflag t) - 1) sp)).
        apply alive_runs with (un := un) (vn := vn) (vs := vs); trivial.
        apply (sagree_intro t (sflag t) _ sp _ Hl (sflag_bit t));
          try reflexivity; [now left | |];
          destruct t; simpl in *; rewrite ?Hx1; trivial.
    + destruct Hw as [Hw | Hw]; rewrite Ht0 in Hw; [discriminate |].
      injection Hw as ->.
      left. cbn [Semaphores.bind Semaphores.perform].
      rewrite semaphores_wait_blocks by exact Hw0.
      cbn [Semaphores.after].
      apply ssim_alive with (t := t) (un := un) (up := us) (vn := vn) (vp := vs);
        trivial.
      * apply (slinked_move _ _ _ _ _ Hl);
          [destruct t; reflexivity | destruct t; reflexivity | right; exact Hn].
      * split; [left; destruct t; reflexivity | destruct t; exact Hw0].
      * destruct t; exact Hx.
  - (* a thread whose semaphore has been posted *)
    assert (E : t0 = t \/ t0 = peer t) by (destruct t, t0; auto).
    destruct E as [-> | ->].
    + destruct Hx as [[Hx Hx0] | [[Hx | Hx] Hx1]]; rewrite Ht0 in Hx;
        try discriminate.
      injection Hx as -> ->.
      left.
      apply ssim_alive with (t := t) (un := un) (up := us) (vn := vn) (vp := vs);
        trivial.
      * apply (slinked_move _ _ _ _ _ Hl);
          [destruct t; reflexivity | destruct t; reflexivity | right; exact Hn].
      * split; [destruct t; exact Hw | destruct t; exact Hw0].
      * left. split; [destruct t; reflexivity |].
        destruct t; simpl in *; rewrite Hx1; reflexivity.
    + destruct Hw as [Hw | Hw]; rewrite Ht0 in Hw; [| discriminate].
      injection Hw as -> ->. lia.
  - (* no thread is in pthread_join *)
    assert (E : t0 = t \/ t0 = peer t) by (destruct t, t0; auto).
    destruct E as [-> | ->].
    + destruct Hx as [[Hx Hx0] | [[Hx | Hx] Hx1]]; rewrite Ht0 in Hx;
        discriminate.
    + destruct Hw as [Hw | Hw]; rewrite Ht0 in Hw; discriminate.
Qed.

Lemma sdone_phase_step sp m vn vs pst :
  running m = (vn ;; Ret tt) ->
  same_scode not_filled bound vn vs ->
  context_inactive (chan (mem m)) = never Unreachable ->
  func (chan (mem m)) = NULL ->
  slinked Parent 1 (mem m) sp ->
  Semaphores.child_thread sp = Semaphores.Returned ->
  Semaphores.sem sp 1 = 0 ->
  sruns Parent sp (Semaphores.bind vs (fun _ => Semaphores.Ret tt)) ->
  Semaphores.step not_filled stext sp pst ->
  ssim' pst (Continue m) \/ ssim' pst (step not_filled ntext m).
Proof.
  intros Hr Hv Hc Hn Hl Hret Hs1 Hx Hstep.
  destruct Hstep as [t0 k Ht0 | t0 i k Ht0 Hpos | t0 k Ht0 Hret'];
    destruct t0; simpl in Ht0; try congruence.
  - destruct Hx as [[Hx Hx0] | [[Hx | Hx] Hx1]]; simpl in Hx; rewrite Ht0 in Hx;
      [| discriminate |]; injection Hx as ->.
    + right. apply sdone_runs with (vn := vn); trivial.
      rewrite <- Hret.
      apply (sagree_intro Parent 1 _ sp sp Hl); auto.
    + right. cbn [Semaphores.bind Semaphores.perform].
      rewrite (semaphores_wait_pass Parent) by (simpl in *; lia).
      change (Semaphores.with_sem (sflag Parent)
                (Semaphores.sem (Semaphores.with_self Parent sp) (sflag Parent) - 1)
                (Semaphores.with_self Parent sp))
        with (Semaphores.with_self Parent
                (Semaphores.with_sem 0 (Semaphores.sem sp 0 - 1) sp)).
      apply sdone_runs with (vn := vn); trivial.
      rewrite <- Hret.
      apply (sagree_intro Parent 1 _ sp
               (Semaphores.with_sem 0 (Semaphores.sem sp 0 - 1) sp) Hl);
        simpl; auto.
      simpl in Hx1. rewrite Hx1. reflexivity.
  - destruct Hx as [[Hx Hx0] | [[Hx | Hx] Hx1]]; simpl in Hx; rewrite Ht0 in Hx;
      try discriminate.
    injection Hx as -> ->.
    left. apply ssim_done with (vn := vn) (vp := vs); trivial.
    + apply (slinked_move _ _ _ _ _ Hl); [| | left]; reflexivity.
    + left. split; [reflexivity |]. simpl in *. rewrite Hx1. reflexivity.
  - destruct Hx as [[Hx Hx0] | [[Hx | Hx] Hx1]]; simpl in Hx; rewrite Ht0 in Hx;
      discriminate.
Qed.

(** When the parent waits for a child that has returned, no thread can
    move. *)
Lemma slost_phase_step sp k pst :
  Semaphores.child_thread sp = Semaphores.Returned ->
  Semaphores.parent_thread sp = Semaphores.Waiting 1 k ->
  Semaphores.sem sp 1 = 0 ->
  Semaphores.step not_filled stext sp pst ->
  False.
Proof.
  intros Hret Hp Hs1 Hstep.
  destruct Hstep as [t0 k0 Ht0 | t0 i k0 Ht0 Hpos | t0 k0 Ht0 Hret'];
    destruct t0; simpl in Ht0; try congruence.
  rewrite Hp in Ht0. injection Ht0 as <- <-. lia.
Qed.

Lemma screating_phase_step sp m un us pst :
  running m = springboard not_filled ->
  turn (mem m) = Child ->
  context_inactive (chan (mem m)) = (un ;; Ret tt) ->
  same_scode not_filled bound un us ->
  func (chan (mem m)) = Semaphores.func (Semaphores.chan sp) ->
  value (chan (mem m)) = Semaphores.value (Semaphores.chan sp) ->
  observe (trace (mem m)) = observe (Semaphores.trace sp) ->
  Semaphores.in_child (Semaphores.chan sp) = 1 ->
  Semaphores.child_thread sp = Semaphores.Ready (Semaphores.springboard not_filled) ->
  Semaphores.sem sp 1 = 0 ->
  swaits Parent sp (Semaphores.bind us (fun _ => Semaphores.Ret tt)) ->
  Semaphores.step not_filled stext sp pst ->
  ssim' pst (Continue m) \/ ssim' pst (step not_filled ntext m).
Proof.
  intros Hr Ht Hc Hu Hf Hv Ho Hi Hch Hs1 [Hw Hw0] Hstep.
  destruct Hstep as [t0 k Ht0 | t0 i k Ht0 Hpos | t0 k Ht0 Hret];
    destruct t0; simpl in Ht0; try congruence.
  - destruct Hw as [Hw | Hw]; simpl in Hw; rewrite Ht0 in Hw; [discriminate |].
    injection Hw as ->.
    left. cbn [Semaphores.bind Semaphores.perform].
    rewrite (semaphores_wait_blocks Parent) by exact Hw0.
    cbn [Semaphores.after].
    apply ssim_creating with (un := un) (up := us); trivial.
    split; [left; reflexivity | exact Hw0].
  - rewrite Hch in Ht0. injection Ht0 as <-.
    right. apply schild_enters with (un := un) (us := us); trivial.
    split; assumption.
  - destruct Hw as [Hw | Hw]; simpl in Hw; rewrite Ht0 in Hw; [| discriminate].
    injection Hw as -> ->. simpl in Hw0. lia.
Qed.

(** Whatever thread moves, the threads stand for the same state of the two
    stacks or for its successor. *)
Lemma ssim_step sp st pst :
  ssim' (Semaphores.Continue sp) st ->
  Semaphores.step not_filled stext sp pst ->
  ssim' pst st \/ ssim' pst (next not_filled ntext st).
Proof.
  intros H Hstep. inversion H; subst.
  - eapply screating_phase_step; eassumption.
  - eapply salive_phase_step; eassumption.
  - eapply sdone_phase_step; eassumption.
  - exfalso. eapply slost_phase_step; eassumption.
Qed.

(** *** The threads can always catch up with the two stacks *)

Lemma sreaches_one sp pst :
  Semaphores.step not_filled stext sp pst ->
  Semaphores.reaches not_filled stext (Semaphores.Continue sp) pst.
Proof.
  intros H.
  eapply Semaphores.reaches_step; [exact H | apply Semaphores.reaches_refl].
Qed.

Lemma sreaches_trans pst1 pst2 pst3 :
  Semaphores.reaches not_filled stext pst1 pst2 ->
  Semaphores.reaches not_filled stext pst2 pst3 ->
  Semaphores.reaches not_filled stext pst1 pst3.
Proof.
  intros H1 H2. induction H1 as [pst | sp pst pst' Hstep _ IH].
  - exact H2.
  - eapply Semaphores.reaches_step; [exact Hstep | now apply IH].
Qed.

Lemma scatch_up pst m :
  ssim' pst (Continue m) ->
  exists pst',
    Semaphores.reaches not_filled stext pst pst'
    /\ ssim' pst' (step not_filled ntext m).
Proof.
  intros H. inversion H as [sp m' un us Hr Ht Hc Hu Hf Hv Ho Hi Hch Hs1 Hw
                           | sp m' t un us vn vs Hr Hu Hc Hv Hn Hl Hw Hx
                           | sp m' vn vs Hr Hv Hc Hn Hl Hret Hs1 Hx
                           | sp st k Hs Ho Hret Hp Hs1 | | ]; subst.
  - eexists. split.
    + apply sreaches_one. apply (Semaphores.step_run _ _ _ Child _ Hch).
    + now apply schild_enters with (un := un) (us := us).
  - destruct Hw as [Hw Hw0].
    destruct Hx as [[Hx Hx0] | [[Hx | Hx] Hx1]].
    + eexists. split.
      * apply sreaches_one. apply (Semaphores.step_run _ _ _ t _ Hx).
      * destruct (sems_zero t sp Hx0 Hw0) as [H0 H1].
        apply alive_runs with (un := un) (vn := vn) (vs := vs); trivial.
        apply (sagree_intro t (sflag t) _ sp sp Hl (sflag_bit t)); auto.
    + eexists. split.
      * eapply Semaphores.reaches_step.
        -- apply (Semaphores.step_wake _ _ _ t _ _ Hx). lia.
        -- apply sreaches_one.
           apply (Semaphores.step_run _ _ _ t
                    (Semaphores.bind us (fun _ => stail t))).
           destruct t; reflexivity.
      * match goal with
        | |- ssim' (Semaphores.after _ _ _
                      (Semaphores.exec _ (Semaphores.with_self _ ?s))) _ =>
            apply alive_runs with (sp := s) (un := un) (vn := vn) (vs := vs);
              trivial
        end.
        -- match goal with
           | |- sagree _ _ _ _ (Semaphores.with_self _ ?s) =>
               apply (sagree_intro t (sflag t) _ sp s Hl (sflag_bit t))
           end;
             try (destruct t; reflexivity); [right; exact Hn | |];
             destruct t; simpl in *; rewrite ?Hx1; trivial.
        -- destruct t; exact Hw.
    + eexists. split.
      * apply sreaches_one. apply (Semaphores.step_run _ _ _ t _ Hx).
      * cbn [Semaphores.bind Semaphores.perform].
        rewrite semaphores_wait_pass by (simpl; lia).
        change (Semaphores.with_sem (sflag t)
                  (Semaphores.sem (Semaphores.with_self t sp) (sflag t) - 1)
                  (Semaphores.with_self t sp))
          with (Semaphores.with_self t
                  (Semaphores.with_sem (sflag t)
                     (Semaphores.sem sp (sflag t) - 1) sp)).
        apply alive_runs with (un := un) (vn := vn) (vs := vs); trivial.
        apply (sagree_intro t (sflag t) _ sp _ Hl (sflag_bit t));
          try reflexivity; [now left | |];
          destruct t; simpl in *; rewrite ?Hx1; trivial.
  - destruct Hx as [[Hx Hx0] | [[Hx | Hx] Hx1]]; simpl in Hx.
    + eexists. split.
      * apply sreaches_one. apply (Semaphores.step_run _ _ _ Parent _ Hx).
      * apply sdone_runs with (vn := vn); trivial.
        rewrite <- Hret.
        apply (sagree_intro Parent 1 _ sp sp Hl); auto.
    + eexists. split.
      * eapply Semaphores.reaches_step.
        -- apply (Semaphores.step_wake _ _ _ Parent _ _ Hx). simpl in Hx1. lia.
        -- apply sreaches_one.
           apply (Semaphores.step_run _ _ _ Parent
                    (Semaphores.bind vs (fun _ => Semaphores.Ret tt))).
           reflexivity.
      * match goal with
        | |- ssim' (Semaphores.after _ _ _
                      (Semaphores.exec _ (Semaphores.with_self _ ?s))) _ =>
            apply sdone_runs with (sp := s) (vn := vn); trivial
        end.
        rewrite <- Hret.
        match goal with
        | |- sagree _ _ _ _ (Semaphores.with_self _ ?s) =>
            apply (sagree_intro Parent 1 _ sp s Hl)
        end; simpl; auto.
        simpl in Hx1. rewrite Hx1. reflexivity.
    + eexists. split.
      * apply sreaches_one. apply (Semaphores.step_run _ _ _ Parent _ Hx).
      * cbn [Semaphores.bind Semaphores.perform].
        rewrite (semaphores_wait_pass Parent) by (simpl in *; lia).
        change (Semaphores.with_sem (sflag Parent)
                  (Semaphores.sem (Semaphores.with_self Parent sp) (sflag Parent) - 1)
                  (Semaphores.with_self Parent sp))
          with (Semaphores.with_self Parent
                  (Semaphores.with_sem 0 (Semaphores.sem sp 0 - 1) sp)).
        apply sdone_runs with (vn := vn); trivial.
        rewrite <- Hret.
        apply (sagree_intro Parent 1 _ sp
                 (Semaphores.with_sem 0 (Semaphores.sem sp 0 - 1) sp) Hl);
          simpl; auto.
        simpl in Hx1. rewrite Hx1. reflexivity.
  - exists (Semaphores.Continue sp). split; [apply Semaphores.reaches_refl |].
    simpl in Hs. apply ssim_lost with (k := k); trivial.
    + unfold step. rewrite Hs. reflexivity.
    + unfold step. rewrite Hs. simpl. exact Ho.
Qed.

(** What a state of the threads says, the state of the two stacks says. *)
Lemma ssim_observe pst st :
  ssim' pst st ->
  observe (trace (store_of st)) =
  observe (Semaphores.trace (Semaphores.store_of pst)).
Proof.
  intros H. inversion H; subst; simpl; trivial;
    match goal with
    | Hl : slinked _ _ _ _ |- _ => apply (sl_trace _ _ _ _ Hl)
    end.
Qed.

Lemma ssim_exit pst st :
  ssim' pst st -> (Semaphores.has_exited pst <-> has_exited st).
Proof.
  intros H. inversion H; subst; simpl; try tauto.
  destruct st as [m | s | r s]; simpl in *; tauto.
Qed.

(** Every schedule of the threads follows the run of the two stacks. *)
Lemma ssim_reaches (m0 : machine) pst pst' :
  Semaphores.reaches not_filled stext pst pst' ->
  forall n, ssim' pst (run not_filled ntext n m0) ->
  exists n', ssim' pst' (run not_filled ntext n' m0).
Proof.
  induction 1 as [pst | sp pst pst' Hstep _ IH]; intros n Hsim.
  - now exists n.
  - destruct (ssim_step _ _ _ Hsim Hstep) as [H | H].
    + now apply (IH n).
    + apply (IH (S n)). now rewrite native_run_next.
Qed.

(** Some schedule of the threads gets as far as the two stacks. *)
Lemma ssim_follows (m0 : machine) pst0 :
  forall n n0,
    ssim' pst0 (run not_filled ntext n0 m0) ->
    exists pst,
      Semaphores.reaches not_filled stext pst0 pst
      /\ ssim' pst (run not_filled ntext (n + n0) m0).
Proof.
  induction n as [| n IH]; intros n0 H0.
  - exists pst0. split; [apply Semaphores.reaches_refl | exact H0].
  - destruct (IH n0 H0) as (pst & Hreach & Hsim).
    change (S n + n0)%nat with (S (n + n0)). rewrite native_run_next.
    destruct (run not_filled ntext (n + n0) m0) as [m | s | r s] eqn:E.
    + destruct (scatch_up pst m Hsim) as (pst' & Hreach' & Hsim').
      exists pst'. split; [| exact Hsim'].
      exact (sreaches_trans _ _ _ Hreach Hreach').
    + exists pst. split; assumption.
    + exists pst. split; assumption.
Qed.

(** The first move: the main thread runs [coroutine_create] up to
    [pthread_create]. *)
Lemma sstart_step target c entry arg rest heap pst :
  can_create target c heap ->
  Semaphores.step not_filled stext
    (Semaphores.start (Semaphores.main_with not_filled bound c entry arg rest))
    pst ->
  ssim' pst
    (step not_filled ntext
       (start (main_with not_filled bound target c entry arg rest) heap)).
Proof.
  intros Hcan Hstep.
  destruct Hstep as [t k Hk | t i k Hk Hpos | t k Hk Hret];
    destruct t; simpl in Hk; try discriminate.
  injection Hk as <-.
  destruct c as [block blocksize | free].
  - apply ssim_creating with (un := denote not_filled bound rest)
      (up := Semaphores.denote not_filled bound rest); try reflexivity.
    + apply same_sdenote.
    + split; [right; reflexivity | reflexivity].
  - simpl in Hcan. unfold step, start, main_with, main_allocating, coroutine_create.
    simpl.
    destruct (heap (STACK_ALIGNMENT target) 524288) as [block |];
      [| contradiction].
    apply ssim_creating with (un := setting_hooks not_filled bound block free rest)
      (up := Semaphores.denote not_filled bound rest); try reflexivity.
    + apply same_shooks.
    + split; [right; reflexivity | reflexivity].
Qed.

End SSimulation.
Section SReachable.

Variable not_filled : ptr.

Variable bound : nat.

Variable functions : program.

Variable target : abi.

Variables (c : creator) (entry arg : ptr) (rest : prog).

Variable heap : Z -> Z -> option ptr.

Hypothesis no_code_at_null : functions NULL = None.

Hypothesis gets_memory : can_create target c heap.

Local Abbreviation native :=
  (fun n => run not_filled (text_of not_filled bound functions) n
              (start (main_with not_filled bound target c entry arg rest) heap)).

Local Abbreviation threads :=
  (Semaphores.Continue
     (Semaphores.start (Semaphores.main_with not_filled bound c entry arg rest))).

Local Abbreviation reaches :=
  (Semaphores.reaches not_filled (Semaphores.text_of not_filled bound functions)).

Lemma ssim_first pst :
  Semaphores.step not_filled (Semaphores.text_of not_filled bound functions)
    (Semaphores.start (Semaphores.main_with not_filled bound c entry arg rest))
    pst ->
  ssim not_filled bound pst (native 1%nat).
Proof.
  intros Hstep.
  pose proof (sstart_step not_filled bound functions target c entry arg rest
                heap pst gets_memory Hstep) as H.
  cbv beta. now rewrite native_run_next.
Qed.

(** Every state a schedule reaches, the first apart, stands for a state of
    the run of the two stacks. *)
Lemma ssim_reachable pst :
  reaches threads pst ->
  pst = threads \/ exists n, ssim not_filled bound pst (native n).
Proof.
  intros Hreach. inversion Hreach as [st | sp st st' Hstep Hrest]; subst.
  - now left.
  - right.
    exact (ssim_reaches not_filled bound functions no_code_at_null _ _ _ Hrest
             1%nat (ssim_first _ Hstep)).
Qed.

(** From a state that stands for a state of the two stacks, some schedule
    gets as far as any later state of the two stacks. *)
Lemma ssim_later pst n k :
  ssim not_filled bound pst (native n) ->
  exists pst',
    reaches pst pst' /\ ssim not_filled bound pst' (native (n + k)%nat).
Proof.
  intros H.
  destruct (ssim_follows not_filled bound functions no_code_at_null _ pst k n H)
    as (pst' & Hreach & Hsim).
  exists pst'. split; [exact Hreach |].
  now rewrite Nat.add_comm.
Qed.

End SReachable.

(** ** The semaphore backend cannot be told from the assembly backend *)

(** ** One thread at a time *)

(** In every state that a schedule of the threads reaches, if both threads
    are able to run then one of them has handed control over and is about
    to block in [sem_wait], in [context_switch] or in [coroutine_create]:
    the code of the two parties never runs at the same time. *)
Theorem one_party_runs_at_a_time_on_semaphores
    (not_filled : ptr) (bound : nat) (functions : program) (target : abi)
    (c : creator) (entry arg : ptr) (rest : prog)
    (heap : Z -> Z -> option ptr) (sp : Semaphores.store)
    (kp kc : Semaphores.act unit) :
  functions NULL = None ->
  can_create target c heap ->
  Semaphores.reaches not_filled (Semaphores.text_of not_filled bound functions)
    (Semaphores.Continue
       (Semaphores.start (Semaphores.main_with not_filled bound c entry arg rest)))
    (Semaphores.Continue sp) ->
  Semaphores.parent_thread sp = Semaphores.Ready kp ->
  Semaphores.child_thread sp = Semaphores.Ready kc ->
  (exists k,
      kp = Semaphores.bind (Semaphores.perform (Semaphores.SemWait 0))
             (fun _ => k))
  \/ (exists k,
         kc = Semaphores.bind (Semaphores.perform (Semaphores.SemWait 1))
                (fun _ => k)).
Proof.
  intros Hnull Hcan Hreach Hp Hc.
  destruct (ssim_reachable not_filled bound functions target c entry arg rest
              heap Hnull Hcan _ Hreach) as [E | [n Hsim]].
  - injection E as ->. discriminate.
  - inversion Hsim as [sp0 m un us Hr Ht Hcx Hu Hf Hv Ho Hi Hch Hs1 Hw
                      | sp0 m t un us vn vs Hr Hu Hcx Hv Hn Hl Hw Hx
                      | sp0 m vn vs Hr Hv Hcx Hn Hl Hret Hs1 Hx
                      | sp0 st k Hs Ho Hret Hpw Hs1 | | ]; subst.
    + destruct Hw as [[Hw | Hw] _]; simpl in Hw; rewrite Hp in Hw;
        [discriminate |].
      injection Hw as ->. left. eexists. reflexivity.
    + destruct Hw as [[Hw | Hw] _]; destruct t; simpl in Hw;
        rewrite ?Hp, ?Hc in Hw; try discriminate; injection Hw as ->.
      * right. eexists. reflexivity.
      * left. eexists. reflexivity.
    + rewrite Hret in Hc. discriminate.
    + rewrite Hret in Hc. discriminate.
Qed.

Lemma one_party_runs_at_a_time_on_semaphores_witness :
  let main :=
    Semaphores.main_with 999 5 (Given_memory 4096 8192) 7000 42 (Goto 7001 0) in
  let sp :=
    Semaphores.store_of
      (Semaphores.after 999 (Semaphores.text_of 999 5 test_functions) Parent
         (Semaphores.exec (Semaphores.bind main (fun _ => Semaphores.Ret tt))
            (Semaphores.with_self Parent (Semaphores.start main)))) in
  Semaphores.child_thread sp = Semaphores.Ready (Semaphores.springboard 999)
  /\ ((exists k,
          Semaphores.bind (Semaphores.perform (Semaphores.SemWait 0))
            (fun _ =>
               Semaphores.bind (Semaphores.denote 999 5 (Goto 7001 0))
                 (fun _ => Semaphores.Ret tt)) =
          Semaphores.bind (Semaphores.perform (Semaphores.SemWait 0))
            (fun _ => k))
      \/ (exists k,
             Semaphores.springboard 999 =
             Semaphores.bind (Semaphores.perform (Semaphores.SemWait 1))
               (fun _ => k))).
Proof.
  intros main sp.
  assert (Hreach :
            Semaphores.reaches 999 (Semaphores.text_of 999 5 test_functions)
              (Semaphores.Continue (Semaphores.start main))
              (Semaphores.Continue sp)).
  { eapply Semaphores.reaches_step; [| apply Semaphores.reaches_refl].
    apply (Semaphores.step_run 999 (Semaphores.text_of 999 5 test_functions)
             (Semaphores.start main) Parent
             (Semaphores.bind main (fun _ => Semaphores.Ret tt))).
    reflexivity. }
  split; [reflexivity |].
  exact (one_party_runs_at_a_time_on_semaphores 999 5 test_functions x86_64
           (Given_memory 4096 8192) 7000 42 (Goto 7001 0) no_heap sp _ _
           eq_refl I Hreach eq_refl eq_refl).
Defined.

(** ** [yield_to] after the thread of the child has returned *)

(** In a state that a schedule reaches in which the thread of the child
    has returned and the parent is about to call [yield_to]: the only move
    is the parent's; it stores the value, flips [in_child], posts [sem[0]]
    and blocks in [sem_wait] on [sem[1]], which nobody will post: from
    there no thread can move, the code after the call is never run and the
    process never exits. *)
Theorem yield_to_after_the_child_thread_returned_on_semaphores
    (not_filled : ptr) (bound : nat) (functions : program) (target : abi)
    (c : creator) (entry arg : ptr) (rest : prog)
    (heap : Z -> Z -> option ptr) (sp : Semaphores.store)
    (v : ptr) (p : prog) :
  functions NULL = None ->
  can_create target c heap ->
  let text := Semaphores.text_of not_filled bound functions in
  Semaphores.reaches not_filled text
    (Semaphores.Continue
       (Semaphores.start (Semaphores.main_with not_filled bound c entry arg rest)))
    (Semaphores.Continue sp) ->
  Semaphores.child_thread sp = Semaphores.Returned ->
  Semaphores.parent_thread sp =
    Semaphores.Ready
      (Semaphores.bind (Semaphores.denote not_filled bound (Yield_to v p))
         (fun _ => Semaphores.Ret tt)) ->
  forall st,
    Semaphores.step not_filled text sp st ->
    exists sp',
      st = Semaphores.Continue sp'
      /\ Semaphores.parent_thread sp' =
         Semaphores.Waiting 1
           (Semaphores.bind (Semaphores.denote not_filled bound p)
              (fun _ => Semaphores.Ret tt))
      /\ Semaphores.child_thread sp' = Semaphores.Returned
      /\ Semaphores.value (Semaphores.chan sp') = v
      /\ Semaphores.in_child (Semaphores.chan sp') = 0
      /\ Semaphores.sem sp' 0 = 1
      /\ Semaphores.sem sp' 1 = 0
      /\ forall st', ~ Semaphores.step not_filled text sp' st'.
Proof.
  intros Hnull Hcan text Hreach Hc Hp st Hstep.
  assert (Hinv : Semaphores.in_child (Semaphores.chan sp) = 1
                 /\ Semaphores.sem sp 0 = 0 /\ Semaphores.sem sp 1 = 0).
  { destruct (ssim_reachable not_filled bound functions target c entry arg rest
                heap Hnull Hcan _ Hreach) as [E | [n Hsim]].
    - injection E as ->. discriminate.
    - inversion Hsim as [sp0 m un us Hr Ht Hcx Hu Hf Hv Ho Hi Hch Hs1 Hw
                        | sp0 m t un us vn vs Hr Hu Hcx Hv Hn Hl Hw Hx
                        | sp0 m vn vs Hr Hv Hcx Hn Hl Hret Hs1 Hx
                        | sp0 st0 k Hs Ho Hret Hpw Hs1 | | ]; subst.
      + rewrite Hc in Hch. discriminate.
      + exfalso.
        destruct Hw as [[Hw | Hw] _]; destruct Hx as [[Hx _] | [[Hx | Hx] _]];
          destruct t; simpl in Hw, Hx;
          try rewrite Hc in Hw; try rewrite Hc in Hx;
          first [discriminate Hw | discriminate Hx].
      + split; [apply (sl_flag _ _ _ _ Hl) |].
        destruct Hx as [[Hx Hx0] | [[Hx | Hx] _]]; simpl in Hx;
          rewrite Hp in Hx; try discriminate.
        split; [exact Hx0 | exact Hs1].
      + rewrite Hp in Hpw. discriminate. }
  destruct Hinv as (Hi & H0 & H1).
  destruct Hstep as [t k Hk | t i k Hk Hpos | t k Hk Hret];
    destruct t; simpl in Hk; rewrite ?Hc, ?Hp in Hk; try discriminate.
  injection Hk as <-.
  simpl. rewrite Hi. simpl. rewrite H1.
  change (Semaphores.logical_not 1) with 0.
  change (0 <? 0) with false. cbv iota. cbn [Semaphores.after].
  eexists. split; [reflexivity |].
  split; [reflexivity |]. split; [exact Hc |].
  split; [reflexivity |]. split; [reflexivity |].
  assert (E0 : forall s, Semaphores.sem
                 (Semaphores.with_sem 0 (Semaphores.sem sp 0 + 1) s) 0 = 1)
    by (intros s; simpl; change (0 =? 0) with true; cbv iota; rewrite H0;
        reflexivity).
  assert (E1 : forall w s, Semaphores.sem s 1 = 0 ->
                 Semaphores.sem (Semaphores.with_sem 0 w s) 1 = 0)
    by (intros w s Hs; simpl; change (1 =? 0) with false; cbv iota; exact Hs).
  split; [apply E0 |]. split; [apply E1; exact H1 |].
  intros st' Hstep'.
  eapply (slost_phase_step not_filled bound functions); [| | | exact Hstep'].
  - exact Hc.
  - reflexivity.
  - apply E1. exact H1.
Qed.
Lemma yield_to_after_the_child_thread_returned_on_semaphores_witness :
  let text := Semaphores.text_of 999 5 test_functions in
  let main :=
    Semaphores.main_with 999 5 (Given_memory 4096 8192) 7003 42 (Goto 7000 0) in
  let moved := fun t k s =>
    Semaphores.store_of
      (Semaphores.after 999 text t
         (Semaphores.exec k (Semaphores.with_self t s))) in
  let s1 :=
    moved Parent (Semaphores.bind main (fun _ => Semaphores.Ret tt))
      (Semaphores.start main) in
  let s2 := moved Child (Semaphores.springboard 999) s1 in
  let s3 :=
    moved Child
      (Semaphores.bind (Semaphores.denote 999 5 Return)
         (fun _ => Semaphores.springboard_exit)) s2 in
  let s4 :=
    moved Parent
      (Semaphores.bind (Semaphores.perform (Semaphores.SemWait 0))
         (fun _ =>
            Semaphores.bind (Semaphores.denote 999 5 (Goto 7000 0))
              (fun _ => Semaphores.Ret tt))) s3 in
  exists sp',
    Semaphores.after 999 text Parent
      (Semaphores.exec
         (Semaphores.bind (Semaphores.denote 999 5 (generator_silent 0))
            (fun _ => Semaphores.Ret tt))
         (Semaphores.with_self Parent s4)) = Semaphores.Continue sp'
    /\ Semaphores.child_thread sp' = Semaphores.Returned
    /\ Semaphores.value (Semaphores.chan sp') = 100
    /\ Semaphores.sem sp' 1 = 0.
Proof.
  intros text main moved s1 s2 s3 s4.
  assert (Hreach :
            Semaphores.reaches 999 text
              (Semaphores.Continue (Semaphores.start main))
              (Semaphores.Continue s4)).
  { apply Semaphores.reaches_step with (st := Semaphores.Continue s1).
    { exact (Semaphores.step_run 999 text (Semaphores.start main) Parent
               (Semaphores.bind main (fun _ => Semaphores.Ret tt)) eq_refl). }
    apply Semaphores.reaches_step with (st := Semaphores.Continue s2).
    { exact (Semaphores.step_run 999 text s1 Child
               (Semaphores.springboard 999) eq_refl). }
    apply Semaphores.reaches_step with (st := Semaphores.Continue s3).
    { exact (Semaphores.step_run 999 text s2 Child
               (Semaphores.bind (Semaphores.denote 999 5 Return)
                  (fun _ => Semaphores.springboard_exit)) eq_refl). }
    apply Semaphores.reaches_step with (st := Semaphores.Continue s4).
    { exact (Semaphores.step_run 999 text s3 Parent
               (Semaphores.bind (Semaphores.perform (Semaphores.SemWait 0))
                  (fun _ =>
                     Semaphores.bind (Semaphores.denote 999 5 (Goto 7000 0))
                       (fun _ => Semaphores.Ret tt))) eq_refl). }
    apply Semaphores.reaches_refl. }
  destruct (yield_to_after_the_child_thread_returned_on_semaphores 999 5
              test_functions x86_64 (Given_memory 4096 8192) 7003 42
              (Goto 7000 0) no_heap s4 100
              (Yield_to 101 (Yield_to 102 (Yield_to 103 Return)))
              eq_refl I Hreach eq_refl eq_refl _
              (Semaphores.step_run 999 text s4 Parent
                 (Semaphores.bind (Semaphores.denote 999 5 (generator_silent 0))
                    (fun _ => Semaphores.Ret tt)) eq_refl))
    as (sp' & E & _ & Hc & Hv & _ & _ & H1 & _).
  exists sp'. repeat split; assumption.
Defined.

(** * decouple_handlers_from_program_stack: proofs *)

Lemma cortexm_stack_pointer_aligned (v : Z) :
  CortexM.aligned_word v -> CortexM.stack_pointer v = v.
Proof.
  intros [Hr Hm]. unfold CortexM.stack_pointer, CortexM.wrap.
  rewrite Z.mod_small by exact Hr.
  change 3 with (2 ^ 2 - 1). rewrite land_lnot_pow2 by lia.
  change (2 ^ 2) with 4.
  pose proof (Z.div_mod v 4 ltac:(lia)) as E. lia.
Qed.

Lemma cortexm_wrap_small (v : Z) : 0 <= v < 2 ^ 32 -> CortexM.wrap v = v.
Proof. intros H. unfold CortexM.wrap. now apply Z.mod_small. Qed.

(** The values of CONTROL in privileged thread mode on the main stack, and
    what the block makes of them. *)
Lemma cortexm_control_cases (c : Z) :
  0 <= c < 8 -> Z.testbit c 0 = false -> Z.testbit c 1 = false ->
  c = 0 \/ c = 4.
Proof.
  intros Hr H0 H1.
  assert (E : c = 0 \/ c = 1 \/ c = 2 \/ c = 3 \/ c = 4 \/ c = 5 \/ c = 6 \/ c = 7)
    by lia.
  destruct E as [-> | [-> | [-> | [-> | [-> | [-> | [-> | ->]]]]]]];
    try discriminate; auto.
Qed.

(** *** One instruction in privileged thread mode *)

Section CortexMSteps.

Variables (r : nat -> Z) (m p c pm : Z).

Hypothesis privileged_thread : Z.testbit c 0 = false.

Lemma cortexm_cpsid :
  CortexM.exec_instr (CortexM.mkState r m p c pm false) CortexM.cpsid_i =
  CortexM.mkState r m p c 1 false.
Proof.
  unfold CortexM.exec_instr, CortexM.set_primask, CortexM.privileged.
  cbn [CortexM.handler CortexM.control orb]. now rewrite privileged_thread.
Qed.

Lemma cortexm_cpsie :
  CortexM.exec_instr (CortexM.mkState r m p c pm false) CortexM.cpsie_i =
  CortexM.mkState r m p c 0 false.
Proof.
  unfold CortexM.exec_instr, CortexM.set_primask, CortexM.privileged.
  cbn [CortexM.handler CortexM.control orb]. now rewrite privileged_thread.
Qed.

Lemma cortexm_mrs_msp (rd : nat) :
  CortexM.exec_instr (CortexM.mkState r m p c pm false) (CortexM.mrs rd CortexM.MSP) =
  CortexM.mkState (fun x => if Nat.eqb x rd then CortexM.wrap m else r x)
    m p c pm false.
Proof.
  unfold CortexM.exec_instr, CortexM.set_reg, CortexM.read, CortexM.privileged.
  cbn [CortexM.handler CortexM.control orb]. now rewrite privileged_thread.
Qed.

Lemma cortexm_mrs_control (rd : nat) :
  CortexM.exec_instr (CortexM.mkState r m p c pm false)
    (CortexM.mrs rd CortexM.CONTROL) =
  CortexM.mkState (fun x => if Nat.eqb x rd then CortexM.wrap c else r x)
    m p c pm false.
Proof. reflexivity. Qed.

Lemma cortexm_msr_psp (rn : nat) :
  CortexM.exec_instr (CortexM.mkState r m p c pm false) (CortexM.msr CortexM.PSP rn) =
  CortexM.mkState r m (CortexM.stack_pointer (r rn)) c pm false.
Proof.
  unfold CortexM.exec_instr, CortexM.write, CortexM.privileged.
  cbn [CortexM.handler CortexM.control orb]. now rewrite privileged_thread.
Qed.

Lemma cortexm_msr_msp (rn : nat) :
  CortexM.exec_instr (CortexM.mkState r m p c pm false) (CortexM.msr CortexM.MSP rn) =
  CortexM.mkState r (CortexM.stack_pointer (r rn)) p c pm false.
Proof.
  unfold CortexM.exec_instr, CortexM.write, CortexM.privileged.
  cbn [CortexM.handler CortexM.control orb]. now rewrite privileged_thread.
Qed.

Lemma cortexm_msr_control (rn : nat) :
  CortexM.exec_instr (CortexM.mkState r m p c pm false)
    (CortexM.msr CortexM.CONTROL rn) =
  CortexM.mkState r m p (Z.land (r rn) 7) pm false.
Proof.
  unfold CortexM.exec_instr, CortexM.write, CortexM.privileged.
  cbn [CortexM.handler CortexM.control orb]. now rewrite privileged_thread.
Qed.

Lemma cortexm_mov_imm (h : bool) (rd : nat) (imm : Z) :
  CortexM.exec_instr (CortexM.mkState r m p c pm h) (CortexM.mov_imm rd imm) =
  CortexM.mkState (fun x => if Nat.eqb x rd then CortexM.wrap imm else r x)
    m p c pm h.
Proof. reflexivity. Qed.

Lemma cortexm_orr (h : bool) (rd rm : nat) :
  CortexM.exec_instr (CortexM.mkState r m p c pm h) (CortexM.orr rd rm) =
  CortexM.mkState
    (fun x => if Nat.eqb x rd then CortexM.wrap (Z.lor (r rd) (r rm)) else r x)
    m p c pm h.
Proof. reflexivity. Qed.

End CortexMSteps.

(** The block, run in privileged thread mode. *)
Lemma cortexm_decouple_run (top : nat) (r : nat -> Z) (m p c pm : Z) :
  Z.testbit c 0 = false ->
  Z.testbit (Z.land (CortexM.wrap (Z.lor (CortexM.wrap c) (CortexM.wrap 2))) 7) 0
  = false ->
  top <> 0%nat -> top <> 1%nat ->
  let s := CortexM.mkState r m p c pm false in
  let s' := CortexM.run (CortexM.decouple_handlers_from_program_stack top) s in
  CortexM.msp s' = CortexM.stack_pointer (r top)
  /\ CortexM.psp s' = CortexM.stack_pointer (CortexM.wrap m)
  /\ CortexM.control s' =
     Z.land (CortexM.wrap (Z.lor (CortexM.wrap c) (CortexM.wrap 2))) 7
  /\ CortexM.primask s' = 0
  /\ CortexM.handler s' = false
  /\ (forall x, x <> 0%nat -> x <> 1%nat -> CortexM.regs s' x = r x)
  /\ Forall (fun st => CortexM.primask st = 1) (CortexM.inside top s).
Proof.
  intros H0 H0' Hn0 Hn1 s s'.
  assert (E0 : Nat.eqb top 0 = false) by now apply Nat.eqb_neq.
  assert (E1 : Nat.eqb top 1 = false) by now apply Nat.eqb_neq.
  unfold s', s, CortexM.inside, CortexM.decouple_handlers_from_program_stack,
    CortexM.run.
  cbn [fold_left firstn map seq].
  rewrite cortexm_cpsid by exact H0.
  rewrite cortexm_mrs_msp by exact H0.
  rewrite cortexm_msr_psp by exact H0.
  rewrite cortexm_mrs_control by exact H0.
  rewrite cortexm_mov_imm, cortexm_orr.
  cbn [Nat.eqb].
  rewrite cortexm_msr_control by exact H0.
  cbn [Nat.eqb].
  change (CortexM.exec_instr ?s CortexM.isb) with s.
  rewrite cortexm_msr_msp by exact H0'.
  rewrite cortexm_cpsie by exact H0'.
  cbn [CortexM.regs CortexM.msp CortexM.psp CortexM.control CortexM.primask
       CortexM.handler].
  rewrite E0, E1.
  repeat split.
  - intros x Hx0 Hx1. apply Nat.eqb_neq in Hx0, Hx1. now rewrite Hx0, Hx1.
  - repeat constructor.
Qed.

(** The first call moves the thread to the process stack pointer, at the
    place where it is, and gives the handlers the top of their own stack,
    with interrupts disabled in between; a second call puts the stack
    pointer of the thread itself at the top of the stack of the handlers. *)
Theorem decouple_handlers_only_once (top : nat) (s : CortexM.state) :
  CortexM.handler s = false ->
  Z.testbit (CortexM.control s) 0 = false ->
  Z.testbit (CortexM.control s) 1 = false ->
  0 <= CortexM.control s < 8 ->
  CortexM.aligned_word (CortexM.msp s) ->
  CortexM.aligned_word (CortexM.regs s top) ->
  top <> 0%nat -> top <> 1%nat ->
  let block := CortexM.decouple_handlers_from_program_stack top in
  let s1 := CortexM.run block s in
  let s2 := CortexM.run block s1 in
  (CortexM.sp s1 = CortexM.sp s
   /\ CortexM.psp s1 = CortexM.msp s
   /\ CortexM.msp s1 = CortexM.regs s top
   /\ CortexM.control s1 = Z.lor (CortexM.control s) 2
   /\ CortexM.primask s1 = 0
   /\ (forall r, r <> 0%nat -> r <> 1%nat -> CortexM.regs s1 r = CortexM.regs s r)
   /\ Forall (fun st => CortexM.primask st = 1) (CortexM.inside top s))
  /\ (CortexM.sp s2 = CortexM.regs s top
      /\ CortexM.msp s2 = CortexM.regs s top
      /\ CortexM.control s2 = CortexM.control s1).
Proof.
  intros Hh H0 H1 Hc Hm Ht Hn0 Hn1.
  pose proof (cortexm_stack_pointer_aligned _ Hm) as Am.
  pose proof (cortexm_stack_pointer_aligned _ Ht) as At.
  pose proof (cortexm_wrap_small _ (proj1 Hm)) as Wm.
  destruct s as [regs msp psp control primask handler].
  cbn [CortexM.regs CortexM.msp CortexM.psp CortexM.control CortexM.primask
       CortexM.handler] in Hh, H0, H1, Hc, Hm, Ht, Am, At, Wm.
  subst handler. intros block s1 s2.
  assert (Hl : Z.land (CortexM.wrap (Z.lor (CortexM.wrap control) (CortexM.wrap 2))) 7
               = Z.lor control 2
               /\ Z.testbit (Z.lor control 2) 0 = false
               /\ Z.testbit (Z.lor control 2) 1 = true
               /\ Z.land (CortexM.wrap
                            (Z.lor (CortexM.wrap (Z.lor control 2)) (CortexM.wrap 2))) 7
                  = Z.lor control 2).
  { destruct (cortexm_control_cases control Hc H0 H1) as [-> | ->];
      repeat split; vm_compute; reflexivity. }
  destruct Hl as (L1 & L2 & L3 & L4).
  destruct (cortexm_decouple_run top regs msp psp control primask H0
              ltac:(rewrite L1; exact L2) Hn0 Hn1)
    as (A1 & A2 & A3 & A4 & A5 & A6 & A7).
  fold block in A1, A2, A3, A4, A5, A6.
  change (CortexM.run block (CortexM.mkState regs msp psp control primask false))
    with s1 in A1, A2, A3, A4, A5, A6.
  rewrite L1 in A3. rewrite Wm, Am in A2. rewrite At in A1.
  assert (B : s1 = CortexM.mkState (CortexM.regs s1) (CortexM.msp s1)
                     (CortexM.psp s1) (CortexM.control s1) (CortexM.primask s1)
                     false)
    by (destruct s1; simpl in A5; subst; reflexivity).
  assert (Hs2 : s2 = CortexM.run block
                       (CortexM.mkState (CortexM.regs s1) (CortexM.msp s1)
                          (CortexM.psp s1) (CortexM.control s1)
                          (CortexM.primask s1) false))
    by exact (f_equal (CortexM.run block) B).
  destruct (cortexm_decouple_run top (CortexM.regs s1) (CortexM.msp s1)
              (CortexM.psp s1) (CortexM.control s1) (CortexM.primask s1)
              ltac:(rewrite A3; exact L2)
              ltac:(rewrite A3, L4; exact L2) Hn0 Hn1)
    as (B1 & B2 & B3 & B4 & B5 & B6 & _).
  fold block in B1, B2, B3, B4, B5, B6.
  rewrite <- Hs2 in B1, B2, B3, B4, B5, B6.
  rewrite A3, L4 in B3. rewrite A1 in B2.
  rewrite (A6 top Hn0 Hn1) in B1. simpl in B1. rewrite At in B1.
  rewrite (cortexm_wrap_small _ (proj1 Ht)), At in B2.
  split.
  - unfold CortexM.sp. rewrite A5, A3, L3.
    cbn [CortexM.handler CortexM.control CortexM.msp CortexM.psp CortexM.regs].
    rewrite H1.
    repeat split; trivial.
  - unfold CortexM.sp. rewrite B5, B3, L3, A3.
    repeat split; trivial.
Qed.

Lemma decouple_handlers_only_once_witness :
  let s :=
    CortexM.mkState (fun x => if Nat.eqb x 2 then 536879104 else 0)
      536903672 0 4 0 false in
  let block := CortexM.decouple_handlers_from_program_stack 2 in
  let s1 := CortexM.run block s in
  let s2 := CortexM.run block s1 in
  (CortexM.sp s1 = 536903672
   /\ CortexM.psp s1 = 536903672
   /\ CortexM.msp s1 = 536879104
   /\ CortexM.control s1 = 6)
  /\ CortexM.sp s2 = 536879104.
Proof.
  intros s block s1 s2.
  assert (Hm : CortexM.aligned_word (CortexM.msp s))
    by (split; [split; [discriminate | reflexivity] | reflexivity]).
  assert (Ht : CortexM.aligned_word (CortexM.regs s 2))
    by (split; [split; [discriminate | reflexivity] | reflexivity]).
  assert (Hc : 0 <= CortexM.control s < 8)
    by (split; [discriminate | reflexivity]).
  destruct (decouple_handlers_only_once 2 s eq_refl eq_refl eq_refl Hc Hm Ht
              ltac:(discriminate) ltac:(discriminate))
    as [(A1 & A2 & A3 & A4 & _) (B1 & _)].
  repeat split; assumption.
Defined.
